(** * Workflow runner: a shallow embedding of the DAG execution engine

    The development follows the runner module of the engine function by
    function: [topoSort], [resolveRef], [resolveInput], [substituteQuery],
    [jqEval], [jqSingle], [jqHandler] and [executeWorkflow].
    Around the runner it follows the two plugins that reach outside
    ([httpGetHandler], [xml2jsonHandler]), the catalog of workflows and the
    registry of actions, the [POST] route that runs a workflow of the
    catalog, and the [topoOrder] by which the graph is drawn.

    Modelling boundary.
    - JavaScript strings are [string]s of 8-bit code units.
    - Numbers are the integers ([Z]); the engine only counts, compares and
      subtracts clock readings, so no fractional arithmetic is involved.
    - A JavaScript object used as a map is a list of (key, value) pairs,
      its own properties, kept in the order [Object.entries] enumerates
      them: canonical array index keys first, in ascending order, then the
      other keys in insertion order.
    - Objects inherit.  What [{}], an object literal or [JSON.parse] makes
      has the prototype [Object.prototype], an array [Array.prototype]: a
      read ([o[k]], [k in o], [??=]) finds the inherited members after the
      own properties, and an assignment to [__proto__] goes to the accessor
      of [Object.prototype].  The prototype objects, the functions they
      hold and the objects whose prototype was replaced are values of their
      own.  Three things are left out: the own members of functions and
      those of [Function.prototype]; the calls of inherited functions other
      than as an action handler, so a property [toString] or [toJSON] that
      holds a function is not called when its object is printed; and, in
      the conversion of an object to a string, properties that hide [join],
      [length] or an index from an array further up its chain.
    - The asynchronous handlers, the clock and the timer are the
      environment: handlers are state transformers over an abstract world,
      clock readings come from an oracle, and every handler invocation and
      every sleep is recorded in an effect trace.
    - The platform behind the plugins is the environment as well: the URL
      record, [fetch] and the XML parser are oracles, and a response is
      what the handler reads of it. *)

From Stdlib Require Import List String Ascii ZArith NArith Arith Lia Bool.
From Stdlib Require Import Permutation DecimalString Decimal Relations.
From Stdlib Require DecimalPos DecimalFacts.
Import ListNotations.
Local Open Scope string_scope.
Local Open Scope list_scope.
Local Open Scope Z_scope.

Set Implicit Arguments.
#[local] Set Warnings "-register-all".

Infix "+++" := String.append (right associativity, at level 60).

(** ** String primitives of the host language *)

Module Str.

(** [s.split(c)] for a one-character separator. *)
Fixpoint split (c : ascii) (s : string) : list string :=
  match s with
  | EmptyString => [EmptyString]
  | String a rest =>
      if Ascii.eqb a c then EmptyString :: split c rest
      else match split c rest with
           | [] => [String a EmptyString]
           | h :: t => String a h :: t
           end
  end.

(** [s.includes(c)] for a one-character needle. *)
Fixpoint includes (c : ascii) (s : string) : bool :=
  match s with
  | EmptyString => false
  | String a rest => Ascii.eqb a c || includes c rest
  end.

(** [s.endsWith(c)] for a one-character suffix. *)
Fixpoint endsWith (c : ascii) (s : string) : bool :=
  match s with
  | EmptyString => false
  | String a EmptyString => Ascii.eqb a c
  | String _ rest => endsWith c rest
  end.

(** [s.startsWith(c)] for a one-character prefix. *)
Definition startsWith (c : ascii) (s : string) : bool :=
  match s with
  | EmptyString => false
  | String a _ => Ascii.eqb a c
  end.

(** [s.slice(1)]. *)
Definition tail (s : string) : string :=
  match s with
  | EmptyString => EmptyString
  | String _ rest => rest
  end.

(** [s.indexOf(c)] cut in two: [Some (s.slice(0, i), s.slice(i))] when the
    character occurs first at position [i], [None] when [indexOf] is -1. *)
Fixpoint breakAt (c : ascii) (s : string) : option (string * string) :=
  match s with
  | EmptyString => None
  | String a rest =>
      if Ascii.eqb a c then Some (EmptyString, s)
      else match breakAt c rest with
           | Some (h, t) => Some (String a h, t)
           | None => None
           end
  end.

(** [s.replace(c, empty)]: the first occurrence of the character is removed. *)
Fixpoint removeFirst (c : ascii) (s : string) : string :=
  match s with
  | EmptyString => EmptyString
  | String a rest =>
      if Ascii.eqb a c then rest else String a (removeFirst c rest)
  end.

Definition isDigit (a : ascii) : bool :=
  let n := nat_of_ascii a in (48 <=? n)%nat && (n <=? 57)%nat.

Definition digitVal (a : ascii) : Z := Z.of_nat (nat_of_ascii a) - 48.

(** White space recognised by [trim] and [parseInt] among 8-bit units. *)
Definition isSpace (a : ascii) : bool :=
  let n := nat_of_ascii a in
  ((9 <=? n)%nat && (n <=? 13)%nat) || (n =? 32)%nat || (n =? 160)%nat.

Fixpoint trimStart (s : string) : string :=
  match s with
  | EmptyString => EmptyString
  | String a rest => if isSpace a then trimStart rest else s
  end.

Fixpoint trimEnd (s : string) : string :=
  match s with
  | EmptyString => EmptyString
  | String a rest =>
      match trimEnd rest with
      | EmptyString => if isSpace a then EmptyString else String a EmptyString
      | r => String a r
      end
  end.

(** [s.trim()]. *)
Definition trim (s : string) : string := trimEnd (trimStart s).

(** The longest run of decimal digits at the head of [s], read in base ten,
    with the rest of the string; [None] when [s] does not start with a
    digit. *)
Fixpoint digitsFrom (acc : Z) (seen : bool) (s : string) : option (Z * string) :=
  match s with
  | String a rest =>
      if isDigit a then digitsFrom (10 * acc + digitVal a) true rest
      else if seen then Some (acc, s) else None
  | EmptyString => if seen then Some (acc, s) else None
  end.

(** [parseInt(s, 10)]; [None] stands for NaN. *)
Definition parseInt (s : string) : option Z :=
  let s := trimStart s in
  match s with
  | String "-" rest =>
      match digitsFrom 0 false rest with
      | Some (n, _) => Some (- n)
      | None => None
      end
  | String "+" rest =>
      match digitsFrom 0 false rest with
      | Some (n, _) => Some n
      | None => None
      end
  | _ =>
      match digitsFrom 0 false s with
      | Some (n, _) => Some n
      | None => None
      end
  end.

(** [xs.join(sep)]. *)
Fixpoint join (sep : string) (xs : list string) : string :=
  match xs with
  | [] => EmptyString
  | [x] => x
  | x :: rest => x +++ sep +++ join sep rest
  end.

(** [String(n)] for an integer. *)
Definition ofZ (n : Z) : string := NilZero.string_of_int (Z.to_int n).

(** [s.startsWith(p)] for a string prefix, returning the remainder. *)
Fixpoint stripPrefix (p s : string) : option string :=
  match p, s with
  | EmptyString, _ => Some s
  | String a p', String b s' =>
      if Ascii.eqb a b then stripPrefix p' s' else None
  | String _ _, EmptyString => None
  end.

End Str.

(** ** Objects as ordered property lists *)

Module Obj.

Section WithValue.
Variable A : Type.

Definition t := list (string * A).

(** A canonical array index: ["0"], or digits without a leading zero, with
    a value below 2^32 - 1.  Such keys are enumerated first, ascending. *)
Definition arrayIndex (k : string) : option Z :=
  match k with
  | EmptyString => None
  | String a rest =>
      if negb (forallb Str.isDigit (list_ascii_of_string k)) then None
      else if Ascii.eqb a "0" && negb (String.eqb rest EmptyString) then None
      else match Str.digitsFrom 0 false k with
           | Some (n, _) => if n <? 4294967295 then Some n else None
           | None => None
           end
  end.

(** [o[k]] on an own property; [None] is [undefined]. *)
Fixpoint get (k : string) (o : t) : option A :=
  match o with
  | [] => None
  | (k', v) :: rest => if String.eqb k k' then Some v else get k rest
  end.

(** [k in o], own properties only. *)
Definition has (k : string) (o : t) : bool :=
  match get k o with Some _ => true | None => false end.

Fixpoint update (k : string) (v : A) (o : t) : t :=
  match o with
  | [] => []
  | (k', v') :: rest =>
      if String.eqb k k' then (k', v) :: rest else (k', v') :: update k v rest
  end.

(** A new index key goes before the first key that is not an index or that
    is a larger index. *)
Fixpoint insertIndex (i : Z) (k : string) (v : A) (o : t) : t :=
  match o with
  | [] => [(k, v)]
  | (k', v') :: rest =>
      match arrayIndex k' with
      | Some j => if j <? i then (k', v') :: insertIndex i k v rest
                  else (k, v) :: o
      | None => (k, v) :: o
      end
  end.

(** [o[k] = v]. *)
Definition set (k : string) (v : A) (o : t) : t :=
  if has k o then update k v o
  else match arrayIndex k with
       | Some i => insertIndex i k v o
       | None => o ++ [(k, v)]
       end.

(** [Object.keys(o)] and [Object.entries(o)]: the list is kept in
    enumeration order by [set]. *)
Definition keys (o : t) : list string := map fst o.
Definition entries (o : t) : list (string * A) := o.

(** [Object.fromEntries(kvs)]. *)
Definition fromEntries (kvs : list (string * A)) : t :=
  fold_left (fun o kv => set (fst kv) (snd kv) o) kvs [].

End WithValue.

End Obj.

Arguments Obj.get {A} k o.
Arguments Obj.has {A} k o.
Arguments Obj.set {A} k v o.
Arguments Obj.update {A} k v o.
Arguments Obj.insertIndex {A} i k v o.
Arguments Obj.keys {A} o.
Arguments Obj.entries {A} o.
Arguments Obj.fromEntries {A} kvs.

(** ** Values *)

(** The two prototypes that data inherits from. *)
Inductive prototype : Type :=
| OfObject
| OfArray.

(** The values the engine handles.  Data is [undefined], [null], booleans,
    numbers, strings, arrays and objects: [VObj fields] is an object with
    the own properties [fields] and the prototype [Object.prototype], as an
    object literal, [JSON.parse] and the platform make them; an array has
    the prototype [Array.prototype].  Three more values are reached through
    prototypes: [VProto c] is the prototype object itself, [VMethod c name]
    the function that the prototype holds under [name], and
    [VOver proto fields] an object made by [{}] whose prototype an
    assignment to [__proto__] has replaced by [proto]. *)
Inductive value : Type :=
| VUndefined
| VNull
| VBool (b : bool)
| VNum (n : Z)
| VStr (s : string)
| VArr (items : list value)
| VObj (fields : list (string * value))
| VProto (c : prototype)
| VMethod (c : prototype) (name : string)
| VOver (proto : value) (fields : list (string * value)).

(** ** Core types of the engine *)

Record RetryPolicy := {
  maxAttempts : Z;
  backoffMs : Z
}.

Record WorkflowNode := {
  id : string;
  actionRef : string;
  schemaVersion : string;
  input : value;
  dependsOn : option (list string);
  timeoutMs : option Z;
  retry : option RetryPolicy
}.

(** [n.dependsOn ?? []]. *)
Definition deps (n : WorkflowNode) : list string :=
  match dependsOn n with Some ds => ds | None => [] end.

(** A node as the object it is, its properties in the order of the type
    declaration; an optional property that is absent has no entry. *)
Definition nodeObject (n : WorkflowNode) : value :=
  VObj ([("id", VStr (id n)); ("actionRef", VStr (actionRef n));
         ("schemaVersion", VStr (schemaVersion n)); ("input", input n)]
        ++ match dependsOn n with
           | Some ds => [("dependsOn", VArr (map VStr ds))]
           | None => []
           end
        ++ match timeoutMs n with
           | Some t => [("timeoutMs", VNum t)]
           | None => []
           end
        ++ match retry n with
           | Some p => [("retry", VObj [("maxAttempts", VNum (maxAttempts p));
                                        ("backoffMs", VNum (backoffMs p))])]
           | None => []
           end).

(** [xs.includes(x)] on an array of strings. *)
Definition includes (x : string) (xs : list string) : bool :=
  existsb (String.eqb x) xs.

(** ** Prototypes *)

(** The names every object inherits from [Object.prototype]. *)
Definition objectPrototype : list string :=
  ["constructor"; "__defineGetter__"; "__defineSetter__"; "hasOwnProperty";
   "__lookupGetter__"; "__lookupSetter__"; "isPrototypeOf";
   "propertyIsEnumerable"; "toString"; "valueOf"; "__proto__";
   "toLocaleString"].

(** The names an array inherits from [Array.prototype] (ECMAScript 2023);
    its [length] is a property of the array itself. *)
Definition arrayPrototype : list string :=
  ["constructor"; "at"; "concat"; "copyWithin"; "fill"; "find"; "findIndex";
   "findLast"; "findLastIndex"; "lastIndexOf"; "pop"; "push"; "reverse";
   "shift"; "unshift"; "slice"; "sort"; "splice"; "includes"; "indexOf";
   "join"; "keys"; "entries"; "values"; "forEach"; "filter"; "flat";
   "flatMap"; "map"; "every"; "some"; "reduce"; "reduceRight";
   "toReversed"; "toSorted"; "toSpliced"; "with"; "toLocaleString";
   "toString"].

(** [k] names a member of [Object.prototype]: on an object made by [{}],
    [o[k]] is not [undefined] and [k in o] holds without any assignment. *)
Definition inherited (k : string) : bool := includes k objectPrototype.

(** ** Topological sort *)

Module Topo.

(** The table [indeg] is made by [{}], so under a name of
    [Object.prototype] a read finds the inherited member, which is not
    nullish: [??=] assigns nothing, [+ 1] makes a string of it and [--]
    makes NaN (for [__proto__] the assignment itself is dropped by the
    setter).  Neither [=== 0] nor [> 0] selects such a value and no
    arithmetic turns it into a number again, so the model keeps the numbers
    of the table only: an inherited name never has an entry. *)

(** [indeg[k] ??= 0]. *)
Definition ensure (k : string) (indeg : Obj.t Z) : Obj.t Z :=
  if inherited k then indeg
  else match Obj.get k indeg with
       | Some _ => indeg
       | None => Obj.set k 0 indeg
       end.

(** [indeg[k] = (indeg[k] ?? 0) + 1]. *)
Definition bump (k : string) (indeg : Obj.t Z) : Obj.t Z :=
  if inherited k then indeg
  else match Obj.get k indeg with
       | Some d => Obj.set k (d + 1) indeg
       | None => Obj.set k 1 indeg
       end.

(** First loop: every node id gets an entry. *)
Definition initIds (nodes : list WorkflowNode) (indeg : Obj.t Z) : Obj.t Z :=
  fold_left (fun m n => ensure (id n) m) nodes indeg.

(** Second loop, inner part: the entries of one [dependsOn] list. *)
Definition countDeps (n : WorkflowNode) (indeg : Obj.t Z) : Obj.t Z :=
  fold_left (fun m dep => ensure dep (bump (id n) m)) (deps n) indeg.

(** Second loop. *)
Definition countAll (nodes : list WorkflowNode) (indeg : Obj.t Z) : Obj.t Z :=
  fold_left (fun m n => countDeps n m) nodes indeg.

Definition indegrees (nodes : list WorkflowNode) : Obj.t Z :=
  countAll nodes (initIds nodes []).

(** The keys whose value satisfies [p], in enumeration order. *)
Definition select (p : Z -> bool) (indeg : Obj.t Z) : list string :=
  map fst (filter (fun kv => p (snd kv)) (Obj.entries indeg)).

(** The [for (const n of nodes)] loop inside the [while]: every node that
    lists [cur] loses one unit of in-degree and is queued on reaching 0.
    The entry of [id n] exists since the first loop, unless [id n] is an
    inherited name: the decrement then stores NaN, which no later test
    selects. *)
Fixpoint relax (cur : string) (nodes : list WorkflowNode)
    (indeg : Obj.t Z) (queue : list string) : Obj.t Z * list string :=
  match nodes with
  | [] => (indeg, queue)
  | n :: rest =>
      if includes cur (deps n) then
        match Obj.get (id n) indeg with
        | Some d =>
            let indeg' := Obj.set (id n) (d - 1) indeg in
            if d - 1 =? 0 then relax cur rest indeg' (queue ++ [id n])
            else relax cur rest indeg' queue
        | None => relax cur rest indeg queue
        end
      else relax cur rest indeg queue
  end.

(** The [while (queue.length > 0)] loop, bounded by [fuel] iterations. *)
Fixpoint drain (fuel : nat) (nodes : list WorkflowNode)
    (indeg : Obj.t Z) (queue order : list string)
    : Obj.t Z * list string * list string :=
  match fuel with
  | O => (indeg, queue, order)
  | S fuel' =>
      match queue with
      | [] => (indeg, queue, order)
      | cur :: rest =>
          let '(indeg', queue') := relax cur nodes indeg rest in
          drain fuel' nodes indeg' queue' (order ++ [cur])
      end
  end.

(** The in-degree still to be consumed.  Each iteration of the [while]
    loop lowers its sum with the queue length, which therefore bounds the
    number of iterations. *)
Definition potential (indeg : Obj.t Z) : nat :=
  fold_right (fun kv acc => (Z.to_nat (snd kv) + acc)%nat) O indeg.

Record result := { order : list string; cycles : list string }.

Definition topoSort (nodes : list WorkflowNode) : result :=
  let indeg := indegrees nodes in
  let queue := select (fun d => d =? 0) indeg in
  let fuel := (List.length queue + potential indeg)%nat in
  let '(indeg', _, order) := drain fuel nodes indeg queue [] in
  {| order := order; cycles := select (fun d => d >? 0) indeg' |}.

End Topo.

(** ** Completions *)

(** A computation either returns or throws; the thrown value is kept as the
    text the engine reads from it ([e.message], or [String(e)]). *)
Inductive outcome (A : Type) : Type :=
| Ok (a : A)
| Throw (msg : string).
Arguments Ok {A} a.
Arguments Throw {A} msg.

(** ** Property access on values *)

(** What [Object.prototype] holds under [k], read from an object whose
    prototype is [proto]: the accessor [__proto__] gives that prototype,
    every other name a function. *)
Definition objectMember (k : string) (proto : value) : option value :=
  if String.eqb k "__proto__" then Some proto
  else if includes k objectPrototype then Some (VMethod OfObject k)
  else None.

(** What [Array.prototype] holds under [k], or passes on to
    [Object.prototype]. *)
Definition arrayMember (k : string) (proto : value) : option value :=
  if includes k arrayPrototype then Some (VMethod OfArray k)
  else objectMember k proto.

(** What an array holds itself: its [length] and its elements. *)
Definition element (k : string) (items : list value) : option value :=
  if String.eqb k "length" then Some (VNum (Z.of_nat (List.length items)))
  else match Obj.arrayIndex k with
       | Some i => nth_error items (Z.to_nat i)
       | None => None
       end.

(** The property [k] as found from [holder] upwards along the prototype
    chain, for a read that started at an object whose prototype is [proto].
    A function in the chain passes the search on: its own members and those
    of [Function.prototype] are not modelled. *)
Fixpoint inherit (k : string) (holder proto : value) : option value :=
  match holder with
  | VObj fields =>
      match Obj.get k fields with
      | Some v => Some v
      | None => objectMember k proto
      end
  | VArr items =>
      match element k items with
      | Some v => Some v
      | None => arrayMember k proto
      end
  | VOver parent fields =>
      match Obj.get k fields with
      | Some v => Some v
      | None => inherit k parent proto
      end
  | VProto OfObject => objectMember k proto
  | VProto OfArray =>
      match element k [] with
      | Some v => Some v
      | None => arrayMember k proto
      end
  | VMethod _ _ => objectMember k proto
  | _ => None
  end.

(** The prototype of an object. *)
Definition protoOf (v : value) : value :=
  match v with
  | VObj _ => VProto OfObject
  | VArr _ => VProto OfArray
  | VOver proto _ => proto
  | VProto OfArray => VProto OfObject
  | _ => VNull
  end.

(** [typeof v === "object" && v !== null]. *)
Definition isObject (v : value) : bool :=
  match v with
  | VObj _ | VArr _ | VOver _ _ | VProto _ => true
  | _ => false
  end.

(** [typeof v === "object" && v !== null && k in v], with the property
    [v[k]] read when the test holds: own properties first, then what the
    prototype chain gives. *)
Definition getField (k : string) (v : value) : option value :=
  if isObject v then inherit k v (protoOf v) else None.

(** [Array.isArray(v)], with the elements: [Array.prototype] is an array
    without elements. *)
Definition asArray (v : value) : option (list value) :=
  match v with
  | VArr items => Some items
  | VProto OfArray => Some []
  | _ => None
  end.

(** ** $ref resolution *)

Definition refStep (path : string) (val : value) (token : string)
    : outcome value :=
  if Str.includes "[" token && Str.endsWith "]" token then
    match Str.split "[" token with
    | head :: idxRaw :: _ =>
        let idx := Str.parseInt (Str.removeFirst "]" idxRaw) in
        let descended :=
          if String.eqb head EmptyString then Ok val
          else match getField head val with
               | Some v => Ok v
               | None => Throw ("$ref field not found: " +++ path)
               end in
        match descended with
        | Throw e => Throw e
        | Ok target =>
            match asArray target with
            | Some items =>
                match idx with
                | Some i =>
                    if (i <? 0) || (i >=? Z.of_nat (List.length items))
                    then Throw ("$ref index out of range: " +++ path)
                    else Ok (nth (Z.to_nat i) items VUndefined)
                | None => Ok VUndefined
                end
            | None => Throw ("$ref index out of range: " +++ path)
            end
        end
    | _ => Throw "Cannot read properties of undefined (reading 'replace')"
    end
  else
    match getField token val with
    | Some v => Ok v
    | None => Throw ("$ref field not found: " +++ path)
    end.

(** The [for (const token of parts.slice(4))] loop. *)
Fixpoint refWalk (path : string) (val : value) (tokens : list string)
    : outcome value :=
  match tokens with
  | [] => Ok val
  | token :: rest =>
      match refStep path val token with
      | Ok v => refWalk path v rest
      | Throw e => Throw e
      end
  end.

(** The context is made by [{}] and holds the outputs stored so far:
    [nodeId in context] also holds for the names of [Object.prototype], and
    [context[nodeId]] is then the inherited member. *)
Definition resolveRef (path : string) (context : Obj.t value)
    : outcome value :=
  match Str.split "." path with
  | p0 :: p1 :: nodeId :: p3 :: token :: rest =>
      if negb (String.eqb p0 "$") || negb (String.eqb p1 "nodes")
         || negb (String.eqb p3 "output")
      then Throw ("Unsupported $ref path: " +++ path)
      else match getField nodeId (VObj context) with
           | None => Throw ("$ref to unknown node: " +++ nodeId)
           | Some val => refWalk path val (token :: rest)
           end
  | _ => Throw ("Unsupported $ref path: " +++ path)
  end.

(** [Object.keys(record).length === 1 && typeof record["$ref"] === "string"]. *)
Definition refOf (fields : list (string * value)) : option string :=
  match fields with
  | [(k, VStr path)] => if String.eqb k "$ref" then Some path else None
  | _ => None
  end.

(** The object [result] that [resolveInput] fills: its prototype and its
    own properties.  It is made by [{}]. *)
Definition emptyObject : value * Obj.t value := (VProto OfObject, []).

(** Whether an assignment to [__proto__] that finds no own property of
    that name reaches the setter of [Object.prototype]: not when the chain
    ends before it, and not when an object of the chain has a property of
    its own under that name. *)
Fixpoint reachesSetter (holder : value) : bool :=
  match holder with
  | VObj fields => negb (Obj.has "__proto__" fields)
  | VOver parent fields =>
      negb (Obj.has "__proto__" fields) && reachesSetter parent
  | VArr _ | VProto _ | VMethod _ _ => true
  | _ => false
  end.

(** [result[k] = v].  An own property is written or made, as for any key;
    but [__proto__], as long as [result] has no property of that name, goes
    to the setter that [result] inherits, which replaces the prototype of
    [result] when [v] is an object, a function or [null] and does nothing
    when [v] is any other value. *)
Definition assign (k : string) (v : value) (result : value * Obj.t value)
    : value * Obj.t value :=
  let '(proto, own) := result in
  if String.eqb k "__proto__" && negb (Obj.has k own) && reachesSetter proto
  then match v with
       | VUndefined | VBool _ | VNum _ | VStr _ => (proto, own)
       | _ => (v, own)
       end
  else (proto, Obj.set k v own).

(** The object that [result] is once it is filled. *)
Definition built (result : value * Obj.t value) : value :=
  match result with
  | (VProto OfObject, own) => VObj own
  | (proto, own) => VOver proto own
  end.

Fixpoint resolveInput (obj : value) (context : Obj.t value) {struct obj}
    : outcome value :=
  let members :=
    fix members (l : list (string * value)) (result : value * Obj.t value)
      : outcome value :=
      match l with
      | [] => Ok (built result)
      | (k, v) :: tl =>
          match resolveInput v context with
          | Ok v' => members tl (assign k v' result)
          | Throw e => Throw e
          end
      end in
  match obj with
  | VObj fields =>
      match refOf fields with
      | Some path => resolveRef path context
      | None => members fields emptyObject
      end
  | VOver _ fields =>
      match fields, getField "$ref" obj with
      | [_], Some (VStr path) => resolveRef path context
      | _, _ => members fields emptyObject
      end
  | VArr items =>
      (fix elems (l : list value) (acc : list value) : outcome value :=
         match l with
         | [] => Ok (VArr acc)
         | v :: tl =>
             match resolveInput v context with
             | Ok v' => elems tl (acc ++ [v'])
             | Throw e => Throw e
             end
         end) items []
  | VProto OfObject => Ok (VObj [])
  | VProto OfArray => Ok (VArr [])
  | _ => Ok obj
  end.

(** ** JSON text *)

Module JSON.

(** The double quote character. *)
Definition dquote : ascii := ascii_of_nat 34.

Definition hexDigit (n : nat) : ascii :=
  ascii_of_nat (if (n <? 10)%nat then 48 + n else 87 + n).

(** [QuoteJSONString], without the surrounding quotes. *)
Fixpoint escape (s : string) : string :=
  match s with
  | EmptyString => EmptyString
  | String a rest =>
      let n := nat_of_ascii a in
      let tl := escape rest in
      if (n =? 34)%nat then String "\" (String dquote tl)
      else if (n =? 92)%nat then String "\" (String "\" tl)
      else if (n =? 8)%nat then String "\" (String "b" tl)
      else if (n =? 12)%nat then String "\" (String "f" tl)
      else if (n =? 10)%nat then String "\" (String "n" tl)
      else if (n =? 13)%nat then String "\" (String "r" tl)
      else if (n =? 9)%nat then String "\" (String "t" tl)
      else if (n <? 32)%nat then
        String "\" (String "u" (String "0" (String "0"
          (String (hexDigit (n / 16)) (String (hexDigit (n mod 16)) tl)))))
      else String a tl
  end.

Definition quote (s : string) : string :=
  String dquote (escape s +++ String dquote EmptyString).

(** [JSON.stringify(v)]; [None] is the [undefined] it returns for
    [undefined] and for a function.  Inside an array such a value prints as
    [null], inside an object the property is left out.  Only own properties
    are printed, and none of those of the prototype objects is enumerable.
    A template is data: no [toJSON] function is called. *)
Fixpoint stringify (v : value) : option string :=
  let members :=
    fix members (l : list (string * value)) : list string :=
      match l with
      | [] => []
      | (k, x) :: tl =>
          match stringify x with
          | Some t => (quote k +++ ":" +++ t) :: members tl
          | None => members tl
          end
      end in
  match v with
  | VUndefined => None
  | VMethod _ _ => None
  | VProto OfObject => Some "{}"
  | VProto OfArray => Some "[]"
  | VOver _ fields => Some ("{" +++ Str.join "," (members fields) +++ "}")
  | VNull => Some "null"
  | VBool true => Some "true"
  | VBool false => Some "false"
  | VNum n => Some (Str.ofZ n)
  | VStr s => Some (quote s)
  | VArr items =>
      Some ("[" +++
        Str.join ","
          ((fix elems (l : list value) : list string :=
              match l with
              | [] => []
              | x :: tl =>
                  match stringify x with
                  | Some t => t
                  | None => "null"
                  end :: elems tl
              end) items) +++ "]")
  | VObj fields => Some ("{" +++ Str.join "," (members fields) +++ "}")
  end.

(** Result of reading a JSON text: a value and the unread rest, a
    [SyntaxError], a text outside the modelled fragment (a number with a
    fraction or an exponent or beyond 2^53, a \u escape above 8 bits), or
    fuel that ran out. *)
Inductive parsed (A : Type) : Type :=
| Read (a : A) (rest : string)
| Syntax
| Beyond
| Starved.
Arguments Read {A} a rest.
Arguments Syntax {A}.
Arguments Beyond {A}.
Arguments Starved {A}.

Definition andThen {A B : Type} (p : parsed A) (k : A -> string -> parsed B)
    : parsed B :=
  match p with
  | Read a rest => k a rest
  | Syntax => Syntax
  | Beyond => Beyond
  | Starved => Starved
  end.

Definition isWs (a : ascii) : bool :=
  let n := nat_of_ascii a in
  (n =? 32)%nat || (n =? 9)%nat || (n =? 10)%nat || (n =? 13)%nat.

Fixpoint skipWs (s : string) : string :=
  match s with
  | String a rest => if isWs a then skipWs rest else s
  | EmptyString => s
  end.

(** The text after the character [c], when the text starts with it. *)
Definition expect (c : ascii) (s : string) : option string :=
  match s with
  | String a rest => if Ascii.eqb a c then Some rest else None
  | EmptyString => None
  end.

Definition hexVal (a : ascii) : option nat :=
  let n := nat_of_ascii a in
  if (48 <=? n)%nat && (n <=? 57)%nat then Some (n - 48)%nat
  else if (97 <=? n)%nat && (n <=? 102)%nat then Some (n - 87)%nat
  else if (65 <=? n)%nat && (n <=? 70)%nat then Some (n - 55)%nat
  else None.

(** The character a four-digit \u escape denotes, when it fits 8 bits. *)
Definition unicode (h1 h2 h3 h4 : ascii) : parsed ascii :=
  match hexVal h1, hexVal h2, hexVal h3, hexVal h4 with
  | Some d1, Some d2, Some d3, Some d4 =>
      if ((d1 =? 0) && (d2 =? 0))%nat
      then Read (ascii_of_nat (16 * d3 + d4)) EmptyString
      else Beyond
  | _, _, _, _ => Syntax
  end.

(** The character a one-letter escape denotes. *)
Definition escaped (e : ascii) : option ascii :=
  if Ascii.eqb e dquote then Some dquote
  else if Ascii.eqb e "\" then Some "\"%char
  else if Ascii.eqb e "/" then Some "/"%char
  else if Ascii.eqb e "b" then Some (ascii_of_nat 8)
  else if Ascii.eqb e "f" then Some (ascii_of_nat 12)
  else if Ascii.eqb e "n" then Some (ascii_of_nat 10)
  else if Ascii.eqb e "r" then Some (ascii_of_nat 13)
  else if Ascii.eqb e "t" then Some (ascii_of_nat 9)
  else None.

(** The characters of a string literal after its opening quote. *)
Fixpoint parseChars (s : string) : parsed string :=
  match s with
  | EmptyString => Syntax
  | String a rest =>
      if Ascii.eqb a dquote then Read EmptyString rest
      else if Ascii.eqb a "\" then
        match rest with
        | String e rest' =>
            if Ascii.eqb e "u" then
              match rest' with
              | String h1 (String h2 (String h3 (String h4 rest''))) =>
                  andThen (unicode h1 h2 h3 h4) (fun c _ =>
                    andThen (parseChars rest'') (fun t r => Read (String c t) r))
              | _ => Syntax
              end
            else
              match escaped e with
              | Some c =>
                  andThen (parseChars rest') (fun t r => Read (String c t) r)
              | None => Syntax
              end
        | EmptyString => Syntax
        end
      else if (nat_of_ascii a <? 32)%nat then Syntax
      else andThen (parseChars rest) (fun t r => Read (String a t) r)
  end.

(** A number literal whose first character is a digit or a minus sign.
    Integers up to 2^53 are read exactly. *)
Definition parseNumber (s : string) : parsed value :=
  let '(neg, body) :=
    match expect "-" s with
    | Some rest => (true, rest)
    | None => (false, s)
    end in
  let int :=
    match expect "0" body with
    | Some rest => Some (0, rest)
    | None => Str.digitsFrom 0 false body
    end in
  match int with
  | None => Syntax
  | Some (n, rest) =>
      match rest with
      | String c after =>
          if Ascii.eqb c "." then
            match after with
            | String d _ => if Str.isDigit d then Beyond else Syntax
            | EmptyString => Syntax
            end
          else if Ascii.eqb c "e" || Ascii.eqb c "E" then Beyond
          else if 9007199254740992 <? n then Beyond
          else Read (VNum (if neg then - n else n)) rest
      | EmptyString =>
          if 9007199254740992 <? n then Beyond
          else Read (VNum (if neg then - n else n)) rest
      end
  end.

(** The members of an object after its opening brace, [n] at most. *)
Fixpoint members (element : string -> parsed value) (n : nat)
    (acc : Obj.t value) (s : string) {struct n} : parsed value :=
  match n with
  | O => Starved
  | S n' =>
      match expect dquote (skipWs s) with
      | None => Syntax
      | Some s1 =>
          andThen (parseChars s1) (fun k s2 =>
            match expect ":" (skipWs s2) with
            | None => Syntax
            | Some s3 =>
                andThen (element s3) (fun v s4 =>
                  match skipWs s4 with
                  | String c s5 =>
                      if Ascii.eqb c "," then members element n' (Obj.set k v acc) s5
                      else if Ascii.eqb c "}" then Read (VObj (Obj.set k v acc)) s5
                      else Syntax
                  | EmptyString => Syntax
                  end)
            end)
      end
  end.

(** The elements of an array after its opening bracket, [n] at most. *)
Fixpoint elements (element : string -> parsed value) (n : nat)
    (acc : list value) (s : string) {struct n} : parsed value :=
  match n with
  | O => Starved
  | S n' =>
      andThen (element s) (fun v s1 =>
        match skipWs s1 with
        | String c s2 =>
            if Ascii.eqb c "," then elements element n' (acc ++ [v]) s2
            else if Ascii.eqb c "]" then Read (VArr (acc ++ [v])) s2
            else Syntax
        | EmptyString => Syntax
        end)
  end.

Fixpoint parseValue (fuel : nat) (s : string) {struct fuel} : parsed value :=
  match fuel with
  | O => Starved
  | S fuel' =>
      match skipWs s with
      | EmptyString => Syntax
      | String a rest =>
          if Ascii.eqb a "{" then
            match expect "}" (skipWs rest) with
            | Some rest' => Read (VObj []) rest'
            | None => members (parseValue fuel') fuel' [] rest
            end
          else if Ascii.eqb a "[" then
            match expect "]" (skipWs rest) with
            | Some rest' => Read (VArr []) rest'
            | None => elements (parseValue fuel') fuel' [] rest
            end
          else if Ascii.eqb a dquote then
            andThen (parseChars rest) (fun t r => Read (VStr t) r)
          else if Ascii.eqb a "-" || Str.isDigit a then
            parseNumber (String a rest)
          else
            match Str.stripPrefix "true" (String a rest) with
            | Some r => Read (VBool true) r
            | None =>
                match Str.stripPrefix "false" (String a rest) with
                | Some r => Read (VBool false) r
                | None =>
                    match Str.stripPrefix "null" (String a rest) with
                    | Some r => Read VNull r
                    | None => Syntax
                    end
                end
            end
      end
  end.

(** [JSON.parse(text)]: one value, then only white space.  The fuel is
    the length of the text: every nested value and every member consumes
    at least one character. *)
Definition parse (text : string) : parsed value :=
  andThen (parseValue (S (String.length text)) text) (fun v rest =>
    match skipWs rest with
    | EmptyString => Read v EmptyString
    | _ => Syntax
    end).

End JSON.

(** ** Query substitution *)

(** [GetSubstitution] for a pattern without capture groups: [$$] is a
    dollar sign, [$&] the matched text, [$`] the text before the match and
    [$'] the text after it; everything else stands for itself. *)
Fixpoint expand (template matched before after : string) : string :=
  match template with
  | EmptyString => EmptyString
  | String "$" (String c rest as tl) =>
      if Ascii.eqb c "$" then String "$" (expand rest matched before after)
      else if Ascii.eqb c "&" then matched +++ expand rest matched before after
      else if Ascii.eqb c "`" then before +++ expand rest matched before after
      else if Ascii.eqb c "'" then after +++ expand rest matched before after
      else String "$" (expand tl matched before after)
  | String a rest => String a (expand rest matched before after)
  end.

(** [json.replace(/\{query\}/g, query)].  [before] is the text already
    scanned and [skip] the number of characters of the current match that
    are still to be dropped. *)
Fixpoint replaceQuery (query before : string) (skip : nat) (s : string)
    : string :=
  match s with
  | EmptyString => EmptyString
  | String a rest =>
      match skip with
      | S k => replaceQuery query (before +++ String a EmptyString) k rest
      | O =>
          match Str.stripPrefix "{query}" s with
          | Some after =>
              expand query "{query}" before after +++
              replaceQuery query (before +++ String a EmptyString) 6 rest
          | None =>
              String a (replaceQuery query (before +++ String a EmptyString) 0 rest)
          end
      end
  end.

(** What [substituteQuery] does: it returns the re-parsed template, it
    throws (the [SyntaxError] of [JSON.parse], or the [TypeError] of calling
    [replace] on [undefined]), or the text leaves the modelled fragment. *)
Inductive completion (A : Type) : Type :=
| Normal (a : A)
| Abrupt (msg : string)
| Unmodelled.
Arguments Normal {A} a.
Arguments Abrupt {A} msg.
Arguments Unmodelled {A}.

Definition substituteQuery (input : value) (query : string)
    : completion value :=
  match JSON.stringify input with
  | None => Abrupt "TypeError: Cannot read properties of undefined (reading 'replace')"
  | Some json =>
      let replaced := replaceQuery query EmptyString 0 json in
      match JSON.parse replaced with
      | JSON.Read v _ => Normal v
      | JSON.Syntax => Abrupt "SyntaxError: JSON.parse"
      | JSON.Beyond => Unmodelled
      | JSON.Starved => Unmodelled
      end
  end.

(** ** The jq-like expression evaluator *)

(** [indexPart.match(/\[(\d+)\]/)] followed by [parseInt(match[1], 10)]:
    the first bracket that is followed by digits and a closing bracket. *)
Fixpoint matchIndex (s : string) : option Z :=
  match s with
  | EmptyString => None
  | String a rest =>
      if Ascii.eqb a "[" then
        match Str.digitsFrom 0 false rest with
        | Some (n, String c _) =>
            if Ascii.eqb c "]" then Some n else matchIndex rest
        | _ => matchIndex rest
        end
      else matchIndex rest
  end.

(** One round of the token loop of [jqSingle]: go on with a value, leave
    the function with a value, or throw. *)
Inductive step : Type :=
| Next (v : value)
| Return (v : value)
| Fail (msg : string).

Definition jqToken (cur : value) (tok : string) : step :=
  if String.eqb tok EmptyString then Next cur
  else match Str.breakAt "[" tok with
       | Some (head, indexPart) =>
           let descended :=
             if String.eqb head EmptyString then Ok cur
             else match getField head cur with
                  | Some v => Ok v
                  | None => Throw ("field not found: " +++ head)
                  end in
           match descended with
           | Throw e => Fail e
           | Ok cur' =>
               match matchIndex indexPart with
               | None => Fail ("invalid index: " +++ indexPart)
               | Some idx =>
                   match asArray cur' with
                   | Some items =>
                       if idx >=? Z.of_nat (List.length items) then Return VNull
                       else Next (nth (Z.to_nat idx) items VUndefined)
                   | None => Return VNull
                   end
               end
           end
       | None =>
           match getField tok cur with
           | Some v => Next v
           | None => Fail ("field not found: " +++ tok)
           end
       end.

(** The [for (const tok of tokens)] loop. *)
Fixpoint jqPath (cur : value) (tokens : list string) : outcome value :=
  match tokens with
  | [] => Ok cur
  | tok :: rest =>
      match jqToken cur tok with
      | Next v => jqPath v rest
      | Return v => Ok v
      | Fail e => Throw e
      end
  end.

(** [Object.entries(data)] of an object that is no array: its own
    properties; the members of a prototype object are not enumerable.
    [None] when [data] is no such object. *)
Definition ownEntries (data : value) : option (list (string * value)) :=
  match data with
  | VObj fields => Some (Obj.entries fields)
  | VOver _ fields => Some (Obj.entries fields)
  | VProto OfObject => Some []
  | _ => None
  end.

Definition jqSingle (data : value) (expr : string) : outcome value :=
  if String.eqb expr EmptyString || String.eqb expr "." then Ok data
  else if String.eqb expr "to_entries" then
    match ownEntries data with
    | Some entries =>
        Ok (VArr (map (fun kv => VObj [("key", VStr (fst kv)); ("value", snd kv)])
                      entries))
    | None => Throw "to_entries requires object input"
    end
  else if String.eqb expr "keys" then
    match ownEntries data with
    | Some entries => Ok (VArr (map VStr (map fst entries)))
    | None => Throw "keys requires object input"
    end
  else if String.eqb expr "length" then
    match asArray data, ownEntries data, data with
    | Some items, _, _ => Ok (VNum (Z.of_nat (List.length items)))
    | None, Some entries, _ => Ok (VNum (Z.of_nat (List.length entries)))
    | None, None, VStr s => Ok (VNum (Z.of_nat (String.length s)))
    | None, None, _ => Throw "length requires array, object, or string"
    end
  else if negb (Str.startsWith "." expr) then
    Throw ("expression must start with '.', got: " +++ expr)
  else
    let path := Str.tail expr in
    if String.eqb path EmptyString then Ok data
    else jqPath data (Str.split "." path).

(** The [for (const part of parts)] loop of [jqEval]. *)
Fixpoint jqPipe (cur : value) (parts : list string) : outcome value :=
  match parts with
  | [] => Ok cur
  | part :: rest =>
      match jqSingle cur part with
      | Ok v => jqPipe v rest
      | Throw e => Throw e
      end
  end.

Definition jqEval (data : value) (expr : string) : outcome value :=
  if String.eqb expr EmptyString || String.eqb expr "." then Ok data
  else jqPipe data (map Str.trim (Str.split "|" expr)).

(** [input.k], for the keys the handlers and the route read ([url],
    [params], [headers], [xml], [data], [expression], [workflowName],
    [query]): reading a property of [null] or [undefined] throws; an object
    gives what it has or inherits under the key; a string, a number, a
    boolean or a function has no member of these names and gives
    [undefined]. *)
Definition readProp (k : string) (v : value) : outcome value :=
  match v with
  | VUndefined => Throw ("Cannot read properties of undefined (reading '" +++ k +++ "')")
  | VNull => Throw ("Cannot read properties of null (reading '" +++ k +++ "')")
  | _ =>
      match getField k v with
      | Some x => Ok x
      | None => Ok VUndefined
      end
  end.

Definition jqBody (input : value) : outcome value :=
  match readProp "data" input with
  | Throw e => Throw e
  | Ok data =>
      match readProp "expression" input with
      | Throw e => Throw e
      | Ok (VStr expression) =>
          match jqEval data expression with
          | Ok result => Ok (VObj [("result", result)])
          | Throw e => Throw e
          end
      | Ok _ => Throw "'expression' must be string"
      end
  end.

(** ** Records of a run *)

Inductive level : Type := info | success | error | running.

Module LogEntry.
Record t := {
  timestamp : string;
  level : level;
  message : string;
  nodeId : option string
}.
End LogEntry.

Inductive status : Type := StatusRunning | StatusSuccess | StatusError.

Module NodeExecution.
Record t := {
  nodeId : string;
  action : string;
  status : status;
  durationMs : Z;
  inputData : option value;
  outputData : option value;
  error : option string
}.
End NodeExecution.

Module ExecutionResult.
Record t := {
  success : bool;
  logs : list LogEntry.t;
  nodeExecutions : list NodeExecution.t;
  executionTimeMs : Z;
  error : option string
}.
End ExecutionResult.

Module Principal.
Record t := {
  id : string;
  permissions : list string
}.
End Principal.

Module Termination.
Record t := {
  maxNodes : Z;
  maxRuntimeMs : Z;
  warnAtPct : Z
}.
End Termination.

Record WorkflowMetadata := {
  name : string;
  description : string;
  risk : string;
  principal : Principal.t;
  termination : Termination.t
}.

Record WorkflowDefinition := {
  kind : string;
  version : string;
  metadata : WorkflowMetadata;
  nodes : list WorkflowNode
}.

(** ** Clock *)

Definition twoDigits (n : Z) : string :=
  if n <? 10 then "0" +++ Str.ofZ n else Str.ofZ n.

(** [new Date(ms).toISOString().split("T")[1].split(".")[0]]: the UTC time
    of day, HH:MM:SS. *)
Definition timeOfDay (ms : Z) : string :=
  let secs := (ms / 1000) mod 86400 in
  twoDigits (secs / 3600) +++ ":" +++ twoDigits ((secs / 60) mod 60) +++ ":" +++
  twoDigits (secs mod 60).

(** ** Workflow execution *)

(** What the engine does to its environment, in order. *)
Inductive effect : Type :=
| Invoked (action nodeId : string) (input : value)
| Slept (ms : Z).

Section Engine.

(** The world the handlers act on (the network, mostly). *)
Variable World : Type.

(** An action handler: the awaited promise resolves with an output or
    rejects; handlers are taken to settle. *)
Definition ActionHandler : Type :=
  WorkflowNode -> value -> World -> outcome value * World.

Variable httpGetHandler : ActionHandler.
Variable xml2jsonHandler : ActionHandler.

Definition jqHandler : ActionHandler :=
  fun _node input w => (jqBody input, w).

(** What [ACTION_HANDLERS[ref]] is for a name of [Object.prototype]: the
    inherited member, called as [handler(node, resolvedInput)] without a
    receiver.  [toString] names the missing receiver, [constructor] is
    [Object] and returns its first argument, the node; [__proto__] is the
    prototype object, which cannot be called; every other member starts by
    converting the receiver to an object, which throws. *)
Definition inheritedHandler (ref : string) : ActionHandler :=
  fun node _input w =>
    (if String.eqb ref "toString" then Ok (VStr "[object Undefined]")
     else if String.eqb ref "constructor" then Ok (nodeObject node)
     else if String.eqb ref "__proto__" then Throw "handler is not a function"
     else Throw "Cannot convert undefined or null to object", w).

(** The table is an object literal: besides its three entries, a lookup
    finds what every object inherits. *)
Definition ACTION_HANDLERS (ref : string) : option ActionHandler :=
  if String.eqb ref "plugin.http.get" then Some httpGetHandler
  else if String.eqb ref "plugin.transform.xml2json" then Some xml2jsonHandler
  else if String.eqb ref "plugin.transform.jq" then Some jqHandler
  else if inherited ref then Some (inheritedHandler ref)
  else None.

(** The [i]-th reading of the system clock, in milliseconds. *)
Variable clock : nat -> Z.

(** The mutable state of one run. *)
Record Run := {
  logs : list LogEntry.t;
  nodeExecutions : list NodeExecution.t;
  context : Obj.t value;
  world : World;
  ticks : nat;
  effects : list effect
}.

(** [Date.now()]. *)
Definition now (r : Run) : Z * Run :=
  (clock (ticks r),
   {| logs := logs r; nodeExecutions := nodeExecutions r; context := context r;
      world := world r; ticks := S (ticks r); effects := effects r |}).

(** [timestamp()]: the time of day at a fresh reading of the clock. *)
Definition timestamp (r : Run) : string * Run :=
  let '(t, r) := now r in (timeOfDay t, r).

(** [logs.push({ timestamp: timestamp(), level, message, nodeId })]. *)
Definition pushLog (lvl : level) (msg : string) (nid : option string)
    (r : Run) : Run :=
  let '(stamp, r) := timestamp r in
  {| logs := logs r ++ [ {| LogEntry.timestamp := stamp;
                            LogEntry.level := lvl;
                            LogEntry.message := msg;
                            LogEntry.nodeId := nid |} ];
     nodeExecutions := nodeExecutions r; context := context r;
     world := world r; ticks := ticks r; effects := effects r |}.

(** [nodeExecutions.push(rec)]. *)
Definition pushExecution (rec : NodeExecution.t) (r : Run) : Run :=
  {| logs := logs r; nodeExecutions := nodeExecutions r ++ [rec];
     context := context r; world := world r; ticks := ticks r;
     effects := effects r |}.

(** [context[nodeId] = output]. *)
Definition store (nodeId : string) (output : value) (r : Run) : Run :=
  {| logs := logs r; nodeExecutions := nodeExecutions r;
     context := Obj.set nodeId output (context r); world := world r;
     ticks := ticks r; effects := effects r |}.

(** [await handler(node, resolvedInput)]. *)
Definition invoke (handler : ActionHandler) (nodeId : string)
    (node : WorkflowNode) (resolvedInput : value) (r : Run)
    : outcome value * Run :=
  let '(res, w) := handler node resolvedInput (world r) in
  (res,
   {| logs := logs r; nodeExecutions := nodeExecutions r; context := context r;
      world := w; ticks := ticks r;
      effects := effects r ++ [Invoked (actionRef node) nodeId resolvedInput] |}).

(** [await sleep(ms)]. *)
Definition sleep (ms : Z) (r : Run) : Run :=
  {| logs := logs r; nodeExecutions := nodeExecutions r; context := context r;
     world := world r; ticks := ticks r; effects := effects r ++ [Slept ms] |}.

(** [return { success: false, logs, nodeExecutions,
              executionTimeMs: Date.now() - startTime, error }]. *)
Definition failed (startTime : Z) (err : string) (r : Run)
    : ExecutionResult.t * Run :=
  let '(t, r) := now r in
  ({| ExecutionResult.success := false;
      ExecutionResult.logs := logs r;
      ExecutionResult.nodeExecutions := nodeExecutions r;
      ExecutionResult.executionTimeMs := t - startTime;
      ExecutionResult.error := Some err |}, r).

Definition errorRecord (nodeId : string) (node : WorkflowNode) (err : string)
    : NodeExecution.t :=
  {| NodeExecution.nodeId := nodeId;
     NodeExecution.action := actionRef node;
     NodeExecution.status := StatusError;
     NodeExecution.durationMs := 0;
     NodeExecution.inputData := None;
     NodeExecution.outputData := None;
     NodeExecution.error := Some err |}.

(** [node.timeoutMs && durationMs > node.timeoutMs]: an absent or zero
    [timeoutMs] is falsy. *)
Definition overTime (node : WorkflowNode) (durationMs : Z) : bool :=
  match timeoutMs node with
  | Some t => negb (t =? 0) && (durationMs >? t)
  | None => false
  end.

(** The catch block of an attempt. *)
Definition caught (nodeId : string) (attempt maxAttempts backoffMs : Z)
    (lastError : string) (r : Run) : Run :=
  if attempt <? maxAttempts then
    sleep backoffMs
      (pushLog info
         ("Retrying " +++ nodeId +++ " (attempt " +++ Str.ofZ attempt +++ "/" +++
          Str.ofZ maxAttempts +++ "): " +++ lastError)
         (Some nodeId) r)
  else r.

(** [for (let attempt = 1; attempt <= maxAttempts; attempt++)], with
    [remaining] the number of rounds left.  Returns [succeeded],
    [lastError] and the state. *)
Fixpoint attempts (remaining : nat) (attempt : Z) (handler : ActionHandler)
    (nodeId : string) (node : WorkflowNode) (resolvedInput : value)
    (maxAttempts backoffMs : Z) (lastError : string) (r : Run)
    : bool * string * Run :=
  match remaining with
  | O => (false, lastError, r)
  | S remaining' =>
      let '(nodeStart, r) := now r in
      let '(res, r) := invoke handler nodeId node resolvedInput r in
      match res with
      | Ok output =>
          let '(t, r) := now r in
          let durationMs := t - nodeStart in
          if overTime node durationMs then
            let lastError :=
              "Timeout exceeded: " +++ Str.ofZ durationMs +++ "ms > " +++
              Str.ofZ (match timeoutMs node with Some t => t | None => 0 end) +++
              "ms" in
            attempts remaining' (attempt + 1) handler nodeId node resolvedInput
              maxAttempts backoffMs lastError
              (caught nodeId attempt maxAttempts backoffMs lastError r)
          else
            let r := store nodeId output r in
            let r :=
              pushExecution
                {| NodeExecution.nodeId := nodeId;
                   NodeExecution.action := actionRef node;
                   NodeExecution.status := StatusSuccess;
                   NodeExecution.durationMs := durationMs;
                   NodeExecution.inputData := Some resolvedInput;
                   NodeExecution.outputData := Some output;
                   NodeExecution.error := None |} r in
            let r :=
              pushLog success
                ("Completed " +++ nodeId +++ " in " +++ Str.ofZ durationMs +++ "ms")
                (Some nodeId) r in
            (true, lastError, r)
      | Throw e =>
          attempts remaining' (attempt + 1) handler nodeId node resolvedInput
            maxAttempts backoffMs e
            (caught nodeId attempt maxAttempts backoffMs e r)
      end
  end.

(** How the body of the node loop ends: the loop goes on, the function
    returns a result, an exception leaves the function, or the input left
    the modelled fragment. *)
Inductive flow : Type :=
| Continue (r : Run)
| Returned (res : ExecutionResult.t) (r : Run)
| Raised (msg : string) (r : Run)
| Outside (r : Run).

(** The body of [for (const nodeId of order)].  The table of nodes is made
    by [Object.fromEntries], which gives it a property of its own for every
    node identifier, [__proto__] included; the loop asks it for the
    identifiers of the order only, none of which is an inherited name, so
    what the table inherits is never seen, and [context[nodeId] = output]
    makes or writes a property of the context itself. *)
Definition runNode (nodeMap : Obj.t WorkflowNode) (query : string)
    (startTime : Z) (nodeId : string) (r : Run) : flow :=
  match Obj.get nodeId nodeMap with
  | None => Continue r
  | Some node =>
      match ACTION_HANDLERS (actionRef node) with
      | None =>
          let err := "Action not implemented: " +++ actionRef node in
          let r := pushLog error err (Some nodeId) r in
          let r := pushExecution (errorRecord nodeId node err) r in
          let '(res, r) := failed startTime err r in
          Returned res r
      | Some handler =>
          let r :=
            pushLog running
              ("Starting " +++ nodeId +++ " (" +++ actionRef node +++ ")")
              (Some nodeId) r in
          match substituteQuery (input node) query with
          | Abrupt e => Raised e r
          | Unmodelled => Outside r
          | Normal substituted =>
              match resolveInput substituted (context r) with
              | Throw err =>
                  let r :=
                    pushLog error
                      ("Input resolution failed for " +++ nodeId +++ ": " +++ err)
                      (Some nodeId) r in
                  let r := pushExecution (errorRecord nodeId node err) r in
                  let '(res, r) := failed startTime err r in
                  Returned res r
              | Ok resolvedInput =>
                  let maxAttempts :=
                    match retry node with
                    | Some p => maxAttempts p
                    | None => 1
                    end in
                  let backoffMs :=
                    match retry node with
                    | Some p => backoffMs p
                    | None => 0
                    end in
                  let '(succeeded, lastError, r) :=
                    attempts (Z.to_nat maxAttempts) 1 handler nodeId node
                      resolvedInput maxAttempts backoffMs EmptyString r in
                  if succeeded then Continue r
                  else
                    let r :=
                      pushLog error ("Failed " +++ nodeId +++ ": " +++ lastError)
                        (Some nodeId) r in
                    let r := pushExecution (errorRecord nodeId node lastError) r in
                    let '(res, r) := failed startTime lastError r in
                    Returned res r
              end
          end
      end
  end.

(** The node loop and what follows it. *)
Fixpoint runNodes (nodeMap : Obj.t WorkflowNode) (query : string)
    (startTime : Z) (order : list string) (r : Run) : flow :=
  match order with
  | [] =>
      let '(t, r) := now r in
      let executionTimeMs := t - startTime in
      let r :=
        pushLog success
          ("Workflow completed in " +++ Str.ofZ executionTimeMs +++ "ms") None r in
      Returned {| ExecutionResult.success := true;
                  ExecutionResult.logs := logs r;
                  ExecutionResult.nodeExecutions := nodeExecutions r;
                  ExecutionResult.executionTimeMs := executionTimeMs;
                  ExecutionResult.error := None |} r
  | nodeId :: rest =>
      match runNode nodeMap query startTime nodeId r with
      | Continue r => runNodes nodeMap query startTime rest r
      | stop => stop
      end
  end.

Definition executeWorkflow (workflow : WorkflowDefinition) (query : string)
    (w : World) : flow :=
  let r := {| logs := []; nodeExecutions := []; context := []; world := w;
              ticks := O; effects := [] |} in
  let '(startTime, r) := now r in
  let r := pushLog info ("Starting workflow: " +++ name (metadata workflow)) None r in
  let r := pushLog info ("Query: " +++ query) None r in
  let sorted := Topo.topoSort (nodes workflow) in
  if (0 <? List.length (Topo.cycles sorted))%nat then
    let '(res, r) :=
      failed startTime ("Cycle detected: " +++ Str.join ", " (Topo.cycles sorted)) r in
    Returned res r
  else
    let nodeMap := Obj.fromEntries (map (fun n => (id n, n)) (nodes workflow)) in
    runNodes nodeMap query startTime (Topo.order sorted) r.

End Engine.

Arguments overTime : simpl never.

(** ** More of the host language *)

(** [s.includes(p)]. *)
Fixpoint occurs (p s : string) : bool :=
  match Str.stripPrefix p s with
  | Some _ => true
  | None =>
      match s with
      | EmptyString => false
      | String _ rest => occurs p rest
      end
  end.

(** [ToString(v)], as a template literal, a property key and the second
    argument of [replace] apply it.  An array prints its elements with
    commas between them, [null] and [undefined] as nothing; an object
    prints as "[object Object]", unless a property of its own hides
    [toString], in which case the conversion throws; a built-in function
    prints as its source text.  An object whose prototype was replaced
    finds [toString] along its chain: it prints as that prototype would,
    and the conversion throws when the chain ends without one or leads to
    the [toString] of functions.  Properties of its own that hide [join],
    [length] or an index from the [toString] of arrays are not followed. *)
Fixpoint toStr (v : value) : outcome string :=
  match v with
  | VProto OfObject => Ok "[object Object]"
  | VProto OfArray => Ok EmptyString
  | VMethod c name =>
      Ok ("function " +++
          (if String.eqb name "constructor"
           then match c with OfObject => "Object" | OfArray => "Array" end
           else name) +++ "() { [native code] }")
  | VOver proto fields =>
      if Obj.has "toString" fields
      then Throw "Cannot convert object to primitive value"
      else match proto with
           | VObj _ | VArr _ | VOver _ _ | VProto _ => toStr proto
           | VMethod _ _ =>
               Throw "Function.prototype.toString requires that 'this' be a Function"
           | _ => Throw "Cannot convert object to primitive value"
           end
  | VUndefined => Ok "undefined"
  | VNull => Ok "null"
  | VBool true => Ok "true"
  | VBool false => Ok "false"
  | VNum n => Ok (Str.ofZ n)
  | VStr s => Ok s
  | VArr items =>
      (fix elems (l : list value) (acc : list string) : outcome string :=
         match l with
         | [] => Ok (Str.join "," acc)
         | x :: tl =>
             match x with
             | VUndefined | VNull => elems tl (acc ++ [EmptyString])
             | _ =>
                 match toStr x with
                 | Ok t => elems tl (acc ++ [t])
                 | Throw e => Throw e
                 end
             end
         end) items []
  | VObj fields =>
      if Obj.has "toString" fields
      then Throw "Cannot convert object to primitive value"
      else Ok "[object Object]"
  end.

(** [!!v]. *)
Definition truthy (v : value) : bool :=
  match v with
  | VUndefined | VNull => false
  | VBool b => b
  | VNum n => negb (n =? 0)
  | VStr s => negb (String.eqb s EmptyString)
  | VArr _ | VObj _ | VProto _ | VMethod _ _ | VOver _ _ => true
  end.

(** [Object.entries(v)] of a value that is not [null] or [undefined]:
    the enumerable properties it has itself. *)
Definition entriesOf (v : value) : list (string * value) :=
  match v with
  | VObj fields => Obj.entries fields
  | VOver _ fields => Obj.entries fields
  | VArr items =>
      combine (map (fun i => Str.ofZ (Z.of_nat i)) (seq 0 (List.length items))) items
  | VStr s =>
      combine (map (fun i => Str.ofZ (Z.of_nat i)) (seq 0 (String.length s)))
              (map (fun c => VStr (String c EmptyString)) (list_ascii_of_string s))
  | _ => []
  end.

(** ** The input and output plugins *)

Module HttpResponse.
(** What the handler reads of a [Response]: the status, the content type
    header, and what [json()] and [text()] settle with. *)
Record t := {
  status : Z;
  contentType : option string;
  json : outcome value;
  text : outcome string
}.
End HttpResponse.

Section Plugins.

Variable World : Type.

(** The URL record of the platform: [new URL(s)], [searchParams.set] and
    [toString]. *)
Variable URL : Type.
Variable parseURL : string -> outcome URL.
Variable setParam : string -> string -> URL -> URL.
Variable href : URL -> string.

(** [fetch(url, { headers, signal })], awaited. *)
Variable fetch : string -> value -> World -> outcome HttpResponse.t * World.

(** [new XMLParser(options).parse(xml)]. *)
Variable parseXML : string -> outcome value.

(** The [for (const [k, v] of Object.entries(params))] loop. *)
Fixpoint setParams (kvs : list (string * value)) (urlObj : URL) : outcome URL :=
  match kvs with
  | [] => Ok urlObj
  | (k, v) :: rest =>
      match toStr v with
      | Ok t => setParams rest (setParam k t urlObj)
      | Throw e => Throw e
      end
  end.

(** What the handler makes of the response: the status, and the body as
    JSON when the content type says so, as text otherwise. *)
Definition readResponse (resp : HttpResponse.t) (w : World)
    : outcome value * World :=
  let contentType :=
    match HttpResponse.contentType resp with
    | Some c => c
    | None => EmptyString
    end in
  if occurs "json" contentType then
    match HttpResponse.json resp with
    | Ok body =>
        (Ok (VObj [("status", VNum (HttpResponse.status resp)); ("body", body)]), w)
    | Throw e => (Throw e, w)
    end
  else
    match HttpResponse.text resp with
    | Ok body =>
        (Ok (VObj [("status", VNum (HttpResponse.status resp));
                   ("body", VStr body)]), w)
    | Throw e => (Throw e, w)
    end.

Definition httpGetHandler : ActionHandler World :=
  fun _node input w =>
    match readProp "url" input with
    | Throw e => (Throw e, w)
    | Ok url =>
        if negb (truthy url) then (Throw "'url' must be a non-empty string", w)
        else
          match readProp "params" input, readProp "headers" input with
          | Ok params, Ok headers =>
              match toStr url with
              | Throw e => (Throw e, w)
              | Ok u =>
                  match parseURL u with
                  | Throw e => (Throw e, w)
                  | Ok urlObj =>
                      match (if truthy params
                             then setParams (entriesOf params) urlObj
                             else Ok urlObj) with
                      | Throw e => (Throw e, w)
                      | Ok urlObj =>
                          let headers :=
                            match headers with
                            | VUndefined | VNull => VObj []
                            | h => h
                            end in
                          match fetch (href urlObj) headers w with
                          | (Throw e, w') => (Throw e, w')
                          | (Ok resp, w') => readResponse resp w'
                          end
                      end
                  end
              end
          | Throw e, _ => (Throw e, w)
          | _, Throw e => (Throw e, w)
          end
    end.

Definition xml2jsonHandler : ActionHandler World :=
  fun _node input w =>
    match readProp "xml" input with
    | Throw e => (Throw e, w)
    | Ok (VStr xml) =>
        if String.eqb xml EmptyString
        then (Throw "'xml' must be a non-empty string", w)
        else match parseXML xml with
             | Ok result => (Ok (VObj [("json", result)]), w)
             | Throw e => (Throw e, w)
             end
    | Ok _ => (Throw "'xml' must be a non-empty string", w)
    end.

End Plugins.

(** ** The workflow catalog *)

Module Catalog.

Definition userAgent : string * value :=
  ("User-Agent", VStr "agentic-workflow-engine").

Definition metadataOf (n d : string) (maxNodes maxRuntimeMs : Z) : WorkflowMetadata :=
  {| name := n; description := d; risk := "low";
     principal := {| Principal.id := "system:demo";
                     Principal.permissions := ["read:http"] |};
     termination := {| Termination.maxNodes := maxNodes;
                       Termination.maxRuntimeMs := maxRuntimeMs;
                       Termination.warnAtPct := 80 |} |}.

Definition arxiv_search : WorkflowDefinition :=
  {| kind := "process";
     version := "1";
     metadata := metadataOf "arxiv_search"
                   "Search arXiv for papers and extract results" 5 30000;
     nodes :=
       [ {| id := "fetch_arxiv";
            actionRef := "plugin.http.get";
            schemaVersion := "v1";
            input :=
              VObj [("url", VStr "https://export.arxiv.org/api/query");
                    ("params",
                     VObj [("search_query", VStr "all:{query}");
                           ("start", VNum 0);
                           ("max_results", VNum 5)]);
                    ("headers",
                     VObj [("Accept", VStr "application/atom+xml"); userAgent])];
            dependsOn := None;
            timeoutMs := Some 15000;
            retry := Some {| maxAttempts := 2; backoffMs := 1000 |} |};
         {| id := "parse_xml";
            actionRef := "plugin.transform.xml2json";
            schemaVersion := "v1";
            input :=
              VObj [("xml", VObj [("$ref", VStr "$.nodes.fetch_arxiv.output.body")])];
            dependsOn := Some ["fetch_arxiv"];
            timeoutMs := None;
            retry := None |} ] |}.

Definition wikiApi : string := "https://en.wikipedia.org/w/api.php".

Definition wiki_summary : WorkflowDefinition :=
  {| kind := "process";
     version := "1";
     metadata := metadataOf "wiki_summary"
                   "Search Wikipedia and summarize top result" 10 60000;
     nodes :=
       [ {| id := "search_wiki";
            actionRef := "plugin.http.get";
            schemaVersion := "v1";
            input :=
              VObj [("url", VStr wikiApi);
                    ("params",
                     VObj [("action", VStr "query");
                           ("list", VStr "search");
                           ("srsearch", VStr "{query}");
                           ("srlimit", VNum 3);
                           ("format", VStr "json")]);
                    ("headers", VObj [userAgent])];
            dependsOn := None;
            timeoutMs := Some 15000;
            retry := Some {| maxAttempts := 2; backoffMs := 1000 |} |};
         {| id := "extract_title";
            actionRef := "plugin.transform.jq";
            schemaVersion := "v1";
            input :=
              VObj [("data", VObj [("$ref", VStr "$.nodes.search_wiki.output.body")]);
                    ("expression", VStr ".query.search[0].title")];
            dependsOn := Some ["search_wiki"];
            timeoutMs := None;
            retry := None |};
         {| id := "fetch_extract";
            actionRef := "plugin.http.get";
            schemaVersion := "v1";
            input :=
              VObj [("url", VStr wikiApi);
                    ("params",
                     VObj [("action", VStr "query");
                           ("prop", VStr "extracts");
                           ("explaintext", VNum 1);
                           ("exintro", VNum 1);
                           ("titles",
                            VObj [("$ref", VStr "$.nodes.extract_title.output.result")]);
                           ("format", VStr "json")]);
                    ("headers", VObj [userAgent])];
            dependsOn := Some ["extract_title"];
            timeoutMs := Some 15000;
            retry := None |};
         {| id := "extract_content";
            actionRef := "plugin.transform.jq";
            schemaVersion := "v1";
            input :=
              VObj [("data", VObj [("$ref", VStr "$.nodes.fetch_extract.output.body")]);
                    ("expression",
                     VStr ".query.pages | to_entries | .[0].value.extract")];
            dependsOn := Some ["fetch_extract"];
            timeoutMs := None;
            retry := None |} ] |}.

Definition book_search : WorkflowDefinition :=
  {| kind := "process";
     version := "1";
     metadata := metadataOf "book_search"
                   "Search Open Library for books and authors" 5 30000;
     nodes :=
       [ {| id := "search_books";
            actionRef := "plugin.http.get";
            schemaVersion := "v1";
            input :=
              VObj [("url", VStr "https://openlibrary.org/search.json");
                    ("params",
                     VObj [("q", VStr "{query}");
                           ("limit", VNum 5);
                           ("fields",
                            VStr "key,title,author_name,first_publish_year,subject,cover_i")]);
                    ("headers", VObj [userAgent])];
            dependsOn := None;
            timeoutMs := Some 15000;
            retry := Some {| maxAttempts := 2; backoffMs := 1000 |} |};
         {| id := "extract_books";
            actionRef := "plugin.transform.jq";
            schemaVersion := "v1";
            input :=
              VObj [("data", VObj [("$ref", VStr "$.nodes.search_books.output.body")]);
                    ("expression", VStr ".docs")];
            dependsOn := Some ["search_books"];
            timeoutMs := None;
            retry := None |} ] |}.

Definition WORKFLOWS : Obj.t WorkflowDefinition :=
  [("arxiv_search", arxiv_search);
   ("wiki_summary", wiki_summary);
   ("book_search", book_search)].

Definition PRESET_QUERIES : Obj.t (list string) :=
  [("arxiv_search", ["transformer"; "reinforcement learning"; "LLM agents"]);
   ("wiki_summary", ["generative AI"; "neural networks"; "Alan Turing"]);
   ("book_search", ["dune"; "artificial intelligence"; "Isaac Asimov"])].

(** A JSON schema of the registry: an object type, the names it requires
    and the types of its properties ([{}] where the source gives none). *)
Definition schema (required : list string) (properties : list (string * value))
    : value :=
  VObj ([("type", VStr "object")]
        ++ match required with
           | [] => []
           | _ => [("required", VArr (map VStr required))]
           end
        ++ [("properties", VObj properties)]).

Definition typed (t : string) : value := VObj [("type", VStr t)].

Module Entry.
Record t := {
  title : string;
  inputSchema : value;
  outputSchema : value
}.
End Entry.

Definition REGISTRY : Obj.t Entry.t :=
  [("plugin.http.get",
    {| Entry.title := "HTTP GET Request";
       Entry.inputSchema :=
         schema ["url"] [("url", typed "string"); ("params", typed "object");
                         ("headers", typed "object")];
       Entry.outputSchema :=
         schema ["status"; "body"] [("status", typed "integer"); ("body", VObj [])] |});
   ("plugin.transform.xml2json",
    {| Entry.title := "Transform XML to JSON";
       Entry.inputSchema := schema ["xml"] [("xml", typed "string")];
       Entry.outputSchema := schema ["json"] [("json", VObj [])] |});
   ("plugin.transform.jq",
    {| Entry.title := "JQ Transform";
       Entry.inputSchema :=
         schema ["data"; "expression"]
           [("data", VObj []); ("expression", typed "string")];
       Entry.outputSchema := schema ["result"] [("result", VObj [])] |});
   ("plugin.llm.complete",
    {| Entry.title := "LLM Completion";
       Entry.inputSchema :=
         schema ["prompt"] [("prompt", typed "string"); ("model", typed "string")];
       Entry.outputSchema := schema ["text"] [("text", typed "string")] |});
   ("plugin.core.echo",
    {| Entry.title := "Echo (passthrough)";
       Entry.inputSchema := schema [] [("data", VObj [])];
       Entry.outputSchema := schema [] [("data", VObj [])] |});
   ("plugin.files.write",
    {| Entry.title := "Write File";
       Entry.inputSchema :=
         schema ["path"; "content"]
           [("path", typed "string"); ("content", typed "string")];
       Entry.outputSchema :=
         schema ["bytesWritten"] [("bytesWritten", typed "integer")] |})].

End Catalog.

(** ** The HTTP route *)

(** The body of a response: an error message, or the result of a run. *)
Inductive payload : Type :=
| ErrorBody (error : string)
| ResultBody (result : ExecutionResult.t).

Module Response.
Record t := {
  status : Z;
  body : payload
}.
End Response.

(** What the route does with a request: it answers, or the run left the
    modelled fragment. *)
Inductive reply : Type :=
| Replied (response : Response.t)
| Unanswered.

(** What [WORKFLOWS[key]] gives: a workflow, something inherited that is
    no workflow, or [undefined]. *)
Inductive found : Type :=
| Own (workflow : WorkflowDefinition)
| Inherited
| Missing.

Definition lookup (key : string) : found :=
  match Obj.get key Catalog.WORKFLOWS with
  | Some workflow => Own workflow
  | None => if includes key objectPrototype then Inherited else Missing
  end.

(** [const { workflowName, query } = body]. *)
Definition destructure (body : value) : outcome (value * value) :=
  match body with
  | VUndefined =>
      Throw "Cannot destructure property 'workflowName' of 'body' as it is undefined."
  | VNull =>
      Throw "Cannot destructure property 'workflowName' of 'body' as it is null."
  | _ =>
      Ok (match getField "workflowName" body with Some v => v | None => VUndefined end,
          match getField "query" body with Some v => v | None => VUndefined end)
  end.

Section Route.

(** The environment of the plugins and the clock of the engine. *)
Variable World : Type.
Variable URL : Type.
Variable parseURL : string -> outcome URL.
Variable setParam : string -> string -> URL -> URL.
Variable href : URL -> string.
Variable fetch : string -> value -> World -> outcome HttpResponse.t * World.
Variable parseXML : string -> outcome value.
Variable clock : nat -> Z.

(** [executeWorkflow] with the handlers of the runner. *)
Definition run : WorkflowDefinition -> string -> World -> flow World :=
  executeWorkflow (httpGetHandler parseURL setParam href fetch)
    (xml2jsonHandler (World := World) parseXML) clock.

Definition respond (status : Z) (body : payload) (w : World) (effs : list effect)
    : reply * World * list effect :=
  (Replied {| Response.status := status; Response.body := body |}, w, effs).

(** [POST(request)], given what [request.json()] settles with.  The world
    and the effects of the run come with the reply. *)
Definition POST (json : outcome value) (w : World)
    : reply * World * list effect :=
  match json with
  | Throw message => respond 500 (ErrorBody message) w []
  | Ok body =>
      match destructure body with
      | Throw message => respond 500 (ErrorBody message) w []
      | Ok (workflowName, query) =>
          if negb (truthy workflowName) || negb (truthy query) then
            respond 400 (ErrorBody "Missing workflowName or query") w []
          else
            match toStr workflowName with
            | Throw message => respond 500 (ErrorBody message) w []
            | Ok key =>
                match lookup key with
                | Missing =>
                    respond 404 (ErrorBody ("Unknown workflow: " +++ key)) w []
                | Inherited =>
                    respond 500
                      (ErrorBody "Cannot read properties of undefined (reading 'name')")
                      w []
                | Own workflow =>
                    match toStr query with
                    | Throw message => respond 500 (ErrorBody message) w []
                    | Ok text =>
                        match run workflow text w with
                        | Returned result r =>
                            respond 200 (ResultBody result) (world r) (effects r)
                        | Raised message r =>
                            respond 500 (ErrorBody message) (world r) (effects r)
                        | Continue r => (Unanswered, world r, effects r)
                        | Outside r => (Unanswered, world r, effects r)
                        end
                    end
                end
            end
      end
  end.

End Route.

(** ** The drawing of the graph *)

Module Dag.

(** The inner loop of the second pass: one unit of in-degree per entry of
    [dependsOn]. *)
Definition countOnly (n : WorkflowNode) (indeg : Obj.t Z) : Obj.t Z :=
  fold_left (fun m _dep => Topo.bump (id n) m) (deps n) indeg.

(** [if (byId[cur]) order.push(byId[cur])]. *)
Definition draw (byId : Obj.t WorkflowNode) (cur : string)
    (order : list WorkflowNode) : list WorkflowNode :=
  match Obj.get cur byId with
  | Some n => order ++ [n]
  | None => order
  end.

(** The [while (queue.length > 0)] loop, bounded by [fuel] iterations. *)
Fixpoint drainNodes (fuel : nat) (nodes : list WorkflowNode)
    (byId : Obj.t WorkflowNode) (indeg : Obj.t Z) (queue : list string)
    (order : list WorkflowNode) : list WorkflowNode :=
  match fuel with
  | O => order
  | S fuel' =>
      match queue with
      | [] => order
      | cur :: rest =>
          let order' := draw byId cur order in
          let '(indeg', queue') := Topo.relax cur nodes indeg rest in
          drainNodes fuel' nodes byId indeg' queue' order'
      end
  end.

(** [byId[n.id] = n]: under [__proto__] the assignment goes to the setter
    and makes the node the prototype of the table instead of an entry.
    Only keys of [indeg] are looked up in the table, and each of them has
    an entry of its own, so what the table inherits is never seen. *)
Definition remember (n : WorkflowNode) (byId : Obj.t WorkflowNode)
    : Obj.t WorkflowNode :=
  if String.eqb (id n) "__proto__" then byId else Obj.set (id n) n byId.

Definition topoOrder (nodes : list WorkflowNode) : list WorkflowNode :=
  let '(byId, indeg) :=
    fold_left (fun st n => (remember n (fst st), Topo.ensure (id n) (snd st)))
      nodes ([], []) in
  let indeg := fold_left (fun m n => countOnly n m) nodes indeg in
  let queue := Topo.select (fun d => d =? 0) indeg in
  let fuel := (List.length queue + Topo.potential indeg)%nat in
  drainNodes fuel nodes byId indeg queue [].

End Dag.

(** ** Vocabulary of the dependency graph *)

Module Graph.

Definition ids (nodes : list WorkflowNode) : list string := map id nodes.

(** [x] lists [d] in its [dependsOn]. *)
Definition depends (nodes : list WorkflowNode) (x d : string) : Prop :=
  exists n, In n nodes /\ id n = x /\ In d (deps n).

(** Some identifier reaches itself along [dependsOn] edges. *)
Definition onCycle (nodes : list WorkflowNode) (x : string) : Prop :=
  clos_trans string (depends nodes) x x.

Definition hasCycle (nodes : list WorkflowNode) : Prop :=
  exists x, onCycle nodes x.

Definition acyclic (nodes : list WorkflowNode) : Prop :=
  forall x, ~ onCycle nodes x.

(** Every [dependsOn] entry names a node of the workflow. *)
Definition closed (nodes : list WorkflowNode) : Prop :=
  forall n d, In n nodes -> In d (deps n) -> In d (ids nodes).

(** No [dependsOn] list repeats an entry. *)
Definition simple (nodes : list WorkflowNode) : Prop :=
  forall n, In n nodes -> NoDup (deps n).

(** [a] stands at an earlier position of [l] than [b]. *)
Definition precedes (l : list string) (a b : string) : Prop :=
  exists i j, nth_error l i = Some a /\ nth_error l j = Some b /\ (i < j)%nat.

(** No node identifier is a canonical array index. *)
Definition plainIds (nodes : list WorkflowNode) : Prop :=
  forall n, In n nodes -> Obj.arrayIndex (id n) = None.

(** No node identifier is the name of a member of [Object.prototype]. *)
Definition properIds (nodes : list WorkflowNode) : Prop :=
  forall n, In n nodes -> inherited (id n) = false.

End Graph.

(** ** Sample workflows and environments *)

Module Demo.

Definition node (i action : string) (inp : value) (ds : option (list string))
    (t : option Z) (p : option RetryPolicy) : WorkflowNode :=
  {| id := i; actionRef := action; schemaVersion := "v1"; input := inp;
     dependsOn := ds; timeoutMs := t; retry := p |}.

Definition workflow (ns : list WorkflowNode) : WorkflowDefinition :=
  {| kind := "process";
     version := "1";
     metadata :=
       {| name := "demo"; description := "sample"; risk := "low";
          principal := {| Principal.id := "system:demo";
                          Principal.permissions := ["read:http"] |};
          termination := {| Termination.maxNodes := 5;
                            Termination.maxRuntimeMs := 30000;
                            Termination.warnAtPct := 80 |} |};
     nodes := ns |}.

(** A transform node that hands its [data] through unchanged. *)
Definition pass (i : string) (ds : option (list string)) (t : option Z)
    : WorkflowNode :=
  node i "plugin.transform.jq"
    (VObj [("data", VNum 1); ("expression", VStr ".")]) ds t None.

(** A handler that rejects its first [failures] calls and resolves with
    [out] from then on; the world counts the calls made so far. *)
Definition flaky (failures : nat) (out : value) : ActionHandler nat :=
  fun _ _ calls =>
    (if (calls <? failures)%nat then Throw "unavailable" else Ok out, S calls).

(** A handler that always rejects. *)
Definition down : ActionHandler nat :=
  fun _ _ calls => (Throw "unavailable", S calls).

(** A handler that rejects every call with the number of the call. *)
Definition counting : ActionHandler nat :=
  fun _ _ calls => (Throw ("call " +++ Str.ofZ (Z.of_nat calls)), S calls).

(** A clock that advances by [ms] between two readings. *)
Definition every (ms : Z) (i : nat) : Z := ms * Z.of_nat i.

(** A query made of one double quote. *)
Definition quoteQuery : string := String JSON.dquote EmptyString.

(** Two nodes that wait for each other. *)
Definition deadlock : WorkflowDefinition :=
  workflow [pass "x" (Some ["y"]) None; pass "y" (Some ["x"]) None].

(** One node that waits for an identifier nobody declares. *)
Definition dangling : WorkflowDefinition :=
  workflow [pass "b" (Some ["ghost"]) None].

(** A fetch whose first two calls are rejected. *)
Definition body : value :=
  VObj [("status", VNum 200); ("body", VObj [("items", VArr [VNum 10; VNum 20])])].

Definition fetch (p : option RetryPolicy) (t : option Z) : WorkflowNode :=
  node "fetch" "plugin.http.get" (VObj [("url", VStr "http://example/{query}")])
    None t p.

Definition fresh : Run nat :=
  {| logs := []; nodeExecutions := []; context := []; world := O; ticks := O;
     effects := [] |}.

Definition patient : RetryPolicy := {| maxAttempts := 3; backoffMs := 250 |}.
Definition hasty : RetryPolicy := {| maxAttempts := 2; backoffMs := 250 |}.

Definition fetchInput : value := VObj [("url", VStr "http://example/q")].
Definition fetchCall : effect := Invoked "plugin.http.get" "fetch" fetchInput.

(** One transform node with a timeout of one second. *)
Definition timed : WorkflowDefinition :=
  workflow [pass "a" None (Some 1000)].

(** A node whose action is not registered. *)
Definition unknownAction : WorkflowNode :=
  node "send" "plugin.mail.send" (VObj []) None None None.

(** A diamond: [d] waits for [b] and [c], which both wait for [a]. *)
Definition diamond : list WorkflowNode :=
  [pass "a" None None; pass "b" (Some ["a"]) None;
   pass "c" (Some ["a"]) None; pass "d" (Some ["b"; "c"]) None].

(** Node [b] lists its only dependency [a] twice. *)
Definition repeated : WorkflowDefinition :=
  workflow [pass "a" None None; pass "b" (Some ["a"; "a"]) None].

(** A node named like a member of [Object.prototype] that waits for
    itself. *)
Definition selfish : WorkflowDefinition :=
  workflow [pass "toString" (Some ["toString"]) None].

(** The two-node scenario: [use] reads the field [value] of the [body]
    that [fetch] returned. *)
Definition fetched : value :=
  VObj [("status", VNum 200); ("body", VObj [("value", VStr "x")])].

Definition scenario : WorkflowDefinition :=
  workflow
    [node "fetch" "plugin.http.get" (VObj [("url", VStr "http://example/{query}")])
       None None None;
     node "use" "plugin.transform.xml2json"
       (VObj [("v", VObj [("$ref", VStr "$.nodes.fetch.output.body.value")])])
       (Some ["fetch"]) None None].

End Demo.

(** ** Vocabulary of reference paths *)

Module Path.

(** A string of decimal digits. *)
Fixpoint digits (s : string) : bool :=
  match s with
  | EmptyString => true
  | String a rest => Str.isDigit a && digits rest
  end.

(** The number a string of decimal digits denotes. *)
Fixpoint decimal (acc : Z) (s : string) : Z :=
  match s with
  | EmptyString => acc
  | String a rest => decimal (10 * acc + Str.digitVal a) rest
  end.

(** One token of a path: a field, or a field followed by a bracketed
    index (the field may be empty: a bare index). *)
Inductive selector : Type :=
| Field (name : string)
| At (name : string) (index : string).

Definition render (s : selector) : string :=
  match s with
  | Field f => f
  | At f ds => f +++ "[" +++ ds +++ "]"
  end.






(** What is stored in a piece of data under a name: a property of an
    object, the length or an element of an array. *)
Definition own (f : string) (v : value) : option value :=
  match v with
  | VObj fields => Obj.get f fields
  | VArr items => element f items
  | _ => None
  end.





End Path.

(** ** Vocabulary of the in-degree count *)

Module Degrees.
Import Obj Topo Graph.

(** The number stored under a key, 0 when there is none. *)
Definition val (m : Obj.t Z) (x : string) : Z :=
  match get x m with Some d => d | None => 0 end.

(** The in-degree the two counting loops give [x]: the total length of the
    [dependsOn] lists of the nodes called [x]; nothing is counted under an
    inherited name. *)
Fixpoint declared (nodes : list WorkflowNode) (x : string) : Z :=
  match nodes with
  | [] => 0
  | n :: rest =>
      (if String.eqb (id n) x && negb (inherited x)
       then Z.of_nat (List.length (deps n)) else 0)
      + declared rest x
  end.

(** How many of the nodes called [x] list [cur]. *)
Fixpoint listing (cur : string) (nodes : list WorkflowNode) (x : string) : Z :=
  match nodes with
  | [] => 0
  | n :: rest =>
      (if String.eqb (id n) x && negb (inherited x) && includes cur (deps n)
       then 1 else 0)
      + listing cur rest x
  end.

(** How many entries of [l] occur in [ds]. *)
Definition countIn (l ds : list string) : nat :=
  List.length (filter (fun c => includes c ds) l).

(** What the emitted identifiers [l] have taken off the in-degree of [x]. *)
Fixpoint consumed (l : list string) (nodes : list WorkflowNode) (x : string) : Z :=
  match nodes with
  | [] => 0
  | n :: rest =>
      (if String.eqb (id n) x && negb (inherited x)
       then Z.of_nat (countIn l (deps n)) else 0)
      + consumed l rest x
  end.

(** What the [while] loop of the sequencer maintains, for the key set [K]
    of the in-degree map: the keys stay, none of them is an inherited name,
    every stored number is the declared
    in-degree less what the emitted identifiers consumed, nothing is emitted
    or queued twice, an identifier is emitted or queued exactly when its
    number is used up, and whatever is emitted comes after the entries of
    its [dependsOn]. *)
Record Inv (nodes : list WorkflowNode) (K : list string)
    (m : Obj.t Z) (queue order : list string) : Prop := {
  inv_keys : keys m = K;
  inv_own : forall x, In x K -> inherited x = false;
  inv_val : forall x, val m x = declared nodes x - consumed order nodes x;
  inv_nodup : NoDup (order ++ queue);
  inv_mem : forall x, In x (order ++ queue) <-> In x K /\ val m x <= 0;
  inv_before : forall j y d,
      nth_error order j = Some y -> depends nodes y d ->
      exists i, (i < j)%nat /\ nth_error order i = Some d
}.

End Degrees.

(** ** Vocabulary of rounds and replays *)

Module Rounds.

Section Run.
Variable World : Type.
Variable clock : nat -> Z.

(** The state once the handler has settled and [reads] clock readings
    have been taken: the call is in the trace and the world has moved on;
    logs, records and context are as before. *)
Definition settled (r : Run World) (w' : World) (call : effect) (reads : nat)
    : Run World :=
  {| logs := logs r; nodeExecutions := nodeExecutions r; context := context r;
     world := w'; ticks := (reads + ticks r)%nat;
     effects := effects r ++ [call] |}.

(** The round that starts in state [rl] fails with message [err]: the
    handler rejects with it, or resolves too late. *)
Definition roundFails (handler : ActionHandler World) (node : WorkflowNode)
    (resolvedInput : value) (rl : Run World) (err : string) : Prop :=
  match handler node resolvedInput (world rl) with
  | (Throw e, _) => err = e
  | (Ok _, _) =>
      let durationMs := clock (S (ticks rl)) - clock (ticks rl) in
      overTime node durationMs = true
      /\ err = "Timeout exceeded: " +++ Str.ofZ durationMs +++ "ms > " +++
               Str.ofZ (match timeoutMs node with Some t => t | None => 0 end) +++
               "ms"
  end.

(** The state in which the next round starts once the round that started
    in state [rl] as attempt number [attempt] has failed: the handler has
    settled, the clock was read once before it and, when it resolved, once
    after it, and the catch block has run. *)
Definition afterFailure (handler : ActionHandler World) (nodeId : string)
    (node : WorkflowNode) (resolvedInput : value)
    (maxAttempts backoffMs attempt : Z) (rl : Run World) : Run World :=
  let call := Invoked (actionRef node) nodeId resolvedInput in
  match handler node resolvedInput (world rl) with
  | (Throw e, w') =>
      caught clock nodeId attempt maxAttempts backoffMs e (settled rl w' call 1)
  | (Ok _, w') =>
      let durationMs := clock (S (ticks rl)) - clock (ticks rl) in
      caught clock nodeId attempt maxAttempts backoffMs
        ("Timeout exceeded: " +++ Str.ofZ durationMs +++ "ms > " +++
         Str.ofZ (match timeoutMs node with Some t => t | None => 0 end) +++ "ms")
        (settled rl w' call 2)
  end.

(** [reaches ... attempt r last rl]: the round that starts in state [rl] is
    attempt number [last] of the loop whose attempt number [attempt]
    started in state [r]; every round in between has failed. *)
Inductive reaches (handler : ActionHandler World) (nodeId : string)
    (node : WorkflowNode) (resolvedInput : value) (maxAttempts backoffMs : Z)
    : Z -> Run World -> Z -> Run World -> Prop :=
| reaches_here attempt r :
    reaches handler nodeId node resolvedInput maxAttempts backoffMs
      attempt r attempt r
| reaches_next attempt r e last rl :
    roundFails handler node resolvedInput r e ->
    reaches handler nodeId node resolvedInput maxAttempts backoffMs
      (attempt + 1)
      (afterFailure handler nodeId node resolvedInput maxAttempts backoffMs
         attempt r)
      last rl ->
    reaches handler nodeId node resolvedInput maxAttempts backoffMs
      attempt r last rl.

End Run.

End Rounds.

Module Replay.






Section Run.
Variable World : Type.



End Run.

End Replay.

(** ** Vocabulary of the token walk *)

Module Walk.

(** The value the token loop has reached after [toks], when no token
    threw or left the function. *)
Fixpoint reach (cur : value) (toks : list string) : option value :=
  match toks with
  | [] => Some cur
  | tok :: rest =>
      match jqToken cur tok with
      | Next v => reach v rest
      | _ => None
      end
  end.

End Walk.

(** ** Vocabulary of the jq subset *)

Module Stages.
(** The stages of a pipe, evaluated one on the value of the other. *)
Fixpoint stagewise (data : value) (exprs : list string) : outcome value :=
  match exprs with
  | [] => Ok data
  | e :: rest =>
      match jqEval data e with
      | Ok v => stagewise v rest
      | Throw m => Throw m
      end
  end.
End Stages.

(** ** Vocabulary of a run *)

Module Trace.

(** [k] invocations with a sleep between two of them. *)
Fixpoint rounds (call : effect) (ms : Z) (k : nat) : list effect :=
  match k with
  | O => []
  | S k' =>
      match k' with
      | O => [call]
      | S _ => call :: Slept ms :: rounds call ms k'
      end
  end.

(** An effect that is not the invocation of another node. *)
Definition forNode (x : string) (e : effect) : Prop :=
  match e with
  | Invoked _ n _ => n = x
  | Slept _ => True
  end.

(** The record of a round that succeeded. *)
Definition successRecord (nodeId : string) (node : WorkflowNode)
    (resolvedInput output : value) (durationMs : Z) : NodeExecution.t :=
  {| NodeExecution.nodeId := nodeId;
     NodeExecution.action := actionRef node;
     NodeExecution.status := StatusSuccess;
     NodeExecution.durationMs := durationMs;
     NodeExecution.inputData := Some resolvedInput;
     NodeExecution.outputData := Some output;
     NodeExecution.error := None |}.

(** The handler of node [x] is invoked at place [j] of the trace. *)
Definition invokedAt (effs : list effect) (j : nat) (x : string) : Prop :=
  exists a inp, nth_error effs j = Some (Invoked a x inp).

(** Node [d] has a record with status success. *)
Definition succeeded (recs : list NodeExecution.t) (d : string) : Prop :=
  exists rec, In rec recs /\ NodeExecution.nodeId rec = d
              /\ NodeExecution.status rec = StatusSuccess.

Section Run.
Variable World : Type.

(** The state in which a run of the loop body, of the loop or of the
    function ended. *)
Definition stateOf (f : flow World) : Run World :=
  match f with
  | Continue r => r
  | Returned _ r => r
  | Raised _ r => r
  | Outside r => r
  end.

End Run.

Section Safety.
Variable World : Type.
Variable nodes : list WorkflowNode.

(** [nodeMap[x]] is a node. *)
Definition isNode (x : string) : bool :=
  Obj.has x (Obj.fromEntries (map (fun n => (id n, n)) nodes)).

(** Every handler invocation in the trace comes after an invocation of
    each dependency that is a node, and that dependency has succeeded. *)
Definition safe (r : Run World) : Prop :=
  forall j x d,
    invokedAt (effects r) j x -> Graph.depends nodes x d -> In d (Graph.ids nodes) ->
    (exists i, (i < j)%nat /\ invokedAt (effects r) i d)
    /\ succeeded (nodeExecutions r) d.

(** What holds between two rounds of the node loop, [done] being the
    identifiers gone through. *)
Record Between (done : list string) (r : Run World) : Prop := {
  bt_invoked : forall j x, invokedAt (effects r) j x -> In x done;
  bt_done : forall d, In d done -> In d (Graph.ids nodes) ->
      (exists i, invokedAt (effects r) i d) /\ succeeded (nodeExecutions r) d;
  bt_safe : safe r;
  bt_records : map NodeExecution.nodeId (nodeExecutions r) = filter isNode done;
  bt_success : Forall (fun rec => NodeExecution.status rec = StatusSuccess)
                 (nodeExecutions r)
}.

End Safety.

End Trace.

(** ** Vocabulary of JSON values and their text *)

Module Shape.

(** Induction over values, through the lists they nest. *)
Section Induction.
Variable P : value -> Prop.
Hypothesis on_undefined : P VUndefined.
Hypothesis on_null : P VNull.
Hypothesis on_bool : forall b, P (VBool b).
Hypothesis on_num : forall n, P (VNum n).
Hypothesis on_str : forall s, P (VStr s).
Hypothesis on_arr : forall items, Forall P items -> P (VArr items).
Hypothesis on_obj :
  forall fields, Forall (fun kv => P (snd kv)) fields -> P (VObj fields).
Hypothesis on_proto : forall c, P (VProto c).
Hypothesis on_method : forall c name, P (VMethod c name).
Hypothesis on_over :
  forall proto fields,
    P proto -> Forall (fun kv => P (snd kv)) fields -> P (VOver proto fields).

Fixpoint value_nested (v : value) : P v :=
  match v with
  | VProto c => on_proto c
  | VMethod c name => on_method c name
  | VOver proto fields =>
      on_over (value_nested proto)
        ((fix all (l : list (string * value))
            : Forall (fun kv => P (snd kv)) l :=
            match l with
            | [] => Forall_nil _
            | (k, x) :: tl =>
                Forall_cons (P := fun kv => P (snd kv)) (k, x)
                  (value_nested x) (all tl)
            end) fields)
  | VUndefined => on_undefined
  | VNull => on_null
  | VBool b => on_bool b
  | VNum n => on_num n
  | VStr s => on_str s
  | VArr items =>
      on_arr
        ((fix all (l : list value) : Forall P l :=
            match l with
            | [] => Forall_nil P
            | x :: tl => Forall_cons x (value_nested x) (all tl)
            end) items)
  | VObj fields =>
      on_obj
        ((fix all (l : list (string * value))
            : Forall (fun kv => P (snd kv)) l :=
            match l with
            | [] => Forall_nil _
            | (k, x) :: tl =>
                Forall_cons (P := fun kv => P (snd kv)) (k, x)
                  (value_nested x) (all tl)
            end) fields)
  end.

End Induction.

(** [p] holds of a value and of every value inside it. *)
Fixpoint everywhere (p : value -> bool) (v : value) : bool :=
  p v &&
  match v with
  | VArr items => forallb (everywhere p) items
  | VObj fields => forallb (fun kv => everywhere p (snd kv)) fields
  | VOver proto fields =>
      everywhere p proto && forallb (fun kv => everywhere p (snd kv)) fields
  | _ => true
  end.

(** Data: a value that is neither a prototype object, nor a function, nor
    an object whose prototype was replaced. *)
Definition isData (v : value) : bool :=
  match v with
  | VProto _ | VMethod _ _ | VOver _ _ => false
  | _ => true
  end.

(** What [JSON.stringify] prints for a value inside an array. *)
Definition text (v : value) : string :=
  match JSON.stringify v with
  | Some t => t
  | None => "null"
  end.

(** A value [JSON.stringify] prints in full and [JSON.parse] reads
    exactly: data without [undefined], integers up to 2^53 in magnitude. *)
Definition printable (v : value) : bool :=
  match v with
  | VUndefined => false
  | VNum n => (Z.abs n <=? 9007199254740992)
  | v => isData v
  end.

(** Keys in the order [Object.entries] gives them: the array indices
    first, ascending from [lo], then the other keys. *)
Fixpoint inOrder (lo : option Z) (ks : list string) : bool :=
  match ks with
  | [] => true
  | k :: rest =>
      match Obj.arrayIndex k, lo with
      | Some i, Some j => (j <? i) && inOrder (Some i) rest
      | Some _, None => false
      | None, _ => inOrder None rest
      end
  end.

Fixpoint distinct (ks : list string) : bool :=
  match ks with
  | [] => true
  | k :: rest => negb (existsb (String.eqb k) rest) && distinct rest
  end.

(** An object as the engine holds it: no key twice, keys in enumeration
    order. *)
Definition enumerated (v : value) : bool :=
  match v with
  | VObj fields =>
      distinct (map fst fields) && inOrder (Some (-1)) (map fst fields)
  | _ => true
  end.

(** The object a list of members builds, member by member. *)
Fixpoint norm (v : value) : value :=
  match v with
  | VArr items => VArr (map norm items)
  | VObj fields =>
      VObj (fold_left (fun o kv => Obj.set (fst kv) (norm (snd kv)) o) fields [])
  | _ => v
  end.

(** An object none of whose keys is [__proto__]. *)
Definition plainKeys (v : value) : bool :=
  match v with
  | VObj fields =>
      forallb (fun kv => negb (String.eqb (fst kv) "__proto__")) fields
  | _ => true
  end.

(** An object made of the one key [$ref] with a string under it. *)
Definition reference (v : value) : bool :=
  match v with
  | VObj fields =>
      match refOf fields with
      | Some _ => true
      | None => false
      end
  | _ => false
  end.

End Shape.

Module Printed.
Import Str JSON Shape.

(** The number a string of decimal digits denotes, read from the left. *)
Fixpoint uintVal (acc : Z) (d : Decimal.uint) : Z :=
  match d with
  | Nil => acc
  | D0 l => uintVal (10 * acc + 0) l
  | D1 l => uintVal (10 * acc + 1) l
  | D2 l => uintVal (10 * acc + 2) l
  | D3 l => uintVal (10 * acc + 3) l
  | D4 l => uintVal (10 * acc + 4) l
  | D5 l => uintVal (10 * acc + 5) l
  | D6 l => uintVal (10 * acc + 6) l
  | D7 l => uintVal (10 * acc + 7) l
  | D8 l => uintVal (10 * acc + 8) l
  | D9 l => uintVal (10 * acc + 9) l
  end.

(** Where a number literal ends: not before a digit, a point or an
    exponent mark. *)
Definition stops (rest : string) : Prop :=
  match rest with
  | EmptyString => True
  | String c _ =>
      isDigit c = false /\ Ascii.eqb c "." = false
      /\ Ascii.eqb c "e" = false /\ Ascii.eqb c "E" = false
  end.

(** What a member of an object prints as. *)
Definition memberText (kv : string * value) : string :=
  quote (fst kv) +++ ":" +++ text (snd kv).

(** What a printed value starts with. *)
Definition opening (c : ascii) : Prop :=
  isWs c = false /\ Ascii.eqb c "]" = false /\ Ascii.eqb c "}" = false.

End Printed.

(** ** Vocabulary of the query substitution *)

Module Fill.

(** A character that JSON text carries as it is. *)
Definition verbatim (a : ascii) : bool :=
  let n := nat_of_ascii a in
  (32 <=? n)%nat && negb (n =? 34)%nat && negb (n =? 92)%nat.

(** No [$`] and no [$'] is read as a pattern of the replacement text. *)
Fixpoint contextFree (template : string) : bool :=
  match template with
  | EmptyString => true
  | String "$" (String c rest as tl) =>
      if Ascii.eqb c "$" then contextFree rest
      else if Ascii.eqb c "&" then contextFree rest
      else if Ascii.eqb c "`" then false
      else if Ascii.eqb c "'" then false
      else contextFree tl
  | String _ rest => contextFree rest
  end.

(** A query that can be pasted into JSON text: nothing to escape, and no
    pattern that copies the text around the match. *)
Definition tame (query : string) : bool :=
  forallb verbatim (list_ascii_of_string query) && contextFree query.

(** [s.replace(/\{query\}/g, query)] on one string. *)
Definition fillString (query s : string) : string :=
  replaceQuery query EmptyString 0 s.

(** A function on strings applied to every string and every key. *)
Fixpoint mapText (f : string -> string) (v : value) : value :=
  match v with
  | VStr s => VStr (f s)
  | VArr items => VArr (map (mapText f) items)
  | VObj fields => VObj (map (fun kv => (f (fst kv), mapText f (snd kv))) fields)
  | _ => v
  end.

(** [p] holds of every string and every key. *)
Fixpoint allText (p : string -> bool) (v : value) : bool :=
  match v with
  | VStr s => p s
  | VArr items => forallb (allText p) items
  | VObj fields => forallb (fun kv => p (fst kv) && allText p (snd kv)) fields
  | _ => true
  end.

(** A string [substituteQuery] handles: the query is tame, or the string
    does not hold the placeholder. *)
Definition fits (query s : string) : bool :=
  tame query || negb (occurs "{query}" s).

(** A piece of text that [replace] copies: [p'] is what comes out for
    [p], whatever was scanned before and whatever follows. *)
Definition scans (query p p' : string) : Prop :=
  forall before rest,
    replaceQuery query before 0 (p +++ rest)
    = p' +++ replaceQuery query (before +++ p) 0 rest.

(** The text [replace] looks for. *)
Definition placeholder : string := "{query}".

(** Every character of [s] is carried by JSON text as it is. *)
Definition carried (s : string) : bool :=
  forallb verbatim (list_ascii_of_string s).

(** What the strings of a template must be like: the query is tame, or the
    string does not hold the placeholder. *)
Definition fit (query s : string) : Prop :=
  tame query = true \/ occurs placeholder s = false.

End Fill.

(** ** Vocabulary of the drawing and of the registry *)

Module Drawing.
Import Obj Topo Dag.

(** The table of the first loop: the last node declared under each id. *)
Definition table (nodes : list WorkflowNode) (byId : Obj.t WorkflowNode)
    : Obj.t WorkflowNode :=
  fold_left (fun b n => remember n b) nodes byId.

(** The counts of the second loop. *)
Definition counts (nodes : list WorkflowNode) (indeg : Obj.t Z) : Obj.t Z :=
  fold_left (fun m n => countOnly n m) nodes indeg.

End Drawing.

Module Registry.

(** The names a schema lists under [required]. *)
Definition required (schema : value) : list string :=
  match schema with
  | VObj fields =>
      match Obj.get "required" fields with
      | Some (VArr names) =>
          flat_map (fun v => match v with VStr s => [s] | _ => [] end) names
      | _ => []
      end
  | _ => []
  end.

(** [v] is an object with an own property for every required name. *)
Definition meets (schema v : value) : bool :=
  match v with
  | VObj fields => forallb (fun k => Obj.has k fields) (required schema)
  | _ => false
  end.

End Registry.

(** ** Vocabulary of the node records *)

Module Ledger.

(** The context that a list of node records accounts for: the recorded
    outputs, stored in the order of the records. *)
Definition contextOf (recs : list NodeExecution.t) : Obj.t value :=
  fold_left (fun c rec =>
               match NodeExecution.outputData rec with
               | Some out => Obj.set (NodeExecution.nodeId rec) out c
               | None => c
               end) recs [].

(** A success record is accounted for by the records before it: it is the
    record of a node of the workflow, and its input is the template of that
    node with the query filled in and the references resolved against the
    outputs recorded so far. *)
Definition explained (nodes : list WorkflowNode) (query : string)
    (before : list NodeExecution.t) (rec : NodeExecution.t) : Prop :=
  NodeExecution.status rec = StatusSuccess ->
  exists node substituted resolvedInput output,
    Obj.get (NodeExecution.nodeId rec)
      (Obj.fromEntries (map (fun n => (id n, n)) nodes)) = Some node
    /\ NodeExecution.action rec = actionRef node
    /\ substituteQuery (input node) query = Normal substituted
    /\ resolveInput substituted (contextOf before) = Ok resolvedInput
    /\ NodeExecution.inputData rec = Some resolvedInput
    /\ NodeExecution.outputData rec = Some output.

(** The records account for the context, and every record is accounted
    for by the records before it. *)
Definition balanced (World : Type) (nodes : list WorkflowNode) (query : string)
    (r : Run World) : Prop :=
  context r = contextOf (nodeExecutions r)
  /\ forall before rec after,
       nodeExecutions r = before ++ rec :: after ->
       explained nodes query before rec.

(** The time the records account for. *)
Definition spent (recs : list NodeExecution.t) : Z :=
  fold_right (fun rec acc => NodeExecution.durationMs rec + acc) 0 recs.

(** A clock that never goes back. *)
Definition monotone (clock : nat -> Z) : Prop :=
  forall i j, (i <= j)%nat -> clock i <= clock j.

(** The clock has been read, no recorded duration is negative, and the
    recorded durations fit between the start and the last reading. *)
Definition timed (World : Type) (clock : nat -> Z) (startTime : Z)
    (r : Run World) : Prop :=
  (1 <= ticks r)%nat
  /\ Forall (fun rec => 0 <= NodeExecution.durationMs rec) (nodeExecutions r)
  /\ startTime + spent (nodeExecutions r) <= clock (ticks r - 1)%nat.

End Ledger.

(** ** A sample environment *)

Module Sample.

(** URLs are their text; setting a parameter appends it. *)
Definition parseURL (s : string) : outcome string := Ok s.

Definition setParam (k v url : string) : string :=
  url +++ "&" +++ k +++ "=" +++ v.

Definition href (url : string) : string := url.

(** A network that answers every request with the same JSON document; the
    world counts the requests. *)
Definition answer : HttpResponse.t :=
  {| HttpResponse.status := 200;
     HttpResponse.contentType := Some "application/json";
     HttpResponse.json := Ok (VObj [("docs", VArr [VStr "Dune"])]);
     HttpResponse.text := Ok "{}" |}.

Definition network (url : string) (headers : value) (calls : nat)
    : outcome HttpResponse.t * nat :=
  (Ok answer, S calls).

Definition parseXML (xml : string) : outcome value := Ok (VStr xml).

Definition http : ActionHandler nat := httpGetHandler parseURL setParam href network.

Definition xml : ActionHandler nat := xml2jsonHandler parseXML.

(** Node [b] waits for node [a]. *)
Definition chain : WorkflowDefinition :=
  Demo.workflow [Demo.pass "a" None None; Demo.pass "b" (Some ["a"]) None].

(** A request to no address, tried twice. *)
Definition blank : WorkflowNode :=
  Demo.node "fetch" "plugin.http.get" (VObj [("url", VStr EmptyString)])
    None None (Some Demo.hasty).

(** A node that is given no attempt. *)
Definition idle : WorkflowNode :=
  Demo.fetch (Some {| maxAttempts := 0; backoffMs := 250 |}) None.

End Sample.

(** * Properties *)

(** ** Ordered property lists *)

Module ObjFacts.
Import Obj.

Section Facts.
Variable A : Type.
Implicit Types (o : Obj.t A) (k : string) (v : A).

Lemma get_update_same k v o :
  has k o = true -> get k (update k v o) = Some v.
Proof.
  unfold has. induction o as [|[k' v'] o IH]; simpl; [discriminate|].
  destruct (String.eqb k k') eqn:E; simpl; rewrite E; auto.
Qed.

Lemma get_update_other k k' v o :
  k <> k' -> get k' (update k v o) = get k' o.
Proof.
  intros Hne. induction o as [|[k0 v0] o IH]; simpl; auto.
  destruct (String.eqb k k0) eqn:E; simpl.
  - apply String.eqb_eq in E. subst k0.
    destruct (String.eqb k' k) eqn:E'; auto.
    apply String.eqb_eq in E'. congruence.
  - rewrite IH. reflexivity.
Qed.

Lemma keys_update k v o : keys (update k v o) = keys o.
Proof.
  unfold keys. induction o as [|[k0 v0] o IH]; simpl; auto.
  destruct (String.eqb k k0); simpl; congruence.
Qed.

Lemma get_insertIndex_same i k v o :
  has k o = false -> get k (insertIndex i k v o) = Some v.
Proof.
  unfold has. induction o as [|[k0 v0] o IH]; simpl; intros H.
  - now rewrite String.eqb_refl.
  - destruct (String.eqb k k0) eqn:E; [discriminate|].
    destruct (arrayIndex k0) as [j|]; [destruct (j <? i)|]; simpl;
      rewrite ?E, ?String.eqb_refl; auto.
Qed.

Lemma get_insertIndex_other i k k' v o :
  k <> k' -> get k' (insertIndex i k v o) = get k' o.
Proof.
  intros Hne.
  assert (Hk : String.eqb k' k = false) by (apply String.eqb_neq; congruence).
  induction o as [|[k0 v0] o IH]; simpl.
  - now rewrite Hk.
  - destruct (arrayIndex k0) as [j|]; [destruct (j <? i)|]; simpl;
      rewrite ?Hk, ?IH; auto.
Qed.

Lemma keys_insertIndex i k v o :
  Permutation (keys (insertIndex i k v o)) (k :: keys o).
Proof.
  unfold keys. induction o as [|[k0 v0] o IH]; simpl; auto.
  destruct (arrayIndex k0) as [j|]; [destruct (j <? i)|]; simpl; auto.
  rewrite IH. apply perm_swap.
Qed.

Lemma get_app_last k v o :
  has k o = false -> get k (o ++ [(k, v)]) = Some v.
Proof.
  unfold has. induction o as [|[k0 v0] o IH]; simpl; intros H.
  - now rewrite String.eqb_refl.
  - destruct (String.eqb k k0); [discriminate | auto].
Qed.

Lemma get_app_other k k' v o :
  k <> k' -> get k' (o ++ [(k, v)]) = get k' o.
Proof.
  intros Hne. induction o as [|[k0 v0] o IH]; simpl.
  - destruct (String.eqb k' k) eqn:E; auto.
    apply String.eqb_eq in E. congruence.
  - now rewrite IH.
Qed.

(** Reading back what was written. *)
Lemma get_set_same k v o : get k (set k v o) = Some v.
Proof.
  unfold set. destruct (has k o) eqn:H.
  - now apply get_update_same.
  - destruct (arrayIndex k).
    + now apply get_insertIndex_same.
    + now apply get_app_last.
Qed.

Lemma get_set_other k k' v o : k <> k' -> get k' (set k v o) = get k' o.
Proof.
  intros Hne. unfold set. destruct (has k o).
  - now apply get_update_other.
  - destruct (arrayIndex k).
    + now apply get_insertIndex_other.
    + now apply get_app_other.
Qed.

Lemma get_set k k' v o :
  get k' (set k v o) = if String.eqb k k' then Some v else get k' o.
Proof.
  destruct (String.eqb k k') eqn:E.
  - apply String.eqb_eq in E. subst. apply get_set_same.
  - apply String.eqb_neq in E. now apply get_set_other.
Qed.

Lemma get_In k o : has k o = true <-> In k (keys o).
Proof.
  unfold has, keys. induction o as [|[k0 v0] o IH]; simpl.
  - split; [discriminate | tauto].
  - destruct (String.eqb k k0) eqn:E.
    + apply String.eqb_eq in E. subst. tauto.
    + apply String.eqb_neq in E. rewrite IH. split; [tauto|].
      intros [H|H]; [congruence | exact H].
Qed.

Lemma get_None k o : get k o = None <-> ~ In k (keys o).
Proof.
  rewrite <- get_In. unfold has. destruct (get k o); split; congruence.
Qed.

Lemma get_Some_In k v o : get k o = Some v -> In (k, v) o.
Proof.
  induction o as [|[k0 v0] o IH]; simpl; [discriminate|].
  destruct (String.eqb k k0) eqn:E.
  - apply String.eqb_eq in E. subst. intros [= ->]. now left.
  - auto.
Qed.

Lemma In_get k v o : NoDup (keys o) -> In (k, v) o -> get k o = Some v.
Proof.
  unfold keys. induction o as [|[k0 v0] o IH]; simpl; [tauto|].
  intros Hnd [H|H].
  - injection H as -> ->. now rewrite String.eqb_refl.
  - inversion Hnd; subst. destruct (String.eqb k k0) eqn:E.
    + apply String.eqb_eq in E. subst. exfalso. apply H2.
      apply (in_map fst) in H. exact H.
    + auto.
Qed.

(** Writing to an existing key keeps the enumeration order. *)
Lemma keys_set_has k v o : has k o = true -> keys (set k v o) = keys o.
Proof. intros H. unfold set. rewrite H. apply keys_update. Qed.

Lemma keys_set_new k v o :
  has k o = false -> Permutation (keys (set k v o)) (k :: keys o).
Proof.
  intros H. unfold set. rewrite H. destruct (arrayIndex k).
  - apply keys_insertIndex.
  - unfold keys. rewrite map_app. simpl.
    apply Permutation_sym, Permutation_cons_append.
Qed.

(** A key that is not an array index is appended. *)
Lemma keys_set_plain k v o :
  has k o = false -> arrayIndex k = None -> keys (set k v o) = keys o ++ [k].
Proof.
  intros H Hi. unfold set. rewrite H, Hi. unfold keys. now rewrite map_app.
Qed.

Lemma In_keys_set k k' v o :
  In k' (keys (set k v o)) <-> k' = k \/ In k' (keys o).
Proof.
  destruct (has k o) eqn:H.
  - rewrite keys_set_has by exact H. apply get_In in H. split; [tauto|].
    intros [->|]; auto.
  - split; intros Hin.
    + apply (Permutation_in _ (keys_set_new k v o H)) in Hin.
      destruct Hin; auto.
    + apply (Permutation_in _ (Permutation_sym (keys_set_new k v o H))).
      destruct Hin; [left | right]; auto.
Qed.

Lemma NoDup_keys_set k v o : NoDup (keys o) -> NoDup (keys (set k v o)).
Proof.
  intros Hnd. destruct (has k o) eqn:H.
  - now rewrite keys_set_has.
  - apply (Permutation_NoDup (Permutation_sym (keys_set_new k v o H))).
    constructor; auto. rewrite <- get_In. congruence.
Qed.

End Facts.
End ObjFacts.

(** ** Strings *)

Module StrFacts.
Import Str Path.

Ltac by_cases_on a :=
  destruct a as [[|] [|] [|] [|] [|] [|] [|] [|]];
  intros H; vm_compute in H; try discriminate H; reflexivity.

Lemma digit_not_dot a : isDigit a = true -> Ascii.eqb a "." = false.
Proof. by_cases_on a. Qed.




Lemma close_not_digit : isDigit "]" = false.
Proof. reflexivity. Qed.

Lemma includes_app c a b :
  includes c (a +++ b) = includes c a || includes c b.
Proof.
  induction a as [|x a IH]; simpl; auto. rewrite IH. apply orb_assoc.
Qed.

Lemma digits_exclude c ds :
  (forall a, isDigit a = true -> Ascii.eqb a c = false) ->
  digits ds = true -> includes c ds = false.
Proof.
  intros Hc. induction ds as [|a ds IH]; simpl; auto.
  intros H. apply andb_true_iff in H. destruct H as [Ha Hd].
  rewrite (Hc a Ha), IH; auto.
Qed.

Lemma split_plain c s : includes c s = false -> split c s = [s].
Proof.
  induction s as [|a s IH]; simpl; auto.
  intros H. apply orb_false_iff in H. destruct H as [Ha Hs].
  rewrite Ha, IH; auto.
Qed.

Lemma split_app c a b :
  includes c a = false -> split c (a +++ String c b) = a :: split c b.
Proof.
  induction a as [|x a IH]; simpl.
  - intros _. now rewrite Ascii.eqb_refl.
  - intros H. apply orb_false_iff in H. destruct H as [Hx Ha].
    rewrite Hx, IH; auto.
Qed.

(** Splitting a joined list of separator-free tokens gives the tokens
    back. *)
Lemma split_join c toks :
  toks <> [] -> Forall (fun t => includes c t = false) toks ->
  split c (join (String c EmptyString) toks) = toks.
Proof.
  induction toks as [|t toks IH]; [congruence|].
  intros _ H. inversion H as [|? ? Ht Hrest]; subst.
  destruct toks as [|t' toks'].
  - simpl. now apply split_plain.
  - change (join (String c EmptyString) (t :: t' :: toks'))
      with (t +++ String c (join (String c EmptyString) (t' :: toks'))).
    rewrite split_app by exact Ht. f_equal. apply IH; [discriminate | exact Hrest].
Qed.

Lemma endsWith_snoc c a : endsWith c (a +++ String c EmptyString) = true.
Proof.
  induction a as [|x a IH]; simpl.
  - apply Ascii.eqb_refl.
  - destruct (a +++ String c EmptyString) eqn:E; [|exact IH].
    destruct a; discriminate.
Qed.

Lemma endsWith_app c a b :
  b <> EmptyString -> endsWith c (a +++ b) = endsWith c b.
Proof.
  intros Hb. induction a as [|x a IH]; simpl; auto.
  destruct (a +++ b) eqn:E; [|exact IH].
  destruct a; simpl in E; congruence.
Qed.

Lemma breakAt_none c s : includes c s = false -> breakAt c s = None.
Proof.
  induction s as [|a s IH]; simpl; auto.
  intros H. apply orb_false_iff in H. destruct H as [Ha Hs].
  rewrite Ha, IH; auto.
Qed.

Lemma breakAt_app c a b :
  includes c a = false -> breakAt c (a +++ String c b) = Some (a, String c b).
Proof.
  induction a as [|x a IH]; simpl.
  - intros _. now rewrite Ascii.eqb_refl.
  - intros H. apply orb_false_iff in H. destruct H as [Hx Ha].
    rewrite Hx, IH; auto.
Qed.

Lemma removeFirst_app c a b :
  includes c a = false -> removeFirst c (a +++ String c b) = a +++ b.
Proof.
  induction a as [|x a IH]; simpl.
  - intros _. now rewrite Ascii.eqb_refl.
  - intros H. apply orb_false_iff in H. destruct H as [Hx Ha].
    rewrite Hx, IH; auto.
Qed.

Lemma append_empty_r s : s +++ EmptyString = s.
Proof. induction s; simpl; congruence. Qed.

Lemma append_assoc a b c : (a +++ b) +++ c = a +++ b +++ c.
Proof. induction a; simpl; congruence. Qed.

(** Reading the digits that [decimal] evaluates. *)
Lemma digitsFrom_digits ds : forall acc seen rest,
  digits ds = true ->
  match rest with String c _ => isDigit c = false | EmptyString => True end ->
  digitsFrom acc seen (ds +++ rest)
  = if seen || negb (String.eqb ds EmptyString)
    then Some (decimal acc ds, rest) else None.
Proof.
  induction ds as [|a ds IH]; intros acc seen rest Hd Hrest; simpl.
  - rewrite orb_false_r. destruct rest as [|c rest]; simpl; auto.
    now rewrite Hrest.
  - simpl in Hd. apply andb_true_iff in Hd. destruct Hd as [Ha Hd].
    rewrite Ha, IH by assumption. rewrite orb_true_r. reflexivity.
Qed.


Lemma matchIndex_bracket ds rest :
  ds <> EmptyString -> digits ds = true ->
  matchIndex ("[" +++ ds +++ "]" +++ rest) = Some (decimal 0 ds).
Proof.
  intros Hne Hd. cbn [matchIndex String.append Ascii.eqb Bool.eqb].
  change ("]" +++ rest) with (String "]" rest).
  rewrite digitsFrom_digits; auto.
  destruct ds; [congruence|]. reflexivity.
Qed.

End StrFacts.

(** ** The JSON reader has fuel enough *)

Module JsonFacts.
Import JSON.

(** A reading that did not starve and, when it read something, left less
    text than it was given. *)
Definition advances (A : Type) (s : string) (p : parsed A) : Prop :=
  match p with
  | Read _ rest => (String.length rest < String.length s)%nat
  | Starved => False
  | _ => True
  end.

Lemma advances_longer (A : Type) (s s' : string) (p : parsed A) :
  advances s' p -> (String.length s' <= String.length s)%nat -> advances s p.
Proof. destruct p; simpl; auto. lia. Qed.

Lemma skipWs_le s : (String.length (skipWs s) <= String.length s)%nat.
Proof.
  induction s as [|a s IH]; simpl; auto.
  destruct (isWs a); simpl; lia.
Qed.

Lemma expect_length c s r :
  expect c s = Some r -> String.length s = S (String.length r).
Proof.
  destruct s as [|a s]; simpl; [discriminate|].
  destruct (Ascii.eqb a c); [|discriminate]. now intros [= ->].
Qed.

Lemma stripPrefix_length p : forall s r,
  Str.stripPrefix p s = Some r ->
  String.length s = (String.length p + String.length r)%nat.
Proof.
  induction p as [|a p IH]; intros s r; simpl.
  - now intros [= ->].
  - destruct s as [|b s]; [discriminate|].
    destruct (Ascii.eqb a b); [|discriminate].
    intros H. apply IH in H. simpl. lia.
Qed.

Lemma digitsFrom_length s : forall acc seen n r,
  Str.digitsFrom acc seen s = Some (n, r) ->
  (String.length r <= String.length s)%nat
  /\ (seen = false -> (String.length r < String.length s)%nat).
Proof.
  induction s as [|a s IH]; intros acc seen n r; cbn [Str.digitsFrom].
  - destruct seen; [|discriminate]. intros [= _ <-]. split; [lia | discriminate].
  - destruct (Str.isDigit a).
    + intros H. apply IH in H. destruct H as [H _]. simpl. split; lia.
    + destruct seen; [|discriminate]. intros [= _ <-]. split; [lia | discriminate].
Qed.

Lemma unicode_fed h1 h2 h3 h4 : unicode h1 h2 h3 h4 <> Starved.
Proof.
  unfold unicode.
  destruct (hexVal h1), (hexVal h2), (hexVal h3), (hexVal h4); try discriminate.
  destruct ((_ =? 0) && (_ =? 0))%nat; discriminate.
Qed.

Lemma parseChars_advances : forall n s,
  (String.length s <= n)%nat -> advances s (parseChars s).
Proof.
  induction n as [|n IH]; intros s Hn.
  - destruct s; [exact I | simpl in Hn; lia].
  - destruct s as [|a rest]; [exact I|]. simpl in Hn. cbn [parseChars].
    assert (Hstep : forall c s',
              (String.length s' <= n)%nat ->
              (String.length s' <= String.length rest)%nat ->
              advances (String a rest)
                (andThen (parseChars s') (fun t r => Read (String c t) r))).
    { intros c s' Hs' Hle. pose proof (IH s' Hs') as H.
      destruct (parseChars s'); simpl in *; auto. lia. }
    destruct (Ascii.eqb a dquote); [simpl; lia|].
    destruct (Ascii.eqb a "\").
    + destruct rest as [|e rest']; [exact I|].
      destruct (Ascii.eqb e "u").
      * destruct rest' as [|h1 [|h2 [|h3 [|h4 rest'']]]]; try exact I.
        pose proof (unicode_fed h1 h2 h3 h4) as Hu.
        destruct (unicode h1 h2 h3 h4); try exact I; [|congruence].
        cbn [andThen]. apply Hstep; simpl in *; lia.
      * destruct (escaped e); [|exact I]. apply Hstep; simpl in *; lia.
    + destruct (nat_of_ascii a <? 32)%nat; [exact I|].
      apply Hstep; lia.
Qed.

Lemma integer_part_length body n rest :
  match expect "0" body with
  | Some r => Some (0%Z, r)
  | None => Str.digitsFrom 0 false body
  end = Some (n, rest) ->
  (String.length rest < String.length body)%nat.
Proof.
  destruct (expect "0" body) as [r|] eqn:E.
  - intros [= _ <-]. apply expect_length in E. lia.
  - intros H. apply digitsFrom_length in H. destruct H as [_ H]. auto.
Qed.

Lemma parseNumber_advances s : advances s (parseNumber s).
Proof.
  unfold parseNumber.
  assert (Hbody : exists neg body,
            match expect "-" s with
            | Some rest => (true, rest)
            | None => (false, s)
            end = (neg, body)
            /\ (String.length body <= String.length s)%nat).
  { destruct (expect "-" s) as [rest|] eqn:E.
    - exists true, rest. split; auto. apply expect_length in E. lia.
    - exists false, s. split; auto. }
  destruct Hbody as (neg & body & -> & Hle).
  pose proof (@integer_part_length body) as Hint.
  destruct (match expect "0" body with
            | Some r => Some (0%Z, r)
            | None => Str.digitsFrom 0 false body
            end) as [[n rest]|]; [|exact I].
  specialize (Hint n rest eq_refl).
  destruct rest as [|c after].
  - destruct (9007199254740992 <? n)%Z; simpl; auto. lia.
  - destruct (Ascii.eqb c ".").
    + destruct after as [|d ?]; [exact I|]. destruct (Str.isDigit d); exact I.
    + destruct (Ascii.eqb c "e" || Ascii.eqb c "E"); [exact I|].
      destruct (9007199254740992 <? n)%Z; simpl in *; auto. lia.
Qed.

Section Nested.
Variable element : string -> parsed value.
Variable F : nat.
Hypothesis element_advances :
  forall s, (String.length s < F)%nat -> advances s (element s).

Lemma members_advances : forall n acc s,
  (String.length s < n)%nat -> (String.length s <= F)%nat ->
  advances s (members element n acc s).
Proof.
  induction n as [|n IH]; intros acc s Hn HF; [lia|]. cbn [members].
  pose proof (skipWs_le s) as Hws.
  destruct (expect dquote (skipWs s)) as [s1|] eqn:E1; [|exact I].
  apply expect_length in E1.
  pose proof (parseChars_advances s1 (Nat.le_refl _)) as Hk.
  destruct (parseChars s1) as [k s2| | |]; try exact I; [|destruct Hk].
  simpl in Hk. cbn [andThen].
  pose proof (skipWs_le s2) as Hws2.
  destruct (expect ":" (skipWs s2)) as [s3|] eqn:E3; [|exact I].
  apply expect_length in E3.
  assert (H3 : (String.length s3 < F)%nat) by lia.
  pose proof (element_advances s3 H3) as Hv.
  destruct (element s3) as [v s4| | |]; try exact I; [|destruct Hv].
  simpl in Hv. cbn [andThen].
  pose proof (skipWs_le s4) as Hws4.
  destruct (skipWs s4) as [|c s5]; [exact I|]. simpl in Hws4.
  destruct (Ascii.eqb c ",").
  - apply advances_longer with s5; [apply IH; lia | lia].
  - destruct (Ascii.eqb c "}"); [simpl; lia | exact I].
Qed.

Lemma elements_advances : forall n acc s,
  (String.length s < n)%nat -> (String.length s < F)%nat ->
  advances s (elements element n acc s).
Proof.
  induction n as [|n IH]; intros acc s Hn HF; [lia|]. cbn [elements].
  pose proof (element_advances s HF) as Hv.
  destruct (element s) as [v s1| | |]; try exact I; [|destruct Hv].
  simpl in Hv. cbn [andThen].
  pose proof (skipWs_le s1) as Hws.
  destruct (skipWs s1) as [|c s2]; [exact I|]. simpl in Hws.
  destruct (Ascii.eqb c ",").
  - apply advances_longer with s2; [apply IH; lia | lia].
  - destruct (Ascii.eqb c "]"); [simpl; lia | exact I].
Qed.

End Nested.

Lemma parseValue_advances : forall fuel s,
  (String.length s < fuel)%nat -> advances s (parseValue fuel s).
Proof.
  induction fuel as [|fuel IH]; intros s Hf; [lia|]. cbn [parseValue].
  pose proof (skipWs_le s) as Hws.
  destruct (skipWs s) as [|a rest] eqn:Es; [exact I|]. simpl in Hws.
  destruct (Ascii.eqb a "{").
  { pose proof (skipWs_le rest) as Hr.
    destruct (expect "}" (skipWs rest)) as [rest'|] eqn:E.
    - apply expect_length in E. simpl. lia.
    - apply advances_longer with rest; [|lia].
      apply members_advances with (F := fuel); auto; lia. }
  destruct (Ascii.eqb a "[").
  { pose proof (skipWs_le rest) as Hr.
    destruct (expect "]" (skipWs rest)) as [rest'|] eqn:E.
    - apply expect_length in E. simpl. lia.
    - apply advances_longer with rest; [|lia].
      apply elements_advances with (F := fuel); auto; lia. }
  destruct (Ascii.eqb a dquote).
  { pose proof (parseChars_advances rest (Nat.le_refl _)) as H.
    destruct (parseChars rest); simpl in *; auto. lia. }
  destruct (Ascii.eqb a "-" || Str.isDigit a).
  { apply advances_longer with (String a rest); [apply parseNumber_advances|].
    simpl. lia. }
  destruct (Str.stripPrefix "true" (String a rest)) as [r|] eqn:E1.
  { apply stripPrefix_length in E1. simpl in *. lia. }
  destruct (Str.stripPrefix "false" (String a rest)) as [r|] eqn:E2.
  { apply stripPrefix_length in E2. simpl in *. lia. }
  destruct (Str.stripPrefix "null" (String a rest)) as [r|] eqn:E3.
  { apply stripPrefix_length in E3. simpl in *. lia. }
  exact I.
Qed.

(** [JSON.parse] never runs out of fuel. *)
Theorem parse_fed text : parse text <> Starved.
Proof.
  unfold parse.
  pose proof (@parseValue_advances (S (String.length text)) text (Nat.lt_succ_diag_r _))
    as H.
  destruct (parseValue (S (String.length text)) text) as [v rest| | |];
    try discriminate; [|destruct H].
  cbn [andThen]. destruct (skipWs rest); discriminate.
Qed.

End JsonFacts.

(** ** The sequencer *)

Module TopoFacts.
Import Obj ObjFacts Topo Graph Degrees.

Lemma includes_In x xs : includes x xs = true <-> In x xs.
Proof.
  unfold includes. rewrite existsb_exists. split.
  - intros [y [Hy E]]. apply String.eqb_eq in E. now subst.
  - intros H. exists x. split; auto. apply String.eqb_refl.
Qed.

Lemma val_set k v m x :
  val (set k v m) x = if String.eqb k x then v else val m x.
Proof. unfold val. rewrite get_set. now destruct (String.eqb k x). Qed.

(** *** The counting loops *)

Lemma val_ensure k m x : val (ensure k m) x = val m x.
Proof.
  unfold ensure. destruct (inherited k); auto. destruct (get k m) eqn:E; auto.
  rewrite val_set. destruct (String.eqb k x) eqn:Ex; auto.
  apply String.eqb_eq in Ex. subst. unfold val. now rewrite E.
Qed.

Lemma keys_ensure k m x :
  In x (keys (ensure k m)) <-> (x = k /\ inherited k = false) \/ In x (keys m).
Proof.
  unfold ensure. destruct (inherited k); [intuition discriminate|].
  destruct (get k m) eqn:E.
  - split; auto. intros [[-> _]|H]; auto. apply get_In. unfold has. now rewrite E.
  - rewrite In_keys_set. tauto.
Qed.

Lemma NoDup_ensure k m : NoDup (keys m) -> NoDup (keys (ensure k m)).
Proof.
  unfold ensure. destruct (inherited k); auto.
  destruct (get k m); auto. apply NoDup_keys_set.
Qed.

Lemma val_bump k m x :
  val (bump k m) x
  = val m x + (if String.eqb k x && negb (inherited x) then 1 else 0).
Proof.
  unfold bump. destruct (inherited k) eqn:Hk.
  - destruct (String.eqb k x) eqn:Ex; cbn [andb]; [|lia].
    apply String.eqb_eq in Ex. subst. rewrite Hk. cbn. lia.
  - destruct (get k m) eqn:E; rewrite val_set;
      destruct (String.eqb k x) eqn:Ex; cbn [andb]; try lia;
      apply String.eqb_eq in Ex; subst; rewrite Hk; cbn [negb];
      unfold val; rewrite E; lia.
Qed.

Lemma keys_bump k m x :
  In x (keys (bump k m)) <-> (x = k /\ inherited k = false) \/ In x (keys m).
Proof.
  unfold bump. destruct (inherited k); [intuition discriminate|].
  destruct (get k m) eqn:E; rewrite In_keys_set; tauto.
Qed.

Lemma NoDup_bump k m : NoDup (keys m) -> NoDup (keys (bump k m)).
Proof.
  unfold bump. destruct (inherited k); auto.
  destruct (get k m); apply NoDup_keys_set.
Qed.

Lemma bump_keeps_keys k m :
  In k (keys m) \/ inherited k = true -> keys (bump k m) = keys m.
Proof.
  unfold bump. destruct (inherited k); [reflexivity|].
  intros [H|H]; [|discriminate]. apply get_In in H. unfold has in *.
  destruct (get k m) eqn:E; [|discriminate].
  apply keys_set_has. unfold has. now rewrite E.
Qed.

Lemma ensure_keeps_keys k m :
  In k (keys m) \/ inherited k = true -> ensure k m = m.
Proof.
  unfold ensure. destruct (inherited k); [reflexivity|].
  intros [H|H]; [|discriminate]. apply get_In in H. unfold has in *.
  destruct (get k m); [reflexivity | discriminate].
Qed.

Lemma countDeps_spec n m :
  let m' := countDeps n m in
  (forall x, val m' x =
             val m x + (if String.eqb (id n) x && negb (inherited x)
                        then Z.of_nat (List.length (deps n)) else 0))
  /\ (forall x, In x (keys m') <->
                In x (keys m)
                \/ (inherited x = false
                    /\ (In x (deps n) \/ (deps n <> [] /\ x = id n))))
  /\ (NoDup (keys m) -> NoDup (keys m')).
Proof.
  unfold countDeps. generalize (deps n) as ds. intros ds. revert m.
  induction ds as [|d ds IH]; intros m; simpl.
  - split; [|split]; auto.
    + intros x. destruct (String.eqb (id n) x && negb (inherited x)); lia.
    + intros x. split; [tauto|]. intros [H|[_ [H|[H _]]]]; tauto.
  - destruct (IH (ensure d (bump (id n) m))) as (Hv & Hk & Hn).
    split; [|split].
    + intros x. rewrite Hv, val_ensure, val_bump.
      destruct (String.eqb (id n) x && negb (inherited x)); lia.
    + intros x. rewrite Hk, keys_ensure, keys_bump. split.
      * intros [[[-> Hx]|[[-> Hx]|H]]|[Hx [H|[H ->]]]]; auto.
        -- right. split; auto. right. split; [discriminate | reflexivity].
        -- right. split; auto. right. split; [discriminate | reflexivity].
      * intros [H|[Hx [[->|H]|[_ ->]]]]; auto.
    + intros H. apply Hn, NoDup_ensure, NoDup_bump, H.
Qed.

Lemma countAll_spec nodes m :
  let m' := countAll nodes m in
  (forall x, val m' x = val m x + declared nodes x)
  /\ (forall x, In x (keys m') <->
                In x (keys m)
                \/ (inherited x = false
                    /\ exists n, In n nodes /\
                         (In x (deps n) \/ (deps n <> [] /\ x = id n))))
  /\ (NoDup (keys m) -> NoDup (keys m')).
Proof.
  unfold countAll. revert m. induction nodes as [|n nodes IH]; intros m; simpl.
  - split; [|split]; auto.
    + intros x. lia.
    + intros x. split; [tauto|]. intros [H|[_ [n [[] _]]]]. exact H.
  - destruct (IH (countDeps n m)) as (Hv & Hk & Hn).
    destruct (countDeps_spec n m) as (Hv1 & Hk1 & Hn1).
    split; [|split].
    + intros x. rewrite Hv, Hv1. lia.
    + intros x. rewrite Hk, Hk1. split.
      * intros [[H|[Hx H]]|[Hx [n' [Hin H]]]]; auto.
        -- right. split; auto. exists n. auto.
        -- right. split; auto. exists n'. auto.
      * intros [H|[Hx [n' [[->|Hin] H]]]]; auto.
        right. split; auto. exists n'. auto.
    + intros H. apply Hn, Hn1, H.
Qed.

Lemma initIds_spec nodes m :
  let m' := initIds nodes m in
  (forall x, val m' x = val m x)
  /\ (forall x, In x (keys m') <->
                In x (keys m) \/ (inherited x = false /\ In x (ids nodes)))
  /\ (NoDup (keys m) -> NoDup (keys m')).
Proof.
  unfold initIds, ids. revert m. induction nodes as [|n nodes IH]; intros m; simpl.
  - split; [|split]; auto. intros x. tauto.
  - destruct (IH (ensure (id n) m)) as (Hv & Hk & Hn). split; [|split].
    + intros x. now rewrite Hv, val_ensure.
    + intros x. rewrite Hk, keys_ensure. split.
      * intros [[[-> Hx]|H]|[Hx H]]; auto.
      * intros [H|[Hx [<-|H]]]; auto.
    + intros H. apply Hn, NoDup_ensure, H.
Qed.

(** The map built by the two loops: one entry per identifier mentioned as a
    node or as a dependency that is not an inherited name, holding the
    declared in-degree. *)
Lemma indegrees_spec nodes :
  let m := indegrees nodes in
  (forall x, val m x = declared nodes x)
  /\ (forall x, In x (keys m) <->
                inherited x = false
                /\ (In x (ids nodes) \/ exists n, In n nodes /\ In x (deps n)))
  /\ NoDup (keys m).
Proof.
  unfold indegrees.
  destruct (initIds_spec nodes []) as (Hv0 & Hk0 & Hn0).
  destruct (countAll_spec nodes (initIds nodes [])) as (Hv & Hk & Hn).
  split; [|split].
  - intros x. rewrite Hv, Hv0. reflexivity.
  - intros x. rewrite Hk, Hk0. simpl. split.
    + intros [[[]|[Hx H]]|[Hx [n [Hin [H|[_ ->]]]]]]; split; auto.
      * right. exists n. auto.
      * left. now apply in_map.
    + intros [Hx [H|[n [Hin H]]]]; auto.
      right. split; auto. exists n. auto.
  - apply Hn, Hn0. constructor.
Qed.

(** *** Counting the emitted dependencies *)

Lemma listing_nonneg cur nodes x : 0 <= listing cur nodes x.
Proof.
  induction nodes as [|n nodes IH]; simpl; [lia|].
  destruct (String.eqb (id n) x && negb (inherited x) && includes cur (deps n)); lia.
Qed.

Lemma declared_nonneg nodes x : 0 <= declared nodes x.
Proof.
  induction nodes as [|n nodes IH]; simpl; [lia|].
  destruct (String.eqb (id n) x && negb (inherited x)); lia.
Qed.

(** Nothing is counted under an inherited name. *)
Lemma inherited_zero l cur nodes x :
  inherited x = true ->
  declared nodes x = 0 /\ consumed l nodes x = 0 /\ listing cur nodes x = 0.
Proof.
  intros Hx. induction nodes as [|n nodes IH]; simpl; auto.
  rewrite Hx. cbn [negb]. rewrite andb_false_r. cbn [andb]. lia.
Qed.

Lemma countIn_snoc l c ds :
  countIn (l ++ [c]) ds = (countIn l ds + (if includes c ds then 1 else 0))%nat.
Proof.
  unfold countIn. rewrite filter_app, length_app. simpl.
  destruct (includes c ds); reflexivity.
Qed.

Lemma consumed_nil nodes x : consumed [] nodes x = 0.
Proof.
  induction nodes as [|n nodes IH]; simpl; auto.
  rewrite IH. destruct (String.eqb (id n) x && negb (inherited x)); reflexivity.
Qed.

Lemma consumed_snoc l c nodes x :
  consumed (l ++ [c]) nodes x = consumed l nodes x + listing c nodes x.
Proof.
  induction nodes as [|n nodes IH]; simpl; [lia|].
  rewrite IH, countIn_snoc.
  destruct (String.eqb (id n) x && negb (inherited x)), (includes c (deps n));
    cbn [andb]; lia.
Qed.

Lemma countIn_cons_l c l ds :
  countIn (c :: l) ds = ((if includes c ds then 1 else 0) + countIn l ds)%nat.
Proof. unfold countIn. simpl. destruct (includes c ds); reflexivity. Qed.

Lemma includes_cons c d ds :
  includes c (d :: ds) = String.eqb c d || includes c ds.
Proof. reflexivity. Qed.

Lemma countIn_cons_le l d ds :
  NoDup l ->
  (countIn l (d :: ds) <= (if includes d l then 1 else 0) + countIn l ds)%nat.
Proof.
  induction 1 as [|c l Hc Hnd IH].
  - unfold countIn. simpl. lia.
  - rewrite !countIn_cons_l, !includes_cons, (String.eqb_sym d c).
    destruct (String.eqb c d) eqn:E; cbn [orb].
    + apply String.eqb_eq in E. subst d.
      assert (Hd : includes c l = false).
      { destruct (includes c l) eqn:Hi; auto. apply includes_In in Hi. tauto. }
      rewrite Hd in IH. destruct (includes c ds); lia.
    + destruct (includes c ds), (includes d l); lia.
Qed.

Lemma countIn_nil_r l : countIn l [] = O.
Proof. unfold countIn. induction l; simpl; auto. Qed.

Lemma countIn_le l ds : NoDup l -> (countIn l ds <= List.length ds)%nat.
Proof.
  intros Hnd. induction ds as [|d ds IH]; simpl.
  - rewrite countIn_nil_r. lia.
  - pose proof (countIn_cons_le d ds Hnd). destruct (includes d l); lia.
Qed.

(** When the count is full, every entry of the list has been emitted. *)
Lemma countIn_full l ds :
  NoDup l -> countIn l ds = List.length ds -> forall d, In d ds -> In d l.
Proof.
  intros Hnd. induction ds as [|d0 ds IH]; simpl; [tauto|].
  intros Hc d Hin.
  pose proof (countIn_cons_le d0 ds Hnd) as H1.
  pose proof (countIn_le ds Hnd) as H2.
  destruct (includes d0 l) eqn:Hi; [|lia].
  destruct Hin as [->|Hin].
  - now apply includes_In.
  - apply IH; auto. lia.
Qed.

(** Conversely a duplicate-free list that has been emitted in full counts
    for its whole length. *)
Lemma countIn_all l ds :
  NoDup l -> NoDup ds -> (forall d, In d ds -> In d l) ->
  countIn l ds = List.length ds.
Proof.
  intros Hl Hds Hsub. unfold countIn. apply Permutation_length.
  apply NoDup_Permutation; auto using NoDup_filter.
  intros x. rewrite filter_In, includes_In. split; [tauto|]. auto.
Qed.

Lemma consumed_le l nodes x : NoDup l -> consumed l nodes x <= declared nodes x.
Proof.
  intros Hnd. induction nodes as [|n nodes IH]; simpl; [lia|].
  pose proof (countIn_le (deps n) Hnd).
  destruct (String.eqb (id n) x && negb (inherited x)); lia.
Qed.

Lemma consumed_full l nodes x :
  inherited x = false ->
  NoDup l -> declared nodes x <= consumed l nodes x ->
  forall d, depends nodes x d -> In d l.
Proof.
  intros Hx Hnd. induction nodes as [|n nodes IH]; simpl.
  - intros _ d (n & [] & _).
  - rewrite Hx. cbn [negb]. rewrite andb_true_r.
    intros Hle d (n' & [->|Hin] & Hid & Hd).
    + rewrite Hid, String.eqb_refl in Hle.
      pose proof (consumed_le nodes x Hnd).
      pose proof (countIn_le (deps n') Hnd).
      apply (countIn_full (deps n') Hnd); auto. lia.
    + apply IH.
      * pose proof (countIn_le (deps n) Hnd).
        destruct (String.eqb (id n) x); lia.
      * exists n'. auto.
Qed.

(** *** One pass over the nodes *)

Lemma relax_spec cur nodes : forall m q,
  (forall n, In n nodes -> inherited (id n) = false -> In (id n) (keys m)) ->
  (forall x, In x (keys m) -> inherited x = false) ->
  exists m' newly,
    relax cur nodes m q = (m', q ++ newly)
    /\ keys m' = keys m
    /\ (forall x, val m' x = val m x - listing cur nodes x)
    /\ NoDup newly
    /\ (forall x, In x newly <-> 1 <= val m x <= listing cur nodes x).
Proof.
  induction nodes as [|n nodes IH]; intros m q Hdom Hown; simpl.
  - exists m, []. rewrite app_nil_r.
    split; [reflexivity|]. split; [reflexivity|]. split; [intros; lia|].
    split; [constructor|]. intros x. simpl. split; [tauto | lia].
  - assert (Hrest : forall n', In n' nodes -> inherited (id n') = false ->
                               In (id n') (keys m))
      by (intros n' Hn' Hi'; apply Hdom; [now right | exact Hi']).
    destruct (includes cur (deps n)) eqn:Hinc.
    2:{ destruct (IH m q Hrest Hown) as (m' & newly & Hr & Hk' & Hv & Hnd & Hin).
        exists m', newly. rewrite Hr.
        split; [reflexivity|]. split; [assumption|]. split; [|split]; auto.
        - intros x. rewrite Hv, andb_false_r. lia.
        - intros x. rewrite Hin, andb_false_r. lia. }
    destruct (inherited (id n)) eqn:Hinh.
    { assert (Hget : get (id n) m = None).
      { apply get_None. intros Hin. apply Hown in Hin. congruence. }
      rewrite Hget.
      destruct (IH m q Hrest Hown) as (m' & newly & Hr & Hk' & Hv & Hnd & Hin).
      exists m', newly. rewrite Hr.
      assert (Hz : forall x, String.eqb (id n) x && negb (inherited x) = false).
      { intros x. destruct (String.eqb (id n) x) eqn:E; auto.
        apply String.eqb_eq in E. subst x. now rewrite Hinh. }
      split; [reflexivity|]. split; [assumption|]. split; [|split]; auto.
      - intros x. rewrite Hv, Hz. cbn [andb]. lia.
      - intros x. rewrite Hin, Hz. cbn [andb]. lia. }
    assert (Hn : In (id n) (keys m)) by (apply Hdom; [now left | exact Hinh]).
    assert (Hone : forall x, String.eqb (id n) x && negb (inherited x) && true
                             = String.eqb (id n) x).
    { intros x. rewrite andb_true_r. destruct (String.eqb (id n) x) eqn:E; auto.
      apply String.eqb_eq in E. subst x. now rewrite Hinh. }
    apply get_In in Hn. unfold has in Hn.
    destruct (get (id n) m) as [d|] eqn:Hget; [clear Hn | discriminate].
    assert (Hhas : has (id n) m = true) by (unfold has; now rewrite Hget).
    assert (Hk : keys (set (id n) (d - 1) m) = keys m)
      by now apply keys_set_has.
    assert (Hvd : val m (id n) = d) by (unfold val; now rewrite Hget).
    pose proof (listing_nonneg cur nodes) as Hpos.
    destruct (d - 1 =? 0) eqn:Hz.
    + destruct (IH (set (id n) (d - 1) m) (q ++ [id n])) as
        (m' & newly & Hr & Hk' & Hv & Hnd & Hin).
      { intros n' Hn' Hi'. rewrite Hk. auto. }
      { intros x Hx. rewrite Hk in Hx. auto. }
      exists m', (id n :: newly). rewrite Hr, <- app_assoc. simpl.
      apply Z.eqb_eq in Hz.
      split; [reflexivity|]. split; [congruence|]. split; [|split].
      * intros x. rewrite Hv, val_set, Hone.
        destruct (String.eqb (id n) x) eqn:E; try lia.
        apply String.eqb_eq in E. subst x. lia.
      * constructor; auto. rewrite Hin, val_set, String.eqb_refl. lia.
      * intros x. cbn [In]. rewrite Hin, val_set, Hone. specialize (Hpos x).
        destruct (String.eqb (id n) x) eqn:E.
        -- apply String.eqb_eq in E. subst x. split; [intros _; lia|auto].
        -- apply String.eqb_neq in E. split; [intros [?|?]; [tauto|lia] | right; lia].
    + destruct (IH (set (id n) (d - 1) m) q) as
        (m' & newly & Hr & Hk' & Hv & Hnd & Hin).
      { intros n' Hn' Hi'. rewrite Hk. auto. }
      { intros x Hx. rewrite Hk in Hx. auto. }
      exists m', newly. rewrite Hr. apply Z.eqb_neq in Hz.
      split; [reflexivity|]. split; [congruence|]. split; [|split]; auto.
      * intros x. rewrite Hv, val_set, Hone.
        destruct (String.eqb (id n) x) eqn:E; try lia.
        apply String.eqb_eq in E. subst x. lia.
      * intros x. rewrite Hin, val_set, Hone. specialize (Hpos x).
        destruct (String.eqb (id n) x) eqn:E; try lia.
        apply String.eqb_eq in E. subst x. lia.
Qed.

(** *** The [while] loop terminates *)

Lemma potential_update k d v (m : Obj.t Z) :
  get k m = Some d ->
  (potential (update k v m) + Z.to_nat d = potential m + Z.to_nat v)%nat.
Proof.
  induction m as [|[k0 v0] m IH]; simpl; [discriminate|].
  destruct (String.eqb k k0) eqn:E; simpl.
  - intros [= ->]. lia.
  - intros H. specialize (IH H). lia.
Qed.

Lemma relax_potential cur nodes : forall m q,
  (List.length (snd (relax cur nodes m q)) + potential (fst (relax cur nodes m q))
   <= List.length q + potential m)%nat.
Proof.
  induction nodes as [|n nodes IH]; intros m q; simpl; [lia|].
  destruct (includes cur (deps n)); [|apply IH].
  destruct (get (id n) m) as [d|] eqn:Hget; [|apply IH].
  assert (Hset : set (id n) (d - 1) m = update (id n) (d - 1) m).
  { unfold set, has. now rewrite Hget. }
  pose proof (potential_update (id n) (d - 1) m Hget) as Hp.
  rewrite Hset. destruct (d - 1 =? 0) eqn:Hz.
  - apply Z.eqb_eq in Hz.
    specialize (IH (update (id n) (d - 1) m) (q ++ [id n])).
    rewrite length_app in IH. simpl in IH. lia.
  - specialize (IH (update (id n) (d - 1) m) q). lia.
Qed.

(** With fuel for the queue and the in-degree left, the loop stops on an
    empty queue. *)
Lemma drain_empties nodes : forall fuel m q o,
  (List.length q + potential m <= fuel)%nat ->
  snd (fst (drain fuel nodes m q o)) = [].
Proof.
  induction fuel as [|fuel IH]; intros m q o Hf; simpl.
  - destruct q; [reflexivity | simpl in Hf; lia].
  - destruct q as [|cur rest]; [reflexivity|].
    pose proof (relax_potential cur nodes m rest) as Hp.
    destruct (relax cur nodes m rest) as [m' q'] eqn:Hr. simpl in *.
    apply IH. lia.
Qed.

(** *** What the [while] loop maintains *)

Lemma val_pos_In (m : Obj.t Z) x : val m x <> 0 -> In x (keys m).
Proof.
  unfold val. intros H. apply get_In. unfold has.
  destruct (get x m); [reflexivity | congruence].
Qed.

Lemma Inv_step nodes K m cur rest order :
  (forall n, In n nodes -> inherited (id n) = false -> In (id n) K) ->
  Inv nodes K m (cur :: rest) order ->
  Inv nodes K (fst (relax cur nodes m rest)) (snd (relax cur nodes m rest))
      (order ++ [cur]).
Proof.
  intros Hids [Hk Hown Hv Hnd Hmem Hbef].
  destruct (relax_spec cur nodes m rest) as (m' & newly & Hr & Hk' & Hv' & Hnn & Hin).
  { intros n Hn Hi. rewrite Hk. auto. }
  { intros x Hx. rewrite Hk in Hx. auto. }
  rewrite Hr. simpl.
  assert (Hshape : (order ++ [cur]) ++ rest ++ newly = (order ++ cur :: rest) ++ newly).
  { rewrite <- !app_assoc. reflexivity. }
  pose proof (listing_nonneg cur nodes) as Hpos.
  constructor.
  - congruence.
  - exact Hown.
  - intros x. rewrite Hv', Hv, consumed_snoc. lia.
  - rewrite Hshape. apply NoDup_app; auto.
    intros x Hx Hx'. apply Hmem in Hx. apply Hin in Hx'. lia.
  - intros x. rewrite Hshape, in_app_iff, Hmem, Hin, Hv'. specialize (Hpos x).
    split.
    + intros [[HK Hle]|Hnew]; split; try lia; auto.
      rewrite <- Hk. apply val_pos_In. lia.
    + intros [HK Hle]. destruct (Z_le_gt_dec (val m x) 0); [left | right]; auto.
      lia.
  - intros j y d Hj Hdep.
    assert (Hord : NoDup order) by (eapply NoDup_app_remove_r; eauto).
    destruct (Nat.lt_ge_cases j (List.length order)) as [Hlt|Hge].
    + rewrite nth_error_app1 in Hj by exact Hlt.
      destruct (Hbef j y d Hj Hdep) as (i & Hi & Hnth).
      exists i. split; auto. rewrite nth_error_app1; auto. lia.
    + rewrite nth_error_app2 in Hj by exact Hge.
      destruct (j - List.length order)%nat as [|k] eqn:Hjk; simpl in Hj.
      * injection Hj as <-.
        assert (Hc : In cur K /\ val m cur <= 0).
        { apply Hmem. apply in_app_iff. right. now left. }
        destruct Hc as [HcK Hc]. rewrite Hv in Hc.
        assert (Hd : In d order).
        { apply (@consumed_full order nodes cur (Hown cur HcK) Hord); auto. lia. }
        apply In_nth_error in Hd. destruct Hd as [i Hi].
        assert (i < List.length order)%nat.
        { apply nth_error_Some. congruence. }
        exists i. split; [lia|]. rewrite nth_error_app1; auto.
      * destruct k; discriminate.
Qed.

Lemma drain_Inv nodes K :
  (forall n, In n nodes -> inherited (id n) = false -> In (id n) K) ->
  forall fuel m q o,
    Inv nodes K m q o ->
    let '(m', q', o') := drain fuel nodes m q o in Inv nodes K m' q' o'.
Proof.
  intros Hids. induction fuel as [|fuel IH]; intros m q o HI; simpl; auto.
  destruct q as [|cur rest]; auto.
  pose proof (Inv_step Hids HI) as Hs.
  destruct (relax cur nodes m rest) as [m' q']. simpl in Hs.
  apply IH. exact Hs.
Qed.

(** *** Selecting keys by value *)

Lemma In_select p (m : Obj.t Z) x :
  NoDup (keys m) ->
  In x (select p m) <-> exists d, get x m = Some d /\ p d = true.
Proof.
  intros Hnd. unfold select, entries. rewrite in_map_iff. split.
  - intros ([k d] & Hk & Hin). simpl in Hk. subst k.
    apply filter_In in Hin. destruct Hin as [Hin Hp].
    exists d. split; auto. now apply In_get.
  - intros (d & Hget & Hp). exists (x, d). split; auto.
    apply filter_In. split; auto. now apply get_Some_In.
Qed.

Lemma select_keys p (m : Obj.t Z) x : In x (select p m) -> In x (keys m).
Proof.
  unfold select, entries, keys. rewrite !in_map_iff.
  intros (kv & Hk & Hin). apply filter_In in Hin. exists kv. tauto.
Qed.

Lemma NoDup_select p (m : Obj.t Z) : NoDup (keys m) -> NoDup (select p m).
Proof.
  intros Hnd. induction m as [|[k d] m IH].
  - constructor.
  - inversion Hnd as [|? ? Hk Hm]; subst.
    unfold select, entries. simpl. destruct (p d); simpl.
    + constructor; [|now apply IH].
      intros Hin. apply Hk. now apply (select_keys p).
    + now apply IH.
Qed.

Lemma Inv_init nodes :
  let m := indegrees nodes in
  Inv nodes (keys m) m (select (fun d => d =? 0) m) [].
Proof.
  intros m. destruct (indegrees_spec nodes) as (Hv & Hk & Hnd). fold m in Hv, Hk, Hnd.
  constructor.
  - reflexivity.
  - intros x Hx. now apply Hk in Hx.
  - intros x. rewrite Hv, consumed_nil. lia.
  - simpl. now apply NoDup_select.
  - intros x. simpl. rewrite In_select by exact Hnd.
    pose proof (declared_nonneg nodes x) as Hpos. rewrite <- Hv in Hpos.
    split.
    + intros (d & Hget & Hz). apply Z.eqb_eq in Hz. subst d. split.
      * apply get_In. unfold has. now rewrite Hget.
      * unfold val. rewrite Hget. lia.
    + intros [HK Hle]. apply get_In in HK. unfold has in HK.
      unfold val in *. destruct (get x m) as [d|]; [|discriminate].
      exists d. split; auto. apply Z.eqb_eq. lia.
  - intros j y d Hj. destruct j; discriminate.
Qed.

(** The sequencer in one statement: the loop ends with an empty queue, the
    order has no repetition, the order holds exactly the mentioned
    identifiers whose in-degree was used up and the cycle set the others,
    and every identifier is emitted after the entries of its [dependsOn]. *)
Lemma topoSort_spec nodes :
  let K := keys (indegrees nodes) in
  let r := topoSort nodes in
  exists m',
    Inv nodes K m' [] (order r)
    /\ cycles r = select (fun d => d >? 0) m'.
Proof.
  intros K r. unfold r, topoSort.
  set (m := indegrees nodes). set (q := select (fun d => d =? 0) m).
  set (fuel := (List.length q + potential m)%nat).
  pose proof (@drain_Inv nodes K) as HI.
  assert (Hids : forall n, In n nodes -> inherited (id n) = false -> In (id n) K).
  { intros n Hn Hi. apply (proj1 (proj2 (indegrees_spec nodes))). split; auto.
    left. now apply in_map. }
  specialize (HI Hids fuel m q [] (Inv_init nodes)).
  pose proof (@drain_empties nodes fuel m q [] (Nat.le_refl _)) as He.
  destruct (drain fuel nodes m q []) as [[m' q'] o']. simpl in He. subst q'.
  exists m'. simpl. split; auto.
Qed.

(** *** Positions in the order *)

Lemma precedes_trans l a b c :
  NoDup l -> precedes l a b -> precedes l b c -> precedes l a c.
Proof.
  intros Hnd (i & j & Hi & Hj & Hij) (j' & k & Hj' & Hk & Hjk).
  assert (j = j').
  { apply (proj1 (NoDup_nth_error l) Hnd); [|congruence].
    apply nth_error_Some. congruence. }
  subst j'. exists i, k. repeat split; auto. lia.
Qed.

Lemma precedes_irrefl l a : NoDup l -> ~ precedes l a a.
Proof.
  intros Hnd (i & j & Hi & Hj & Hij).
  assert (i = j); [|lia].
  apply (proj1 (NoDup_nth_error l) Hnd); [|congruence].
  apply nth_error_Some. congruence.
Qed.

Lemma precedes_In_r l a b : precedes l a b -> In b l.
Proof. intros (i & j & _ & Hj & _). eapply nth_error_In; eauto. Qed.

Lemma precedes_In_l l a b : precedes l a b -> In a l.
Proof. intros (i & j & Hi & _ & _). eapply nth_error_In; eauto. Qed.

Section Sorted.
Variable nodes : list WorkflowNode.
Let K := keys (indegrees nodes).
Variable m' : Obj.t Z.
Hypothesis HI : Inv nodes K m' [] (order (topoSort nodes)).
Hypothesis HC : cycles (topoSort nodes) = select (fun d => d >? 0) m'.

Lemma K_nodup : NoDup (keys m').
Proof.
  rewrite (inv_keys HI). apply (proj2 (proj2 (indegrees_spec nodes))).
Qed.

Lemma K_spec x :
  In x K <->
  inherited x = false
  /\ (In x (ids nodes) \/ exists n, In n nodes /\ In x (deps n)).
Proof. apply (proj1 (proj2 (indegrees_spec nodes))). Qed.

Lemma order_nodup : NoDup (order (topoSort nodes)).
Proof. pose proof (inv_nodup HI) as H. now rewrite app_nil_r in H. Qed.

Lemma order_iff x :
  In x (order (topoSort nodes)) <-> In x K /\ val m' x <= 0.
Proof. pose proof (inv_mem HI x) as H. now rewrite app_nil_r in H. Qed.

(** No inherited name is emitted. *)
Lemma order_own x : In x (order (topoSort nodes)) -> inherited x = false.
Proof. intros H. apply order_iff in H. apply (inv_own HI). tauto. Qed.

Lemma cycles_iff x :
  In x (cycles (topoSort nodes)) <-> In x K /\ 0 < val m' x.
Proof.
  rewrite HC, In_select by apply K_nodup. unfold val. split.
  - intros (d & Hget & Hd). rewrite Hget. split; [|lia].
    rewrite <- (inv_keys HI). apply get_In. unfold has. now rewrite Hget.
  - intros [HK Hpos]. destruct (get x m') as [d|]; [|lia].
    exists d. split; auto. apply Z.gtb_lt. lia.
Qed.

Lemma order_before y d :
  In y (order (topoSort nodes)) -> depends nodes y d ->
  precedes (order (topoSort nodes)) d y.
Proof.
  intros Hy Hd. apply In_nth_error in Hy. destruct Hy as [j Hj].
  destruct (inv_before HI j Hj Hd) as (i & Hi & Hnth).
  exists i, j. auto.
Qed.

Lemma order_before_trans a b :
  clos_trans string (depends nodes) a b ->
  In a (order (topoSort nodes)) -> precedes (order (topoSort nodes)) b a.
Proof.
  induction 1 as [a b Hd | a c b H1 IH1 H2 IH2]; intros Ha.
  - now apply order_before.
  - specialize (IH1 Ha).
    eapply precedes_trans; [apply order_nodup | | exact IH1].
    apply IH2. eapply precedes_In_l; eauto.
Qed.

Lemma depends_id x d : depends nodes x d -> In x (ids nodes).
Proof. intros (n & Hn & <- & _). now apply in_map. Qed.

Lemma trans_id x y :
  clos_trans string (depends nodes) x y -> In x (ids nodes).
Proof. induction 1; eauto using depends_id. Qed.

(** An identifier on a cycle is never emitted, so it is reported, unless
    it is an inherited name. *)
Lemma cycle_reported x :
  onCycle nodes x -> inherited x = false -> In x (cycles (topoSort nodes)).
Proof.
  intros Hx Hown. apply cycles_iff.
  assert (HK : In x K)
    by (apply K_spec; split; auto; left; eapply trans_id; eauto).
  split; auto.
  destruct (Z_le_gt_dec (val m' x) 0) as [Hle|Hgt]; [|lia].
  exfalso. assert (Hin : In x (order (topoSort nodes))) by (apply order_iff; auto).
  eapply precedes_irrefl; [apply order_nodup|].
  apply order_before_trans; eauto.
Qed.

Lemma absent_zero l x :
  ~ In x (ids nodes) -> declared nodes x = 0 /\ consumed l nodes x = 0.
Proof.
  unfold ids. clear HI HC. induction nodes as [|n ns IH]; simpl; auto.
  intros H. destruct (String.eqb (id n) x) eqn:E.
  - apply String.eqb_eq in E. tauto.
  - cbn [andb]. destruct IH as [-> ->]; auto.
Qed.

(** A dependency that names no node is emitted like a node without
    dependencies, unless it is an inherited name, and is never reported. *)
Lemma phantom_emitted g :
  (exists n, In n nodes /\ In g (deps n)) -> ~ In g (ids nodes) ->
  (inherited g = false -> In g (order (topoSort nodes)))
  /\ ~ In g (cycles (topoSort nodes)).
Proof.
  intros Hdep Hno.
  assert (Hv : val m' g = 0).
  { rewrite (inv_val HI). destruct (@absent_zero (order (topoSort nodes)) g Hno) as [-> ->].
    reflexivity. }
  split.
  - intros Hg. apply order_iff. split; [|lia]. apply K_spec. auto.
  - rewrite cycles_iff. lia.
Qed.

End Sorted.

(** *** Acyclic workflows *)

(** In a non-empty finite set whose members all reach a member, some
    member reaches itself. *)
Lemma successor_cycle (R : string -> string -> Prop) :
  forall n S, (List.length S <= n)%nat -> S <> [] ->
    (forall x, In x S -> exists y, clos_trans string R x y /\ In y S) ->
    exists x, clos_trans string R x x.
Proof.
  induction n as [|n IH]; intros S Hlen Hne Hsucc.
  - destruct S; [congruence | simpl in Hlen; lia].
  - destruct S as [|x S0]; [congruence|].
    destruct (Hsucc x (or_introl eq_refl)) as (y & Hxy & Hy).
    destruct (string_dec y x) as [->|Hyx]; [now exists x|].
    apply (IH (remove string_dec x (x :: S0))).
    + pose proof (remove_length_lt string_dec (x :: S0) x (or_introl eq_refl)).
      lia.
    + intros He. apply (in_in_remove string_dec _ Hyx) in Hy.
      rewrite He in Hy. inversion Hy.
    + intros z Hz. apply in_remove in Hz. destruct Hz as [Hz Hzx].
      destruct (Hsucc z Hz) as (w & Hzw & Hw).
      destruct (string_dec w x) as [->|Hwx].
      * exists y. split; [eapply t_trans; eauto|].
        now apply in_in_remove.
      * exists w. split; auto. now apply in_in_remove.
Qed.

Lemma not_all_included l ds :
  forallb (fun d => includes d l) ds = false ->
  exists d, In d ds /\ ~ In d l.
Proof.
  induction ds as [|d ds IH]; simpl; [discriminate|].
  destruct (includes d l) eqn:E; simpl.
  - intros H. destruct (IH H) as (d' & Hd' & Hn). exists d'. auto.
  - intros _. exists d. split; auto. rewrite <- includes_In. congruence.
Qed.

(** With duplicate-free [dependsOn] lists, in-degree that is left over
    points at a dependency that was not emitted. *)
Lemma consumed_short l nodes x :
  NoDup l -> simple nodes ->
  consumed l nodes x < declared nodes x ->
  exists d, depends nodes x d /\ ~ In d l.
Proof.
  intros Hnd. induction nodes as [|n nodes IH]; simpl; intros Hs Hlt; [lia|].
  assert (Hs' : simple nodes) by (intros n' Hn'; apply Hs; now right).
  assert (Hrest : consumed l nodes x < declared nodes x ->
                  exists d, depends (n :: nodes) x d /\ ~ In d l).
  { intros H. destruct (IH Hs' H) as (d & (n' & Hn' & Hid & Hd) & Hno).
    exists d. split; auto. exists n'. simpl. auto. }
  destruct (String.eqb (id n) x) eqn:E; [|apply Hrest; cbn [andb] in Hlt; lia].
  apply String.eqb_eq in E.
  destruct (inherited x); cbn [negb andb] in Hlt; [apply Hrest; lia|].
  destruct (forallb (fun d => includes d l) (deps n)) eqn:Hall.
  - apply Hrest. rewrite (countIn_all Hnd) in Hlt; [lia | apply Hs; now left |].
    intros d Hd. rewrite forallb_forall in Hall. apply includes_In. auto.
  - destruct (not_all_included _ _ Hall) as (d & Hd & Hno).
    exists d. split; auto. exists n. simpl. auto.
Qed.

Lemma declared_unique nodes n :
  NoDup (ids nodes) -> In n nodes -> inherited (id n) = false ->
  declared nodes (id n) = Z.of_nat (List.length (deps n)).
Proof.
  unfold ids. intros Hnd Hin Hown. revert Hnd Hin.
  induction nodes as [|n0 nodes IH]; simpl; [tauto|].
  rewrite Hown. cbn [negb]. rewrite andb_true_r.
  intros Hnd [->|Hin]; inversion Hnd; subst.
  - rewrite String.eqb_refl.
    assert (H : declared nodes (id n) = 0); [|lia].
    clear - H1. induction nodes as [|n1 nodes IH]; simpl in *; auto.
    destruct (String.eqb (id n1) (id n)) eqn:E.
    + apply String.eqb_eq in E. tauto.
    + rewrite IH; auto.
  - destruct (String.eqb (id n0) (id n)) eqn:E.
    + apply String.eqb_eq in E. exfalso. apply H1. rewrite E. now apply in_map.
    + rewrite IH; auto.
Qed.

Lemma consumed_unique l nodes n :
  NoDup (ids nodes) -> In n nodes -> inherited (id n) = false ->
  consumed l nodes (id n) = Z.of_nat (countIn l (deps n)).
Proof.
  unfold ids. intros Hnd Hin Hown. revert Hnd Hin.
  induction nodes as [|n0 nodes IH]; simpl; [tauto|].
  rewrite Hown. cbn [negb]. rewrite andb_true_r.
  intros Hnd [->|Hin]; inversion Hnd; subst.
  - rewrite String.eqb_refl.
    assert (H : consumed l nodes (id n) = 0); [|lia].
    clear - H1. induction nodes as [|n1 nodes IH]; simpl in *; auto.
    destruct (String.eqb (id n1) (id n)) eqn:E.
    + apply String.eqb_eq in E. tauto.
    + rewrite IH; auto.
  - destruct (String.eqb (id n0) (id n)) eqn:E.
    + apply String.eqb_eq in E. exfalso. apply H1. rewrite E. now apply in_map.
    + rewrite IH; auto.
Qed.

(** With distinct identifiers, a node whose [dependsOn] list repeats no
    entry is emitted exactly when every entry of the list is, and reported
    exactly when some entry is not. *)
Lemma emitted_iff nodes n :
  NoDup (ids nodes) -> In n nodes -> inherited (id n) = false ->
  NoDup (deps n) ->
  let r := topoSort nodes in
  (In (id n) (order r) <-> forall d, In d (deps n) -> In d (order r))
  /\ (In (id n) (cycles r) <-> exists d, In d (deps n) /\ ~ In d (order r)).
Proof.
  intros Hids Hn Hown Hnd r. unfold r.
  destruct (topoSort_spec nodes) as (m' & HI & HC).
  pose proof (order_nodup HI) as Hord.
  assert (HK : In (id n) (keys (indegrees nodes))).
  { apply (K_spec nodes). split; auto. left. now apply in_map. }
  assert (Hv : val m' (id n)
               = Z.of_nat (List.length (deps n))
                 - Z.of_nat (countIn (order (topoSort nodes)) (deps n))).
  { rewrite (inv_val HI), declared_unique, consumed_unique; auto. }
  pose proof (countIn_le (deps n) Hord) as Hle.
  assert (Hfull : (forall d, In d (deps n) -> In d (order (topoSort nodes)))
                  <-> val m' (id n) <= 0).
  { split.
    - intros Hall. rewrite Hv, (countIn_all Hord Hnd Hall). lia.
    - intros Hz. apply (countIn_full (deps n) Hord). lia. }
  split.
  - rewrite (order_iff HI), Hfull. tauto.
  - rewrite (cycles_iff HI HC). split.
    + intros [_ Hpos].
      destruct (forallb (fun d => includes d (order (topoSort nodes))) (deps n))
        eqn:Hall.
      * exfalso. assert (val m' (id n) <= 0); [|lia]. apply Hfull.
        intros d Hd. rewrite forallb_forall in Hall. apply includes_In. auto.
      * apply not_all_included in Hall. exact Hall.
    + intros (d & Hd & Hno). split; auto.
      destruct (Z_le_gt_dec (val m' (id n)) 0) as [Hz|Hz]; [|lia].
      exfalso. apply Hno. apply Hfull; auto.
Qed.

(** X1: the sequencer on a well-formed acyclic workflow: unique identifiers,
    none of them the name of a member of [Object.prototype], every
    dependency a node, no repeated dependency. *)
Theorem topoSort_acyclic nodes :
  properIds nodes ->
  NoDup (ids nodes) -> closed nodes -> simple nodes -> acyclic nodes ->
  let r := topoSort nodes in
  cycles r = []
  /\ NoDup (order r)
  /\ Permutation (order r) (ids nodes)
  /\ (forall n d, In n nodes -> In d (deps n) -> precedes (order r) d (id n)).
Proof.
  intros Hproper Hids Hclosed Hsimple Hacyc r. unfold r.
  destruct (topoSort_spec nodes) as (m' & HI & HC).
  pose proof (order_nodup HI) as Hnd.
  assert (Hown : forall x, In x (ids nodes) -> inherited x = false).
  { intros x Hx. apply in_map_iff in Hx. destruct Hx as (n & <- & Hn). auto. }
  assert (HK : forall x, In x (keys (indegrees nodes)) <-> In x (ids nodes)).
  { intros x. rewrite (K_spec nodes). split; [|auto].
    intros [_ [H|(n & Hn & Hd)]]; auto. eapply Hclosed; eauto. }
  pose proof (cycles_iff HI HC) as Hcyc.
  assert (Hnone : cycles (topoSort nodes) = []).
  { destruct (cycles (topoSort nodes)) as [|c cs]; auto. exfalso.
    destruct (@successor_cycle (depends nodes) (List.length (c :: cs)) (c :: cs))
      as (x & Hx); auto; [discriminate | | exact (Hacyc x Hx)].
    intros x Hx.
    apply Hcyc in Hx. destruct Hx as [HxK Hpos].
    rewrite (inv_val HI) in Hpos.
    destruct (@consumed_short (order (topoSort nodes)) nodes x Hnd Hsimple)
      as (d & Hd & Hno); [lia|].
    exists d. split; [now apply t_step|].
    apply Hcyc.
    assert (HdK : In d (keys (indegrees nodes))).
    { apply HK. destruct Hd as (n & Hn & _ & Hdn). eapply Hclosed; eauto. }
    split; auto.
    destruct (Z_le_gt_dec (val m' d) 0) as [Hle|Hgt]; [|lia].
    exfalso. apply Hno. apply (order_iff HI). auto. }
  assert (Hall : forall x, In x (order (topoSort nodes)) <-> In x (ids nodes)).
  { intros x. rewrite (order_iff HI), HK. split; [tauto|]. intros Hx.
    split; auto.
    destruct (Z_le_gt_dec (val m' x) 0) as [Hle|Hgt]; auto.
    exfalso. assert (Hc : In x (cycles (topoSort nodes))).
    { apply Hcyc. rewrite HK. split; auto. lia. }
    rewrite Hnone in Hc. inversion Hc. }
  split; [exact Hnone|]. split; [exact Hnd|]. split.
  - apply NoDup_Permutation; auto.
  - intros n d Hn Hd. apply (order_before HI).
    + apply Hall. now apply in_map.
    + exists n. auto.
Qed.

(** *** Queue discipline *)

Lemma relax_appends cur nodes : forall m q,
  exists newly, snd (relax cur nodes m q) = q ++ newly.
Proof.
  induction nodes as [|n nodes IH]; intros m q; simpl.
  - exists []. now rewrite app_nil_r.
  - destruct (includes cur (deps n)); [|apply IH].
    destruct (get (id n) m) as [d|]; [|apply IH].
    destruct (d - 1 =? 0); [|apply IH].
    destruct (IH (set (id n) (d - 1) m) (q ++ [id n])) as [newly ->].
    exists (id n :: newly). now rewrite <- app_assoc.
Qed.

(** First in, first out: what waits in the queue is emitted in queue
    order, before anything that is queued later. *)
Lemma drain_fifo nodes : forall fuel m q o,
  snd (fst (drain fuel nodes m q o)) = [] ->
  exists rest, snd (drain fuel nodes m q o) = o ++ q ++ rest.
Proof.
  induction fuel as [|fuel IH]; intros m q o; simpl.
  - intros ->. exists []. now rewrite !app_nil_r.
  - destruct q as [|cur rest]; simpl.
    + intros _. exists []. now rewrite !app_nil_r.
    + destruct (relax_appends cur nodes m rest) as [newly Hq].
      destruct (relax cur nodes m rest) as [m' q']. simpl in Hq. subst q'.
      intros He. destruct (IH _ _ _ He) as [tl ->].
      exists (newly ++ tl). rewrite <- !app_assoc. reflexivity.
Qed.

Lemma select_by_keys p (m : Obj.t Z) :
  NoDup (keys m) -> select p m = filter (fun k => p (val m k)) (keys m).
Proof.
  unfold select, entries, keys.
  induction m as [|[k0 v0] m IH]; simpl; auto.
  intros Hnd. inversion Hnd; subst.
  assert (Hext : filter (fun k => p (val ((k0, v0) :: m) k)) (map fst m)
                 = filter (fun k => p (val m k)) (map fst m)).
  { apply filter_ext_in. intros k Hk. unfold val. simpl.
    destruct (String.eqb k k0) eqn:E; auto.
    apply String.eqb_eq in E. subst. tauto. }
  rewrite Hext, <- IH by assumption.
  unfold val at 1. simpl. rewrite String.eqb_refl.
  destruct (p v0); reflexivity.
Qed.

Lemma keys_initIds nodes : forall m,
  plainIds nodes -> properIds nodes -> NoDup (keys m ++ ids nodes) ->
  keys (initIds nodes m) = keys m ++ ids nodes.
Proof.
  unfold initIds, ids.
  induction nodes as [|n nodes IH]; intros m Hp Hpr Hnd; simpl.
  - now rewrite app_nil_r.
  - assert (Hno : get (id n) m = None).
    { apply get_None. intros Hin. apply NoDup_remove_2 in Hnd. apply Hnd.
      apply in_app_iff. now left. }
    assert (Hk : keys (ensure (id n) m) = keys m ++ [id n]).
    { unfold ensure. rewrite (Hpr n (or_introl eq_refl)), Hno.
      apply keys_set_plain.
      - unfold has. now rewrite Hno.
      - apply Hp. now left. }
    rewrite IH.
    + rewrite Hk, <- app_assoc. reflexivity.
    + intros n' Hn'. apply Hp. now right.
    + intros n' Hn'. apply Hpr. now right.
    + rewrite Hk, <- app_assoc. exact Hnd.
Qed.

Lemma keys_countDeps n m :
  In (id n) (keys m) -> (forall d, In d (deps n) -> In d (keys m)) ->
  keys (countDeps n m) = keys m.
Proof.
  unfold countDeps. generalize (deps n) as ds. intros ds. revert m.
  induction ds as [|d ds IH]; intros m Hn Hds; simpl; auto.
  assert (Hb : keys (bump (id n) m) = keys m) by (apply bump_keeps_keys; now left).
  assert (He : ensure d (bump (id n) m) = bump (id n) m).
  { apply ensure_keeps_keys. left. rewrite Hb. apply Hds. now left. }
  rewrite He, IH; auto.
  - now rewrite Hb.
  - intros d' Hd'. rewrite Hb. apply Hds. now right.
Qed.

Lemma keys_countAll nodes : forall m,
  (forall n, In n nodes -> In (id n) (keys m)) ->
  (forall n d, In n nodes -> In d (deps n) -> In d (keys m)) ->
  keys (countAll nodes m) = keys m.
Proof.
  unfold countAll. induction nodes as [|n nodes IH]; intros m Hn Hd; simpl; auto.
  assert (Hk : keys (countDeps n m) = keys m).
  { apply keys_countDeps; [apply Hn; now left | intros d; apply Hd; now left]. }
  rewrite IH, Hk; auto.
  - intros n' Hn'. rewrite Hk. apply Hn. now right.
  - intros n' d Hn' Hd'. rewrite Hk. eapply Hd; [right|]; eauto.
Qed.

(** On identifiers that are not array indices the map enumerates the
    nodes in declaration order. *)
Lemma keys_indegrees nodes :
  plainIds nodes -> properIds nodes -> NoDup (ids nodes) -> closed nodes ->
  keys (indegrees nodes) = ids nodes.
Proof.
  intros Hp Hpr Hnd Hc. unfold indegrees.
  assert (Hk : keys (initIds nodes []) = ids nodes).
  { now rewrite keys_initIds. }
  rewrite keys_countAll, Hk; auto.
  - intros n Hn. rewrite Hk. now apply in_map.
  - intros n d Hn Hd. rewrite Hk. eapply Hc; eauto.
Qed.

(** X2: among the nodes that are ready at once, declaration order decides:
    the nodes without dependencies open the order, as declared, when no
    identifier is an array index or the name of a member of
    [Object.prototype]. *)
Theorem topoSort_sources_first nodes :
  plainIds nodes -> properIds nodes -> NoDup (ids nodes) -> closed nodes ->
  exists rest,
    order (topoSort nodes) =
    map id (filter (fun n => match deps n with [] => true | _ => false end) nodes)
    ++ rest.
Proof.
  intros Hp Hpr Hnd Hc.
  destruct (indegrees_spec nodes) as (Hv & _ & Hkn).
  assert (Hq : select (fun d => d =? 0) (indegrees nodes) =
               map id (filter (fun n => match deps n with [] => true | _ => false end)
                              nodes)).
  { rewrite select_by_keys by exact Hkn. rewrite keys_indegrees by assumption.
    unfold ids. rewrite filter_map_swap. f_equal. apply filter_ext_in.
    intros n Hn. rewrite Hv, declared_unique by auto.
    destruct (deps n); reflexivity. }
  unfold topoSort.
  set (m := indegrees nodes) in *. set (q := select (fun d => d =? 0) m) in *.
  set (fuel := (List.length q + potential m)%nat).
  pose proof (@drain_empties nodes fuel m q [] (Nat.le_refl _)) as He.
  destruct (drain_fifo nodes fuel m q [] He) as [rest Hr].
  destruct (drain fuel nodes m q []) as [[m' q'] o']. simpl in *.
  exists rest. rewrite Hr, Hq. reflexivity.
Qed.

End TopoFacts.

(** ** Sequencing inside a run *)

Module CycleFacts.
Import Obj ObjFacts Topo Graph Degrees TopoFacts.

Lemma rank_acyclic nodes (rank : string -> nat) :
  (forall x d, depends nodes x d -> (rank d < rank x)%nat) -> acyclic nodes.
Proof.
  intros Hr x Hx.
  assert (H : forall a b, clos_trans string (depends nodes) a b ->
                          (rank b < rank a)%nat).
  { induction 1 as [a b Hd | a c b _ IH1 _ IH2]; [auto | lia]. }
  specialize (H x x Hx). lia.
Qed.

Section Run.
Variable World : Type.
Variables httpGetHandler xml2jsonHandler : ActionHandler World.
Variable clock : nat -> Z.

(** A workflow with a cycle through an identifier that is not an inherited
    name is rejected by the sequencer before anything runs: the cycle set
    is not empty and holds every such identifier that lies on a cycle, the
    run returns [success = false] with the one error "Cycle detected: ..."
    listing the cycle set, the log holds only the two opening entries, no
    node record exists and no handler was invoked. *)
Theorem cycle_aborts_before_execution
    (workflow : WorkflowDefinition) (query : string) (w : World) :
  (exists x, onCycle (nodes workflow) x /\ inherited x = false) ->
  let sorted := topoSort (nodes workflow) in
  cycles sorted <> []
  /\ (forall x, onCycle (nodes workflow) x -> inherited x = false ->
        In x (cycles sorted))
  /\ exists res r,
       executeWorkflow httpGetHandler xml2jsonHandler clock workflow query w
         = Returned res r
       /\ ExecutionResult.success res = false
       /\ ExecutionResult.error res
            = Some ("Cycle detected: " +++ Str.join ", " (cycles sorted))
       /\ ExecutionResult.nodeExecutions res = []
       /\ map LogEntry.level (ExecutionResult.logs res) = [info; info]
       /\ effects r = []
       /\ world r = w.
Proof.
  intros (x & Hx & Hown) sorted.
  destruct (topoSort_spec (nodes workflow)) as (m' & HI & HC).
  assert (Hall : forall y, onCycle (nodes workflow) y -> inherited y = false ->
                           In y (cycles sorted)).
  { intros y Hy Hi. exact (cycle_reported HI HC Hy Hi). }
  assert (Hne : cycles sorted <> []).
  { intros He. specialize (Hall x Hx Hown). rewrite He in Hall. inversion Hall. }
  split; [exact Hne|]. split; [exact Hall|].
  unfold executeWorkflow. fold sorted.
  destruct (cycles sorted) as [|c cs] eqn:Hc; [congruence|].
  simpl. eexists. eexists. split; [reflexivity|]. simpl. repeat split.
Qed.

End Run.
End CycleFacts.

(** ** The attempt loop *)

Module RetryFacts.

Section Run.
Variable World : Type.
Variables httpGetHandler xml2jsonHandler : ActionHandler World.
Variable clock : nat -> Z.

Let run := runNode httpGetHandler xml2jsonHandler clock.
Let registry := ACTION_HANDLERS httpGetHandler xml2jsonHandler.

(** C6: a handler that rejects twice and then resolves.  With
    [maxAttempts = 3] the node succeeds on the third invocation, after two
    "Retrying" entries and two sleeps of [backoffMs], and the loop over the
    nodes goes on; with [maxAttempts = 2] the run returns a failure after
    the second invocation; without a retry policy the handler is invoked
    exactly once, whatever it does. *)
Theorem retry_policy_decides
    (nodeMap : Obj.t WorkflowNode) (query : string) (startTime : Z)
    (nodeId : string) (node : WorkflowNode) (handler : ActionHandler World)
    (substituted resolvedInput : value) (r : Run World) :
  Obj.get nodeId nodeMap = Some node ->
  registry (actionRef node) = Some handler ->
  substituteQuery (input node) query = Normal substituted ->
  resolveInput substituted (context r) = Ok resolvedInput ->
  let call := Invoked (actionRef node) nodeId resolvedInput in
  (forall b e1 e2 out w1 w2 w3,
      retry node = Some {| maxAttempts := 3; backoffMs := b |} ->
      handler node resolvedInput (world r) = (Throw e1, w1) ->
      handler node resolvedInput w1 = (Throw e2, w2) ->
      handler node resolvedInput w2 = (Ok out, w3) ->
      let durationMs := clock (6 + ticks r)%nat - clock (5 + ticks r)%nat in
      overTime node durationMs = false ->
      exists r' news,
        run nodeMap query startTime nodeId r = Continue r'
        /\ effects r' = effects r ++ [call; Slept b; call; Slept b; call]
        /\ world r' = w3
        /\ context r' = Obj.set nodeId out (context r)
        /\ nodeExecutions r' = nodeExecutions r ++
             [ {| NodeExecution.nodeId := nodeId;
                  NodeExecution.action := actionRef node;
                  NodeExecution.status := StatusSuccess;
                  NodeExecution.durationMs := durationMs;
                  NodeExecution.inputData := Some resolvedInput;
                  NodeExecution.outputData := Some out;
                  NodeExecution.error := None |} ]
        /\ logs r' = logs r ++ news
        /\ map LogEntry.level news = [running; info; info; success]
        /\ map LogEntry.message news =
             [ "Starting " +++ nodeId +++ " (" +++ actionRef node +++ ")";
               "Retrying " +++ nodeId +++ " (attempt 1/3): " +++ e1;
               "Retrying " +++ nodeId +++ " (attempt 2/3): " +++ e2;
               "Completed " +++ nodeId +++ " in " +++ Str.ofZ durationMs +++ "ms" ])
  /\ (forall b e1 e2 w1 w2,
      retry node = Some {| maxAttempts := 2; backoffMs := b |} ->
      handler node resolvedInput (world r) = (Throw e1, w1) ->
      handler node resolvedInput w1 = (Throw e2, w2) ->
      exists res r' news,
        run nodeMap query startTime nodeId r = Returned res r'
        /\ ExecutionResult.success res = false
        /\ ExecutionResult.error res = Some e2
        /\ effects r' = effects r ++ [call; Slept b; call]
        /\ world r' = w2
        /\ context r' = context r
        /\ ExecutionResult.nodeExecutions res =
             nodeExecutions r ++ [errorRecord nodeId node e2]
        /\ ExecutionResult.logs res = logs r ++ news
        /\ map LogEntry.level news = [running; info; error]
        /\ map LogEntry.message news =
             [ "Starting " +++ nodeId +++ " (" +++ actionRef node +++ ")";
               "Retrying " +++ nodeId +++ " (attempt 1/2): " +++ e1;
               "Failed " +++ nodeId +++ ": " +++ e2 ])
  /\ (retry node = None ->
      exists r',
        (run nodeMap query startTime nodeId r = Continue r'
         \/ exists res, run nodeMap query startTime nodeId r = Returned res r')
        /\ effects r' = effects r ++ [call]).
Proof.
  intros Hget Hh Hsub Hres call. split; [|split].
  - intros b e1 e2 out w1 w2 w3 Hretry H1 H2 H3 durationMs Hover.
    unfold run, registry, runNode in *. rewrite Hget, Hh, Hsub. cbn.
    rewrite Hres, Hretry. cbn.
    change (Pos.to_nat 3) with 3%nat. cbn.
    unfold invoke. cbn. rewrite H1. cbn. rewrite H2. cbn. rewrite H3. cbn.
    unfold durationMs in Hover. cbn in Hover. rewrite Hover.
    eexists. eexists. split; [reflexivity|]. cbn.
    rewrite <- !app_assoc. cbn.
    repeat (split; [reflexivity|]). split; reflexivity.
  - intros b e1 e2 w1 w2 Hretry H1 H2.
    unfold run, registry, runNode in *. rewrite Hget, Hh, Hsub. cbn.
    rewrite Hres, Hretry. cbn.
    change (Pos.to_nat 2) with 2%nat. cbn.
    unfold invoke. cbn. rewrite H1. cbn. rewrite H2. cbn.
    eexists. eexists. eexists. split; [reflexivity|]. cbn.
    rewrite <- !app_assoc. cbn.
    repeat (split; [reflexivity|]). split; reflexivity.
  - intros Hretry.
    unfold run, registry, runNode in *. rewrite Hget, Hh, Hsub. cbn.
    rewrite Hres, Hretry. cbn.
    change (Pos.to_nat 1) with 1%nat. cbn.
    unfold invoke. cbn.
    destruct (handler node resolvedInput (world r)) as [[out|e] w1]; cbn.
    + destruct (overTime node _); cbn.
      * eexists. split; [right; eexists; reflexivity|]. reflexivity.
      * eexists. split; [left; reflexivity|]. reflexivity.
    + eexists. split; [right; eexists; reflexivity|]. reflexivity.
Qed.

End Run.
End RetryFacts.

(** ** Terminal errors and escaping exceptions *)

Module AbortFacts.
Import Obj ObjFacts Topo Graph Degrees TopoFacts.

Lemma get_fromEntries_None (ns : list WorkflowNode) g :
  ~ In g (ids ns) -> get g (fromEntries (map (fun n => (id n, n)) ns)) = None.
Proof.
  unfold fromEntries, ids.
  assert (H : forall (acc : Obj.t WorkflowNode),
             get g acc = None -> ~ In g (map id ns) ->
             get g (fold_left (fun o kv => set (fst kv) (snd kv) o)
                      (map (fun n => (id n, n)) ns) acc) = None).
  { induction ns as [|n ns IH]; intros acc Hacc Hno; simpl in *; auto.
    apply IH; [|tauto]. rewrite get_set_other; auto. }
  intros Hno. apply H; auto.
Qed.

Lemma get_fromEntries_In (ns : list WorkflowNode) k n :
  get k (fromEntries (map (fun n => (id n, n)) ns)) = Some n -> In n ns.
Proof.
  unfold fromEntries.
  assert (H : forall (acc : Obj.t WorkflowNode),
             (forall k' n', get k' acc = Some n' -> In n' ns) ->
             forall l, incl l ns ->
             get k (fold_left (fun o kv => set (fst kv) (snd kv) o)
                      (map (fun n => (id n, n)) l) acc) = Some n -> In n ns).
  { intros acc Hacc l. revert acc Hacc.
    induction l as [|n0 l IH]; intros acc Hacc Hl; simpl.
    - apply Hacc.
    - apply IH.
      + intros k' n'. rewrite get_set.
        destruct (String.eqb (id n0) k'); [|apply Hacc].
        intros [= <-]. apply Hl. now left.
      + intros x Hx. apply Hl. now right. }
  apply (H []); [discriminate | apply incl_refl].
Qed.

Section Run.
Variable World : Type.
Variables httpGetHandler xml2jsonHandler : ActionHandler World.
Variable clock : nat -> Z.

(** C2, as the code has it: a [dependsOn] entry [g] that names no node of
    the workflow, and no member of [Object.prototype], gets an in-degree of
    its own ("ensure dep exists"), so it is emitted in the order and never
    reported in the cycle set; the node loop then finds no node under that
    identifier and passes over it.  The entry does not hold back the node
    [n] that lists it: with distinct identifiers and no repeated entry in
    the list of [n], that node is emitted exactly when its other
    dependencies are, and reported exactly when one of them is not. *)
Theorem unresolved_dependency_is_skipped
    (workflow : WorkflowDefinition) (query : string) (startTime : Z)
    (n : WorkflowNode) (g : string) (r : Run World) :
  In n (nodes workflow) -> In g (deps n) ->
  ~ In g (ids (nodes workflow)) -> inherited g = false ->
  let sorted := topoSort (nodes workflow) in
  let nodeMap := fromEntries (map (fun n => (id n, n)) (nodes workflow)) in
  In g (order sorted)
  /\ ~ In g (cycles sorted)
  /\ runNode httpGetHandler xml2jsonHandler clock nodeMap query startTime g r
     = Continue r
  /\ (NoDup (ids (nodes workflow)) -> NoDup (deps n) ->
      inherited (id n) = false ->
      (In (id n) (order sorted) <->
         forall d, In d (deps n) -> d <> g -> In d (order sorted))
      /\ (In (id n) (cycles sorted) <->
            exists d, In d (deps n) /\ d <> g /\ ~ In d (order sorted))).
Proof.
  intros Hn Hg Hno Hown sorted nodeMap.
  destruct (topoSort_spec (nodes workflow)) as (m' & HI & HC).
  destruct (@phantom_emitted _ _ HI HC g (ex_intro _ n (conj Hn Hg)) Hno)
    as [Hin Hout].
  specialize (Hin Hown).
  split; [exact Hin|]. split; [exact Hout|]. split.
  { unfold runNode, nodeMap. now rewrite get_fromEntries_None. }
  intros Hids Hnd Hproper.
  destruct (@emitted_iff (nodes workflow) n Hids Hn Hproper Hnd) as [Ho Hc].
  fold sorted in Ho, Hc.
  split.
  - rewrite Ho. split; [auto|]. intros H d Hd.
    destruct (string_dec d g) as [->|Hne]; auto.
  - rewrite Hc. split.
    + intros (d & Hd & Hnot). exists d. split; auto. split; auto.
      intros ->. auto.
    + intros (d & Hd & _ & Hnot). eauto.
Qed.

End Run.

Section Boundary.
Variable World : Type.
Variables httpGetHandler xml2jsonHandler : ActionHandler World.
Variable clock : nat -> Z.

Lemma runNode_goes_on_or_returns nodeMap query startTime nodeId (r : Run World) :
  (forall node, get nodeId nodeMap = Some node ->
     exists v, substituteQuery (input node) query = Normal v) ->
  (exists r', runNode httpGetHandler xml2jsonHandler clock nodeMap query
                startTime nodeId r = Continue r')
  \/ (exists res r', runNode httpGetHandler xml2jsonHandler clock nodeMap query
                       startTime nodeId r = Returned res r').
Proof.
  intros Hsub. unfold runNode.
  destruct (get nodeId nodeMap) as [node|]; [|left; eauto].
  destruct (Hsub node eq_refl) as [v Hv]. rewrite Hv.
  destruct (ACTION_HANDLERS httpGetHandler xml2jsonHandler (actionRef node))
    as [handler|].
  - destruct (resolveInput v _) as [resolvedInput|err].
    + destruct (attempts clock _ _ _ _ _ _ _ _ _ _) as [[succeeded e] r1].
      destruct succeeded; [left; eauto|].
      destruct (failed clock startTime e _) as [res r2]. right. eauto.
    + destruct (failed clock startTime err _) as [res r2]. right. eauto.
  - destruct (failed clock startTime _ _) as [res r2]. right. eauto.
Qed.

Lemma runNodes_returns nodeMap query startTime order :
  (forall nodeId node, get nodeId nodeMap = Some node ->
     exists v, substituteQuery (input node) query = Normal v) ->
  forall r : Run World,
  exists res r', runNodes httpGetHandler xml2jsonHandler clock nodeMap query
                   startTime order r = Returned res r'.
Proof.
  intros Hsub. induction order as [|nodeId rest IH]; intros r; cbn.
  - eauto.
  - destruct (@runNode_goes_on_or_returns nodeMap query startTime nodeId r
                (Hsub nodeId)) as [(r' & ->)|(res & r' & ->)]; eauto.
Qed.

(** X3: the text-level substitution is the only way out: when the template of
    every node, with the query substituted, is JSON of the modelled
    fragment, the run ends with a structured result. *)
Theorem structured_result_when_templates_parse
    (workflow : WorkflowDefinition) (query : string) (w : World) :
  (forall n, In n (nodes workflow) ->
     exists v, substituteQuery (input n) query = Normal v) ->
  exists res r,
    executeWorkflow httpGetHandler xml2jsonHandler clock workflow query w
      = Returned res r.
Proof.
  intros Hsub. unfold executeWorkflow.
  destruct (now clock _) as [startTime r0].
  destruct (0 <? List.length (cycles (topoSort (nodes workflow))))%nat.
  - destruct (failed clock startTime _ _) as [res r1]. eauto.
  - apply runNodes_returns. intros nodeId node Hget. apply Hsub.
    eapply get_fromEntries_In. exact Hget.
Qed.

End Boundary.

(** C2, as stated, fails: the only node depends on an identifier that is
    not declared, yet the cycle set is empty and the node runs. *)
Lemma unresolved_dependency_not_reported :
  let wf := Demo.workflow [Demo.pass "b" (Some ["ghost"]) None] in
  topoSort (nodes wf) = {| order := ["ghost"; "b"]; cycles := [] |}
  /\ exists res r,
       executeWorkflow Demo.down Demo.down (Demo.every 1) wf "q" O
         = Returned res r
       /\ ExecutionResult.success res = true
       /\ map NodeExecution.status (ExecutionResult.nodeExecutions res)
            = [StatusSuccess]
       /\ effects r
            = [Invoked "plugin.transform.jq" "b"
                 (VObj [("data", VNum 1); ("expression", VStr ".")])].
Proof.
  split; [reflexivity|].
  eexists. eexists. split; [vm_compute; reflexivity|].
  repeat split.
Qed.

(** C3, at a failing input: the template mentions the query placeholder
    and the query is a double quote.  The text handed to [JSON.parse] is
    not JSON, [substituteQuery] sits outside every [try], and the
    [SyntaxError] leaves [executeWorkflow] instead of a result. *)
Theorem quote_in_query_escapes :
  let wf := Demo.workflow
              [Demo.node "n" "plugin.transform.jq"
                 (VObj [("data", VStr "{query}"); ("expression", VStr ".")])
                 None None None] in
  substituteQuery (input (Demo.node "n" "plugin.transform.jq"
                    (VObj [("data", VStr "{query}"); ("expression", VStr ".")])
                    None None None)) Demo.quoteQuery
    = Abrupt "SyntaxError: JSON.parse"
  /\ exists r,
       executeWorkflow Demo.down Demo.down (Demo.every 1) wf Demo.quoteQuery O
         = Raised "SyntaxError: JSON.parse" r
       /\ nodeExecutions r = [].
Proof.
  split; [reflexivity|].
  eexists. split; [vm_compute; reflexivity|]. reflexivity.
Qed.

End AbortFacts.

(** ** Timeouts *)

Module TimeoutFacts.
Import Rounds.

Section Run.
Variable World : Type.
Variable clock : nat -> Z.

(** C7, for a non-zero [timeoutMs]: when the handler resolves but more than
    [timeoutMs] elapsed between the two clock readings around it, the round
    ends in the catch block with the message "Timeout exceeded: ..." and
    the loop continues exactly as after a handler that rejected with that
    message: same retry test, same log entry, same sleep.  The handler has
    run to its end by then (its effect on the world is there), and its
    output reached neither the context nor the node records. *)
Theorem overrun_counts_as_failure
    (remaining : nat) (attempt maxAttempts backoffMs t : Z)
    (handler : ActionHandler World) (nodeId : string) (node : WorkflowNode)
    (resolvedInput out : value) (lastError : string) (r : Run World)
    (w' : World) :
  timeoutMs node = Some t ->
  t <> 0 ->
  handler node resolvedInput (world r) = (Ok out, w') ->
  let durationMs := clock (S (ticks r)) - clock (ticks r) in
  durationMs > t ->
  let msg := "Timeout exceeded: " +++ Str.ofZ durationMs +++ "ms > " +++
             Str.ofZ t +++ "ms" in
  let call := Invoked (actionRef node) nodeId resolvedInput in
  attempts clock (S remaining) attempt handler nodeId node resolvedInput
    maxAttempts backoffMs lastError r
  = attempts clock remaining (attempt + 1) handler nodeId node resolvedInput
      maxAttempts backoffMs msg
      (caught clock nodeId attempt maxAttempts backoffMs msg
         (settled r w' call 2))
  /\ forall rejecting : ActionHandler World,
       rejecting node resolvedInput (world r) = (Throw msg, w') ->
       attempts clock (S remaining) attempt rejecting nodeId node resolvedInput
         maxAttempts backoffMs lastError r
       = attempts clock remaining (attempt + 1) rejecting nodeId node
           resolvedInput maxAttempts backoffMs msg
           (caught clock nodeId attempt maxAttempts backoffMs msg
              (settled r w' call 1)).
Proof.
  intros Ht Hnz Hh durationMs Hover msg call.
  assert (Hot : overTime node durationMs = true).
  { unfold overTime. rewrite Ht. apply andb_true_iff. split.
    - apply negb_true_iff. now apply Z.eqb_neq.
    - apply Z.gtb_lt. lia. }
  split.
  - cbn. unfold invoke. cbn. rewrite Hh. cbn. fold durationMs.
    rewrite Hot, Ht. reflexivity.
  - intros rejecting Hr. cbn. unfold invoke. cbn. rewrite Hr. reflexivity.
Qed.

End Run.

(** C7, as stated, fails for a declared timeout of 0: the handler takes
    5 ms, which exceeds it, and the attempt is recorded as a success. *)
Lemma zero_timeout_never_trips :
  let wf := Demo.workflow [Demo.pass "a" None (Some 0)] in
  exists res r,
    executeWorkflow Demo.down Demo.down (Demo.every 5) wf "q" O
      = Returned res r
    /\ ExecutionResult.success res = true
    /\ map NodeExecution.status (ExecutionResult.nodeExecutions res)
         = [StatusSuccess]
    /\ map NodeExecution.durationMs (ExecutionResult.nodeExecutions res) = [5]
    /\ context r = [("a", VObj [("result", VNum 1)])].
Proof.
  eexists. eexists. split; [vm_compute; reflexivity|]. repeat split.
Qed.

End TimeoutFacts.

(** ** Terminal node records *)

Module TerminalFacts.
Import Rounds.

Section Run.
Variable World : Type.
Variables httpGetHandler xml2jsonHandler : ActionHandler World.
Variable clock : nat -> Z.

(** When the attempts run out, every round has failed and [lastError] is
    the message of the round made last. *)
Lemma attempts_exhausted (handler : ActionHandler World) nodeId node
    resolvedInput maxAttempts backoffMs :
  forall remaining attempt lastError r err r',
    attempts clock (S remaining) attempt handler nodeId node resolvedInput
      maxAttempts backoffMs lastError r = (false, err, r') ->
    exists rl,
      reaches clock handler nodeId node resolvedInput maxAttempts backoffMs
        attempt r (attempt + Z.of_nat remaining) rl
      /\ roundFails clock handler node resolvedInput rl err.
Proof.
  induction remaining as [|k IH]; intros attempt lastError r err r'.
  - cbn. unfold invoke. cbn.
    destruct (handler node resolvedInput (world r)) as [[out|e] w1] eqn:Hh; cbn.
    + destruct (overTime node _) eqn:Hot; cbn; [|discriminate].
      intros [= <- _]. exists r. rewrite Z.add_0_r. split; [constructor|].
      unfold roundFails. rewrite Hh. auto.
    + intros [= <- _]. exists r. rewrite Z.add_0_r. split; [constructor|].
      unfold roundFails. now rewrite Hh.
  - remember (S k) as n eqn:Hn. cbn. unfold invoke. cbn.
    replace (attempt + Z.of_nat n) with ((attempt + 1) + Z.of_nat k) by lia.
    destruct (handler node resolvedInput (world r)) as [[out|e] w1] eqn:Hh; cbn.
    + destruct (overTime node _) eqn:Hot; cbn; [|discriminate].
      subst n. intros Ha. apply IH in Ha. destruct Ha as (rl & Hreach & Hfail).
      exists rl. split; [|exact Hfail].
      eapply reaches_next.
      * unfold roundFails. rewrite Hh. split; [exact Hot | reflexivity].
      * unfold afterFailure. rewrite Hh. exact Hreach.
    + subst n. intros Ha. apply IH in Ha. destruct Ha as (rl & Hreach & Hfail).
      exists rl. split; [|exact Hfail].
      eapply reaches_next.
      * unfold roundFails. rewrite Hh. reflexivity.
      * unfold afterFailure. rewrite Hh. exact Hreach.
Qed.

(** The rounds are numbered upwards, and the number of a round determines
    the state in which it starts. *)
Lemma reaches_le handler nodeId node resolvedInput maxAttempts backoffMs
    attempt (r : Run World) last rl :
  reaches clock handler nodeId node resolvedInput maxAttempts backoffMs
    attempt r last rl ->
  attempt <= last.
Proof. induction 1; lia. Qed.

Lemma reaches_same handler nodeId node resolvedInput maxAttempts backoffMs
    attempt (r : Run World) rl :
  reaches clock handler nodeId node resolvedInput maxAttempts backoffMs
    attempt r attempt rl ->
  rl = r.
Proof.
  intros H. inversion H as [|? ? e ? ? _ Hnext]; subst; [reflexivity|].
  apply reaches_le in Hnext. lia.
Qed.

Lemma reaches_step handler nodeId node resolvedInput maxAttempts backoffMs
    attempt (r : Run World) last rl :
  reaches clock handler nodeId node resolvedInput maxAttempts backoffMs
    attempt r last rl ->
  attempt < last ->
  reaches clock handler nodeId node resolvedInput maxAttempts backoffMs
    (attempt + 1)
    (afterFailure clock handler nodeId node resolvedInput maxAttempts backoffMs
       attempt r)
    last rl.
Proof.
  intros H Hlt. inversion H as [|? ? e ? ? _ Hnext]; subst; [lia | exact Hnext].
Qed.

(** A loop that gives up has written neither a record nor an output. *)
Lemma attempts_failed_keeps handler nodeId node resolvedInput maxAttempts backoffMs :
  forall remaining attempt lastError (r : Run World) err (r' : Run World),
    attempts clock remaining attempt handler nodeId node resolvedInput
      maxAttempts backoffMs lastError r = (false, err, r') ->
    nodeExecutions r' = nodeExecutions r /\ context r' = context r.
Proof.
  induction remaining as [|k IH]; intros attempt lastError r err r'.
  - cbn. intros [= _ <-]. auto.
  - cbn. unfold invoke. cbn.
    destruct (handler node resolvedInput (world r)) as [[out|e] w1]; cbn.
    + destruct (overTime node _); cbn; [|discriminate].
      intros H. apply IH in H. destruct H as [-> ->].
      unfold caught. destruct (attempt <? maxAttempts); split; reflexivity.
    + intros H. apply IH in H. destruct H as [-> ->].
      unfold caught. destruct (attempt <? maxAttempts); split; reflexivity.
Qed.

(** C10: whenever the body of the node loop returns, it has appended one
    node record with status error, [durationMs] 0 (no clock reading enters
    it) and the error that is also the result's top-level error.  That
    error is the "Action not implemented" text, the message thrown by the
    input resolution, or the [lastError] of the attempt loop: when the
    policy allows an attempt, every round up to attempt number
    [maxAttempts] has failed and the error is the message with which that
    last round failed. *)
Theorem terminal_record_has_zero_duration
    (nodeMap : Obj.t WorkflowNode) (query : string) (startTime : Z)
    (nodeId : string) (r r' : Run World) (res : ExecutionResult.t) :
  runNode httpGetHandler xml2jsonHandler clock nodeMap query startTime nodeId r
    = Returned res r' ->
  exists node rec err,
    Obj.get nodeId nodeMap = Some node
    /\ ExecutionResult.nodeExecutions res = nodeExecutions r ++ [rec]
    /\ NodeExecution.nodeId rec = nodeId
    /\ NodeExecution.action rec = actionRef node
    /\ NodeExecution.status rec = StatusError
    /\ NodeExecution.durationMs rec = 0
    /\ NodeExecution.error rec = Some err
    /\ ExecutionResult.success res = false
    /\ ExecutionResult.error res = Some err
    /\ ( (ACTION_HANDLERS httpGetHandler xml2jsonHandler (actionRef node) = None
          /\ err = "Action not implemented: " +++ actionRef node)
         \/ (exists substituted,
               substituteQuery (input node) query = Normal substituted
               /\ resolveInput substituted (context r) = Throw err)
         \/ (exists handler substituted resolvedInput,
               ACTION_HANDLERS httpGetHandler xml2jsonHandler (actionRef node)
                 = Some handler
               /\ substituteQuery (input node) query = Normal substituted
               /\ resolveInput substituted (context r) = Ok resolvedInput
               /\ let limit :=
                    match retry node with Some p => maxAttempts p | None => 1 end in
                  let pause :=
                    match retry node with Some p => backoffMs p | None => 0 end in
                  let started :=
                    pushLog clock running
                      ("Starting " +++ nodeId +++ " (" +++ actionRef node +++ ")")
                      (Some nodeId) r in
                  ( (1 <= limit
                     /\ exists rl,
                          reaches clock handler nodeId node resolvedInput
                            limit pause 1 started limit rl
                          /\ roundFails clock handler node resolvedInput rl err)
                    \/ (limit <= 0 /\ err = EmptyString) )) ).
Proof.
  unfold runNode.
  destruct (Obj.get nodeId nodeMap) as [node|]; [|discriminate].
  destruct (ACTION_HANDLERS httpGetHandler xml2jsonHandler (actionRef node))
    as [handler|] eqn:Hh.
  - destruct (substituteQuery (input node) query) as [substituted| |] eqn:Hs;
      try discriminate.
    cbn.
    destruct (resolveInput substituted (context r)) as [resolvedInput|e] eqn:Hr.
    + set (mA := match retry node with Some p => maxAttempts p | None => 1 end).
      destruct (attempts clock (Z.to_nat mA) 1 handler nodeId node resolvedInput
                  mA _ EmptyString _) as [[succeeded lastError] r1] eqn:Ha.
      destruct succeeded; [discriminate|]. cbn.
      intros [= <- <-]. cbn.
      exists node, (errorRecord nodeId node lastError), lastError.
      destruct (attempts_failed_keeps _ _ _ _ _ _ _ _ _ _ Ha) as [Hne _].
      split; [reflexivity|]. split; [now rewrite Hne|].
      repeat (split; [reflexivity|]).
      right. right. exists handler, substituted, resolvedInput.
      repeat (split; [reflexivity || assumption|]).
      cbv zeta. fold mA.
      destruct (Z.to_nat mA) as [|k] eqn:Hk.
      * right. cbn in Ha. injection Ha as <- _. split; [lia | reflexivity].
      * left. split; [lia|].
        apply attempts_exhausted in Ha. destruct Ha as (rl & Hreach & Hfail).
        exists rl. split; [|exact Hfail].
        replace mA with (1 + Z.of_nat k) at 2 by lia. exact Hreach.
    + cbn. intros [= <- <-]. cbn.
      exists node, (errorRecord nodeId node e), e.
      repeat (split; [reflexivity|]).
      right. left. exists substituted. auto.
  - cbn. intros [= <- <-]. cbn.
    exists node, (errorRecord nodeId node ("Action not implemented: " +++ actionRef node)),
      ("Action not implemented: " +++ actionRef node).
    repeat (split; [reflexivity|]). left. auto.
Qed.

End Run.
End TerminalFacts.

(** ** Running a workflow twice *)

Module ReplayFacts.
Import Obj ObjFacts Replay.

Section Run.
Variable World : Type.
Variables httpGetHandler xml2jsonHandler : ActionHandler World.
Variables clock1 clock2 : nat -> Z.









End Run.



End ReplayFacts.

(** ** Reference resolution *)

Module RefFacts.
Import Str Path StrFacts.

Lemma digitVal_nonneg a : isDigit a = true -> 0 <= digitVal a.
Proof.
  unfold isDigit, digitVal. intros H. apply andb_true_iff in H.
  destruct H as [H _]. apply Nat.leb_le in H. lia.
Qed.

Lemma decimal_nonneg ds : forall acc,
  0 <= acc -> digits ds = true -> 0 <= decimal acc ds.
Proof.
  induction ds as [|a ds IH]; intros acc Hacc Hd; cbn [decimal]; auto.
  cbn [digits] in Hd. apply andb_true_iff in Hd. destruct Hd as [Ha Hd].
  apply IH; auto. pose proof (digitVal_nonneg a Ha). lia.
Qed.






(** A property of an object is found before anything it inherits. *)
Lemma getField_stored k fields v :
  Obj.get k fields = Some v -> getField k (VObj fields) = Some v.
Proof. intros H. unfold getField. cbn. now rewrite H. Qed.








(** The [in] tests see what objects inherit: under [__proto__] the path
    finds the prototype of the output; the node [constructor], which never
    ran, is found in the empty context and the walk fails at its first
    field, a function having none for the resolver; a name that nothing
    inherits is an unknown node. *)
Example inherited_names_are_found :
  resolveRef "$.nodes.n.output.__proto__" [("n", VObj [])] = Ok (VProto OfObject)
  /\ resolveRef "$.nodes.constructor.output.a" []
     = Throw "$ref field not found: $.nodes.constructor.output.a"
  /\ resolveRef "$.nodes.m.output.a" [] = Throw "$ref to unknown node: m".
Proof. repeat split; reflexivity. Qed.

End RefFacts.

(** ** The expression evaluator *)

Module JqFacts.
Import Str Path StrFacts Walk.

Lemma jqPath_app pre : forall data cur post,
  reach data pre = Some cur -> jqPath data (pre ++ post) = jqPath cur post.
Proof.
  induction pre as [|tok pre IH]; intros data cur post; simpl.
  - now intros [= ->].
  - destruct (jqToken data tok); try discriminate. apply IH.
Qed.

Lemma join_nonempty sep toks t :
  In t toks -> t <> EmptyString -> join sep toks <> EmptyString.
Proof.
  induction toks as [|t0 toks IH]; simpl; [tauto|].
  intros Hin Ht. destruct toks as [|t1 toks].
  - destruct Hin as [->|[]]. exact Ht.
  - destruct t0; [|discriminate]. simpl.
    destruct sep; [|discriminate]. simpl.
    apply IH; auto. destruct Hin as [<-|Hin]; [congruence | exact Hin].
Qed.

(** A dotted path of dot-free tokens is walked token by token. *)
Lemma jqSingle_path data toks :
  Forall (fun t => includes "." t = false) toks ->
  join "." toks <> EmptyString ->
  jqSingle data ("." +++ join "." toks) = jqPath data toks.
Proof.
  intros Hplain Hne.
  assert (Htoks : toks <> []) by (intros ->; now apply Hne).
  unfold jqSingle.
  change ("." +++ join "." toks) with (String "." (join "." toks)).
  cbn [String.eqb Ascii.eqb Bool.eqb orb andb negb startsWith tail].
  destruct (String.eqb (join "." toks) EmptyString) eqn:E.
  - apply String.eqb_eq in E. congruence.
  - change (join "." toks) with (join (String "." EmptyString) toks).
    now rewrite split_join.
Qed.

Lemma jqToken_field cur tok :
  tok <> EmptyString -> includes "[" tok = false ->
  jqToken cur tok = match getField tok cur with
                    | Some v => Next v
                    | None => Fail ("field not found: " +++ tok)
                    end.
Proof.
  intros Hne Hb. unfold jqToken.
  destruct (String.eqb tok EmptyString) eqn:E.
  - apply String.eqb_eq in E. congruence.
  - now rewrite breakAt_none.
Qed.

(** The array test of an indexed token: [Array.prototype] is an array
    without elements, so every index is past its end. *)
Lemma index_into x i :
  0 <= i ->
  match asArray x with
  | Some items =>
      if i >=? Z.of_nat (List.length items) then Return VNull
      else Next (nth (Z.to_nat i) items VUndefined)
  | None => Return VNull
  end
  = match x with
    | VArr items =>
        match nth_error items (Z.to_nat i) with
        | Some y => Next y
        | None => Return VNull
        end
    | _ => Return VNull
    end.
Proof.
  intros Hpos. destruct x as [| | | | |items| |c| |]; try reflexivity.
  - cbn [asArray]. destruct (nth_error items (Z.to_nat i)) as [y|] eqn:Hn.
    + assert (Hlt : (Z.to_nat i < List.length items)%nat).
      { apply nth_error_Some. congruence. }
      replace (i >=? Z.of_nat (List.length items)) with false
        by (symmetry; rewrite Z.geb_leb; apply Z.leb_gt; lia).
      f_equal. now apply nth_error_nth.
    + apply nth_error_None in Hn.
      replace (i >=? Z.of_nat (List.length items)) with true
        by (symmetry; rewrite Z.geb_leb; apply Z.leb_le; lia).
      reflexivity.
  - destruct c; cbn; [reflexivity|].
    replace (i >=? 0) with true
      by (symmetry; rewrite Z.geb_leb; apply Z.leb_le; lia).
    reflexivity.
Qed.

Lemma jqToken_index cur f ds :
  includes "[" f = false -> ds <> EmptyString -> digits ds = true ->
  jqToken cur (render (At f ds))
  = match (if String.eqb f EmptyString then Some cur else getField f cur) with
    | None => Fail ("field not found: " +++ f)
    | Some (VArr items) =>
        match nth_error items (Z.to_nat (decimal 0 ds)) with
        | Some x => Next x
        | None => Return VNull
        end
    | Some _ => Return VNull
    end.
Proof.
  intros Hf Hne Hd. unfold jqToken, render.
  destruct (String.eqb (f +++ "[" +++ ds +++ "]") EmptyString) eqn:E.
  { apply String.eqb_eq in E. destruct f; discriminate. }
  change (f +++ "[" +++ ds +++ "]") with (f +++ String "[" (ds +++ "]")).
  rewrite breakAt_app by exact Hf.
  change (String "[" (ds +++ "]")) with ("[" +++ ds +++ "]" +++ EmptyString) at 1.
  rewrite (matchIndex_bracket EmptyString Hne Hd).
  pose proof (RefFacts.decimal_nonneg ds (acc := 0) (Z.le_refl 0) Hd) as Hpos.
  set (i := decimal 0 ds) in *.
  destruct (String.eqb f EmptyString).
  - rewrite (index_into cur Hpos). destruct cur; reflexivity.
  - destruct (getField f cur) as [x|]; [|reflexivity].
    rewrite (index_into x Hpos). destruct x; reflexivity.
Qed.

(** The five sample evaluations, and the two rules of a dotted path as the
    [in] test of the evaluator has them.  Once the walk has reached a value
    [cur], a field token that [cur] neither has nor inherits throws "field
    not found", also as the field part of an indexed token; an indexed
    token whose field is there (or that has no field part) returns null
    when the value indexed is not an array or the index is not below its
    length. *)
Theorem jq_samples_and_path_rules :
  jqEval (VObj [("a", VNum 1); ("b", VNum 2)]) "keys"
    = Ok (VArr [VStr "a"; VStr "b"])
  /\ jqEval (VObj [("a", VNum 1)]) "to_entries"
    = Ok (VArr [VObj [("key", VStr "a"); ("value", VNum 1)]])
  /\ jqEval (VObj [("a", VObj [("b", VArr [VNum 10; VNum 20])])]) ".a.b[0]"
    = Ok (VNum 10)
  /\ jqEval (VObj [("a", VObj [("b", VArr [VNum 10; VNum 20])])]) ".a.b[5]"
    = Ok VNull
  /\ jqEval (VArr [VNum 1; VNum 2; VNum 3]) "length" = Ok (VNum 3)
  /\ (forall data pre tok post cur,
        Forall (fun t => includes "." t = false) (pre ++ tok :: post) ->
        reach data pre = Some cur ->
        tok <> EmptyString -> includes "[" tok = false ->
        getField tok cur = None ->
        jqSingle data ("." +++ join "." (pre ++ tok :: post))
          = Throw ("field not found: " +++ tok))
  /\ (forall data pre f ds post cur,
        Forall (fun t => includes "." t = false) (pre ++ render (At f ds) :: post) ->
        reach data pre = Some cur ->
        includes "[" f = false -> ds <> EmptyString -> digits ds = true ->
        (f <> EmptyString /\ getField f cur = None ->
           jqSingle data ("." +++ join "." (pre ++ render (At f ds) :: post))
             = Throw ("field not found: " +++ f))
        /\ (forall target,
              (if String.eqb f EmptyString then Some cur else getField f cur)
                = Some target ->
              (forall items, target = VArr items ->
                 Z.of_nat (List.length items) <= decimal 0 ds) ->
              jqSingle data ("." +++ join "." (pre ++ render (At f ds) :: post))
                = Ok VNull)).
Proof.
  repeat (split; [reflexivity|]). split.
  - intros data pre tok post cur Hplain Hreach Hne Hb Hmiss.
    rewrite jqSingle_path; auto.
    + rewrite (@jqPath_app pre data cur _ Hreach). cbn [jqPath].
      now rewrite jqToken_field, Hmiss.
    + apply join_nonempty with tok; auto. apply in_elt.
  - intros data pre f ds post cur Hplain Hreach Hf Hne Hd.
    assert (Hj : join "." (pre ++ render (At f ds) :: post) <> EmptyString).
    { apply join_nonempty with (render (At f ds)); [apply in_elt|].
      unfold render. destruct f; discriminate. }
    split.
    + intros [Hfne Hmiss]. rewrite jqSingle_path; auto.
      rewrite (@jqPath_app pre data cur _ Hreach). cbn [jqPath].
      rewrite jqToken_index by assumption.
      destruct (String.eqb f EmptyString) eqn:E.
      * apply String.eqb_eq in E. congruence.
      * now rewrite Hmiss.
    + intros target Htarget Hrange. rewrite jqSingle_path; auto.
      rewrite (@jqPath_app pre data cur _ Hreach). cbn [jqPath].
      rewrite jqToken_index by assumption. rewrite Htarget.
      destruct target; try reflexivity.
      specialize (Hrange items eq_refl).
      destruct (nth_error items (Z.to_nat (decimal 0 ds))) eqn:Hn; [|reflexivity].
      assert (Z.to_nat (decimal 0 ds) < List.length items)%nat
        by (apply nth_error_Some; congruence).
      lia.
Qed.

(** C8, at a failing input: the empty object has no field [constructor],
    an array has no field [map], and the object [{"a": {}}] has no field
    [a.toString]; the [in] test finds the members that the values
    inherit, and the evaluation returns a function instead of throwing. *)
Theorem inherited_member_is_no_error :
  own "constructor" (VObj []) = None
  /\ jqEval (VObj []) ".constructor" = Ok (VMethod OfObject "constructor")
  /\ own "map" (VArr []) = None
  /\ jqEval (VArr []) ".map" = Ok (VMethod OfArray "map")
  /\ own "toString" (VObj []) = None
  /\ jqEval (VObj [("a", VObj [])]) ".a.toString"
     = Ok (VMethod OfObject "toString").
Proof. repeat split; reflexivity. Qed.

End JqFacts.

(** ** Where the sequencer leaves a valid workflow unordered or a cycle
    unreported *)

Module SequencerDefects.
Import Graph Topo Demo.

Lemma repeated_acyclic : acyclic (nodes repeated).
Proof.
  apply CycleFacts.rank_acyclic
    with (rank := fun x => if String.eqb x "b" then 1%nat else 0%nat).
  intros x d (n & Hn & Hid & Hd). simpl in Hn.
  destruct Hn as [<-|[<-|[]]]; simpl in Hd, Hid.
  - destruct Hd.
  - subst x. destruct Hd as [<-|[<-|[]]]; simpl; lia.
Qed.

(** C1, at a failing input: the workflow is acyclic, its identifiers are
    distinct and every dependency names a node, but [b] repeats its
    dependency.  The counting loop adds one to the in-degree of [b] per
    entry, the [while] loop takes one off per emitted dependency, so [b]
    keeps an in-degree of 1: it is missing from the order, it is reported
    as a cycle, and the run is rejected without running anything. *)
Theorem repeated_dependency_reported_as_cycle :
  acyclic (nodes repeated)
  /\ closed (nodes repeated)
  /\ NoDup (ids (nodes repeated))
  /\ topoSort (nodes repeated) = {| order := ["a"]; cycles := ["b"] |}
  /\ exists res r,
       executeWorkflow Demo.down Demo.down (Demo.every 1) repeated "q" O
         = Returned res r
       /\ ExecutionResult.success res = false
       /\ ExecutionResult.error res = Some "Cycle detected: b"
       /\ ExecutionResult.nodeExecutions res = []
       /\ effects r = [].
Proof.
  split; [exact repeated_acyclic|]. split; [|split; [|split]].
  - intros n d Hn Hd. simpl in Hn. destruct Hn as [<-|[<-|[]]]; simpl in Hd.
    + destruct Hd.
    + destruct Hd as [<-|[<-|[]]]; simpl; auto.
  - simpl. repeat constructor; simpl; intuition discriminate.
  - reflexivity.
  - eexists. eexists. split; [vm_compute; reflexivity|]. repeat split.
Qed.

(** Identifiers that look like array indices are enumerated in numeric
    order, whatever the declaration order: two independent nodes declared
    as "2", "1" are emitted as "1", "2". *)
Lemma index_like_ids_follow_numeric_order :
  topoSort [Demo.pass "2" None None; Demo.pass "1" None None]
  = {| order := ["1"; "2"]; cycles := [] |}.
Proof. reflexivity. Qed.

(** A node named like a member of [Object.prototype] gets no in-degree: it
    is neither emitted nor reported, and a node that waits for such a name
    waits for ever. *)
Example inherited_names_get_no_degree :
  topoSort [Demo.pass "toString" None None] = {| order := []; cycles := [] |}
  /\ topoSort [Demo.pass "b" (Some ["valueOf"]) None]
     = {| order := []; cycles := ["b"] |}
  /\ topoSort [Demo.pass "__proto__" (Some ["a"]) None; Demo.pass "a" None None]
     = {| order := ["a"]; cycles := [] |}.
Proof. repeat split; reflexivity. Qed.

Lemma selfish_has_cycle : hasCycle (nodes selfish).
Proof.
  exists "toString". apply t_step.
  exists (Demo.pass "toString" (Some ["toString"]) None).
  simpl. auto.
Qed.

(** C4, at a failing input: the node [toString] depends on itself.  The
    table of in-degrees inherits a member of that name, so the node never
    gets a number: it is neither emitted nor reported, the cycle set is
    empty and the run reports success without having run the node.  With a
    second, independent node the run goes on to invoke a handler although
    the graph has a cycle. *)
Theorem inherited_name_hides_cycle :
  hasCycle (nodes selfish)
  /\ topoSort (nodes selfish) = {| order := []; cycles := [] |}
  /\ (exists res r,
        executeWorkflow Demo.down Demo.down (Demo.every 1) selfish "q" O
          = Returned res r
        /\ ExecutionResult.success res = true
        /\ ExecutionResult.error res = None
        /\ ExecutionResult.nodeExecutions res = [])
  /\ (let wf := Demo.workflow (nodes selfish ++ [Demo.pass "a" None None]) in
      hasCycle (nodes wf)
      /\ topoSort (nodes wf) = {| order := ["a"]; cycles := [] |}
      /\ exists res r,
           executeWorkflow Demo.down Demo.down (Demo.every 1) wf "q" O
             = Returned res r
           /\ ExecutionResult.success res = true
           /\ map NodeExecution.nodeId (ExecutionResult.nodeExecutions res) = ["a"]
           /\ effects r
              = [Invoked "plugin.transform.jq" "a"
                   (VObj [("data", VNum 1); ("expression", VStr ".")])]).
Proof.
  split; [exact selfish_has_cycle|]. split; [reflexivity|]. split.
  - eexists. eexists. split; [vm_compute; reflexivity|]. repeat split.
  - split; [|split; [reflexivity|]].
    + exists "toString". apply t_step.
      exists (Demo.pass "toString" (Some ["toString"]) None).
      simpl. auto.
    + eexists. eexists. split; [vm_compute; reflexivity|]. repeat split.
Qed.

End SequencerDefects.

Module TopoMore.
Import Obj Topo Graph Degrees ObjFacts TopoFacts.

(** X4: whatever the node list: nothing is emitted twice or reported twice,
    nothing is both emitted and reported, the two lists together hold
    exactly the identifiers the workflow mentions that are not names of
    members of [Object.prototype], and an emitted identifier stands after
    every entry of its [dependsOn]. *)
Theorem topoSort_never_runs_ahead nodes :
  let r := topoSort nodes in
  NoDup (order r)
  /\ NoDup (cycles r)
  /\ (forall x, In x (order r) -> ~ In x (cycles r))
  /\ (forall x, In x (order r) \/ In x (cycles r) <->
        inherited x = false
        /\ (In x (ids nodes) \/ exists n, In n nodes /\ In x (deps n)))
  /\ (forall y d, In y (order r) -> depends nodes y d -> precedes (order r) d y).
Proof.
  cbv zeta. destruct (topoSort_spec nodes) as (m' & HI & HC).
  split; [|split; [|split; [|split]]].
  - exact (order_nodup HI).
  - rewrite HC. apply NoDup_select. exact (K_nodup HI).
  - intros x Ho Hc. apply (order_iff HI) in Ho. apply (cycles_iff HI HC) in Hc. lia.
  - intros x. rewrite <- (K_spec nodes x).
    rewrite (order_iff HI), (cycles_iff HI HC). split; [tauto|].
    intros HK. destruct (Z_le_gt_dec (val m' x) 0); [left | right]; split; auto; lia.
  - intros y d. apply (order_before HI).
Qed.
End TopoMore.

Module JqMore.
Import Str Path StrFacts Walk JqFacts Stages.

Lemma split_cons c s : exists h t, split c s = h :: t.
Proof.
  induction s as [|a s IH]; simpl; eauto.
  destruct (Ascii.eqb a c); eauto.
  destruct IH as (h & t & ->). eauto.
Qed.

Lemma split_cat c a b : split c (a +++ String c b) = split c a ++ split c b.
Proof.
  induction a as [|x a IH]; simpl.
  - now rewrite Ascii.eqb_refl.
  - destruct (Ascii.eqb x c); rewrite IH; [reflexivity|].
    destruct (split_cons c a) as (h & t & ->). reflexivity.
Qed.

Lemma jqPipe_app p1 : forall data p2,
  jqPipe data (p1 ++ p2)
  = match jqPipe data p1 with
    | Ok v => jqPipe v p2
    | Throw e => Throw e
    end.
Proof.
  induction p1 as [|p p1 IH]; intros data p2; simpl; auto.
  destruct (jqSingle data p); auto.
Qed.

(** The early return of [jqEval] agrees with its loop. *)
Lemma jqEval_parts data expr :
  jqEval data expr = jqPipe data (map trim (split "|" expr)).
Proof.
  unfold jqEval.
  destruct (String.eqb expr EmptyString) eqn:E1.
  { apply String.eqb_eq in E1. subst. reflexivity. }
  destruct (String.eqb expr ".") eqn:E2.
  { apply String.eqb_eq in E2. subst. reflexivity. }
  reflexivity.
Qed.

Lemma jqEval_bar data e1 e2 :
  jqEval data (e1 +++ "|" +++ e2)
  = match jqEval data e1 with
    | Ok v => jqEval v e2
    | Throw e => Throw e
    end.
Proof.
  rewrite (jqEval_parts data (e1 +++ "|" +++ e2)), (jqEval_parts data e1).
  change ("|" +++ e2) with (String "|" e2).
  rewrite split_cat, map_app, jqPipe_app.
  destruct (jqPipe data (map trim (split "|" e1))); auto.
  now rewrite jqEval_parts.
Qed.

Lemma jqPath_token t1 t2 post :
  (forall cur, jqToken cur t1 = jqToken cur t2) ->
  forall pre data,
    jqPath data (pre ++ t1 :: post) = jqPath data (pre ++ t2 :: post).
Proof.
  intros Heq. induction pre as [|p pre IH]; intros data; simpl.
  - now rewrite Heq.
  - destruct (jqToken data p); auto.
Qed.

Lemma jqToken_index_tail cur f ds junk :
  includes "[" f = false -> ds <> EmptyString -> digits ds = true ->
  jqToken cur (f +++ "[" +++ ds +++ "]" +++ junk) = jqToken cur (render (At f ds)).
Proof.
  intros Hf Hne Hd. unfold jqToken, render.
  destruct (String.eqb (f +++ "[" +++ ds +++ "]" +++ junk) EmptyString) eqn:E.
  { apply String.eqb_eq in E. destruct f; discriminate. }
  destruct (String.eqb (f +++ "[" +++ ds +++ "]") EmptyString) eqn:E'.
  { apply String.eqb_eq in E'. destruct f; discriminate. }
  change (f +++ "[" +++ ds +++ "]" +++ junk)
    with (f +++ String "[" (ds +++ "]" +++ junk)).
  change (f +++ "[" +++ ds +++ "]") with (f +++ String "[" (ds +++ "]")).
  rewrite !breakAt_app by exact Hf.
  change (String "[" (ds +++ "]" +++ junk)) with ("[" +++ ds +++ "]" +++ junk).
  change (String "[" (ds +++ "]")) with ("[" +++ ds +++ "]" +++ EmptyString).
  rewrite !matchIndex_bracket by assumption.
  reflexivity.
Qed.

(** X19: whatever follows the first bracketed index of a token is ignored: a
    second index, as in [.a[0][1]], is not applied. *)
Theorem text_after_index_is_ignored data pre f ds junk post :
  Forall (fun t => includes "." t = false)
    (pre ++ (f +++ "[" +++ ds +++ "]" +++ junk) :: post) ->
  includes "[" f = false -> ds <> EmptyString -> digits ds = true ->
  jqSingle data ("." +++ join "." (pre ++ (f +++ "[" +++ ds +++ "]" +++ junk) :: post))
  = jqSingle data ("." +++ join "." (pre ++ (f +++ "[" +++ ds +++ "]") :: post)).
Proof.
  intros Hplain Hf Hne Hd.
  assert (Hplain' : Forall (fun t => includes "." t = false)
                      (pre ++ (f +++ "[" +++ ds +++ "]") :: post)).
  { apply Forall_app in Hplain. destruct Hplain as [Hpre Hrest].
    inversion Hrest as [|? ? Ht Hpost]; subst.
    apply Forall_app. split; auto. constructor; auto.
    change (f +++ "[" +++ ds +++ "]" +++ junk)
      with (f +++ String "[" (ds +++ String "]" junk)) in Ht.
    rewrite includes_app in Ht. apply orb_false_iff in Ht. destruct Ht as [H1 H2].
    simpl in H2. rewrite includes_app in H2. apply orb_false_iff in H2.
    destruct H2 as [H2 _].
    change (f +++ "[" +++ ds +++ "]") with (f +++ String "[" (ds +++ String "]" EmptyString)).
    rewrite includes_app, H1. simpl. now rewrite includes_app, H2. }
  rewrite !jqSingle_path; auto.
  - apply jqPath_token. intros cur.
    rewrite jqToken_index_tail by assumption. reflexivity.
  - eapply join_nonempty; [apply in_elt|]. destruct f; discriminate.
  - eapply join_nonempty; [apply in_elt|]. destruct f; discriminate.
Qed.

(** X18: a pipe composes: each stage is evaluated on the value of the stage
    before it, the first error ends the evaluation, and no stage at all
    returns the data. *)
Theorem pipe_composes exprs : forall data,
  jqEval data (join "|" exprs) = stagewise data exprs.
Proof.
  induction exprs as [|e rest IH]; intros data; [reflexivity|].
  destruct rest as [|e' rest].
  - cbn [join stagewise]. destruct (jqEval data e); reflexivity.
  - change (join "|" (e :: e' :: rest)) with (e +++ "|" +++ join "|" (e' :: rest)).
    rewrite jqEval_bar. cbn [stagewise].
    destruct (jqEval data e) as [v|m]; [|reflexivity]. apply IH.
Qed.

Lemma trimEnd_app a b :
  trimEnd b <> EmptyString -> trimEnd (a +++ b) = a +++ trimEnd b.
Proof.
  intros Hb. induction a as [|x a IH]; [reflexivity|].
  cbn [String.append trimEnd]. rewrite IH.
  destruct (a +++ trimEnd b) eqn:E; [|reflexivity].
  destruct a; simpl in E; congruence.
Qed.

Lemma digit_not_bar a : isDigit a = true -> Ascii.eqb a "|" = false.
Proof. by_cases_on a. Qed.

(** One stage made of a bare index and, possibly, a field: its text is
    read as written. *)
Lemma jqEval_index_stage items ds tail toks :
  ds <> EmptyString -> digits ds = true ->
  includes "|" tail = false ->
  trimEnd ("]" +++ tail) = "]" +++ tail ->
  Forall (fun t => includes "." t = false) toks ->
  "]" +++ tail = "]" +++ match toks with
                         | [] => EmptyString
                         | _ => "." +++ join "." toks
                         end ->
  jqEval (VArr items) (" .[" +++ ds +++ "]" +++ tail)
  = match nth_error items (Z.to_nat (decimal 0 ds)) with
    | Some x => jqPath x toks
    | None => Ok VNull
    end.
Proof.
  intros Hne Hd Hbar Htrim Hplain Htail.
  rewrite jqEval_parts.
  assert (Hno : includes "|" (" .[" +++ ds +++ "]" +++ tail) = false).
  { change (" .[" +++ ds +++ "]" +++ tail) with (" .[" +++ (ds +++ ("]" +++ tail))).
    rewrite includes_app. cbn [includes Ascii.eqb Bool.eqb orb].
    rewrite includes_app, (digits_exclude "|" ds digit_not_bar Hd).
    cbn [String.append includes Ascii.eqb Bool.eqb orb]. exact Hbar. }
  rewrite split_plain by exact Hno. cbn [map jqPipe].
  assert (Ht : trim (" .[" +++ ds +++ "]" +++ tail)
               = "." +++ join "." (render (At EmptyString ds) :: toks)).
  { unfold trim.
    replace (trimStart (" .[" +++ ds +++ "]" +++ tail))
      with ((".[" +++ ds) +++ ("]" +++ tail)) by reflexivity.
    rewrite trimEnd_app by (rewrite Htrim; discriminate).
    rewrite Htrim, Htail. unfold render.
    destruct toks as [|t toks'].
    - cbn [join]. rewrite !append_assoc. reflexivity.
    - change (join "." ((EmptyString +++ "[" +++ ds +++ "]") :: t :: toks'))
        with (("[" +++ ds +++ "]") +++ "." +++ join "." (t :: toks')).
      rewrite !append_assoc. reflexivity. }
  rewrite Ht.
  rewrite jqSingle_path.
  - cbn [jqPath]. rewrite jqToken_index by (reflexivity || assumption).
    cbn [String.eqb].
    destruct (nth_error items (Z.to_nat (decimal 0 ds))) as [x|]; [|reflexivity].
    destruct (jqPath x toks); reflexivity.
  - constructor; auto.
    unfold render. cbn [String.append includes Ascii.eqb Bool.eqb orb].
    rewrite includes_app, (digits_exclude "." ds digit_not_dot Hd). reflexivity.
  - eapply join_nonempty; [left; reflexivity|]. discriminate.
Qed.

(** X20: [to_entries] and [keys] enumerate an object in the order of
    [Object.entries]: the entry at an index holds the key and the value of
    the property at that place, [null] stands for an index past the end,
    and both lists are as long as the object has keys. *)
Theorem to_entries_enumerates fields ds :
  ds <> EmptyString -> digits ds = true ->
  let at_ := nth_error fields (Z.to_nat (decimal 0 ds)) in
  jqEval (VObj fields) ("to_entries | .[" +++ ds +++ "].key")
    = Ok (match at_ with Some (k, _) => VStr k | None => VNull end)
  /\ jqEval (VObj fields) ("to_entries | .[" +++ ds +++ "].value")
    = Ok (match at_ with Some (_, v) => v | None => VNull end)
  /\ jqEval (VObj fields) ("keys | .[" +++ ds +++ "]")
    = Ok (match at_ with Some (k, _) => VStr k | None => VNull end)
  /\ jqEval (VObj fields) "to_entries | length" = jqEval (VObj fields) "length"
  /\ jqEval (VObj fields) "keys | length" = jqEval (VObj fields) "length".
Proof.
  intros Hne Hd at_.
  assert (Hentries : jqEval (VObj fields) "to_entries "
            = Ok (VArr (map (fun kv => VObj [("key", VStr (fst kv)); ("value", snd kv)])
                            fields))) by reflexivity.
  assert (Hkeys : jqEval (VObj fields) "keys "
            = Ok (VArr (map VStr (map fst fields)))) by reflexivity.
  split; [|split; [|split; [|split]]].
  - change ("to_entries | .[" +++ ds +++ "].key")
      with ("to_entries " +++ "|" +++ (" .[" +++ ds +++ "]" +++ ".key")).
    rewrite jqEval_bar, Hentries.
    rewrite (@jqEval_index_stage _ ds ".key" ["key"]); auto.
    rewrite nth_error_map. unfold at_.
    destruct (nth_error fields (Z.to_nat (decimal 0 ds))) as [[k v]|]; reflexivity.
  - change ("to_entries | .[" +++ ds +++ "].value")
      with ("to_entries " +++ "|" +++ (" .[" +++ ds +++ "]" +++ ".value")).
    rewrite jqEval_bar, Hentries.
    rewrite (@jqEval_index_stage _ ds ".value" ["value"]); auto.
    rewrite nth_error_map. unfold at_.
    destruct (nth_error fields (Z.to_nat (decimal 0 ds))) as [[k v]|]; reflexivity.
  - change ("keys | .[" +++ ds +++ "]")
      with ("keys " +++ "|" +++ (" .[" +++ ds +++ "]" +++ EmptyString)).
    rewrite jqEval_bar, Hkeys.
    rewrite (@jqEval_index_stage _ ds EmptyString []); auto.
    rewrite !nth_error_map. unfold at_.
    destruct (nth_error fields (Z.to_nat (decimal 0 ds))) as [[k v]|]; reflexivity.
  - change "to_entries | length" with ("to_entries " +++ "|" +++ " length").
    rewrite jqEval_bar, Hentries.
    change (jqEval (VArr (map (fun kv => VObj [("key", VStr (fst kv)); ("value", snd kv)]) fields)) " length")
      with (Ok (A := value) (VNum (Z.of_nat (List.length
              (map (fun kv => VObj [("key", VStr (fst kv)); ("value", snd kv)]) fields))))).
    change (jqEval (VObj fields) "length")
      with (Ok (A := value) (VNum (Z.of_nat (List.length fields)))).
    now rewrite !length_map.
  - change "keys | length" with ("keys " +++ "|" +++ " length").
    rewrite jqEval_bar, Hkeys.
    change (jqEval (VArr (map VStr (map fst fields))) " length")
      with (Ok (A := value) (VNum (Z.of_nat (List.length (map VStr (map fst fields)))))).
    change (jqEval (VObj fields) "length")
      with (Ok (A := value) (VNum (Z.of_nat (List.length fields)))).
    now rewrite !length_map.
Qed.

End JqMore.

Module EngineFacts.
Import Obj Topo Graph Trace ObjFacts TopoFacts.

Lemma rounds_first call ms k : rounds call ms (S k) = call :: match k with
                                                           | O => []
                                                           | S _ => Slept ms :: rounds call ms k
                                                           end.
Proof. destruct k; reflexivity. Qed.

Lemma rounds_forNode a x inp ms k : Forall (forNode x) (rounds (Invoked a x inp) ms k).
Proof.
  induction k as [|k IH]; [constructor|].
  rewrite rounds_first. constructor; [reflexivity|].
  destruct k; [constructor|]. constructor; [exact I | exact IH].
Qed.

Section Attempts.
Variable World : Type.
Variable clock : nat -> Z.

Lemma caught_keeps nodeId attempt maxAttempts backoffMs msg (r : Run World) :
  effects (caught clock nodeId attempt maxAttempts backoffMs msg r)
    = effects r ++ (if attempt <? maxAttempts then [Slept backoffMs] else [])
  /\ nodeExecutions (caught clock nodeId attempt maxAttempts backoffMs msg r)
    = nodeExecutions r
  /\ context (caught clock nodeId attempt maxAttempts backoffMs msg r) = context r.
Proof.
  unfold caught. destruct (attempt <? maxAttempts); cbn; auto.
  now rewrite app_nil_r.
Qed.

(** The attempt loop in one statement. *)
Lemma attempts_summary (handler : ActionHandler World) nodeId node
    resolvedInput maxAttempts backoffMs :
  let call := Invoked (actionRef node) nodeId resolvedInput in
  forall remaining attempt lastError (r : Run World) ok err (r' : Run World),
    attempt + Z.of_nat remaining = maxAttempts + 1 ->
    attempts clock remaining attempt handler nodeId node resolvedInput
      maxAttempts backoffMs lastError r = (ok, err, r') ->
    exists k,
      (k <= remaining)%nat
      /\ effects r' = effects r ++ rounds call backoffMs k
      /\ if ok
         then (1 <= k)%nat
              /\ exists out d,
                   nodeExecutions r' = nodeExecutions r
                       ++ [successRecord nodeId node resolvedInput out d]
                   /\ context r' = Obj.set nodeId out (context r)
         else k = remaining
              /\ nodeExecutions r' = nodeExecutions r
              /\ context r' = context r.
Proof.
  intros call.
  induction remaining as [|rem IH]; intros attempt lastError r ok err r' Hat.
  - cbn. intros [= <- _ <-]. exists O. cbn. rewrite app_nil_r. auto.
  - assert (Hstep : forall msg w1 reads,
      attempts clock rem (attempt + 1) handler nodeId node resolvedInput
        maxAttempts backoffMs msg
        (caught clock nodeId attempt maxAttempts backoffMs msg
           {| logs := logs r; nodeExecutions := nodeExecutions r;
              context := context r; world := w1; ticks := reads;
              effects := effects r ++ [call] |}) = (ok, err, r') ->
      exists k,
        (k <= S rem)%nat
        /\ effects r' = effects r ++ rounds call backoffMs k
        /\ if ok
           then (1 <= k)%nat
                /\ exists out d,
                     nodeExecutions r' = nodeExecutions r
                         ++ [successRecord nodeId node resolvedInput out d]
                     /\ context r' = Obj.set nodeId out (context r)
           else k = S rem
                /\ nodeExecutions r' = nodeExecutions r
                /\ context r' = context r).
    { intros msg w1 reads H. apply IH in H; [|lia].
      destruct H as (k & Hk & Heff & Hrest).
      destruct (caught_keeps nodeId attempt maxAttempts backoffMs msg
                  {| logs := logs r; nodeExecutions := nodeExecutions r;
                     context := context r; world := w1; ticks := reads;
                     effects := effects r ++ [call] |}) as (Hc1 & Hc2 & Hc3).
      rewrite Hc1 in Heff. rewrite Hc2, Hc3 in Hrest. cbn in Heff, Hrest.
      assert (Hpos : (1 <= k)%nat \/ rem = O).
      { destruct ok; [left; tauto|]. destruct Hrest as [-> _]. lia. }
      exists (S k). split; [lia|]. split.
      - rewrite Heff, <- !app_assoc. f_equal. rewrite rounds_first.
        destruct rem as [|rem'].
        + assert (k = O) by lia. subst k.
          replace (attempt <? maxAttempts) with false
            by (symmetry; apply Z.ltb_ge; lia).
          reflexivity.
        + replace (attempt <? maxAttempts) with true
            by (symmetry; apply Z.ltb_lt; lia).
          destruct k as [|k']; [|reflexivity].
          destruct Hpos; lia.
      - destruct ok.
        + destruct Hrest as [_ Hrest]. split; [lia | exact Hrest].
        + destruct Hrest as (-> & Hn & Hx). auto. }
    cbn [attempts]. unfold now, invoke. cbn.
    destruct (handler node resolvedInput (world r)) as [[out|e] w1]; cbn.
    + destruct (overTime node _) eqn:Hot; cbn.
      * apply Hstep.
      * intros [= <- _ <-]. exists 1%nat. cbn.
        split; [lia|]. split; [reflexivity|]. split; [lia|].
        eexists _, _. split; reflexivity.
    + apply Hstep.
Qed.

Lemma attempts_logs (handler : ActionHandler World) nodeId node
    resolvedInput maxAttempts backoffMs :
  forall remaining attempt lastError (r : Run World) ok err (r' : Run World),
    attempts clock remaining attempt handler nodeId node resolvedInput
      maxAttempts backoffMs lastError r = (ok, err, r') ->
    exists news, logs r' = logs r ++ news.
Proof.
  induction remaining as [|rem IH]; intros attempt lastError r ok err r'.
  - cbn. intros [= _ _ <-]. exists []. now rewrite app_nil_r.
  - assert (Hstep : forall msg w1 reads effs,
      attempts clock rem (attempt + 1) handler nodeId node resolvedInput
        maxAttempts backoffMs msg
        (caught clock nodeId attempt maxAttempts backoffMs msg
           {| logs := logs r; nodeExecutions := nodeExecutions r;
              context := context r; world := w1; ticks := reads;
              effects := effs |}) = (ok, err, r') ->
      exists news, logs r' = logs r ++ news).
    { intros msg w1 reads effs H. apply IH in H. destruct H as [news ->].
      unfold caught. destruct (attempt <? maxAttempts); cbn.
      - rewrite <- app_assoc. eauto.
      - eauto. }
    cbn [attempts]. unfold now, invoke. cbn.
    destruct (handler node resolvedInput (world r)) as [[out|e] w1]; cbn.
    + destruct (overTime node _); cbn.
      * apply Hstep.
      * intros [= _ _ <-]. cbn. eauto.
    + apply Hstep.
Qed.

End Attempts.

Section Run.
Variable World : Type.
Variables httpGetHandler xml2jsonHandler : ActionHandler World.
Variable clock : nat -> Z.

Let run := runNode httpGetHandler xml2jsonHandler clock.
Let registry := ACTION_HANDLERS httpGetHandler xml2jsonHandler.

(** The body of the node loop in one statement. *)
Lemma runNode_summary nodeMap query startTime x (r : Run World) :
  match run nodeMap query startTime x r with
  | Continue r' =>
      (Obj.get x nodeMap = None /\ r' = r)
      \/ (exists node resolvedInput out d k news,
            Obj.get x nodeMap = Some node
            /\ nodeExecutions r'
               = nodeExecutions r ++ [successRecord x node resolvedInput out d]
            /\ context r' = Obj.set x out (context r)
            /\ (1 <= k)%nat
            /\ effects r'
               = effects r ++ rounds (Invoked (actionRef node) x resolvedInput)
                                (match retry node with
                                 | Some p => backoffMs p
                                 | None => 0
                                 end) k
            /\ logs r' = logs r ++ news)
  | Returned res r' =>
      exists node err new news,
        Obj.get x nodeMap = Some node
        /\ nodeExecutions r' = nodeExecutions r ++ [errorRecord x node err]
        /\ ExecutionResult.nodeExecutions res = nodeExecutions r'
        /\ ExecutionResult.logs res = logs r'
        /\ ExecutionResult.success res = false
        /\ ExecutionResult.error res = Some err
        /\ context r' = context r
        /\ effects r' = effects r ++ new
        /\ Forall (forNode x) new
        /\ logs r' = logs r ++ news
  | Raised _ r' | Outside r' =>
      nodeExecutions r' = nodeExecutions r
      /\ context r' = context r
      /\ effects r' = effects r
      /\ exists news, logs r' = logs r ++ news
  end.
Proof.
  unfold run, runNode.
  destruct (Obj.get x nodeMap) as [node|]; [|left; auto].
  destruct (ACTION_HANDLERS httpGetHandler xml2jsonHandler (actionRef node))
    as [handler|].
  2:{ cbn. exists node, ("Action not implemented: " +++ actionRef node), [].
      eexists. repeat split; try reflexivity; [now rewrite app_nil_r | constructor]. }
  destruct (substituteQuery (input node) query) as [substituted|e|].
  2:{ cbn. repeat split. eauto. }
  2:{ cbn. repeat split. eauto. }
  cbn [context pushLog timestamp now logs nodeExecutions world ticks effects].
  destruct (resolveInput substituted (context r)) as [resolvedInput|err].
  2:{ cbn. exists node, err, []. eexists.
      repeat split; try reflexivity; [now rewrite app_nil_r | constructor
        | rewrite <- app_assoc; reflexivity]. }
  set (m := match retry node with Some p => maxAttempts p | None => 1 end).
  set (b := match retry node with Some p => backoffMs p | None => 0 end).
  match goal with
  | |- context [attempts clock ?n 1 handler x node resolvedInput m b ?e ?r0] =>
      destruct (attempts clock n 1 handler x node resolvedInput m b e r0)
        as [[ok lastError] r1] eqn:Hat
  end.
  pose proof Hat as Hlogs. apply attempts_logs in Hlogs.
  destruct Hlogs as [news Hlogs].
  assert (Hsum : exists k,
      effects r1 = effects r ++ rounds (Invoked (actionRef node) x resolvedInput) b k
      /\ if ok
         then (1 <= k)%nat
              /\ exists out d,
                   nodeExecutions r1 = nodeExecutions r
                       ++ [successRecord x node resolvedInput out d]
                   /\ context r1 = Obj.set x out (context r)
         else nodeExecutions r1 = nodeExecutions r /\ context r1 = context r).
  { destruct (Z.to_nat m) as [|n] eqn:Hn.
    - cbn in Hat. injection Hat as <- _ <-. exists O. cbn.
      now rewrite app_nil_r.
    - rewrite <- Hn in Hat. apply attempts_summary in Hat; [|lia].
      cbn in Hat. destruct Hat as (k & _ & Heff & Hrest). exists k.
      split; [exact Heff|]. destruct ok; tauto. }
  destruct Hsum as (k & Heff & Hrest). cbn in Hlogs.
  destruct ok.
  - right. destruct Hrest as (Hk & out & d & Hrec & Hctx).
    exists node, resolvedInput, out, d, k. eexists. repeat split; eauto.
    rewrite Hlogs, <- app_assoc. reflexivity.
  - destruct Hrest as [Hrec Hctx]. cbn.
    exists node, lastError. do 2 eexists.
    repeat split; try reflexivity; eauto.
    + now rewrite Hrec.
    + apply rounds_forNode.
    + rewrite Hlogs, <- !app_assoc. reflexivity.
Qed.

End Run.

Lemma has_fromEntries (ns : list WorkflowNode) x :
  has x (fromEntries (map (fun n => (id n, n)) ns)) = true <-> In x (ids ns).
Proof.
  unfold fromEntries, ids.
  assert (H : forall (acc : Obj.t WorkflowNode),
             has x (fold_left (fun o kv => set (fst kv) (snd kv) o)
                      (map (fun n => (id n, n)) ns) acc) = true
             <-> In x (keys acc) \/ In x (map id ns)).
  { induction ns as [|n ns IH]; intros acc; simpl.
    - rewrite get_In. tauto.
    - rewrite IH, In_keys_set. split; intros H; intuition auto. }
  rewrite H. simpl. tauto.
Qed.

Lemma precedes_split l a b :
  precedes l a b <-> exists l1 l2 l3, l = l1 ++ a :: l2 ++ b :: l3.
Proof.
  split.
  - intros (i & j & Hi & Hj & Hij).
    apply nth_error_split in Hj. destruct Hj as (p & l3 & -> & Hlen).
    rewrite nth_error_app1 in Hi by lia.
    apply nth_error_split in Hi. destruct Hi as (l1 & l2 & -> & _).
    exists l1, l2, l3. now rewrite <- app_assoc.
  - intros (l1 & l2 & l3 & ->).
    exists (List.length l1), (List.length l1 + S (List.length l2))%nat.
    split; [|split; [|lia]].
    + rewrite nth_error_app2 by lia. now rewrite Nat.sub_diag.
    + rewrite nth_error_app2 by lia.
      replace (List.length l1 + S (List.length l2) - List.length l1)%nat
        with (S (List.length l2)) by lia.
      cbn. rewrite nth_error_app2 by lia. now rewrite Nat.sub_diag.
Qed.

Lemma precedes_filter (p : string -> bool) l a b :
  precedes l a b -> p a = true -> p b = true -> precedes (filter p l) a b.
Proof.
  rewrite !precedes_split. intros (l1 & l2 & l3 & ->) Ha Hb.
  exists (filter p l1), (filter p l2), (filter p l3).
  rewrite filter_app. cbn. rewrite Ha, filter_app. cbn. now rewrite Hb.
Qed.

Lemma precedes_prefix done x rest d :
  NoDup (done ++ x :: rest) -> precedes (done ++ x :: rest) d x -> In d done.
Proof.
  intros Hnd (i & j & Hi & Hj & Hij).
  assert (j = List.length done).
  { apply (proj1 (NoDup_nth_error _) Hnd).
    - apply nth_error_Some. congruence.
    - rewrite Hj, nth_error_app2 by lia. now rewrite Nat.sub_diag. }
  subst j. rewrite nth_error_app1 in Hi by lia. eapply nth_error_In; eauto.
Qed.

Section Loop.
Variable World : Type.
Variables httpGetHandler xml2jsonHandler : ActionHandler World.
Variable clock : nat -> Z.
Variable nodes : list WorkflowNode.
Variable query : string.
Variable startTime : Z.

Let nodeMap := fromEntries (map (fun n => (id n, n)) nodes).
Let loop := runNodes httpGetHandler xml2jsonHandler clock nodeMap query startTime.

Lemma invokedAt_app_l effs new j x :
  invokedAt effs j x -> invokedAt (effs ++ new) j x.
Proof.
  intros (a & inp & H). exists a, inp.
  rewrite nth_error_app1; auto. apply nth_error_Some. congruence.
Qed.

Lemma invokedAt_app effs new j x :
  invokedAt (effs ++ new) j x ->
  invokedAt effs j x
  \/ ((List.length effs <= j)%nat /\ invokedAt new (j - List.length effs) x).
Proof.
  intros (a & inp & H). destruct (Nat.lt_ge_cases j (List.length effs)).
  - left. exists a, inp. now rewrite nth_error_app1 in H.
  - right. split; auto. exists a, inp. now rewrite nth_error_app2 in H.
Qed.

Lemma invokedAt_forNode new y j x :
  Forall (forNode y) new -> invokedAt new j x -> x = y.
Proof.
  intros Hall (a & inp & H). apply nth_error_In in H.
  rewrite Forall_forall in Hall. exact (Hall _ H).
Qed.

Lemma succeeded_app recs more d : succeeded recs d -> succeeded (recs ++ more) d.
Proof.
  intros (rec & Hin & H). exists rec. split; auto. apply in_or_app. now left.
Qed.

(** One more round keeps the trace safe nodes. *)
Lemma safe_step done x rest (r r2 : Run World) new more :
  NoDup (done ++ x :: rest) ->
  (forall d, depends nodes x d -> precedes (done ++ x :: rest) d x) ->
  Between nodes done r ->
  effects r2 = effects r ++ new -> Forall (forNode x) new ->
  nodeExecutions r2 = nodeExecutions r ++ more ->
  safe nodes r2.
Proof.
  intros Hnd Hbefore HB Heff Hnew Hrec j y d Hj Hdep Hd.
  rewrite Heff in Hj |- *. rewrite Hrec.
  apply invokedAt_app in Hj. destruct Hj as [Hj|[Hlen Hj]].
  - destruct (bt_safe HB Hj Hdep Hd) as [(i & Hi & Hinv) Hs].
    split; [|now apply succeeded_app].
    exists i. split; auto. now apply invokedAt_app_l.
  - assert (y = x) by (eapply invokedAt_forNode; eauto). subst y.
    assert (Hin : In d done).
    { eapply precedes_prefix; eauto. }
    destruct (bt_done HB d Hin Hd) as [(i & Hinv) Hs].
    split; [|now apply succeeded_app].
    exists i. split; [|now apply invokedAt_app_l].
    destruct Hinv as (a & inp & Hn).
    assert (i < List.length (effects r))%nat by (apply nth_error_Some; congruence).
    lia.
Qed.

Lemma rounds_invoked call ms k : (1 <= k)%nat -> nth_error (rounds call ms k) 0 = Some call.
Proof. destruct k as [|k]; [lia|]. intros _. now rewrite rounds_first. Qed.

(** The node loop in one statement. *)
Lemma runNodes_summary : forall rest done (r : Run World),
  NoDup (done ++ rest) ->
  (forall y d, In y (done ++ rest) -> depends nodes y d ->
     precedes (done ++ rest) d y) ->
  Between nodes done r ->
  safe nodes (stateOf (loop rest r))
  /\ match loop rest r with
     | Returned res r' =>
         ExecutionResult.nodeExecutions res = nodeExecutions r'
         /\ if ExecutionResult.success res
            then ExecutionResult.error res = None
                 /\ Between nodes (done ++ rest) r'
            else exists oks rec err,
                   nodeExecutions r' = oks ++ [rec]
                   /\ Forall (fun rec => NodeExecution.status rec = StatusSuccess) oks
                   /\ NodeExecution.status rec = StatusError
                   /\ NodeExecution.durationMs rec = 0
                   /\ NodeExecution.error rec = Some err
                   /\ ExecutionResult.error res = Some err
     | _ => True
     end.
Proof.
  induction rest as [|x rest IH]; intros done r Hnd Hbefore HB.
  - cbn. split; [exact (bt_safe HB)|]. split; [reflexivity|].
    split; [reflexivity|]. rewrite app_nil_r.
    destruct HB as [H1 H2 H3 H4 H5]. constructor; auto.
  - assert (Hx : forall d, depends nodes x d -> precedes (done ++ x :: rest) d x).
    { intros d Hd. apply Hbefore; auto. apply in_or_app. right. now left. }
    unfold loop. cbn [runNodes]. fold loop.
    pose proof (runNode_summary httpGetHandler xml2jsonHandler clock
                  nodeMap query startTime x r) as Hsum.
    destruct (runNode httpGetHandler xml2jsonHandler clock nodeMap query
                startTime x r) as [r2|res r2|msg r2|r2].
    + assert (HB2 : Between nodes (done ++ [x]) r2).
      { destruct Hsum as [[Hnone ->]|Hsome].
        - destruct HB as [H1 H2 H3 H4 H5]. constructor; auto.
          + intros j y Hj. apply in_or_app. left. eauto.
          + intros d Hd Hid. apply in_app_or in Hd. destruct Hd as [Hd|[<-|[]]]; auto.
            apply has_fromEntries in Hid. unfold has in Hid.
            fold nodeMap in Hid. now rewrite Hnone in Hid.
          + rewrite filter_app. cbn.
            replace (isNode nodes x) with false
              by (unfold isNode, has; fold nodeMap; now rewrite Hnone).
            now rewrite app_nil_r.
        - destruct Hsome as (node & inp & out & d & k & news & Hget & Hrec & Hctx
                             & Hk & Heff & Hlogs).
          assert (Hsafe : safe nodes r2).
          { eapply safe_step; eauto. apply rounds_forNode. }
          destruct HB as [H1 H2 H3 H4 H5]. constructor; auto.
          + intros j y Hj. rewrite Heff in Hj. apply invokedAt_app in Hj.
            apply in_or_app. destruct Hj as [Hj|[_ Hj]]; [left; eauto|].
            right. left. symmetry.
            eapply invokedAt_forNode; [apply rounds_forNode | exact Hj].
          + intros d' Hd Hid. apply in_app_or in Hd. destruct Hd as [Hd|[<-|[]]].
            * destruct (H2 d' Hd Hid) as [(i & Hi) Hs]. split.
              -- exists i. rewrite Heff. now apply invokedAt_app_l.
              -- rewrite Hrec. now apply succeeded_app.
            * split.
              -- exists (List.length (effects r)). rewrite Heff.
                 eexists _, _. rewrite nth_error_app2 by lia.
                 rewrite Nat.sub_diag. now apply rounds_invoked.
              -- rewrite Hrec. eexists. split; [apply in_or_app; right; now left|].
                 split; reflexivity.
          + rewrite Hrec, map_app, H4, filter_app. cbn.
            replace (isNode nodes x) with true
              by (unfold isNode, has; fold nodeMap; now rewrite Hget).
            reflexivity.
          + rewrite Hrec. apply Forall_app. split; auto. }
      assert (Hcat : done ++ x :: rest = (done ++ [x]) ++ rest)
        by (rewrite <- app_assoc; reflexivity).
      rewrite Hcat in Hnd, Hbefore |- *. apply IH; auto.
    + destruct Hsum as (node & err & new & news & Hget & Hrec & Hres & Hlogs
                        & Hfalse & Herr & Hctx & Heff & Hnew & _).
      cbn [stateOf]. split.
      * eapply safe_step; eauto.
      * split; [exact Hres|]. rewrite Hfalse.
        exists (nodeExecutions r), (errorRecord x node err), err.
        repeat split; auto. exact (bt_success HB).
    + destruct Hsum as (Hrec & Hctx & Heff & _). cbn [stateOf]. split; [|exact I].
      eapply (@safe_step done x rest r r2 [] []); eauto;
        rewrite ?app_nil_r; auto.
    + destruct Hsum as (Hrec & Hctx & Heff & _). cbn [stateOf]. split; [|exact I].
      eapply (@safe_step done x rest r r2 [] []); eauto;
        rewrite ?app_nil_r; auto.
Qed.

End Loop.

Section Whole.
Variable World : Type.
Variables httpGetHandler xml2jsonHandler : ActionHandler World.
Variable clock : nat -> Z.

Let execute := executeWorkflow httpGetHandler xml2jsonHandler clock.

Lemma Between_start nodes (r : Run World) :
  effects r = [] -> nodeExecutions r = [] ->
  Between nodes [] r.
Proof.
  intros He Hn. constructor; rewrite ?He, ?Hn; auto.
  - intros j x (a & inp & H). destruct j; discriminate.
  - intros d [].
  - intros j x d (a & inp & H). rewrite He in H. destruct j; discriminate.
Qed.

(** The function in one statement. *)
Lemma executeWorkflow_summary (workflow : WorkflowDefinition) query w :
  let sorted := topoSort (nodes workflow) in
  safe (nodes workflow) (stateOf (execute workflow query w))
  /\ match execute workflow query w with
     | Returned res r' =>
         ExecutionResult.nodeExecutions res = nodeExecutions r'
         /\ if ExecutionResult.success res
            then ExecutionResult.error res = None
                 /\ cycles sorted = []
                 /\ Between (nodes workflow) (order sorted) r'
            else (cycles sorted <> [] /\ nodeExecutions r' = [] /\ effects r' = [])
                 \/ exists oks rec err,
                      nodeExecutions r' = oks ++ [rec]
                      /\ Forall (fun rec => NodeExecution.status rec = StatusSuccess) oks
                      /\ NodeExecution.status rec = StatusError
                      /\ NodeExecution.durationMs rec = 0
                      /\ NodeExecution.error rec = Some err
                      /\ ExecutionResult.error res = Some err
     | _ => True
     end.
Proof.
  intros sorted. unfold execute, executeWorkflow. fold sorted.
  cbn [now pushLog timestamp logs nodeExecutions context world ticks effects].
  destruct (0 <? List.length (cycles sorted))%nat eqn:Hc.
  - cbn. split.
    + intros j x d (a & inp & H). destruct j; discriminate.
    + split; [reflexivity|]. left. split; auto.
      apply Nat.ltb_lt in Hc. destruct (cycles sorted); [simpl in Hc; lia | discriminate].
  - apply Nat.ltb_ge in Hc.
    assert (Hnil : cycles sorted = []) by (destruct (cycles sorted); [auto | simpl in Hc; lia]).
    destruct (topoSort_spec (nodes workflow)) as (m' & HI & HC).
    match goal with
    | |- context [runNodes _ _ _ _ _ ?st ?ord ?r0] =>
        pose proof (@runNodes_summary World httpGetHandler xml2jsonHandler clock
                      (nodes workflow) query st ord [] r0) as Hsum;
        assert (HB0 : Between (nodes workflow) [] r0)
          by (apply Between_start; reflexivity)
    end.
    cbn [app] in Hsum.
    specialize (Hsum (order_nodup HI)).
    specialize (Hsum (fun y d Hy Hd => order_before HI Hy Hd)).
    specialize (Hsum HB0).
    destruct Hsum as [Hsafe Hrest]. split; [exact Hsafe|].
    fold sorted in Hrest.
    destruct (runNodes _ _ _ _ _ _ _ _) as [r2|res r2|msg r2|r2]; auto.
    destruct Hrest as [Hrec Hrest]. split; [exact Hrec|].
    destruct (ExecutionResult.success res); [tauto|]. right. exact Hrest.
Qed.

(** X7: a handler is invoked only once every dependency of its node that is
    itself a node has been invoked and has succeeded, whatever the
    handlers, the clock and the query, and however the run ends. *)
Theorem handler_runs_after_dependencies
    (workflow : WorkflowDefinition) (query : string) (w : World) :
  let r := stateOf (execute workflow query w) in
  forall j x d,
    invokedAt (effects r) j x ->
    depends (nodes workflow) x d -> In d (ids (nodes workflow)) ->
    (exists i, (i < j)%nat /\ invokedAt (effects r) i d)
    /\ succeeded (nodeExecutions r) d.
Proof.
  intros r. exact (proj1 (executeWorkflow_summary workflow query w)).
Qed.

(** X8: a run that reports success has run exactly once every node whose
    identifier is not the name of a member of [Object.prototype], and no
    other node: one record per such identifier, each with status success,
    every node after the nodes it depends on. *)
Theorem success_means_every_node_ran_once
    (workflow : WorkflowDefinition) (query : string) (w : World)
    (res : ExecutionResult.t) (r : Run World) :
  execute workflow query w = Returned res r ->
  ExecutionResult.success res = true ->
  let recs := ExecutionResult.nodeExecutions res in
  ExecutionResult.error res = None
  /\ Forall (fun rec => NodeExecution.status rec = StatusSuccess) recs
  /\ NoDup (map NodeExecution.nodeId recs)
  /\ (forall x, In x (map NodeExecution.nodeId recs) <->
        In x (ids (nodes workflow)) /\ inherited x = false)
  /\ (forall x d, depends (nodes workflow) x d -> In d (ids (nodes workflow)) ->
        inherited x = false ->
        precedes (map NodeExecution.nodeId recs) d x).
Proof.
  intros Hrun Hok recs.
  pose proof (executeWorkflow_summary workflow query w) as [_ Hsum].
  unfold execute in *. rewrite Hrun in Hsum. rewrite Hok in Hsum.
  destruct Hsum as (Hrec & Herr & Hnil & HB).
  destruct (topoSort_spec (nodes workflow)) as (m' & HI & HC).
  unfold recs. rewrite Hrec, (bt_records HB).
  assert (Hall : forall x, In x (ids (nodes workflow)) -> inherited x = false ->
                   In x (order (topoSort (nodes workflow)))).
  { intros x Hx Hown.
    assert (HK : In x (keys (indegrees (nodes workflow))))
      by (apply K_spec; auto).
    apply (order_iff HI). split; [exact HK|].
    destruct (Z_le_gt_dec (Degrees.val m' x) 0) as [Hle|Hgt]; auto.
    assert (Hin : In x (cycles (topoSort (nodes workflow)))).
    { apply (cycles_iff HI HC). split; [exact HK | lia]. }
    rewrite Hnil in Hin. destruct Hin. }
  split; [exact Herr|]. split; [exact (bt_success HB)|].
  split; [apply NoDup_filter, (order_nodup HI)|]. split.
  - intros x. rewrite filter_In. unfold isNode. rewrite has_fromEntries. split.
    + intros [Ho Hx]. split; auto. exact (@order_own _ _ HI x Ho).
    + intros [Hx Hown]. auto.
  - intros x d Hd Hid Hown. apply precedes_filter.
    + apply (order_before HI); auto. apply Hall; auto. eapply depends_id; eauto.
    + now apply has_fromEntries.
    + apply has_fromEntries. eapply depends_id; eauto.
Qed.

(** X9: a run that reports a failure names one error; unless a cycle stopped
    it before anything ran, its records are the successes so far followed
    by one error record, which carries that error and a duration of 0. *)
Theorem failure_keeps_the_successes_and_one_error
    (workflow : WorkflowDefinition) (query : string) (w : World)
    (res : ExecutionResult.t) (r : Run World) :
  execute workflow query w = Returned res r ->
  ExecutionResult.success res = false ->
  (cycles (topoSort (nodes workflow)) <> []
   /\ ExecutionResult.nodeExecutions res = [] /\ effects r = [])
  \/ exists oks rec err,
       ExecutionResult.nodeExecutions res = oks ++ [rec]
       /\ Forall (fun rec => NodeExecution.status rec = StatusSuccess) oks
       /\ NodeExecution.status rec = StatusError
       /\ NodeExecution.durationMs rec = 0
       /\ NodeExecution.error rec = Some err
       /\ ExecutionResult.error res = Some err.
Proof.
  intros Hrun Hko.
  pose proof (executeWorkflow_summary workflow query w) as [_ Hsum].
  unfold execute in *. rewrite Hrun in Hsum. rewrite Hko in Hsum.
  destruct Hsum as (Hrec & Hrest). rewrite Hrec. exact Hrest.
Qed.

End Whole.

Section Node.
Variable World : Type.
Variables httpGetHandler xml2jsonHandler : ActionHandler World.
Variable clock : nat -> Z.

Let run := runNode httpGetHandler xml2jsonHandler clock.
Let registry := ACTION_HANDLERS httpGetHandler xml2jsonHandler.

(** X10: whatever the handler does, it is invoked at most [maxAttempts] times
    for a node, with one sleep of [backoffMs] between two invocations and
    none after the last; a node that fails has used up all its attempts. *)
Theorem retries_are_bounded_and_spaced
    (nodeMap : Obj.t WorkflowNode) (query : string) (startTime : Z)
    (nodeId : string) (node : WorkflowNode) (handler : ActionHandler World)
    (substituted resolvedInput : value) (r : Run World) :
  Obj.get nodeId nodeMap = Some node ->
  registry (actionRef node) = Some handler ->
  substituteQuery (input node) query = Normal substituted ->
  resolveInput substituted (context r) = Ok resolvedInput ->
  let limit := match retry node with Some p => maxAttempts p | None => 1 end in
  let pause := match retry node with Some p => backoffMs p | None => 0 end in
  let call := Invoked (actionRef node) nodeId resolvedInput in
  exists k,
    effects (stateOf (run nodeMap query startTime nodeId r))
      = effects r ++ rounds call pause k
    /\ Z.of_nat k <= Z.max 0 limit
    /\ match run nodeMap query startTime nodeId r with
       | Continue _ => (1 <= k)%nat
       | Returned res _ =>
           Z.of_nat k = Z.max 0 limit /\ ExecutionResult.success res = false
       | _ => False
       end.
Proof.
  intros Hget Hreg Hsub Hres limit pause call.
  unfold run, runNode. rewrite Hget. fold registry. rewrite Hreg, Hsub.
  cbn [context pushLog timestamp now logs nodeExecutions world ticks effects].
  rewrite Hres. fold limit pause.
  match goal with
  | |- context [attempts clock ?n 1 handler nodeId node resolvedInput limit pause ?e ?r0] =>
      destruct (attempts clock n 1 handler nodeId node resolvedInput limit pause e r0)
        as [[ok lastError] r1] eqn:Hat
  end.
  assert (Hsum : exists k,
      effects r1 = effects r ++ rounds call pause k
      /\ Z.of_nat k <= Z.max 0 limit
      /\ if ok then (1 <= k)%nat else Z.of_nat k = Z.max 0 limit).
  { destruct (Z.to_nat limit) as [|n] eqn:Hn.
    - cbn in Hat. injection Hat as <- _ <-. exists O. cbn.
      rewrite app_nil_r. split; [reflexivity|]. split; lia.
    - rewrite <- Hn in Hat. apply attempts_summary in Hat; [|lia].
      cbn in Hat. destruct Hat as (k & Hk & Heff & Hrest). exists k.
      split; [exact Heff|]. split; [lia|].
      destruct ok; [tauto|]. destruct Hrest as [-> _]. lia. }
  destruct Hsum as (k & Heff & Hk & Hrest). exists k.
  destruct ok; cbn; auto.
Qed.

(** X11: a retry policy whose [maxAttempts] is not positive fails the node
    without running it: no invocation, an empty error message. *)
Theorem no_attempt_without_positive_maxAttempts
    (nodeMap : Obj.t WorkflowNode) (query : string) (startTime : Z)
    (nodeId : string) (node : WorkflowNode) (handler : ActionHandler World)
    (substituted resolvedInput : value) (p : RetryPolicy) (r : Run World) :
  Obj.get nodeId nodeMap = Some node ->
  registry (actionRef node) = Some handler ->
  substituteQuery (input node) query = Normal substituted ->
  resolveInput substituted (context r) = Ok resolvedInput ->
  retry node = Some p -> maxAttempts p <= 0 ->
  exists res r',
    run nodeMap query startTime nodeId r = Returned res r'
    /\ ExecutionResult.success res = false
    /\ ExecutionResult.error res = Some EmptyString
    /\ ExecutionResult.nodeExecutions res
       = nodeExecutions r ++ [errorRecord nodeId node EmptyString]
    /\ effects r' = effects r
    /\ world r' = world r
    /\ context r' = context r.
Proof.
  intros Hget Hreg Hsub Hres Hp Hle.
  unfold run, runNode. rewrite Hget. fold registry. rewrite Hreg, Hsub.
  cbn [context pushLog timestamp now logs nodeExecutions world ticks effects].
  rewrite Hres, Hp.
  replace (Z.to_nat (maxAttempts p)) with O by lia.
  cbn. eexists _, _. repeat split; reflexivity.
Qed.

End Node.

End EngineFacts.

Module RefMore.
Import Str Path StrFacts RefFacts.

(** X12: a reference has to name a field: the path of a node's whole output has
    four parts and is refused, whether the node has run or not. *)
Theorem whole_output_is_not_referable (context : Obj.t value) (nodeId : string) :
  includes "." nodeId = false ->
  resolveRef ("$.nodes." +++ nodeId +++ ".output") context
  = Throw ("Unsupported $ref path: " +++ "$.nodes." +++ nodeId +++ ".output").
Proof.
  intros Hn. unfold resolveRef.
  change ("$.nodes." +++ nodeId +++ ".output")
    with ("$" +++ String "." ("nodes" +++ String "." (nodeId +++ String "." "output"))).
  rewrite !split_app by (reflexivity || exact Hn).
  reflexivity.
Qed.

(** X13: the text between the brackets goes through [parseInt]: when it is not
    a number the array is read at NaN, which gives [undefined] and no
    error; a negative number, or one past the end, is out of range. *)
Theorem index_text_goes_through_parseInt
    (context : Obj.t value) (nodeId f t : string) (output : value)
    (items : list value) :
  includes "." nodeId = false ->
  f <> EmptyString -> includes "." f = false -> includes "[" f = false ->
  includes "." t = false -> includes "[" t = false -> includes "]" t = false ->
  Obj.get nodeId context = Some output ->
  getField f output = Some (VArr items) ->
  let path := "$.nodes." +++ nodeId +++ ".output." +++ f +++ "[" +++ t +++ "]" in
  resolveRef path context
  = match parseInt t with
    | None => Ok VUndefined
    | Some i =>
        if (i <? 0) || (i >=? Z.of_nat (List.length items))
        then Throw ("$ref index out of range: " +++ path)
        else Ok (nth (Z.to_nat i) items VUndefined)
    end.
Proof.
  intros Hn Hf Hfd Hfb Htd Htb Htc Hget Hfield path.
  set (token := f +++ "[" +++ t +++ "]").
  assert (Hdot : includes "." token = false).
  { unfold token. change (f +++ "[" +++ t +++ "]") with (f +++ String "[" (t +++ "]")).
    rewrite includes_app, Hfd. cbn [includes Ascii.eqb Bool.eqb orb].
    now rewrite includes_app, Htd. }
  assert (Hsplit : split "." path = ["$"; "nodes"; nodeId; "output"; token]).
  { unfold path. fold token.
    change ("$.nodes." +++ nodeId +++ ".output." +++ token)
      with ("$" +++ String "." ("nodes" +++ String "."
              (nodeId +++ String "." ("output" +++ String "." token)))).
    rewrite !split_app by (reflexivity || exact Hn).
    now rewrite split_plain. }
  unfold resolveRef. rewrite Hsplit.
  cbn [String.eqb Ascii.eqb Bool.eqb negb orb andb].
  rewrite (RefFacts.getField_stored _ _ Hget).
  cbn [refWalk]. unfold refStep.
  assert (H1 : includes "[" token = true).
  { unfold token. rewrite includes_app.
    replace (includes "[" ("[" +++ t +++ "]")) with true by reflexivity.
    apply orb_true_r. }
  assert (H2 : endsWith "]" token = true).
  { unfold token.
    replace (f +++ "[" +++ t +++ "]") with ((f +++ "[" +++ t) +++ String "]" EmptyString)
      by (rewrite !append_assoc; reflexivity).
    apply endsWith_snoc. }
  assert (H3 : split "[" token = [f; t +++ "]"]).
  { unfold token. change (f +++ "[" +++ t +++ "]") with (f +++ String "[" (t +++ "]")).
    rewrite split_app by exact Hfb. rewrite split_plain; auto.
    now rewrite includes_app, Htb. }
  assert (H4 : removeFirst "]" (t +++ "]") = t).
  { change (t +++ "]") with (t +++ String "]" EmptyString).
    rewrite removeFirst_app, append_empty_r; auto. }
  rewrite H1, H2, H3, H4. cbn [andb].
  destruct (String.eqb f EmptyString) eqn:E.
  { apply String.eqb_eq in E. congruence. }
  rewrite Hfield. cbn [asArray].
  destruct (parseInt t) as [i|]; [|reflexivity].
  destruct ((i <? 0) || (i >=? Z.of_nat (List.length items))); reflexivity.
Qed.

End RefMore.

(** ** Vocabulary of values *)

Module ShapeFacts.
Import Obj ObjFacts Shape.

Lemma inOrder_after_plain l k i :
  arrayIndex k = Some i -> inOrder None (l ++ [k]) = false.
Proof.
  intros Hk. induction l as [|k' l IH]; cbn [List.app inOrder].
  - now rewrite Hk.
  - destruct (arrayIndex k'); auto.
Qed.

Lemma inOrder_last l k i : forall j,
  arrayIndex k = Some i -> inOrder (Some j) (l ++ [k]) = true -> j < i.
Proof.
  intros j Hk. revert j. induction l as [|k' l IH]; intros j; cbn [List.app inOrder].
  - rewrite Hk. intros H. apply andb_true_iff in H. destruct H as [H _].
    now apply Z.ltb_lt.
  - destruct (arrayIndex k') as [j'|].
    + intros H. apply andb_true_iff in H. destruct H as [H1 H2].
      apply Z.ltb_lt in H1. specialize (IH _ H2). lia.
    + intros H. now rewrite (@inOrder_after_plain l k i Hk) in H.
Qed.

Lemma insertIndex_last (A : Type) (k : string) (v : A) i :
  arrayIndex k = Some i ->
  forall (o : Obj.t A) lo,
    inOrder (Some lo) (keys o ++ [k]) = true ->
    insertIndex i k v o = o ++ [(k, v)].
Proof.
  intros Hk. induction o as [|[k' v'] o IH]; intros lo; [reflexivity|].
  cbn [keys map fst List.app inOrder insertIndex].
  destruct (arrayIndex k') as [j|].
  - intros H. apply andb_true_iff in H. destruct H as [_ H].
    pose proof (@inOrder_last (map fst o) k i j Hk H) as Hlt.
    replace (j <? i) with true by (symmetry; now apply Z.ltb_lt).
    f_equal. now apply (IH j).
  - intros H. unfold keys in H.
    now rewrite (@inOrder_after_plain (map fst o) k i Hk) in H.
Qed.

Lemma distinct_last l k : distinct (l ++ [k]) = true -> ~ In k l.
Proof.
  induction l as [|k' l IH]; [tauto|]. cbn [List.app distinct].
  intros H. apply andb_true_iff in H. destruct H as [H1 H2].
  intros [->|Hin]; [|now apply IH].
  apply negb_true_iff in H1. rewrite existsb_app in H1. cbn in H1.
  rewrite String.eqb_refl, orb_true_r in H1. discriminate.
Qed.

Lemma distinct_prefix a b : distinct (a ++ b) = true -> distinct a = true.
Proof.
  induction a as [|k a IH]; [reflexivity|]. cbn [List.app distinct].
  intros H. apply andb_true_iff in H. destruct H as [H1 H2].
  rewrite (IH H2), andb_true_r. apply negb_true_iff in H1. apply negb_true_iff.
  rewrite existsb_app in H1. now apply orb_false_iff in H1.
Qed.

Lemma inOrder_prefix a b : forall lo,
  inOrder lo (a ++ b) = true -> inOrder lo a = true.
Proof.
  induction a as [|k a IH]; intros lo; [reflexivity|]. cbn [List.app inOrder].
  destruct (arrayIndex k) as [i|]; [destruct lo as [j|]|]; auto.
  intros H. apply andb_true_iff in H. destruct H as [H1 H2].
  now rewrite H1, (IH _ H2).
Qed.

(** Writing a key that comes next in enumeration order appends it. *)
Lemma set_next (A : Type) (o : Obj.t A) k v :
  distinct (keys o ++ [k]) = true ->
  inOrder (Some (-1)) (keys o ++ [k]) = true ->
  set k v o = o ++ [(k, v)].
Proof.
  intros Hd Ho. unfold set.
  replace (has k o) with false.
  2:{ symmetry. unfold has. apply distinct_last in Hd.
      apply get_None in Hd. now rewrite Hd. }
  destruct (arrayIndex k) as [i|] eqn:Hk; [|reflexivity].
  now apply (@insertIndex_last A k v i Hk o (-1)).
Qed.

Lemma fold_set_next (A B : Type) (f : B -> A) :
  forall (fields : list (string * B)) (acc : Obj.t A),
    distinct (keys acc ++ map fst fields) = true ->
    inOrder (Some (-1)) (keys acc ++ map fst fields) = true ->
    fold_left (fun o kv => set (fst kv) (f (snd kv)) o) fields acc
    = acc ++ map (fun kv => (fst kv, f (snd kv))) fields.
Proof.
  induction fields as [|[k x] tl IH]; intros acc Hd Ho.
  - cbn. now rewrite app_nil_r.
  - cbn [fold_left map fst snd] in *.
    assert (Hcat : keys acc ++ k :: map fst tl = (keys acc ++ [k]) ++ map fst tl)
      by (rewrite <- app_assoc; reflexivity).
    rewrite Hcat in Hd, Ho.
    rewrite set_next; [|eapply distinct_prefix; eauto|eapply inOrder_prefix; eauto].
    rewrite IH.
    + now rewrite <- app_assoc.
    + unfold keys. rewrite map_app. exact Hd.
    + unfold keys. rewrite map_app. exact Ho.
Qed.

Lemma everywhere_here p v : everywhere p v = true -> p v = true.
Proof. destruct v; cbn [everywhere]; intros H; apply andb_true_iff in H; tauto. Qed.

Lemma everywhere_items p items :
  everywhere p (VArr items) = true -> Forall (fun x => everywhere p x = true) items.
Proof.
  cbn [everywhere]. intros H. apply andb_true_iff in H. destruct H as [_ H].
  apply Forall_forall. now apply forallb_forall.
Qed.

Lemma everywhere_fields p fields :
  everywhere p (VObj fields) = true ->
  Forall (fun kv => everywhere p (snd kv) = true) fields.
Proof.
  cbn [everywhere]. intros H. apply andb_true_iff in H. destruct H as [_ H].
  apply Forall_forall. intros kv. now apply (proj1 (forallb_forall _ _) H).
Qed.

(** An object in enumeration order is the object its members build. *)
Lemma norm_enumerated v : everywhere enumerated v = true -> norm v = v.
Proof.
  induction v as [| | | | |items IH|fields IH| | |proto fields IHp IHf] using value_nested;
    intros Hv; try reflexivity.
  - cbn [norm]. f_equal. apply everywhere_items in Hv.
    induction items as [|x tl IHtl]; [reflexivity|].
    inversion IH; subst. inversion Hv; subst. cbn [map]. f_equal; auto.
  - cbn [norm]. f_equal.
    pose proof (everywhere_here _ _ Hv) as Hhere. cbn [enumerated] in Hhere.
    apply andb_true_iff in Hhere. destruct Hhere as [Hd Ho].
    rewrite fold_set_next by (cbn [keys map List.app]; assumption).
    cbn [List.app]. apply everywhere_fields in Hv. clear Hd Ho.
    induction fields as [|[k x] tl IHtl]; [reflexivity|].
    inversion IH; subst. inversion Hv; subst. cbn [map fst snd] in *.
    f_equal; [f_equal|]; auto.
Qed.

End ShapeFacts.

Module JsonRound.
Import Str JSON Shape Printed StrFacts.

Lemma length_append a b :
  String.length (a +++ b) = (String.length a + String.length b)%nat.
Proof. induction a as [|x a IH]; simpl; auto. Qed.

Ltac each_char a := destruct a as [[|] [|] [|] [|] [|] [|] [|] [|]].

Lemma escape_cons a rest :
  escape (String a rest) = escape (String a EmptyString) +++ escape rest.
Proof. each_char a; reflexivity. Qed.

Lemma parseChars_char a t :
  parseChars (escape (String a EmptyString) +++ t)
  = andThen (parseChars t) (fun x r => Read (String a x) r).
Proof. each_char a; reflexivity. Qed.

(** A string literal is read back as the string it was printed from. *)
Lemma parseChars_escape s : forall rest,
  parseChars (escape s +++ String dquote rest) = Read s rest.
Proof.
  induction s as [|a s IH]; intros rest.
  - reflexivity.
  - rewrite escape_cons, append_assoc, parseChars_char, IH. reflexivity.
Qed.

Lemma of_uint_acc_val l : forall acc,
  Z.pos (Pos.of_uint_acc l acc) = uintVal (Z.pos acc) l.
Proof.
  induction l; intros acc; cbn [Pos.of_uint_acc uintVal]; auto;
    rewrite IHl; f_equal; lia.
Qed.

Lemma of_uint_val d : Z.of_N (Pos.of_uint d) = uintVal 0 d.
Proof.
  induction d; cbn [Pos.of_uint uintVal]; auto;
    try (cbn [Z.of_N]; rewrite of_uint_acc_val; reflexivity).
Qed.

Lemma to_uint_val p : uintVal 0 (Pos.to_uint p) = Z.pos p.
Proof.
  rewrite <- of_uint_val, DecimalPos.Unsigned.of_to. reflexivity.
Qed.

Lemma digitsFrom_uint d : forall acc seen rest,
  stops rest ->
  (seen = true \/ d <> Nil) ->
  digitsFrom acc seen (NilEmpty.string_of_uint d +++ rest)
  = Some (uintVal acc d, rest).
Proof.
  induction d; intros acc seen rest Hrest Hseen;
    try (cbn [NilEmpty.string_of_uint String.append digitsFrom uintVal];
         replace (isDigit _) with true by reflexivity;
         rewrite IHd by auto; reflexivity).
  cbn [NilEmpty.string_of_uint String.append uintVal].
  destruct Hseen as [->|H]; [|congruence].
  destruct rest as [|c rest]; [reflexivity|].
  cbn [digitsFrom]. destruct Hrest as [-> _]. reflexivity.
Qed.

Lemma to_uint_head p :
  exists c s, NilEmpty.string_of_uint (Pos.to_uint p) = String c s
              /\ Ascii.eqb c "0" = false /\ Ascii.eqb c "-" = false
              /\ isDigit c = true.
Proof.
  assert (Hn : unorm (Pos.to_uint p) = Pos.to_uint p).
  { rewrite <- DecimalPos.Unsigned.to_of, DecimalPos.Unsigned.of_to. reflexivity. }
  pose proof (DecimalPos.Unsigned.to_uint_nonzero p) as Hz.
  pose proof (DecimalPos.Unsigned.to_uint_nonnil p) as Hnil.
  destruct (Pos.to_uint p) as [|d|d|d|d|d|d|d|d|d|d];
    try congruence; try (eexists _, _; repeat split; reflexivity).
  exfalso. rewrite DecimalFacts.unorm_D0 in Hn.
  destruct d as [|d|d|d|d|d|d|d|d|d|d];
    try (apply Hz; reflexivity);
    match type of Hn with
    | unorm ?u = _ =>
        assert (Hne : u <> Nil) by discriminate;
        pose proof (DecimalFacts.nb_digits_unorm u Hne) as Hle;
        rewrite Hn in Hle; cbn [nb_digits] in Hle; lia
    end.
Qed.

(** An integer within the exact range is read back as printed. *)
Lemma parseNumber_ofZ n rest :
  Z.abs n <= 9007199254740992 -> stops rest ->
  parseNumber (ofZ n +++ rest) = Read (VNum n) rest.
Proof.
  intros Hn Hrest. unfold ofZ.
  assert (Htail : forall (m : Z) (neg : bool),
            0 <= m <= 9007199254740992 ->
            match rest with
            | String c after =>
                if Ascii.eqb c "." then
                  match after with
                  | String d _ => if isDigit d then Beyond else Syntax
                  | EmptyString => Syntax
                  end
                else if Ascii.eqb c "e" || Ascii.eqb c "E" then Beyond
                else if 9007199254740992 <? m then Beyond
                else Read (VNum (if neg then - m else m)) rest
            | EmptyString =>
                if 9007199254740992 <? m then Beyond
                else Read (VNum (if neg then - m else m)) rest
            end = Read (VNum (if neg then - m else m)) rest).
  { intros m neg Hm.
    replace (9007199254740992 <? m) with false by (symmetry; apply Z.ltb_ge; lia).
    destruct rest as [|c after]; [reflexivity|].
    destruct Hrest as (_ & -> & -> & ->). reflexivity. }
  destruct n as [|p|p]; cbn [Z.to_int NilZero.string_of_int].
  - change (NilZero.string_of_uint zero +++ rest) with (String "0" rest).
    unfold parseNumber. cbn [expect Ascii.eqb Bool.eqb].
    apply (Htail 0 false). lia.
  - destruct (to_uint_head p) as (c & s & Hs & H0 & Hm & _).
    pose proof (DecimalPos.Unsigned.to_uint_nonnil p) as Hnil.
    replace (NilZero.string_of_uint (Pos.to_uint p))
      with (NilEmpty.string_of_uint (Pos.to_uint p))
      by (unfold NilZero.string_of_uint;
          destruct (Pos.to_uint p) eqn:E; congruence).
    unfold parseNumber.
    replace (expect "-" (NilEmpty.string_of_uint (Pos.to_uint p) +++ rest))
      with (@None string)
      by (rewrite Hs; cbn [String.append expect]; now rewrite Hm).
    replace (expect "0" (NilEmpty.string_of_uint (Pos.to_uint p) +++ rest))
      with (@None string)
      by (rewrite Hs; cbn [String.append expect]; now rewrite H0).
    rewrite digitsFrom_uint by auto. rewrite to_uint_val.
    apply (Htail (Z.pos p) false). lia.
  - destruct (to_uint_head p) as (c & s & Hs & H0 & Hm & _).
    pose proof (DecimalPos.Unsigned.to_uint_nonnil p) as Hnil.
    replace (NilZero.string_of_uint (Pos.to_uint p))
      with (NilEmpty.string_of_uint (Pos.to_uint p))
      by (unfold NilZero.string_of_uint;
          destruct (Pos.to_uint p) eqn:E; congruence).
    unfold parseNumber.
    cbn [String.append expect Ascii.eqb Bool.eqb].
    replace (expect "0" (NilEmpty.string_of_uint (Pos.to_uint p) +++ rest))
      with (@None string)
      by (rewrite Hs; cbn [String.append expect]; now rewrite H0).
    rewrite digitsFrom_uint by auto. rewrite to_uint_val.
    apply (Htail (Z.pos p) true). lia.
Qed.

Lemma stringify_text v : printable v = true -> stringify v = Some (text v).
Proof. destruct v as [| |[|]| | | | | | |]; try discriminate; reflexivity. Qed.

Lemma text_arr items :
  text (VArr items) = "[" +++ join "," (map text items) +++ "]".
Proof.
  reflexivity.
Qed.

Lemma text_obj fields :
  forallb (fun kv => printable (snd kv)) fields = true ->
  text (VObj fields) = "{" +++ join "," (map memberText fields) +++ "}".
Proof.
  intros Hall. unfold text at 1. cbn [stringify].
  apply (f_equal (fun l => "{" +++ join "," l +++ "}")).
  induction fields as [|[k x] tl IH]; [reflexivity|].
  cbn [forallb snd] in Hall. apply andb_true_iff in Hall. destruct Hall as [Hx Htl].
  cbn [map]. rewrite <- (IH Htl). rewrite (stringify_text x Hx). reflexivity.
Qed.

Lemma everywhere_printable v : everywhere printable v = true -> printable v = true.
Proof. destruct v; cbn [everywhere]; intros H; apply andb_true_iff in H; tauto. Qed.

Lemma everywhere_arr p items :
  everywhere p (VArr items) = true -> Forall (fun x => everywhere p x = true) items.
Proof.
  cbn [everywhere]. intros H. apply andb_true_iff in H. destruct H as [_ H].
  apply Forall_forall. now apply forallb_forall.
Qed.

Lemma everywhere_obj p fields :
  everywhere p (VObj fields) = true ->
  Forall (fun kv => everywhere p (snd kv) = true) fields.
Proof.
  cbn [everywhere]. intros H. apply andb_true_iff in H. destruct H as [_ H].
  apply Forall_forall. intros kv. now apply (proj1 (forallb_forall _ _) H).
Qed.

Lemma number_head c :
  Ascii.eqb c "-" || isDigit c = true ->
  opening c /\ Ascii.eqb c "{" = false /\ Ascii.eqb c "[" = false
  /\ Ascii.eqb c dquote = false.
Proof.
  each_char c; intros H; vm_compute in H; try discriminate H;
    repeat split; reflexivity.
Qed.

Lemma ofZ_head n :
  exists c s, ofZ n = String c s /\ Ascii.eqb c "-" || isDigit c = true.
Proof.
  unfold ofZ. destruct n as [|p|p]; cbn [Z.to_int NilZero.string_of_int].
  - eexists _, _. split; reflexivity.
  - destruct (to_uint_head p) as (c & s & Hs & _ & _ & Hd).
    pose proof (DecimalPos.Unsigned.to_uint_nonnil p) as Hnil.
    exists c, s. split; [|now rewrite Hd, orb_true_r].
    rewrite <- Hs. unfold NilZero.string_of_uint.
    destruct (Pos.to_uint p) eqn:E; congruence.
  - eexists _, _. split; reflexivity.
Qed.

Lemma text_head v : exists c s, text v = String c s /\ opening c.
Proof.
  destruct v as [| |[|]|n|s|items|fields|[|]|c name|proto fields];
    try (eexists _, _; split; [reflexivity | repeat split; reflexivity]).
  - destruct (ofZ_head n) as (c & s & Hs & Hc).
    exists c, s. split; [exact Hs | apply number_head, Hc].
Qed.

Lemma skipWs_opening c s : isWs c = false -> skipWs (String c s) = String c s.
Proof. intros H. cbn [skipWs]. now rewrite H. Qed.

Lemma join_length_ge sep ts t :
  In t ts -> (String.length t <= String.length (join sep ts))%nat.
Proof.
  induction ts as [|t0 ts IH]; [intros []|].
  intros Hin. destruct ts as [|t1 ts].
  - destruct Hin as [<-|[]]. cbn. lia.
  - change (join sep (t0 :: t1 :: ts)) with (t0 +++ sep +++ join sep (t1 :: ts)).
    rewrite !length_append. destruct Hin as [<-|Hin]; [lia|].
    specialize (IH Hin). lia.
Qed.

Lemma join_length_count sep ts :
  Forall (fun t => (1 <= String.length t)%nat) ts ->
  (List.length ts <= String.length (join sep ts))%nat.
Proof.
  induction ts as [|t0 ts IH]; [cbn; lia|].
  intros H. inversion H as [|? ? H0 Hts]; subst.
  destruct ts as [|t1 ts].
  - cbn. lia.
  - change (join sep (t0 :: t1 :: ts)) with (t0 +++ sep +++ join sep (t1 :: ts)).
    rewrite !length_append. specialize (IH Hts). cbn [List.length] in *. lia.
Qed.

Lemma text_nonempty v : (1 <= String.length (text v))%nat.
Proof. destruct (text_head v) as (c & s & -> & _). cbn. lia. Qed.

Section Nested.
Variable fuel : nat.
Hypothesis reads : forall v rest,
  everywhere printable v = true ->
  (String.length (text v) < fuel)%nat -> stops rest ->
  parseValue fuel (text v +++ rest) = Read (norm v) rest.

Lemma stops_close c rest :
  Ascii.eqb c "," = true \/ Ascii.eqb c "]" = true \/ Ascii.eqb c "}" = true ->
  stops (String c rest).
Proof.
  intros H. cbn. each_char c; vm_compute in H; repeat split; try reflexivity;
    destruct H as [H|[H|H]]; discriminate H.
Qed.

Lemma elements_text : forall items n acc rest,
  items <> [] ->
  (List.length items <= n)%nat ->
  Forall (fun x => everywhere printable x = true
                   /\ (String.length (text x) < fuel)%nat) items ->
  elements (parseValue fuel) n acc (join "," (map text items) +++ String "]" rest)
  = Read (VArr (acc ++ map norm items)) rest.
Proof.
  induction items as [|x tl IH]; intros n acc rest Hne Hn Hall; [congruence|].
  inversion Hall as [|? ? [Hx Hlen] Htl]; subst.
  destruct n as [|n]; [cbn in Hn; lia|]. cbn [elements].
  destruct tl as [|y tl].
  - cbn [map join]. rewrite (reads x (String "]" rest) Hx Hlen)
      by (apply stops_close; auto).
    cbn. reflexivity.
  - change (join "," (map text (x :: y :: tl)))
      with (text x +++ "," +++ join "," (map text (y :: tl))).
    rewrite !append_assoc.
    rewrite (reads x _ Hx Hlen) by (apply stops_close; auto).
    cbn [andThen String.append skipWs isWs]. 
    replace (isWs ",") with false by reflexivity.
    cbn [Ascii.eqb Bool.eqb].
    rewrite IH; [|discriminate|cbn in *; lia|exact Htl].
    now rewrite <- app_assoc.
Qed.

Lemma members_text : forall fields n acc rest,
  fields <> [] ->
  (List.length fields <= n)%nat ->
  Forall (fun kv => everywhere printable (snd kv) = true
                    /\ (String.length (text (snd kv)) < fuel)%nat) fields ->
  members (parseValue fuel) n acc (join "," (map memberText fields) +++ String "}" rest)
  = Read (VObj (fold_left (fun o kv => Obj.set (fst kv) (norm (snd kv)) o)
                  fields acc)) rest.
Proof.
  induction fields as [|[k x] tl IH]; intros n acc rest Hne Hn Hall; [congruence|].
  inversion Hall as [|? ? [Hx Hlen] Htl]; subst. cbn [snd] in Hx, Hlen.
  destruct n as [|n]; [cbn in Hn; lia|]. cbn [members].
  assert (Hmember : forall tail,
            memberText (k, x) +++ tail
            = String dquote (escape k +++ String dquote (String ":" (text x +++ tail)))).
  { intros tail. unfold memberText, quote. cbn [fst snd String.append].
    rewrite !append_assoc. reflexivity. }
  destruct tl as [|y tl].
  - cbn [map join]. rewrite Hmember.
    rewrite skipWs_opening by reflexivity.
    cbn [expect]. replace (Ascii.eqb dquote dquote) with true by reflexivity.
    rewrite parseChars_escape. cbn [andThen].
    rewrite skipWs_opening by reflexivity.
    cbn [expect Ascii.eqb Bool.eqb].
    rewrite (reads x (String "}" rest) Hx Hlen) by (apply stops_close; auto).
    cbn. reflexivity.
  - change (join "," (map memberText ((k, x) :: y :: tl)))
      with (memberText (k, x) +++ "," +++ join "," (map memberText (y :: tl))).
    rewrite !append_assoc. rewrite Hmember.
    rewrite skipWs_opening by reflexivity.
    cbn [expect]. replace (Ascii.eqb dquote dquote) with true by reflexivity.
    rewrite parseChars_escape. cbn [andThen].
    rewrite skipWs_opening by reflexivity.
    cbn [expect Ascii.eqb Bool.eqb].
    rewrite (reads x _ Hx Hlen) by (apply stops_close; auto).
    cbn [andThen String.append skipWs isWs].
    replace (isWs ",") with false by reflexivity.
    cbn [Ascii.eqb Bool.eqb].
    rewrite IH; [|discriminate|cbn in *; lia|exact Htl].
    reflexivity.
Qed.

End Nested.

Lemma forall_text_shorter (A : Type) (f : A -> value) (g : A -> string)
    (l : list A) (fuel : nat) :
  (forall a, In a l -> (String.length (text (f a)) <= String.length (g a))%nat) ->
  (String.length (join "," (map g l)) + 2 <= fuel)%nat ->
  Forall (fun a => everywhere printable (f a) = true) l ->
  Forall (fun a => everywhere printable (f a) = true
                   /\ (String.length (text (f a)) < fuel)%nat) l.
Proof.
  intros Hle Hfuel Hall. apply Forall_forall. intros a Ha.
  split; [exact (proj1 (Forall_forall _ _) Hall a Ha)|].
  pose proof (@join_length_ge "," (map g l) (g a) (in_map g l a Ha)).
  specialize (Hle a Ha). lia.
Qed.

(** Reading what was printed: the value comes back, its objects built
    member by member. *)
Lemma parseValue_text : forall fuel v rest,
  everywhere printable v = true ->
  (String.length (text v) < fuel)%nat -> stops rest ->
  parseValue fuel (text v +++ rest) = Read (norm v) rest.
Proof.
  induction fuel as [|fuel IH]; intros v rest Hv Hfuel Hrest; [lia|].
  destruct v as [| |[|]|n|s|items|fields|c|c name|proto fields];
    try reflexivity; try discriminate.
  - destruct (ofZ_head n) as (c & t & Ht & Hc).
    change (text (VNum n)) with (ofZ n). cbn [parseValue].
    destruct (number_head c Hc) as ((Hws & _ & _) & H1 & H2 & H3).
    rewrite Ht. cbn [String.append]. rewrite skipWs_opening by exact Hws.
    rewrite H1, H2, H3, Hc.
    change (String c (t +++ rest)) with (String c t +++ rest). rewrite <- Ht.
    apply parseNumber_ofZ; auto.
    cbn [everywhere printable] in Hv. apply andb_true_iff in Hv.
    destruct Hv as [Hv _]. now apply Z.leb_le.
  - change (text (VStr s)) with (quote s). unfold quote.
    cbn [String.append parseValue]. rewrite skipWs_opening by reflexivity.
    replace (Ascii.eqb dquote "{") with false by reflexivity.
    replace (Ascii.eqb dquote "[") with false by reflexivity.
    replace (Ascii.eqb dquote dquote) with true by reflexivity.
    rewrite append_assoc. cbn [String.append].
    rewrite parseChars_escape. reflexivity.
  - rewrite text_arr in Hfuel |- *. rewrite !length_append in Hfuel.
    cbn [String.length] in Hfuel.
    cbn [String.append parseValue]. rewrite skipWs_opening by reflexivity.
    cbn [Ascii.eqb Bool.eqb]. rewrite append_assoc. cbn [String.append].
    destruct items as [|x tl].
    + reflexivity.
    + destruct (text_head x) as (c & t & Ht & Hws & Hclose & _).
      replace (expect "]" (skipWs (join "," (map text (x :: tl)) +++ String "]" rest)))
        with (@None string).
      2:{ cbn [map]. destruct tl as [|y tl]; cbn [join map];
            rewrite ?append_assoc, Ht; cbn [String.append];
            rewrite skipWs_opening by exact Hws; cbn [expect];
            now rewrite Hclose. }
      rewrite elements_text with (fuel := fuel); auto.
      * discriminate.
      * pose proof (@join_length_count "," (map text (x :: tl))) as Hc.
        rewrite length_map in Hc. etransitivity; [apply Hc|lia].
        apply Forall_forall. intros t0 Hin. apply in_map_iff in Hin.
        destruct Hin as (y & <- & _). apply text_nonempty.
      * apply (@forall_text_shorter value (fun x => x) text); auto.
        -- lia.
        -- now apply everywhere_arr.
  - assert (Hp : forallb (fun kv => printable (snd kv)) fields = true).
    { apply forallb_forall. intros kv Hin.
      apply everywhere_printable.
      exact (proj1 (Forall_forall _ _) (everywhere_obj _ _ Hv) kv Hin). }
    rewrite (text_obj fields Hp) in Hfuel |- *. rewrite !length_append in Hfuel.
    cbn [String.length] in Hfuel.
    cbn [String.append parseValue]. rewrite skipWs_opening by reflexivity.
    cbn [Ascii.eqb Bool.eqb]. rewrite append_assoc. cbn [String.append].
    destruct fields as [|[k x] tl].
    + reflexivity.
    + replace (expect "}" (skipWs (join "," (map memberText ((k, x) :: tl))
                                   +++ String "}" rest)))
        with (@None string).
      2:{ cbn [map]. destruct tl as [|y tl]; cbn [join map];
            rewrite ?append_assoc; unfold memberText at 1, quote;
            cbn [String.append fst]; rewrite skipWs_opening by reflexivity;
            reflexivity. }
      rewrite members_text with (fuel := fuel); auto.
      * discriminate.
      * pose proof (@join_length_count "," (map memberText ((k, x) :: tl))) as Hc.
        rewrite length_map in Hc. etransitivity; [apply Hc|lia].
        apply Forall_forall. intros t0 Hin. apply in_map_iff in Hin.
        destruct Hin as (y & <- & _). unfold memberText, quote. cbn. lia.
      * apply (@forall_text_shorter (string * value) (fun kv => snd kv) memberText); auto.
        -- intros kv _. unfold memberText. rewrite !length_append. lia.
        -- lia.
        -- now apply everywhere_obj.
Qed.

End JsonRound.

Module ReplaceFacts.
Import Str JSON Shape Printed StrFacts Fill JsonRound.

Lemma stripPrefix_Some p : forall s after,
  stripPrefix p s = Some after -> s = p +++ after.
Proof.
  induction p as [|a p IH]; intros s after; cbn [stripPrefix].
  - now intros [= ->].
  - destruct s as [|b s]; [discriminate|].
    destruct (Ascii.eqb a b) eqn:E; [|discriminate].
    apply Ascii.eqb_eq in E. subst b. intros H. cbn. f_equal. now apply IH.
Qed.

Lemma replaceQuery_cons query before a rest :
  replaceQuery query before 0 (String a rest)
  = match stripPrefix "{query}" (String a rest) with
    | Some after =>
        expand query "{query}" before after +++
        replaceQuery query (before +++ String a EmptyString) 6 rest
    | None =>
        String a (replaceQuery query (before +++ String a EmptyString) 0 rest)
    end.
Proof. reflexivity. Qed.

Lemma replaceQuery_skip query p : forall before t,
  replaceQuery query before (String.length p) (p +++ t)
  = replaceQuery query (before +++ p) 0 t.
Proof.
  induction p as [|a p IH]; intros before t.
  - cbn. now rewrite append_empty_r.
  - cbn [String.length String.append replaceQuery]. rewrite IH.
    rewrite append_assoc. reflexivity.
Qed.

Lemma scans_nil query : scans query EmptyString EmptyString.
Proof. intros before rest. cbn. now rewrite append_empty_r. Qed.

Lemma scans_app query p1 p1' p2 p2' :
  scans query p1 p1' -> scans query p2 p2' ->
  scans query (p1 +++ p2) (p1' +++ p2').
Proof.
  intros H1 H2 before rest. now rewrite !append_assoc, H1, H2, !append_assoc.
Qed.

Lemma scans_char query a : Ascii.eqb a "{" = false ->
  scans query (String a EmptyString) (String a EmptyString).
Proof.
  intros Ha before rest. cbn [String.append replaceQuery stripPrefix].
  rewrite Ascii.eqb_sym, Ha. reflexivity.
Qed.

Lemma scans_plain query p : includes "{" p = false -> scans query p p.
Proof.
  induction p as [|a p IH]; intros H; [apply scans_nil|].
  cbn [includes] in H. apply orb_false_iff in H. destruct H as [Ha Hp].
  change (String a p) with (String a EmptyString +++ p).
  apply scans_app; [now apply scans_char | now apply IH].
Qed.

(** An opening brace that is followed by a quote or a closing brace. *)
Lemma scans_open query c :
  Ascii.eqb c "q" = false -> Ascii.eqb c "{" = false ->
  scans query (String "{" (String c EmptyString)) (String "{" (String c EmptyString)).
Proof.
  intros Hq Hb before rest. cbn [String.append replaceQuery stripPrefix].
  rewrite Ascii.eqb_refl, (Ascii.eqb_sym "q" c), Hq.
  rewrite (Ascii.eqb_sym "{" c), Hb. rewrite !append_assoc. reflexivity.
Qed.

Lemma carried_app a b : carried (a +++ b) = carried a && carried b.
Proof.
  unfold carried. induction a as [|x a IH]; [reflexivity|].
  cbn [String.append list_ascii_of_string forallb]. now rewrite IH, andb_assoc.
Qed.

Lemma escape_verbatim a rest :
  verbatim a = true -> escape (String a rest) = String a (escape rest).
Proof. each_char a; intros H; vm_compute in H; try discriminate H; reflexivity. Qed.

Lemma escape_carried s : carried s = true -> escape s = s.
Proof.
  unfold carried. induction s as [|a s IH]; [reflexivity|].
  cbn [list_ascii_of_string forallb]. intros H. apply andb_true_iff in H.
  destruct H as [Ha Hs]. now rewrite escape_verbatim, IH.
Qed.

Lemma escape_app a b : escape (a +++ b) = escape a +++ escape b.
Proof.
  induction a as [|x a IH]; [reflexivity|].
  cbn [String.append]. rewrite (escape_cons x (a +++ b)), (escape_cons x a), IH.
  now rewrite append_assoc.
Qed.

Lemma expand_other x t m b a :
  Ascii.eqb x "$" = false -> expand (String x t) m b a = String x (expand t m b a).
Proof. each_char x; intros H; vm_compute in H; try discriminate H; reflexivity. Qed.

Lemma contextFree_other x t :
  Ascii.eqb x "$" = false -> contextFree (String x t) = contextFree t.
Proof. each_char x; intros H; vm_compute in H; try discriminate H; reflexivity. Qed.

Lemma expand_dollar c rest m b a :
  expand (String "$" (String c rest)) m b a
  = if Ascii.eqb c "$" then String "$" (expand rest m b a)
    else if Ascii.eqb c "&" then m +++ expand rest m b a
    else if Ascii.eqb c "`" then b +++ expand rest m b a
    else if Ascii.eqb c "'" then a +++ expand rest m b a
    else String "$" (expand (String c rest) m b a).
Proof. reflexivity. Qed.

Lemma contextFree_dollar c rest :
  contextFree (String "$" (String c rest))
  = if Ascii.eqb c "$" then contextFree rest
    else if Ascii.eqb c "&" then contextFree rest
    else if Ascii.eqb c "`" then false
    else if Ascii.eqb c "'" then false
    else contextFree (String c rest).
Proof. reflexivity. Qed.

(** Without [$`] and [$'] the replacement text is the same at every
    match. *)
Lemma expand_contextFree m b a b' a' : forall n t,
  (String.length t <= n)%nat -> contextFree t = true ->
  expand t m b a = expand t m b' a'.
Proof.
  induction n as [|n IH]; intros t Hn Hc.
  - destruct t; [reflexivity | cbn in Hn; lia].
  - destruct t as [|x t]; [reflexivity|]. cbn [String.length] in Hn.
    destruct (Ascii.eqb x "$") eqn:Ex.
    + apply Ascii.eqb_eq in Ex. subst x.
      destruct t as [|c rest]; [reflexivity|]. cbn [String.length] in Hn.
      rewrite contextFree_dollar in Hc. rewrite !expand_dollar.
      destruct (Ascii.eqb c "$"); [f_equal; apply IH; auto; lia|].
      destruct (Ascii.eqb c "&"); [f_equal; apply IH; auto; lia|].
      destruct (Ascii.eqb c "`"); [discriminate|].
      destruct (Ascii.eqb c "'"); [discriminate|].
      f_equal. apply IH; auto. cbn. lia.
    + rewrite !expand_other by exact Ex. rewrite contextFree_other in Hc by exact Ex.
      f_equal. apply IH; auto. lia.
Qed.

Lemma expand_carried m : carried m = true -> forall n t,
  (String.length t <= n)%nat -> carried t = true -> contextFree t = true ->
  carried (expand t m EmptyString EmptyString) = true.
Proof.
  intros Hm. induction n as [|n IH]; intros t Hn Ht Hc.
  - destruct t; [reflexivity | cbn in Hn; lia].
  - destruct t as [|x t]; [reflexivity|]. cbn [String.length] in Hn.
    assert (Hx : verbatim x = true /\ carried t = true).
    { unfold carried in Ht |- *. cbn [list_ascii_of_string forallb] in Ht.
      now apply andb_true_iff in Ht. }
    destruct Hx as [Hx Ht'].
    destruct (Ascii.eqb x "$") eqn:Ex.
    + apply Ascii.eqb_eq in Ex. subst x.
      destruct t as [|c rest]; [reflexivity|]. cbn [String.length] in Hn.
      assert (Hrest : carried rest = true).
      { unfold carried in Ht' |- *. cbn [list_ascii_of_string forallb] in Ht'.
        now apply andb_true_iff in Ht'. }
      rewrite contextFree_dollar in Hc. rewrite expand_dollar.
      destruct (Ascii.eqb c "$").
      { change (String "$" ?u) with ("$" +++ u). rewrite carried_app.
        rewrite IH; auto. lia. }
      destruct (Ascii.eqb c "&").
      { rewrite carried_app, Hm. apply IH; auto. lia. }
      destruct (Ascii.eqb c "`"); [discriminate|].
      destruct (Ascii.eqb c "'"); [discriminate|].
      change (String "$" ?u) with ("$" +++ u). rewrite carried_app.
      rewrite IH; auto. cbn. lia.
    + rewrite expand_other by exact Ex. rewrite contextFree_other in Hc by exact Ex.
      change (String x ?u) with (String x EmptyString +++ u). rewrite carried_app.
      rewrite IH by (auto; lia). unfold carried. cbn. now rewrite Hx.
Qed.

Lemma occurs_tail p a rest :
  occurs p (String a rest) = false ->
  stripPrefix p (String a rest) = None /\ occurs p rest = false.
Proof.
  cbn [occurs]. destruct (stripPrefix p (String a rest)); [discriminate | auto].
Qed.

Lemma occurs_found p s after : stripPrefix p s = Some after -> occurs p s = true.
Proof. intros H. destruct s; cbn [occurs]; now rewrite H. Qed.

Section Query.
Variable query : string.

Lemma fit_tail a s : fit query (String a s) -> fit query s.
Proof. intros [H|H]; [now left | right]. now apply occurs_tail in H. Qed.

Lemma fit_found s after :
  fit query s -> stripPrefix placeholder s = Some after -> tame query = true.
Proof.
  intros [H|H] Hs; auto. apply occurs_found in Hs. congruence.
Qed.

Lemma tame_parts :
  tame query = true -> carried query = true /\ contextFree query = true.
Proof. unfold tame, carried. intros H. now apply andb_true_iff in H. Qed.

(** What was scanned before does not matter. *)
Lemma replaceQuery_before s : forall k b b',
  fit query s -> replaceQuery query b k s = replaceQuery query b' k s.
Proof.
  induction s as [|a s IH]; intros k b b' Hfit; [reflexivity|].
  pose proof (fit_tail Hfit) as Hs. cbn [replaceQuery].
  destruct k as [|k]; [|now apply IH].
  destruct (stripPrefix placeholder (String a s)) as [after|] eqn:E.
  - change (stripPrefix "{query}" (String a s)) with (stripPrefix placeholder (String a s)).
    rewrite E. destruct (tame_parts (fit_found Hfit E)) as [_ Hc].
    rewrite (@expand_contextFree "{query}" b after b' after _ query (Nat.le_refl _) Hc).
    f_equal. now apply IH.
  - change (stripPrefix "{query}" (String a s)) with (stripPrefix placeholder (String a s)).
    rewrite E. f_equal. now apply IH.
Qed.

Lemma fillString_plain a s :
  fit query (String a s) -> stripPrefix placeholder (String a s) = None ->
  fillString query (String a s) = String a (fillString query s).
Proof.
  intros Hfit E. unfold fillString. cbn [replaceQuery].
  change (stripPrefix "{query}" (String a s)) with (stripPrefix placeholder (String a s)).
  rewrite E. f_equal. apply replaceQuery_before. now apply fit_tail in Hfit.
Qed.

Lemma fit_suffix p s : fit query (p +++ s) -> fit query s.
Proof. induction p as [|a p IH]; auto. intros H. apply IH. now apply fit_tail in H. Qed.

Lemma fillString_found s after :
  fit query s -> stripPrefix placeholder s = Some after ->
  fillString query s
  = expand query placeholder EmptyString EmptyString +++ fillString query after.
Proof.
  intros Hfit E. pose proof (stripPrefix_Some _ _ E) as Hs.
  destruct (tame_parts (fit_found Hfit E)) as [_ Hc].
  unfold fillString. rewrite Hs at 1.
  change (placeholder +++ after) with (String "{" ("query}" +++ after)).
  rewrite replaceQuery_cons.
  replace (stripPrefix "{query}" (String "{" ("query}" +++ after))) with (Some after)
    by reflexivity.
  rewrite (@expand_contextFree "{query}" EmptyString after EmptyString EmptyString
             _ query (Nat.le_refl _) Hc).
  f_equal.
  change 6%nat with (String.length "query}").
  rewrite replaceQuery_skip. apply replaceQuery_before.
  rewrite Hs in Hfit. now apply fit_suffix in Hfit.
Qed.

Lemma no_placeholder_kept s :
  occurs placeholder s = false -> fillString query s = s.
Proof.
  induction s as [|a s IH]; [reflexivity|]. intros H.
  destruct (occurs_tail _ _ _ H) as [E Hs].
  rewrite fillString_plain; auto; [|now right]. now rewrite IH.
Qed.

(** What one character prints as: itself, or an escape that starts with
    a backslash and holds no brace. *)
Lemma escape_shape a :
  exists h t, escape (String a EmptyString) = String h t
              /\ includes "{" t = false
              /\ ((h = a /\ t = EmptyString) \/ h = "\"%char).
Proof.
  each_char a; eexists _, _; (split; [reflexivity|]); (split; [reflexivity|]);
    first [left; split; reflexivity | right; reflexivity].
Qed.

Lemma verbatim_facts c :
  verbatim c = true ->
  c <> "\"%char /\ Ascii.eqb c dquote = false
  /\ escape (String c EmptyString) = String c EmptyString.
Proof.
  each_char c; intros H; vm_compute in H; try discriminate H;
    (split; [discriminate|]); split; reflexivity.
Qed.

(** The printed string starts with a text of characters carried as they
    are exactly when the string does. *)
Lemma stripPrefix_escape p : carried p = true -> forall s rest,
  stripPrefix p (escape s +++ String dquote rest)
  = match stripPrefix p s with
    | Some s' => Some (escape s' +++ String dquote rest)
    | None => None
    end.
Proof.
  unfold carried. induction p as [|c p IH]; intros Hp s rest; [reflexivity|].
  cbn [list_ascii_of_string forallb] in Hp. apply andb_true_iff in Hp.
  destruct Hp as [Hc Hp]. destruct (verbatim_facts c Hc) as (Hback & Hq & Hesc).
  destruct s as [|a s].
  - cbn [escape String.append stripPrefix]. now rewrite Hq.
  - rewrite escape_cons, append_assoc.
    destruct (escape_shape a) as (h & t & Ha & _ & Hshape). rewrite Ha.
    cbn [String.append stripPrefix].
    destruct Hshape as [[-> ->] | ->].
    + cbn [String.append]. destruct (Ascii.eqb c a); [now apply IH | reflexivity].
    + replace (Ascii.eqb c "\") with false
        by (symmetry; apply Ascii.eqb_neq; exact Hback).
      destruct (Ascii.eqb c a) eqn:E; [|reflexivity].
      apply Ascii.eqb_eq in E. subst a. rewrite Hesc in Ha.
      injection Ha as Hh _. congruence.
Qed.

Lemma replaceQuery_head before h X :
  stripPrefix placeholder (String h X) = None ->
  replaceQuery query before 0 (String h X)
  = String h (replaceQuery query (before +++ String h EmptyString) 0 X).
Proof.
  intros E. rewrite replaceQuery_cons.
  change (stripPrefix "{query}" (String h X)) with (stripPrefix placeholder (String h X)).
  now rewrite E.
Qed.

Lemma expand_fixed before after :
  tame query = true ->
  expand query placeholder before after
  = expand query placeholder EmptyString EmptyString
  /\ escape (expand query placeholder EmptyString EmptyString)
     = expand query placeholder EmptyString EmptyString.
Proof.
  intros Ht. destruct (tame_parts Ht) as [Hcar Hc]. split.
  - exact (@expand_contextFree placeholder before after EmptyString EmptyString
             _ query (Nat.le_refl _) Hc).
  - apply escape_carried.
    apply (@expand_carried placeholder eq_refl _ query (Nat.le_refl _) Hcar Hc).
Qed.

(** The body of a string literal and its closing quote: what comes out is
    the literal of the filled string. *)
Lemma scans_string : forall n s,
  (String.length s <= n)%nat -> fit query s ->
  scans query (escape s +++ String dquote EmptyString)
    (escape (fillString query s) +++ String dquote EmptyString).
Proof.
  induction n as [|n IH]; intros s Hn Hfit.
  - destruct s; [|cbn in Hn; lia]. apply scans_char. reflexivity.
  - destruct s as [|a s]; [apply scans_char; reflexivity|].
    cbn [String.length] in Hn.
    destruct (stripPrefix placeholder (String a s)) as [after|] eqn:E.
    + pose proof (stripPrefix_Some _ _ E) as Hs.
      pose proof (fit_found Hfit E) as Htame.
      assert (Hafter : fit query after) by (rewrite Hs in Hfit; now apply fit_suffix in Hfit).
      assert (Hlen : (String.length after <= n)%nat).
      { apply (f_equal String.length) in Hs. rewrite length_append in Hs.
        cbn in Hs. lia. }
      rewrite (fillString_found Hfit E). rewrite Hs.
      rewrite !escape_app.
      destruct (expand_fixed EmptyString EmptyString Htame) as [_ ->].
      replace (escape placeholder) with placeholder by reflexivity.
      intros before rest. rewrite ?append_assoc.
      change (placeholder +++ escape after +++ String dquote EmptyString +++ rest)
        with (String "{" ("query}" +++ escape after +++ String dquote rest)).
      rewrite replaceQuery_cons.
      replace (stripPrefix "{query}"
                 (String "{" ("query}" +++ escape after +++ String dquote rest)))
        with (Some (escape after +++ String dquote rest)) by reflexivity.
      destruct (expand_fixed before (escape after +++ String dquote rest) Htame)
        as [He _].
      change "{query}" with placeholder. rewrite He. f_equal.
      change 6%nat with (String.length "query}").
      rewrite replaceQuery_skip.
      pose proof (IH after Hlen Hafter (before +++ "{" +++ "query}") rest) as Hrec.
      rewrite ?append_assoc in Hrec. cbn [String.append] in Hrec |- *.
      rewrite ?append_assoc. cbn [String.append]. exact Hrec.
    + rewrite (fillString_plain Hfit E).
      rewrite (escape_cons a s), (escape_cons a (fillString query s)).
      destruct (escape_shape a) as (h & t & Ha & Ht & _).
      assert (Hnone : forall rest,
                stripPrefix placeholder
                  ((escape (String a EmptyString) +++ escape s)
                   +++ String dquote rest) = None).
      { intros rest. rewrite <- escape_cons.
        rewrite stripPrefix_escape by reflexivity. now rewrite E. }
      rewrite Ha in Hnone |- *.
      pose proof (IH s ltac:(lia) (fit_tail Hfit)) as Hrec.
      intros before rest. rewrite ?append_assoc. cbn [String.append].
      rewrite replaceQuery_head.
      2:{ specialize (Hnone rest). rewrite ?append_assoc in Hnone.
          cbn [String.append] in Hnone. exact Hnone. }
      f_equal.
      pose proof (@scans_app query t t _ _ (scans_plain query t Ht) Hrec
                    (before +++ String h EmptyString) rest) as Hall.
      rewrite ?append_assoc in Hall. cbn [String.append] in Hall.
      rewrite Hall. rewrite ?append_assoc. reflexivity.
Qed.

End Query.

Lemma scans_join query : forall ps ps',
  Forall2 (scans query) ps ps' -> scans query (join "," ps) (join "," ps').
Proof.
  induction 1 as [|p p' ps ps' Hp Hps IH]; [apply scans_nil|].
  destruct Hps as [|p2 p2' ps ps' Hp2 Hps].
  - exact Hp.
  - change (join "," (p :: p2 :: ps)) with (p +++ "," +++ join "," (p2 :: ps)).
    change (join "," (p' :: p2' :: ps')) with (p' +++ "," +++ join "," (p2' :: ps')).
    apply scans_app; [exact Hp|].
    apply scans_app; [now apply scans_char | exact IH].
Qed.

Lemma scans_braced query Y Y' :
  match Y with
  | String c _ => Ascii.eqb c "q" = false
  | EmptyString => False
  end ->
  scans query Y Y' -> scans query (String "{" Y) (String "{" Y').
Proof.
  intros Hc H before rest. destruct Y as [|c Y]; [destruct Hc|].
  cbn [String.append]. rewrite replaceQuery_cons.
  replace (stripPrefix "{query}" (String "{" (String c (Y +++ rest))))
    with (@None string)
    by (cbn [stripPrefix]; now rewrite Ascii.eqb_refl, (Ascii.eqb_sym "q" c), Hc).
  f_equal. change (String c (Y +++ rest)) with (String c Y +++ rest).
  rewrite H, ?append_assoc. reflexivity.
Qed.

Lemma uint_plain d : includes "{" (NilEmpty.string_of_uint d) = false.
Proof. induction d; cbn [NilEmpty.string_of_uint includes]; auto. Qed.

Lemma ofZ_plain n : includes "{" (ofZ n) = false.
Proof.
  unfold ofZ. destruct n as [|p|p]; cbn [Z.to_int NilZero.string_of_int];
    try reflexivity; unfold NilZero.string_of_uint;
    destruct (Pos.to_uint p) eqn:E; try reflexivity;
    rewrite <- E; cbn [includes]; rewrite uint_plain; reflexivity.
Qed.

Lemma printable_mapText f v :
  everywhere printable v = true -> everywhere printable (mapText f v) = true.
Proof.
  induction v as [| | | | |items IH|fields IH| | |proto fields IHp IHf] using value_nested;
    intros Hv; try exact Hv; try reflexivity.
  - apply ShapeFacts.everywhere_items in Hv. cbn [mapText everywhere printable andb].
    apply forallb_forall. intros y Hy. apply in_map_iff in Hy.
    destruct Hy as (x & <- & Hx).
    rewrite Forall_forall in IH, Hv. auto.
  - apply ShapeFacts.everywhere_fields in Hv. cbn [mapText everywhere printable andb].
    apply forallb_forall. intros y Hy. apply in_map_iff in Hy.
    destruct Hy as ([k x] & <- & Hx). cbn [snd].
    rewrite Forall_forall in IH, Hv. apply (IH (k, x)); auto; apply (Hv (k, x)); auto.
Qed.

Lemma printable_members fields :
  everywhere printable (VObj fields) = true ->
  forallb (fun kv => printable (snd kv)) fields = true.
Proof.
  intros Hv. apply forallb_forall. intros kv Hin.
  apply ShapeFacts.everywhere_here.
  exact (proj1 (Forall_forall _ _) (ShapeFacts.everywhere_fields _ _ Hv) kv Hin).
Qed.

Section Tree.
Variable query : string.

Lemma fits_fit s : fits query s = true -> fit query s.
Proof.
  unfold fits, fit. intros H. apply orb_true_iff in H.
  destruct H as [H|H]; [now left | right]. now apply negb_true_iff in H.
Qed.

(** The printed template with the query pasted in is the print of the
    template whose strings were filled one by one. *)
Lemma scans_text v :
  everywhere printable v = true -> allText (fits query) v = true ->
  scans query (text v) (text (mapText (fillString query) v)).
Proof.
  induction v as [| |b|n|s|items IH|fields IH| | |proto fields IHp IHf] using value_nested;
    intros Hv Hfit.
  - discriminate.
  - now apply scans_plain.
  - destruct b; now apply scans_plain.
  - apply scans_plain. apply ofZ_plain.
  - change (text (VStr s))
      with (String dquote EmptyString +++ (escape s +++ String dquote EmptyString)).
    change (text (mapText (fillString query) (VStr s)))
      with (String dquote EmptyString
            +++ (escape (fillString query s) +++ String dquote EmptyString)).
    apply scans_app; [now apply scans_char|].
    apply (@scans_string query _ s (Nat.le_refl _)). now apply fits_fit.
  - cbn [mapText]. rewrite !text_arr.
    change ("[" +++ ?X) with (String "[" EmptyString +++ X).
    apply scans_app; [now apply scans_char|].
    apply scans_app; [|now apply scans_char].
    apply scans_join. apply ShapeFacts.everywhere_items in Hv.
    cbn [allText] in Hfit.
    induction items as [|x tl IHtl]; [constructor|].
    inversion IH; subst. inversion Hv; subst.
    cbn [forallb] in Hfit. apply andb_true_iff in Hfit. destruct Hfit as [Hx Htl].
    cbn [map]. constructor; auto.
  - pose proof (printable_mapText (fillString query) _ Hv) as Hv'.
    cbn [mapText] in Hv' |- *.
    rewrite (text_obj _ (printable_members _ Hv)), (text_obj _ (printable_members _ Hv')).
    apply ShapeFacts.everywhere_fields in Hv. cbn [allText] in Hfit.
    assert (Hmembers : Forall2 (scans query) (map memberText fields)
              (map memberText
                 (map (fun kv => (fillString query (fst kv),
                                  mapText (fillString query) (snd kv))) fields))).
    { clear Hv'. induction fields as [|[k x] tl IHtl]; [constructor|].
      inversion IH; subst. inversion Hv; subst.
      cbn [forallb fst snd] in *. apply andb_true_iff in Hfit.
      destruct Hfit as [Hkx Htl]. apply andb_true_iff in Hkx. destruct Hkx as [Hk Hx].
      cbn [map]. constructor; auto.
      unfold memberText, quote. cbn [fst snd].
      change (String dquote (escape k +++ String dquote EmptyString) +++ ":" +++ text x)
        with (String dquote EmptyString
              +++ ((escape k +++ String dquote EmptyString) +++ (":" +++ text x))).
      change (String dquote (escape (fillString query k) +++ String dquote EmptyString)
              +++ ":" +++ text (mapText (fillString query) x))
        with (String dquote EmptyString
              +++ ((escape (fillString query k) +++ String dquote EmptyString)
                   +++ (":" +++ text (mapText (fillString query) x)))).
      apply scans_app; [now apply scans_char|].
      apply scans_app.
      - apply (@scans_string query _ k (Nat.le_refl _)). now apply fits_fit.
      - apply scans_app; [now apply scans_char | auto]. }
    destruct fields as [|[k x] tl].
    + now apply scans_open.
    + change ("{" +++ ?X) with (String "{" X).
      apply scans_braced.
      * destruct tl; reflexivity.
      * apply scans_app; [|now apply scans_char]. now apply scans_join.
  - discriminate.
  - discriminate.
  - discriminate.
Qed.

(** [substituteQuery] on a template whose strings fit the query. *)
Lemma substituteQuery_fit input :
  everywhere printable input = true -> allText (fits query) input = true ->
  substituteQuery input query
  = Normal (norm (mapText (fillString query) input)).
Proof.
  intros Hv Hfit. unfold substituteQuery.
  rewrite (stringify_text input (ShapeFacts.everywhere_here _ _ Hv)).
  pose proof (scans_text input Hv Hfit EmptyString EmptyString) as Hscan.
  rewrite !append_empty_r in Hscan. cbn [String.append] in Hscan.
  cbv zeta. rewrite Hscan.
  assert (Hparse : parse (text (mapText (fillString query) input))
                   = Read (norm (mapText (fillString query) input)) EmptyString).
  { pose proof (@parseValue_text
                  (S (String.length (text (mapText (fillString query) input))))
                  (mapText (fillString query) input) EmptyString
                  (printable_mapText _ _ Hv) (Nat.lt_succ_diag_r _) I) as H.
    rewrite append_empty_r in H. unfold parse. rewrite H. reflexivity. }
  now rewrite Hparse.
Qed.

End Tree.

Lemma allText_weaken (p p' : string -> bool) v :
  (forall s, p s = true -> p' s = true) ->
  allText p v = true -> allText p' v = true.
Proof.
  intros Himp.
  induction v as [| | | | |items IH|fields IH| | |proto fields IHp IHf] using value_nested;
    cbn [allText]; auto.
  - intros H. apply forallb_forall. intros x Hx.
    rewrite Forall_forall in IH. apply IH; auto.
    exact (proj1 (forallb_forall _ _) H x Hx).
  - intros H. apply forallb_forall. intros [k x] Hx.
    rewrite Forall_forall in IH.
    pose proof (proj1 (forallb_forall _ _) H (k, x) Hx) as Hkx. cbn [fst snd] in *.
    apply andb_true_iff in Hkx. destruct Hkx as [Hk Hv].
    rewrite (Himp k Hk). apply (IH (k, x)); auto.
Qed.

Lemma allText_true v : allText (fun _ => true) v = true.
Proof.
  induction v as [| | | | |items IH|fields IH| | |proto fields IHp IHf] using value_nested;
    cbn [allText]; auto.
  - apply forallb_forall. rewrite Forall_forall in IH. auto.
  - apply forallb_forall. rewrite Forall_forall in IH. intros [k x] Hx.
    exact (IH (k, x) Hx).
Qed.

Lemma mapText_same f v :
  allText (fun s => String.eqb (f s) s) v = true -> mapText f v = v.
Proof.
  induction v as [| | | | |items IH|fields IH| | |proto fields IHp IHf] using value_nested;
    cbn [allText mapText]; auto.
  - intros H. apply String.eqb_eq in H. now rewrite H.
  - intros H. f_equal. induction items as [|x tl IHtl]; [reflexivity|].
    inversion IH; subst. cbn [forallb] in H. apply andb_true_iff in H.
    destruct H as [Hx Htl]. cbn [map]. f_equal; auto.
  - intros H. f_equal. induction fields as [|[k x] tl IHtl]; [reflexivity|].
    inversion IH; subst. cbn [forallb fst snd] in *. apply andb_true_iff in H.
    destruct H as [Hkx Htl]. apply andb_true_iff in Hkx. destruct Hkx as [Hk Hx].
    apply String.eqb_eq in Hk. cbn [map fst snd]. rewrite Hk. f_equal; auto.
    f_equal. auto.
Qed.

(** X15: for a tame query, substituting in the printed template and reading it
    back is substituting in every string and every key of the template. *)
Theorem tame_query_fills_every_string (input : value) (query : string) :
  everywhere printable input = true -> tame query = true ->
  substituteQuery input query
  = Normal (norm (mapText (fillString query) input)).
Proof.
  intros Hv Ht. apply substituteQuery_fit; auto.
  apply (@allText_weaken (fun _ => true)); [|apply allText_true].
  intros s _. unfold fits. now rewrite Ht.
Qed.

(** X16: a template that does not hold the placeholder comes back as it is,
    whatever the query. *)
Theorem template_without_placeholder_is_kept (input : value) (query : string) :
  everywhere printable input = true -> everywhere enumerated input = true ->
  allText (fun s => negb (occurs "{query}" s)) input = true ->
  substituteQuery input query = Normal input.
Proof.
  intros Hv He Hfree. rewrite substituteQuery_fit; auto.
  - rewrite mapText_same; [now rewrite ShapeFacts.norm_enumerated|].
    eapply allText_weaken; [|exact Hfree]. intros s Hs. cbv beta.
    apply negb_true_iff in Hs. rewrite no_placeholder_kept by exact Hs.
    apply String.eqb_refl.
  - eapply allText_weaken; [|exact Hfree]. intros s Hs. cbv beta in *.
    unfold fits. rewrite Hs. apply orb_true_r.
Qed.

End ReplaceFacts.

Module InputFacts.
Import Obj ObjFacts Shape ShapeFacts.

(** The loop of [resolveInput] over the members of an object. *)
Definition fill (context : Obj.t value)
    : list (string * value) -> value * Obj.t value -> outcome value :=
  fix members (l : list (string * value)) (result : value * Obj.t value)
      : outcome value :=
    match l with
    | [] => Ok (built result)
    | (k, v) :: tl =>
        match resolveInput v context with
        | Ok v' => members tl (assign k v' result)
        | Throw e => Throw e
        end
    end.

Lemma resolveInput_object fields context :
  resolveInput (VObj fields) context
  = match refOf fields with
    | Some path => resolveRef path context
    | None => fill context fields emptyObject
    end.
Proof. reflexivity. Qed.

Lemma assign_plain k v own :
  String.eqb k "__proto__" = false ->
  assign k v (VProto OfObject, own) = (VProto OfObject, set k v own).
Proof. intros H. unfold assign. now rewrite H. Qed.

(** Under the key [__proto__] the copy is an assignment to the accessor of
    [Object.prototype]: a number is dropped, an object becomes the prototype
    of the result. *)
Example proto_key_is_not_copied (context : Obj.t value) :
  resolveInput (VObj [("__proto__", VNum 1); ("a", VNum 2)]) context
  = Ok (VObj [("a", VNum 2)])
  /\ resolveInput (VObj [("__proto__", VObj [("b", VNum 1)]); ("a", VNum 2)])
       context
     = Ok (VOver (VObj [("b", VNum 1)]) [("a", VNum 2)]).
Proof. split; reflexivity. Qed.

(** X14: an input that is data, that holds no reference and that has no key
    [__proto__] is handed on as it is, whatever the context holds. *)
Theorem input_without_references_is_kept (obj : value) (context : Obj.t value) :
  everywhere isData obj = true ->
  everywhere enumerated obj = true ->
  everywhere plainKeys obj = true ->
  everywhere (fun v => negb (reference v)) obj = true ->
  resolveInput obj context = Ok obj.
Proof.
  induction obj as [| | | | |items IH|fields IH| | |proto fields IHp IHf]
    using value_nested;
    intros Hdata He Hk Hr; try reflexivity; try discriminate.
  - apply everywhere_items in Hdata. apply everywhere_items in He.
    apply everywhere_items in Hk. apply everywhere_items in Hr.
    cbn [resolveInput].
    assert (Hloop : forall acc,
      (fix elems (l : list value) (acc : list value) {struct l} : outcome value :=
          match l with
          | [] => Ok (VArr acc)
          | v :: tl =>
              match resolveInput v context with
              | Ok v' => elems tl (acc ++ [v'])
              | Throw e => Throw e
              end
          end) items acc
      = Ok (VArr (acc ++ items))).
    { induction items as [|x tl IHtl]; intros acc.
      - now rewrite app_nil_r.
      - inversion IH; subst. inversion Hdata; subst. inversion He; subst.
        inversion Hk; subst. inversion Hr; subst.
        rewrite H1 by assumption. rewrite IHtl by assumption.
        now rewrite <- app_assoc. }
    now rewrite Hloop.
  - pose proof (everywhere_here _ _ He) as Hhere. cbn [enumerated] in Hhere.
    apply andb_true_iff in Hhere. destruct Hhere as [Hd Ho].
    pose proof (everywhere_here _ _ Hr) as Hnot. cbn [reference] in Hnot.
    pose proof (everywhere_here _ _ Hk) as Hkeys. cbn [plainKeys] in Hkeys.
    apply everywhere_fields in Hdata. apply everywhere_fields in He.
    apply everywhere_fields in Hk. apply everywhere_fields in Hr.
    rewrite resolveInput_object. destruct (refOf fields); [discriminate|].
    assert (Hloop : forall acc,
      fill context fields (VProto OfObject, acc)
      = Ok (VObj (fold_left (fun o kv => set (fst kv) (snd kv) o) fields acc))).
    { clear Hd Ho Hnot.
      induction fields as [|[k x] tl IHtl]; intros acc; [reflexivity|].
      inversion IH; subst. inversion Hdata; subst. inversion He; subst.
      inversion Hk; subst. inversion Hr; subst.
      cbn [forallb fst] in Hkeys. apply andb_true_iff in Hkeys.
      destruct Hkeys as [Hkey Hkeys]. apply negb_true_iff in Hkey.
      cbn [snd] in *. cbn [fill]. rewrite H1 by assumption.
      rewrite (@assign_plain k x _ Hkey). now apply IHtl. }
    unfold emptyObject. rewrite Hloop.
    rewrite (@fold_set_next value value (fun x => x)) by (cbn [keys map List.app]; assumption).
    cbn [List.app]. do 2 f_equal. clear. induction fields as [|[k x] tl IHtl]; [reflexivity|].
    cbn [map fst snd]. now rewrite IHtl.
Qed.

End InputFacts.

Module DagFacts.
Import Obj Topo Graph Degrees ObjFacts TopoFacts Dag Drawing.

Lemma first_loop nodes : forall byId indeg,
  fold_left (fun st n => (remember n (fst st), ensure (id n) (snd st)))
    nodes (byId, indeg)
  = (table nodes byId, initIds nodes indeg).
Proof.
  induction nodes as [|n nodes IH]; intros byId indeg; simpl; [reflexivity|].
  apply IH.
Qed.

Lemma topoOrder_unfold nodes :
  topoOrder nodes =
  let indeg := counts nodes (initIds nodes []) in
  let queue := select (fun d => d =? 0) indeg in
  drainNodes (List.length queue + potential indeg) nodes (table nodes [])
    indeg queue [].
Proof. unfold topoOrder. rewrite first_loop. reflexivity. Qed.

Lemma table_get nodes : forall byId x n,
  get x (table nodes byId) = Some n ->
  (In n nodes /\ id n = x) \/ get x byId = Some n.
Proof.
  induction nodes as [|a nodes IH]; intros byId x n; simpl; [auto|].
  intros H. apply IH in H. destruct H as [[Hin He]|H]; [left; auto|].
  unfold remember in H. destruct (String.eqb (id a) "__proto__"); [now right|].
  rewrite get_set in H. destruct (String.eqb (id a) x) eqn:E.
  - apply String.eqb_eq in E. injection H as <-. left. auto.
  - right. exact H.
Qed.

Lemma table_has nodes : forall byId x,
  x <> "__proto__" ->
  In x (ids nodes) \/ has x byId = true -> has x (table nodes byId) = true.
Proof.
  induction nodes as [|a nodes IH]; intros byId x Hx; simpl.
  - intros [[]|H]. exact H.
  - intros H. apply IH; [exact Hx|]. unfold remember.
    destruct H as [[<-|H]|H]; auto.
    + right. replace (String.eqb (id a) "__proto__") with false
        by (symmetry; now apply String.eqb_neq).
      unfold has. now rewrite get_set_same.
    + right. destruct (String.eqb (id a) "__proto__"); [exact H|].
      unfold has in *. rewrite get_set.
      destruct (String.eqb (id a) x); auto.
Qed.

(** Every identifier that is not an inherited name has its node in the
    table. *)
Lemma table_nodes nodes x :
  In x (ids nodes) -> inherited x = false ->
  exists n, get x (table nodes []) = Some n /\ In n nodes /\ id n = x.
Proof.
  intros Hx Hown.
  assert (Hne : x <> "__proto__") by (intros ->; discriminate).
  pose proof (@table_has nodes [] x Hne (or_introl Hx)) as Hh.
  unfold has in Hh. destruct (get x (table nodes [])) as [n|] eqn:E; [|discriminate].
  exists n. split; [reflexivity|].
  apply table_get in E. destruct E as [E|E]; [exact E | discriminate].
Qed.

Lemma countOnly_spec n m :
  let m' := countOnly n m in
  (forall x, val m' x =
             val m x + (if String.eqb (id n) x && negb (inherited x)
                        then Z.of_nat (List.length (deps n)) else 0))
  /\ (forall x, In x (keys m') <->
                In x (keys m)
                \/ (deps n <> [] /\ x = id n /\ inherited x = false))
  /\ (NoDup (keys m) -> NoDup (keys m')).
Proof.
  unfold countOnly. generalize (deps n) as ds. intros ds. revert m.
  induction ds as [|d ds IH]; intros m; simpl.
  - split; [|split]; auto.
    + intros x. destruct (String.eqb (id n) x && negb (inherited x)); lia.
    + intros x. split; [tauto|]. intros [H|[H _]]; tauto.
  - destruct (IH (bump (id n) m)) as (Hv & Hk & Hn).
    split; [|split].
    + intros x. rewrite Hv, val_bump.
      destruct (String.eqb (id n) x && negb (inherited x)); lia.
    + intros x. rewrite Hk, keys_bump. split.
      * intros [[[-> Hx]|H]|[H [-> Hx]]]; auto; right; split; auto; discriminate.
      * intros [H|[_ [-> Hx]]]; auto.
    + intros H. apply Hn, NoDup_bump, H.
Qed.

Lemma counts_spec nodes : forall m,
  let m' := counts nodes m in
  (forall x, val m' x = val m x + declared nodes x)
  /\ (forall x, In x (keys m') <->
                In x (keys m)
                \/ (inherited x = false
                    /\ exists n, In n nodes /\ deps n <> [] /\ x = id n))
  /\ (NoDup (keys m) -> NoDup (keys m')).
Proof.
  unfold counts. induction nodes as [|n nodes IH]; intros m; simpl.
  - split; [|split]; auto.
    + intros x. lia.
    + intros x. split; [tauto|]. intros [H|[_ [n [[] _]]]]. exact H.
  - destruct (IH (countOnly n m)) as (Hv & Hk & Hn).
    destruct (countOnly_spec n m) as (Hv1 & Hk1 & Hn1).
    split; [|split].
    + intros x. rewrite Hv, Hv1. lia.
    + intros x. rewrite Hk, Hk1. split.
      * intros [[H|(H & -> & Hx)]|[Hx [n' [Hin H]]]]; auto.
        -- right. split; auto. exists n. auto.
        -- right. split; auto. exists n'. tauto.
      * intros [H|[Hx [n' [[->|Hin] H]]]]; auto.
        -- left. right. tauto.
        -- right. split; auto. exists n'. auto.
    + intros H. apply Hn, Hn1, H.
Qed.

(** The map the drawing starts from: one entry per node id that is not an
    inherited name, holding the declared in-degree. *)
Lemma drawn_degrees nodes :
  let m := counts nodes (initIds nodes []) in
  (forall x, val m x = declared nodes x)
  /\ (forall x, In x (keys m) <-> inherited x = false /\ In x (ids nodes))
  /\ NoDup (keys m).
Proof.
  intros m. destruct (counts_spec nodes (initIds nodes [])) as (Hv & Hk & Hn).
  destruct (initIds_spec nodes []) as (Hv0 & Hk0 & Hn0).
  fold m in Hv, Hk, Hn. split; [|split].
  - intros x. rewrite Hv, Hv0. reflexivity.
  - intros x. rewrite Hk, Hk0. simpl. split.
    + intros [[[]|H]|(Hx & n & Hin & _ & ->)]; auto. split; auto. now apply in_map.
    + auto.
  - apply Hn, Hn0. constructor.
Qed.

Lemma drawn_Inv nodes :
  let m := counts nodes (initIds nodes []) in
  Inv nodes (keys m) m (select (fun d => d =? 0) m) [].
Proof.
  intros m. destruct (drawn_degrees nodes) as (Hv & Hk & Hnd). fold m in Hv, Hk, Hnd.
  constructor.
  - reflexivity.
  - intros x Hx. now apply Hk in Hx.
  - intros x. rewrite Hv, consumed_nil. lia.
  - simpl. now apply NoDup_select.
  - intros x. simpl. rewrite In_select by exact Hnd.
    pose proof (declared_nonneg nodes x) as Hpos. rewrite <- Hv in Hpos.
    split.
    + intros (d & Hget & Hz). apply Z.eqb_eq in Hz. subst d. split.
      * apply get_In. unfold has. now rewrite Hget.
      * unfold val. rewrite Hget. lia.
    + intros [HK Hle]. apply get_In in HK. unfold has in HK.
      unfold val in *. destruct (get x m) as [d|]; [|discriminate].
      exists d. split; auto. apply Z.eqb_eq. lia.
  - intros j y d Hj. destruct j; discriminate.
Qed.

Lemma relax_keys cur nodes : forall m q,
  keys (fst (relax cur nodes m q)) = keys m.
Proof.
  induction nodes as [|n nodes IH]; intros m q; simpl; [reflexivity|].
  destruct (includes cur (deps n)); [|apply IH].
  destruct (get (id n) m) as [d|] eqn:E; [|apply IH].
  assert (Hk : keys (set (id n) (d - 1) m) = keys m)
    by (apply keys_set_has; unfold has; now rewrite E).
  destruct (d - 1 =? 0); rewrite IH; exact Hk.
Qed.

(** Whatever a pass queues is the identifier of a node and a key of the
    map. *)
Lemma relax_queue cur nodes : forall m q x,
  In x (snd (relax cur nodes m q)) ->
  In x q \/ (In x (ids nodes) /\ In x (keys m)).
Proof.
  induction nodes as [|n nodes IH]; intros m q x; simpl; [auto|].
  assert (Hgo : forall m' q', keys m' = keys m ->
                  In x (snd (relax cur nodes m' q')) ->
                  (In x q' -> In x q \/ (id n = x /\ In x (keys m))) ->
                  In x q \/ ((id n = x \/ In x (ids nodes)) /\ In x (keys m))).
  { intros m' q' Hk H Hq. apply IH in H. rewrite Hk in H.
    destruct H as [H|H]; [|tauto]. apply Hq in H. tauto. }
  destruct (includes cur (deps n)); [|intros H; eapply Hgo; eauto].
  destruct (get (id n) m) as [d|] eqn:E; [|intros H; eapply Hgo; eauto].
  assert (Hk : keys (set (id n) (d - 1) m) = keys m)
    by (apply keys_set_has; unfold has; now rewrite E).
  destruct (d - 1 =? 0); intros H; eapply Hgo; eauto.
  intros Hx. apply in_app_or in Hx. destruct Hx as [Hx|[Hx|[]]]; auto.
  right. split; [exact Hx|]. subst x. apply get_In. unfold has. now rewrite E.
Qed.

(** The drawing walks the same queue as the sequencer and pushes, for each
    identifier it takes, the node the table holds for it. *)
Lemma drainNodes_drain nodes byId :
  (forall x, In x (ids nodes) -> inherited x = false ->
     exists n, get x byId = Some n /\ In n nodes /\ id n = x) ->
  forall fuel m q drawn,
    (forall x, In x (keys m) -> inherited x = false) ->
    (forall x, In x q -> In x (ids nodes) /\ inherited x = false) ->
    Forall (fun n => In n nodes) drawn ->
    let out := drainNodes fuel nodes byId m q drawn in
    map id out = snd (drain fuel nodes m q (map id drawn))
    /\ Forall (fun n => In n nodes) out.
Proof.
  intros Hby. induction fuel as [|fuel IH]; intros m q drawn Hm Hq Hd; simpl.
  - auto.
  - destruct q as [|cur rest]; simpl; [auto|].
    destruct (Hq cur (or_introl eq_refl)) as [Hcur Hown].
    destruct (Hby cur Hcur Hown) as (n & Hget & Hin & Hid).
    unfold draw. rewrite Hget.
    pose proof (@relax_queue cur nodes m rest) as Hr.
    pose proof (relax_keys cur nodes m rest) as Hk.
    destruct (relax cur nodes m rest) as [m' q']. simpl in Hr, Hk.
    specialize (IH m' q' (drawn ++ [n])).
    rewrite map_app in IH. simpl in IH. rewrite Hid in IH. apply IH.
    + intros x Hx. apply Hm. now rewrite <- Hk.
    + intros x Hx. apply Hr in Hx. destruct Hx as [Hx|[Hx Hkx]]; auto.
      apply Hq. now right.
    + apply Forall_app. split; auto.
Qed.

Lemma drawn_ids nodes n : In n nodes -> inherited (id n) = false ->
  In (id n) (keys (counts nodes (initIds nodes []))).
Proof.
  intros Hn Hown. apply (proj1 (proj2 (drawn_degrees nodes))).
  split; [exact Hown | now apply in_map].
Qed.

(** The drawing in one statement: the identifiers of the drawn nodes are
    what the loop of the sequencer emits from the in-degrees of the
    drawing, the loop ends with an empty queue, and its invariant holds. *)
Lemma topoOrder_spec nodes :
  let m := counts nodes (initIds nodes []) in
  Forall (fun n => In n nodes) (topoOrder nodes)
  /\ exists m', Inv nodes (keys m) m' [] (map id (topoOrder nodes)).
Proof.
  intros m. rewrite topoOrder_unfold. fold m. cbv zeta.
  set (q := select (fun d => d =? 0) m).
  set (fuel := (List.length q + potential m)%nat).
  destruct (@drainNodes_drain nodes (table nodes []) (@table_nodes nodes)
              fuel m q []) as [Hmap Hall].
  { intros x Hx. now apply (proj1 (proj2 (drawn_degrees nodes))) in Hx. }
  { intros x Hx. apply select_keys in Hx.
    apply (proj1 (proj2 (drawn_degrees nodes))) in Hx. tauto. }
  { constructor. }
  split; [exact Hall|]. rewrite Hmap. simpl.
  pose proof (@drain_Inv nodes (keys m) (@drawn_ids nodes) fuel m q []
                (drawn_Inv nodes)) as HI.
  pose proof (@drain_empties nodes fuel m q [] (Nat.le_refl _)) as He.
  destruct (drain fuel nodes m q []) as [[m' q'] o']. simpl in *. subst q'.
  exists m'. exact HI.
Qed.

(** When every [dependsOn] entry names a node, the second loop of the
    sequencer stores what the second loop of the drawing stores. *)
Lemma countDeps_countOnly n m :
  In (id n) (keys m) \/ inherited (id n) = true ->
  (forall d, In d (deps n) -> In d (keys m) \/ inherited d = true) ->
  countDeps n m = countOnly n m /\ keys (countOnly n m) = keys m.
Proof.
  unfold countDeps, countOnly. generalize (deps n) as ds. intros ds. revert m.
  induction ds as [|d ds IH]; intros m Hid Hds; simpl; [auto|].
  assert (Hk : keys (bump (id n) m) = keys m) by now apply bump_keeps_keys.
  rewrite ensure_keeps_keys by (rewrite Hk; apply Hds; now left).
  rewrite <- Hk. apply IH; rewrite Hk; auto. intros d' Hd'. apply Hds. now right.
Qed.

Lemma countAll_counts nodes : forall m,
  (forall n, In n nodes -> In (id n) (keys m) \/ inherited (id n) = true) ->
  (forall n d, In n nodes -> In d (deps n) ->
     In d (keys m) \/ inherited d = true) ->
  countAll nodes m = counts nodes m.
Proof.
  unfold countAll, counts.
  induction nodes as [|n nodes IH]; intros m Hid Hds; simpl; [reflexivity|].
  destruct (@countDeps_countOnly n m) as [He Hk].
  { apply Hid. now left. }
  { intros d Hd. apply (Hds n d); auto. now left. }
  rewrite He. apply IH.
  - intros n' Hn'. rewrite Hk. apply Hid. now right.
  - intros n' d Hn' Hd. rewrite Hk. apply (Hds n' d); auto. now right.
Qed.

(** X5: the graph is drawn without repetition, it draws nodes of the
    workflow only, and a node is drawn after every node it depends on:
    a node one of whose [dependsOn] entries names no node of the workflow
    is not drawn at all. *)
Theorem drawing_respects_dependencies (nodes : list WorkflowNode) :
  let drawn := map id (topoOrder nodes) in
  NoDup drawn
  /\ (forall n, In n (topoOrder nodes) -> In n nodes)
  /\ (forall x d, In x drawn -> depends nodes x d -> precedes drawn d x)
  /\ (forall n d, In n nodes -> In d (deps n) -> ~ In d (ids nodes) ->
        ~ In (id n) drawn).
Proof.
  intros drawn. destruct (topoOrder_spec nodes) as (Hall & m' & HI).
  fold drawn in HI.
  assert (Hnd : NoDup drawn).
  { pose proof (inv_nodup HI) as H. now rewrite app_nil_r in H. }
  assert (Hbefore : forall x d, In x drawn -> depends nodes x d -> precedes drawn d x).
  { intros x d Hx Hd. apply In_nth_error in Hx. destruct Hx as [j Hj].
    destruct (inv_before HI _ Hj Hd) as (i & Hij & Hi).
    exists i, j. auto. }
  split; [exact Hnd|]. split; [|split; [exact Hbefore|]].
  - intros n Hn. rewrite Forall_forall in Hall. auto.
  - intros n d Hn Hd Hph Hx.
    assert (Hdep : depends nodes (id n) d) by (exists n; auto).
    apply Hbefore in Hdep; [|exact Hx]. apply precedes_In_l in Hdep.
    unfold drawn in Hdep. apply in_map_iff in Hdep.
    destruct Hdep as (n' & <- & Hn'). apply Hph.
    rewrite Forall_forall in Hall. apply in_map. auto.
Qed.

(** X6: when every [dependsOn] entry names a node of the workflow, the graph is
    drawn in the order in which the engine runs the nodes. *)
Theorem drawing_matches_execution_order (nodes : list WorkflowNode) :
  closed nodes -> map id (topoOrder nodes) = order (topoSort nodes).
Proof.
  intros Hc. rewrite topoOrder_unfold. cbv zeta. unfold topoSort, indegrees.
  destruct (initIds_spec nodes []) as (_ & Hk0 & _).
  rewrite countAll_counts.
  - set (m := counts nodes (initIds nodes [])).
    set (q := select (fun d => d =? 0) m).
    set (fuel := (List.length q + potential m)%nat).
    destruct (@drainNodes_drain nodes (table nodes []) (@table_nodes nodes)
                fuel m q []) as [Hmap _].
    { intros x Hx. now apply (proj1 (proj2 (drawn_degrees nodes))) in Hx. }
    { intros x Hx. apply select_keys in Hx.
      apply (proj1 (proj2 (drawn_degrees nodes))) in Hx. tauto. }
    { constructor. }
    rewrite Hmap. simpl.
    destruct (drain fuel nodes m q []) as [[m' q'] o']. reflexivity.
  - intros n Hn. destruct (inherited (id n)) eqn:Hown; [now right|].
    left. apply Hk0. right. split; [exact Hown | now apply in_map].
  - intros n d Hn Hd. destruct (inherited d) eqn:Hown; [now right|].
    left. apply Hk0. right. split; [exact Hown | exact (Hc n d Hn Hd)].
Qed.

End DagFacts.

(** ** The plugins *)

Module PluginFacts.
Import Registry Trace EngineFacts.

Lemma truthy_defined x : truthy x = true -> x <> VUndefined.
Proof. intros H ->. discriminate. Qed.

Lemma inherited_In ref : inherited ref = true -> In ref objectPrototype.
Proof. unfold inherited. apply TopoFacts.includes_In. Qed.

Section Handlers.

Variable World : Type.
Variable URL : Type.
Variable parseURL : string -> outcome URL.
Variable setParam : string -> string -> URL -> URL.
Variable href : URL -> string.
Variable fetch : string -> value -> World -> outcome HttpResponse.t * World.
Variable parseXML : string -> outcome value.
Variable clock : nat -> Z.

Let http := httpGetHandler parseURL setParam href fetch.
Let xml := xml2jsonHandler (World := World) parseXML.

Lemma http_settles node input w out w' :
  http node input w = (Ok out, w') ->
  (exists s b, out = VObj [("status", VNum s); ("body", b)])
  /\ exists url, readProp "url" input = Ok url /\ url <> VUndefined.
Proof.
  unfold http, httpGetHandler.
  destruct (readProp "url" input) as [url|] eqn:Hurl; [|discriminate].
  destruct (truthy url) eqn:Ht; cbn [negb]; [|discriminate].
  intros H. split.
  - destruct (readProp "params" input); [|discriminate].
    destruct (readProp "headers" input); [|discriminate].
    destruct (toStr url); [|discriminate].
    destruct (parseURL _); [|discriminate].
    destruct (if truthy _ then _ else _); [|discriminate].
    destruct (fetch _ _ _) as [[resp|] w1]; [|discriminate].
    unfold readResponse in H. destruct (occurs _ _).
    + destruct (HttpResponse.json resp); [|discriminate].
      injection H as <- _. eauto.
    + destruct (HttpResponse.text resp); [|discriminate].
      injection H as <- _. eauto.
  - exists url. split; [reflexivity | now apply truthy_defined].
Qed.

Lemma xml_settles node input w out w' :
  xml node input w = (Ok out, w') ->
  (exists j, out = VObj [("json", j)]) /\ w' = w
  /\ exists x, readProp "xml" input = Ok x /\ x <> VUndefined.
Proof.
  unfold xml, xml2jsonHandler.
  destruct (readProp "xml" input) as [x|] eqn:Hx; [|discriminate].
  destruct x; try discriminate.
  destruct (String.eqb s EmptyString); [discriminate|].
  destruct (parseXML s); [|discriminate].
  intros [= <- <-]. split; [eauto|]. split; [reflexivity|].
  eexists. split; [reflexivity | discriminate].
Qed.

Lemma jq_settles node input (w : World) out w' :
  jqHandler node input w = (Ok out, w') ->
  (exists res, out = VObj [("result", res)]) /\ w' = w
  /\ exists x, readProp "expression" input = Ok x /\ x <> VUndefined.
Proof.
  unfold jqHandler, jqBody.
  destruct (readProp "data" input); [|discriminate].
  destruct (readProp "expression" input) as [x|] eqn:Hx; [|discriminate].
  destruct x; try discriminate.
  destruct (jqEval _ _); [|discriminate].
  intros [= <- <-]. split; [eauto|]. split; [reflexivity|].
  eexists. split; [reflexivity | discriminate].
Qed.

(** X21: what the table of handlers gives for an action is a plugin with an
    entry in the registry, or, for a name that every object inherits and
    that the registry has no entry for, the inherited member.  Whatever a
    plugin returns has the properties the output schema of its entry
    requires.  A plugin that returns found every required input defined
    when it read the input, the [data] of the jq transform apart, which is
    not checked; and only the HTTP plugin acts on the world. *)
Theorem handlers_meet_the_registry
    (ref : string) (handler : ActionHandler World) :
  ACTION_HANDLERS http xml ref = Some handler ->
  (inherited ref = true
   /\ Obj.get ref Catalog.REGISTRY = None
   /\ handler = inheritedHandler ref)
  \/ exists entry,
       Obj.get ref Catalog.REGISTRY = Some entry
       /\ forall node input w out w',
            handler node input w = (Ok out, w') ->
            meets (Catalog.Entry.outputSchema entry) out = true
            /\ (forall k, In k (required (Catalog.Entry.inputSchema entry)) ->
                  k <> "data" ->
                  exists x, readProp k input = Ok x /\ x <> VUndefined)
            /\ (ref <> "plugin.http.get" -> w' = w).
Proof.
  unfold ACTION_HANDLERS.
  destruct (String.eqb ref "plugin.http.get") eqn:E1;
    [|destruct (String.eqb ref "plugin.transform.xml2json") eqn:E2;
      [|destruct (String.eqb ref "plugin.transform.jq") eqn:E3;
        [|destruct (inherited ref) eqn:E4; [|discriminate]]]];
    intros [= <-].
  - right. apply String.eqb_eq in E1. subst ref. eexists. split; [reflexivity|].
    intros node input w out w' H. apply http_settles in H.
    destruct H as [(s & b & ->) Hu].
    split; [reflexivity|]. split.
    + intros k [<-|[]] _. exact Hu.
    + intros Hne. now elim Hne.
  - right. apply String.eqb_eq in E2. subst ref. eexists. split; [reflexivity|].
    intros node input w out w' H. apply xml_settles in H.
    destruct H as [(j & ->) [-> Hu]].
    split; [reflexivity|]. split; [|reflexivity].
    intros k [<-|[]] _. exact Hu.
  - right. apply String.eqb_eq in E3. subst ref. eexists. split; [reflexivity|].
    intros node input w out w' H. apply jq_settles in H.
    destruct H as [(j & ->) [-> Hu]].
    split; [reflexivity|]. split; [|reflexivity].
    intros k [<-|[<-|[]]] Hk; [now elim Hk | exact Hu].
  - left. split; [reflexivity|]. split; [|reflexivity].
    apply inherited_In in E4. unfold objectPrototype in E4. cbn [In] in E4.
    repeat (destruct E4 as [<-|E4]; [reflexivity|]). destruct E4.
Qed.

(** *** Rejected inputs *)

(** A handler that rejects the input whatever the world, and leaves the
    world alone, is still called once per attempt. *)
Lemma attempts_rejected (handler : ActionHandler World) nodeId node input e
    maxAttempts backoffMs :
  (forall w, handler node input w = (Throw e, w)) ->
  forall remaining attempt lastError (r : Run World),
    (1 <= remaining)%nat ->
    exists r',
      attempts clock remaining attempt handler nodeId node input
        maxAttempts backoffMs lastError r = (false, e, r')
      /\ world r' = world r.
Proof.
  intros Hrej. induction remaining as [|n IH]; intros attempt lastError r Hn; [lia|].
  cbn [attempts]. unfold now, invoke. cbn [world ticks effects].
  rewrite Hrej.
  destruct n as [|n].
  - cbn [attempts]. eexists. split; [reflexivity|].
    unfold caught. destruct (attempt <? maxAttempts); reflexivity.
  - match goal with
    | |- exists r', attempts _ _ _ _ _ _ _ _ _ _ ?r0 = _ /\ _ =>
        destruct (IH (attempt + 1) e r0 ltac:(lia)) as (r' & Hr & Hw)
    end.
    exists r'. split; [exact Hr|]. rewrite Hw.
    unfold caught. destruct (attempt <? maxAttempts); reflexivity.
Qed.

(** X22: a node of the HTTP plugin whose resolved [url] is missing or empty
    never reaches the network: the handler rejects the input at every
    attempt, the attempts and the pauses between them are all spent, and
    the run fails with the message of the check. *)
Theorem empty_url_never_reaches_the_network
    (nodeMap : Obj.t WorkflowNode) (query : string) (startTime : Z)
    (nodeId : string) (node : WorkflowNode)
    (substituted resolvedInput url : value) (r : Run World) :
  Obj.get nodeId nodeMap = Some node ->
  actionRef node = "plugin.http.get" ->
  substituteQuery (input node) query = Normal substituted ->
  resolveInput substituted (context r) = Ok resolvedInput ->
  readProp "url" resolvedInput = Ok url -> truthy url = false ->
  let limit := match retry node with Some p => maxAttempts p | None => 1 end in
  let pause := match retry node with Some p => backoffMs p | None => 0 end in
  1 <= limit ->
  exists res r',
    runNode http xml clock nodeMap query startTime nodeId r = Returned res r'
    /\ ExecutionResult.success res = false
    /\ ExecutionResult.error res = Some "'url' must be a non-empty string"
    /\ world r' = world r
    /\ effects r'
       = effects r ++ rounds (Invoked "plugin.http.get" nodeId resolvedInput)
                        pause (Z.to_nat limit).
Proof.
  intros Hget Href Hsub Hres Hurl Hfalsy limit pause Hlimit.
  assert (Hrej : forall w, http node resolvedInput w
                           = (Throw "'url' must be a non-empty string", w)).
  { intros w. unfold http, httpGetHandler. now rewrite Hurl, Hfalsy. }
  unfold runNode. rewrite Hget. unfold ACTION_HANDLERS. rewrite Href.
  cbn [String.eqb Ascii.eqb Bool.eqb andb].
  rewrite Hsub.
  set (r1 := pushLog clock running _ _ r).
  assert (Hc1 : context r1 = context r).
  { unfold r1, pushLog, timestamp, now. reflexivity. }
  rewrite Hc1, Hres. fold limit pause.
  destruct (@attempts_rejected http nodeId node resolvedInput _ limit pause Hrej
              (Z.to_nat limit) 1 EmptyString r1 ltac:(lia)) as (r2 & Hat & Hw).
  pose proof Hat as Hsum. apply attempts_summary in Hsum; [|lia].
  destruct Hsum as (k & _ & Heff & -> & _).
  fold http. rewrite Hat.
  unfold failed, now. cbn.
  do 2 eexists. split; [reflexivity|]. cbn.
  split; [reflexivity|]. split; [reflexivity|].
  split.
  - rewrite Hw. reflexivity.
  - rewrite Heff, Href. reflexivity.
Qed.

End Handlers.

End PluginFacts.

(** ** The HTTP route *)

Module RouteFacts.
Import Obj Graph Topo Shape Fill ReplaceFacts AbortFacts.

Lemma lookup_catalog key workflow :
  lookup key = Own workflow <-> Obj.get key Catalog.WORKFLOWS = Some workflow.
Proof.
  unfold lookup. destruct (Obj.get key Catalog.WORKFLOWS) as [wf|].
  - split; intros [= ->]; reflexivity.
  - destruct (includes key objectPrototype); split; discriminate.
Qed.

(** The catalog, entry by entry. *)
Lemma catalog_entries key workflow :
  Obj.get key Catalog.WORKFLOWS = Some workflow ->
  (key = "arxiv_search" /\ workflow = Catalog.arxiv_search)
  \/ (key = "wiki_summary" /\ workflow = Catalog.wiki_summary)
  \/ (key = "book_search" /\ workflow = Catalog.book_search).
Proof.
  unfold Catalog.WORKFLOWS. cbn [Obj.get].
  destruct (String.eqb key "arxiv_search") eqn:E1.
  { apply String.eqb_eq in E1. intros [= <-]. auto. }
  destruct (String.eqb key "wiki_summary") eqn:E2.
  { apply String.eqb_eq in E2. intros [= <-]. auto. }
  destruct (String.eqb key "book_search") eqn:E3.
  { apply String.eqb_eq in E3. intros [= <-]. auto. }
  discriminate.
Qed.

Section Service.

Variable World : Type.
Variable URL : Type.
Variable parseURL : string -> outcome URL.
Variable setParam : string -> string -> URL -> URL.
Variable href : URL -> string.
Variable fetch : string -> value -> World -> outcome HttpResponse.t * World.
Variable parseXML : string -> outcome value.
Variable clock : nat -> Z.

Let post := POST parseURL setParam href fetch parseXML clock.
Let execute := run parseURL setParam href fetch parseXML clock.

(** X23: a request is checked before anything runs.  A body whose
    [workflowName] or [query] is missing or falsy is answered 400; a name
    that is no key of the catalog is answered 404, unless [Object.prototype]
    has a member of that name, in which case the answer is 500.  None of
    these answers touches the world. *)
Theorem request_is_checked_before_running
    (body workflowName query : value) (w : World) :
  destructure body = Ok (workflowName, query) ->
  (truthy workflowName && truthy query = false ->
     post (Ok body) w
     = (Replied {| Response.status := 400;
                   Response.body := ErrorBody "Missing workflowName or query" |},
        w, []))
  /\ (forall key,
        toStr workflowName = Ok key ->
        truthy workflowName && truthy query = true ->
        Obj.has key Catalog.WORKFLOWS = false ->
        exists message,
          post (Ok body) w
          = (Replied {| Response.status :=
                          if includes key objectPrototype then 500 else 404;
                        Response.body := ErrorBody message |}, w, [])
          /\ (includes key objectPrototype = false ->
              message = "Unknown workflow: " +++ key)).
Proof.
  intros Hd. unfold post, POST. rewrite Hd. split.
  - intros H. rewrite <- negb_andb, H. reflexivity.
  - intros key Hk H Hno. rewrite <- negb_andb, H. cbn [negb]. rewrite Hk.
    unfold lookup. unfold Obj.has in Hno.
    destruct (Obj.get key Catalog.WORKFLOWS); [discriminate|].
    destruct (includes key objectPrototype); eexists; (split; [reflexivity|]).
    + discriminate.
    + reflexivity.
Qed.

(** Every template of the catalog prints and reads back. *)
Lemma catalog_printable key workflow :
  Obj.get key Catalog.WORKFLOWS = Some workflow ->
  forallb (fun n => everywhere printable (input n)) (nodes workflow) = true.
Proof.
  intros H. apply catalog_entries in H.
  destruct H as [[_ ->]|[[_ ->]|[_ ->]]]; vm_compute; reflexivity.
Qed.

Lemma catalog_order key workflow :
  Obj.get key Catalog.WORKFLOWS = Some workflow ->
  topoSort (nodes workflow) = {| order := ids (nodes workflow); cycles := [] |}.
Proof.
  intros H. apply catalog_entries in H.
  destruct H as [[_ ->]|[[_ ->]|[_ ->]]]; vm_compute; reflexivity.
Qed.

(** X24: the workflows of the catalog answer every query made of characters
    that JSON text carries unescaped, with no [$`] and no [$']: the route
    replies 200 with the result of the run, whatever the network and the
    clock do.  The nodes are taken in the order in which they are declared,
    each of them has a handler, and the preset queries of the workflow are
    such queries. *)
Theorem catalog_answers_plain_queries
    (key query : string) (workflow : WorkflowDefinition) (w : World) :
  Obj.get key Catalog.WORKFLOWS = Some workflow ->
  tame query = true -> query <> EmptyString ->
  let body := VObj [("workflowName", VStr key); ("query", VStr query)] in
  (exists res r,
     execute workflow query w = Returned res r
     /\ post (Ok body) w
        = (Replied {| Response.status := 200; Response.body := ResultBody res |},
           world r, effects r))
  /\ order (topoSort (nodes workflow)) = ids (nodes workflow)
  /\ (forall n, In n (nodes workflow) ->
        ACTION_HANDLERS (httpGetHandler parseURL setParam href fetch)
          (xml2jsonHandler (World := World) parseXML) (actionRef n) <> None)
  /\ (exists presets,
        Obj.get key Catalog.PRESET_QUERIES = Some presets
        /\ forall q, In q presets -> tame q = true /\ q <> EmptyString).
Proof.
  intros Hget Ht Hq body.
  assert (Hret : exists res r, execute workflow query w = Returned res r).
  { unfold execute, run, executeWorkflow.
    destruct (now clock _) as [startTime r0].
    destruct (0 <? List.length (cycles (topoSort (nodes workflow))))%nat.
    - destruct (failed clock startTime _ _) as [res r1]. eauto.
    - apply runNodes_returns. intros nodeId node Hn.
      apply get_fromEntries_In in Hn.
      pose proof (catalog_printable _ Hget) as Hp.
      rewrite forallb_forall in Hp. specialize (Hp node Hn).
      eexists. apply substituteQuery_fit; [exact Hp|].
      apply allText_weaken with (p := fun _ => true); [|apply allText_true].
      intros s _. unfold fits. now rewrite Ht. }
  split; [|split; [|split]].
  - destruct Hret as (res & r & Hrun). exists res, r. split; [exact Hrun|].
    assert (Hbody : destructure body = Ok (VStr key, VStr query)) by reflexivity.
    unfold post, POST. rewrite Hbody. cbn [andb truthy toStr].
    assert (Hk : String.eqb key EmptyString = false).
    { apply catalog_entries in Hget.
      destruct Hget as [[-> _]|[[-> _]|[-> _]]]; reflexivity. }
    assert (Hq' : String.eqb query EmptyString = false)
      by now apply String.eqb_neq.
    rewrite Hk, Hq'. cbn [negb orb].
    rewrite (proj2 (lookup_catalog key workflow) Hget).
    fold execute. rewrite Hrun. reflexivity.
  - now rewrite (catalog_order _ Hget).
  - intros n Hn. apply catalog_entries in Hget.
    destruct Hget as [[_ ->]|[[_ ->]|[_ ->]]]; cbn in Hn;
      repeat (destruct Hn as [<-|Hn]; [discriminate|]); destruct Hn.
  - apply catalog_entries in Hget.
    destruct Hget as [[-> _]|[[-> _]|[-> _]]];
      (eexists; split; [reflexivity|]);
      intros q Hin; cbn in Hin;
      repeat (destruct Hin as [<-|Hin]; [split; [reflexivity | discriminate]|]);
      destruct Hin.
Qed.

End Service.

End RouteFacts.

(** ** Queries that carry a quote *)

Module QuoteFacts.
Import Str JSON Obj Shape Printed StrFacts ObjFacts Fill JsonRound ReplaceFacts.

(** A replacement text without a dollar sign stands for itself. *)
Lemma expand_plain m b a : forall template,
  includes "$" template = false -> expand template m b a = template.
Proof.
  induction template as [|x template IH]; [reflexivity|].
  cbn [includes]. intros H. apply orb_false_iff in H. destruct H as [Hx Ht].
  rewrite expand_other by exact Hx. now rewrite IH.
Qed.

(** The placeholder is what [replace] exchanges for the query. *)
Lemma scans_placeholder query :
  includes "$" query = false -> scans query placeholder query.
Proof.
  intros Hq before rest.
  change (placeholder +++ rest) with (String "{" ("query}" +++ rest)).
  rewrite replaceQuery_cons.
  change (stripPrefix "{query}" (String "{" ("query}" +++ rest))) with (Some rest).
  cbv iota beta. rewrite expand_plain by exact Hq. f_equal.
  change 6%nat with (String.length "query}").
  rewrite (@replaceQuery_skip query "query}" (before +++ "{") rest).
  rewrite append_assoc. reflexivity.
Qed.

(** A value without the placeholder is copied. *)
Lemma scans_same query v :
  everywhere printable v = true ->
  allText (fun s => negb (occurs placeholder s)) v = true ->
  scans query (text v) (text v).
Proof.
  intros Hv Hno.
  assert (Hfit : allText (fits query) v = true).
  { apply allText_weaken with (p := fun s => negb (occurs placeholder s)); auto.
    intros s Hs. unfold fits. change "{query}" with placeholder.
    rewrite Hs. apply orb_true_r. }
  pose proof (scans_text query v Hv Hfit) as H.
  rewrite mapText_same in H; [exact H|].
  apply allText_weaken with (p := fun s => negb (occurs placeholder s)); auto.
  intros s Hs. apply negb_true_iff in Hs.
  rewrite (no_placeholder_kept query s Hs). apply String.eqb_refl.
Qed.

Lemma scans_key query k :
  occurs placeholder k = false ->
  scans query (quote k +++ ":") (quote k +++ ":").
Proof.
  intros Hk. unfold quote.
  change (String dquote (escape k +++ String dquote EmptyString) +++ ":")
    with (String dquote EmptyString
          +++ ((escape k +++ String dquote EmptyString) +++ ":")).
  apply scans_app; [now apply scans_char|].
  apply scans_app; [|now apply scans_char].
  pose proof (@scans_string query (String.length k) k (Nat.le_refl _)
                (or_intror Hk)) as H.
  now rewrite (no_placeholder_kept query k Hk) in H.
Qed.

Lemma scans_member query kv :
  everywhere printable (snd kv) = true ->
  occurs placeholder (fst kv) = false ->
  allText (fun s => negb (occurs placeholder s)) (snd kv) = true ->
  scans query (memberText kv) (memberText kv).
Proof.
  intros Hv Hk Hx. unfold memberText.
  rewrite <- append_assoc.
  replace (quote (fst kv) +++ ":" +++ text (snd kv))
    with ((quote (fst kv) +++ ":") +++ text (snd kv))
    by (now rewrite append_assoc).
  apply scans_app; [now apply scans_key | now apply scans_same].
Qed.

Lemma scans_members query fields :
  Forall (fun kv => everywhere printable (snd kv) = true) fields ->
  forallb (fun kv => negb (occurs placeholder (fst kv))
                     && allText (fun s => negb (occurs placeholder s)) (snd kv))
    fields = true ->
  Forall2 (scans query) (map memberText fields) (map memberText fields).
Proof.
  induction fields as [|kv tl IH]; intros Hp Hno; [constructor|].
  inversion Hp; subst. cbn [forallb] in Hno.
  apply andb_true_iff in Hno. destruct Hno as [Hkv Htl].
  apply andb_true_iff in Hkv. destruct Hkv as [Hk Hx].
  apply negb_true_iff in Hk.
  cbn [map]. constructor; [now apply scans_member | auto].
Qed.

Lemma join_splice sep m1 m2 ys : forall xs,
  join sep (xs ++ (m1 +++ sep +++ m2) :: ys) = join sep (xs ++ m1 :: m2 :: ys).
Proof.
  induction xs as [|x xs IH].
  - cbn [List.app join]. destruct ys; [reflexivity|].
    now rewrite !append_assoc.
  - cbn [List.app].
    destruct xs as [|x' xs]; cbn [List.app join] in *.
    + destruct ys; rewrite ?append_assoc; reflexivity.
    + now rewrite IH.
Qed.

Lemma get_fold_set_other (k : string) (l : list (string * value)) : forall o,
  ~ In k (map fst l) ->
  get k (fold_left (fun o kv => set (fst kv) (norm (snd kv)) o) l o) = get k o.
Proof.
  induction l as [|kv l IH]; intros o Hk; [reflexivity|].
  cbn [fold_left]. rewrite IH by (intros H; apply Hk; now right).
  apply get_set_other. intros E. apply Hk. now left.
Qed.

(** The member that holds the placeholder, when the query closes its
    string and opens another member. *)
Lemma scans_split query p a b k v :
  query = String dquote "," +++ String dquote k +++ String dquote ":"
          +++ String dquote v ->
  occurs placeholder p = false ->
  carried a = true -> includes "{" a = false ->
  carried b = true -> occurs placeholder b = false ->
  carried k = true -> includes "$" k = false ->
  carried v = true -> includes "$" v = false ->
  scans query (memberText (p, VStr (a +++ placeholder +++ b)))
    (memberText (p, VStr a) +++ "," +++ memberText (k, VStr (v +++ b))).
Proof.
  intros Hquery Hp Ha Hbrace Hb Hnob Hk Hdk Hv Hdv.
  assert (Hdollar : includes "$" query = false).
  { rewrite Hquery.
    change (String dquote "," +++ String dquote k +++ String dquote ":"
            +++ String dquote v)
      with (String dquote (String "," (String dquote (k +++ String dquote
              (String ":" (String dquote v)))))).
    cbn [includes Ascii.eqb Bool.eqb orb]. rewrite includes_app.
    cbn [includes Ascii.eqb Bool.eqb orb]. now rewrite Hdk, Hdv. }
  assert (Hleft : memberText (p, VStr (a +++ placeholder +++ b))
                  = (quote p +++ ":") +++ String dquote a +++ placeholder
                    +++ (escape b +++ String dquote EmptyString)).
  { unfold memberText. cbn [fst snd]. unfold text. cbn [stringify]. unfold quote.
    rewrite !escape_app, (escape_carried a Ha).
    replace (escape placeholder) with placeholder by reflexivity.
    cbn [String.append]. rewrite !append_assoc. cbn [String.append].
    reflexivity. }
  assert (Hright : memberText (p, VStr a) +++ "," +++ memberText (k, VStr (v +++ b))
                   = (quote p +++ ":") +++ String dquote a +++ query
                     +++ (escape b +++ String dquote EmptyString)).
  { unfold memberText. cbn [fst snd]. unfold text. cbn [stringify]. unfold quote.
    rewrite escape_app, (escape_carried a Ha), (escape_carried k Hk),
      (escape_carried v Hv), Hquery.
    cbn [String.append]. rewrite !append_assoc. cbn [String.append].
    rewrite !append_assoc. cbn [String.append]. reflexivity. }
  rewrite Hleft, Hright.
  apply scans_app; [now apply scans_key|].
  apply scans_app.
  { apply scans_plain. cbn [includes Ascii.eqb Bool.eqb orb]. exact Hbrace. }
  apply scans_app; [now apply scans_placeholder|].
  pose proof (@scans_string query (String.length b) b (Nat.le_refl _)
                (or_intror Hnob)) as H.
  now rewrite (no_placeholder_kept query b Hnob) in H.
Qed.

Lemma members_open fields rest :
  fields <> [] ->
  match join "," (map memberText fields) +++ rest with
  | String c _ => Ascii.eqb c "q" = false
  | EmptyString => False
  end.
Proof.
  destruct fields as [|[k x] tl]; [congruence|]. intros _.
  cbn [map]. destruct (map memberText tl); reflexivity.
Qed.

(** X17: a query that holds a double quote is pasted into the printed template
    as it is.  When a string property of the template holds the
    placeholder, the query [","k":"v] ends that string and opens a property
    [k] of its own: the template is read back with [k] set, whether it had
    a property [k] before the placeholder or not. *)
Theorem quote_in_query_adds_a_property
    (pre post : list (string * value)) (p a b k v : string) :
  let template := VObj (pre ++ (p, VStr (a +++ "{query}" +++ b)) :: post) in
  let query := String dquote "," +++ String dquote k +++ String dquote ":"
               +++ String dquote v in
  let result := norm (VObj (pre ++ (p, VStr a) :: (k, VStr (v +++ b)) :: post)) in
  everywhere printable (VObj (pre ++ post)) = true ->
  allText (fun s => negb (occurs "{query}" s)) (VObj (pre ++ post)) = true ->
  occurs "{query}" p = false ->
  carried a = true -> includes "{" a = false ->
  carried b = true -> occurs "{query}" b = false ->
  carried k = true -> includes "$" k = false ->
  carried v = true -> includes "$" v = false ->
  substituteQuery template query = Normal result
  /\ (~ In k (map fst post) -> readProp k result = Ok (VStr (v +++ b))).
Proof.
  intros template query result Hprint Hno Hp Ha Hbrace Hb Hnob Hk Hdk Hv Hdv.
  change "{query}" with placeholder in *.
  set (m := (p, VStr (a +++ placeholder +++ b))) in *.
  set (m1 := (p, VStr a)) in *. set (m2 := (k, VStr (v +++ b))) in *.
  apply ShapeFacts.everywhere_fields in Hprint.
  apply Forall_app in Hprint. destruct Hprint as [Hpre Hpost].
  cbn [allText] in Hno. rewrite forallb_app in Hno.
  apply andb_true_iff in Hno. destruct Hno as [Hnopre Hnopost].
  assert (HpT : Forall (fun kv => everywhere printable (snd kv) = true)
                  (pre ++ m :: post)).
  { apply Forall_app. split; [exact Hpre|]. constructor; [reflexivity | exact Hpost]. }
  assert (HpR : Forall (fun kv => everywhere printable (snd kv) = true)
                  (pre ++ m1 :: m2 :: post)).
  { apply Forall_app. split; [exact Hpre|].
    constructor; [reflexivity|]. constructor; [reflexivity | exact Hpost]. }
  assert (Hmem : forall fields : list (string * value),
             Forall (fun kv => everywhere printable (snd kv) = true) fields ->
             forallb (fun kv => printable (snd kv)) fields = true).
  { intros fields H. apply forallb_forall. intros kv Hin.
    rewrite Forall_forall in H. apply ShapeFacts.everywhere_here. auto. }
  assert (HeT : everywhere printable (VObj (pre ++ m1 :: m2 :: post)) = true).
  { cbn [everywhere printable andb]. apply forallb_forall. intros kv Hin.
    rewrite Forall_forall in HpR. auto. }
  split.
  - unfold substituteQuery, template. fold m.
    rewrite (stringify_text (VObj (pre ++ m :: post)) eq_refl).
    rewrite (text_obj _ (Hmem _ HpT)).
    assert (Hscan : scans query
              ("{" +++ join "," (map memberText (pre ++ m :: post)) +++ "}")
              (text (VObj (pre ++ m1 :: m2 :: post)))).
    { rewrite (text_obj _ (Hmem _ HpR)).
      change ("{" +++ ?X) with (String "{" X).
      apply scans_braced.
      - apply members_open. now destruct pre.
      - apply scans_app; [|now apply scans_char].
        rewrite !map_app. cbn [map]. rewrite <- join_splice.
        apply scans_join. apply Forall2_app; [now apply scans_members|].
        constructor; [|now apply scans_members].
        now apply scans_split. }
    specialize (Hscan EmptyString EmptyString).
    rewrite !append_empty_r in Hscan. cbn [String.append] in Hscan.
    cbv zeta.
    change ("{" +++ join "," (map memberText (pre ++ m :: post)) +++ "}")
      with (String "{" (join "," (map memberText (pre ++ m :: post)) +++ "}")).
    rewrite Hscan.
    pose proof (@parseValue_text
                  (S (String.length (text (VObj (pre ++ m1 :: m2 :: post)))))
                  (VObj (pre ++ m1 :: m2 :: post)) EmptyString
                  HeT (Nat.lt_succ_diag_r _) I) as H.
    rewrite append_empty_r in H. unfold parse. rewrite H. reflexivity.
  - intros Hk'. unfold result. cbn [norm]. unfold readProp.
    rewrite (@RefFacts.getField_stored k _ (VStr (v +++ b))); [reflexivity|].
    rewrite fold_left_app. cbn [fold_left].
    rewrite get_fold_set_other by exact Hk'.
    unfold m2. cbn [fst snd norm]. now rewrite get_set_same.
Qed.

End QuoteFacts.

(** ** The node records as a ledger of the data flow *)

Module LedgerFacts.
Import Obj Topo Graph Trace Ledger ObjFacts EngineFacts.

Lemma contextOf_snoc recs rec :
  contextOf (recs ++ [rec])
  = match NodeExecution.outputData rec with
    | Some out => set (NodeExecution.nodeId rec) out (contextOf recs)
    | None => contextOf recs
    end.
Proof. unfold contextOf. rewrite fold_left_app. reflexivity. Qed.

(** Where a list with one more element at its end can be cut. *)
Lemma split_snoc (A : Type) (l before after : list A) (x y : A) :
  l ++ [x] = before ++ y :: after ->
  (after = [] /\ before = l /\ y = x)
  \/ exists after', after = after' ++ [x] /\ l = before ++ y :: after'.
Proof.
  intros H. destruct after as [|a after] using rev_ind.
  - left. apply app_inj_tail in H. destruct H as [-> ->]. auto.
  - right. clear IHafter. exists after.
    rewrite app_comm_cons, app_assoc in H. apply app_inj_tail in H.
    destruct H as [-> ->]. auto.
Qed.

Section Account.

Variable World : Type.
Variables httpGetHandler xml2jsonHandler : ActionHandler World.
Variable clock : nat -> Z.
Variable nodes : list WorkflowNode.
Variable query : string.
Variable startTime : Z.

Let nodeMap := fromEntries (map (fun n => (id n, n)) nodes).
Let step := runNode httpGetHandler xml2jsonHandler clock nodeMap query startTime.
Let loop := runNodes httpGetHandler xml2jsonHandler clock nodeMap query startTime.

(** What one round of the node loop does to the records and the context. *)
Lemma runNode_account x (r : Run World) :
  match step x r with
  | Continue r' =>
      r' = r
      \/ exists node substituted resolvedInput out d,
           get x nodeMap = Some node
           /\ substituteQuery (input node) query = Normal substituted
           /\ resolveInput substituted (context r) = Ok resolvedInput
           /\ nodeExecutions r'
              = nodeExecutions r ++ [successRecord x node resolvedInput out d]
           /\ context r' = set x out (context r)
  | Returned _ r' =>
      exists node err,
        nodeExecutions r' = nodeExecutions r ++ [errorRecord x node err]
        /\ context r' = context r
  | Raised _ r' | Outside r' =>
      nodeExecutions r' = nodeExecutions r /\ context r' = context r
  end.
Proof.
  unfold step, runNode.
  destruct (get x nodeMap) as [node|] eqn:Hget; [|now left].
  destruct (ACTION_HANDLERS httpGetHandler xml2jsonHandler (actionRef node))
    as [handler|].
  2:{ cbn. exists node. eexists. split; reflexivity. }
  destruct (substituteQuery (input node) query) as [substituted|e|] eqn:Hsub.
  2:{ cbn. split; reflexivity. }
  2:{ cbn. split; reflexivity. }
  cbn [context pushLog timestamp now logs nodeExecutions world ticks effects].
  destruct (resolveInput substituted (context r)) as [resolvedInput|err] eqn:Hres.
  2:{ cbn. exists node, err. split; reflexivity. }
  set (m := match retry node with Some p => maxAttempts p | None => 1 end).
  set (b := match retry node with Some p => backoffMs p | None => 0 end).
  match goal with
  | |- context [attempts clock ?n 1 handler x node resolvedInput m b ?e ?r0] =>
      destruct (attempts clock n 1 handler x node resolvedInput m b e r0)
        as [[ok lastError] r1] eqn:Hat
  end.
  assert (Hsum : if ok
                 then exists out d,
                        nodeExecutions r1 = nodeExecutions r
                            ++ [successRecord x node resolvedInput out d]
                        /\ context r1 = set x out (context r)
                 else nodeExecutions r1 = nodeExecutions r
                      /\ context r1 = context r).
  { destruct (Z.to_nat m) as [|n] eqn:Hn.
    - cbn in Hat. injection Hat as <- _ <-. cbn. auto.
    - rewrite <- Hn in Hat. apply attempts_summary in Hat; [|lia].
      cbn in Hat. destruct Hat as (k & _ & _ & Hrest).
      destruct ok; tauto. }
  destruct ok.
  - right. destruct Hsum as (out & d & Hrec & Hctx).
    exists node, substituted, resolvedInput, out, d. auto.
  - destruct Hsum as [Hrec Hctx]. cbn.
    exists node, lastError. split; [now rewrite Hrec | exact Hctx].
Qed.

Lemma balanced_success x node substituted resolvedInput out d (r r' : Run World) :
  balanced nodes query r ->
  get x nodeMap = Some node ->
  substituteQuery (input node) query = Normal substituted ->
  resolveInput substituted (context r) = Ok resolvedInput ->
  nodeExecutions r' = nodeExecutions r ++ [successRecord x node resolvedInput out d] ->
  context r' = set x out (context r) ->
  balanced nodes query r'.
Proof.
  intros [Hctx Hall] Hget Hsub Hres Hrec Hctx'. split.
  - rewrite Hrec, contextOf_snoc, Hctx'. cbn. now rewrite Hctx.
  - intros before rec after Hcut. rewrite Hrec in Hcut.
    apply split_snoc in Hcut.
    destruct Hcut as [(_ & -> & ->)|(after' & _ & Hcut)]; [|eauto].
    unfold explained. intros _. exists node, substituted, resolvedInput, out. cbn.
    rewrite <- Hctx. auto 7.
Qed.

Lemma balanced_error x node err (r r' : Run World) :
  balanced nodes query r ->
  nodeExecutions r' = nodeExecutions r ++ [errorRecord x node err] ->
  context r' = context r ->
  balanced nodes query r'.
Proof.
  intros [Hctx Hall] Hrec Hctx'. split.
  - rewrite Hrec, contextOf_snoc, Hctx'. exact Hctx.
  - intros before rec after Hcut. rewrite Hrec in Hcut.
    apply split_snoc in Hcut.
    destruct Hcut as [(_ & -> & ->)|(after' & _ & Hcut)]; [|eauto].
    unfold explained. intros Hs. discriminate Hs.
Qed.

Lemma balanced_same (r r' : Run World) :
  balanced nodes query r ->
  nodeExecutions r' = nodeExecutions r -> context r' = context r ->
  balanced nodes query r'.
Proof. intros [Hctx Hall] Hrec Hctx'. split; [congruence|]. now rewrite Hrec. Qed.

Lemma runNodes_account : forall todo (r : Run World),
  balanced nodes query r -> balanced nodes query (stateOf (loop todo r)).
Proof.
  induction todo as [|x rest IH]; intros r Hb.
  - cbn. eapply balanced_same; [exact Hb | reflexivity | reflexivity].
  - unfold loop. cbn [runNodes]. fold loop. fold (step x r).
    pose proof (runNode_account x r) as Hstep.
    destruct (step x r) as [r2|res r2|msg r2|r2]; cbn [stateOf].
    + apply IH.
      destruct Hstep as [->|(node & sub & inp & out & d & Hget & Hsub & Hres
                            & Hrec & Hctx)]; [exact Hb|].
      eapply balanced_success; eauto.
    + destruct Hstep as (node & err & Hrec & Hctx).
      eapply balanced_error; eauto.
    + destruct Hstep as [Hrec Hctx]. eapply balanced_same; eauto.
    + destruct Hstep as [Hrec Hctx]. eapply balanced_same; eauto.
Qed.

End Account.

Section Whole.

Variable World : Type.
Variables httpGetHandler xml2jsonHandler : ActionHandler World.
Variable clock : nat -> Z.

Let execute := executeWorkflow httpGetHandler xml2jsonHandler clock.

Lemma executeWorkflow_account (workflow : WorkflowDefinition) query (w : World) :
  balanced (nodes workflow) query (stateOf (execute workflow query w)).
Proof.
  assert (Hstart : forall r : Run World,
             nodeExecutions r = [] -> context r = [] ->
             balanced (nodes workflow) query r).
  { intros r Hrec Hctx. split; [now rewrite Hrec, Hctx|].
    intros before rec after H. rewrite Hrec in H. destruct before; discriminate H. }
  unfold execute, executeWorkflow.
  cbn [now pushLog timestamp logs nodeExecutions context world ticks effects].
  destruct (0 <? List.length (cycles (topoSort (nodes workflow))))%nat.
  - cbn. now apply Hstart.
  - apply runNodes_account. now apply Hstart.
Qed.

(** X25: the node records of a result are a ledger of the data flow: the
    context the run ended with holds exactly the outputs of the records,
    stored in their order; and every success record belongs to a node of
    the workflow and shows, as its input, the template of that node with
    the query filled in and its references resolved against the outputs
    that the records before it show. *)
Theorem records_account_for_the_data_flow
    (workflow : WorkflowDefinition) (query : string) (w : World)
    (res : ExecutionResult.t) (r : Run World) :
  execute workflow query w = Returned res r ->
  let recs := ExecutionResult.nodeExecutions res in
  context r = contextOf recs
  /\ forall before rec after,
       recs = before ++ rec :: after ->
       explained (nodes workflow) query before rec.
Proof.
  intros Hrun recs.
  pose proof (executeWorkflow_account workflow query w) as Hb.
  pose proof (executeWorkflow_summary httpGetHandler xml2jsonHandler clock
                workflow query w) as [_ Hsum].
  fold execute in Hsum. rewrite Hrun in Hb, Hsum. cbn [stateOf] in Hb.
  destruct Hsum as [Hrec _]. unfold recs. rewrite Hrec. exact Hb.
Qed.

End Whole.

End LedgerFacts.

(** ** A query that rewrites the request of the catalog *)

Module RedirectFacts.
Import Str JSON Shape Printed StrFacts Fill JsonRound ReplaceFacts QuoteFacts.
Import Trace EngineFacts.

(** A character that the pattern does not hold keeps a failed match
    failed, whatever follows. *)
Lemma stripPrefix_guard c rest : forall pat s,
  includes c pat = false -> stripPrefix pat s = None ->
  stripPrefix pat (s +++ String c rest) = None.
Proof.
  induction pat as [|x pat IH]; intros s Hc Hs; [discriminate|].
  cbn [includes] in Hc. apply orb_false_iff in Hc. destruct Hc as [Hx Hc].
  destruct s as [|a s]; cbn [String.append stripPrefix] in *.
  - now rewrite Hx.
  - destruct (Ascii.eqb x a); [now apply IH | reflexivity].
Qed.

(** Text without the placeholder is copied when a character that the
    placeholder does not hold ends it. *)
Lemma scans_guarded query c : forall p,
  includes c placeholder = false -> occurs placeholder p = false ->
  scans query (p +++ String c EmptyString) (p +++ String c EmptyString).
Proof.
  intros p Hc. induction p as [|a p IH]; intros Hp before rest.
  - cbn [String.append]. rewrite replaceQuery_cons.
    change (stripPrefix "{query}" (String c rest))
      with (stripPrefix placeholder (EmptyString +++ String c rest)).
    rewrite stripPrefix_guard by (auto; reflexivity). reflexivity.
  - destruct (occurs_tail _ _ _ Hp) as [E Hp'].
    cbn [String.append]. rewrite replaceQuery_cons.
    change (stripPrefix "{query}" (String a ((p +++ String c EmptyString) +++ rest)))
      with (stripPrefix placeholder
              (String a ((p +++ String c EmptyString) +++ rest))).
    replace (String a ((p +++ String c EmptyString) +++ rest))
      with (String a p +++ String c rest)
      by (cbn [String.append]; now rewrite append_assoc).
    rewrite stripPrefix_guard by assumption.
    cbn [String.append]. f_equal.
    replace (p +++ String c rest) with ((p +++ String c EmptyString) +++ rest)
      by (now rewrite append_assoc).
    rewrite (IH Hp' (before +++ String a EmptyString) rest).
    rewrite !append_assoc. reflexivity.
Qed.

(** One placeholder, after a guarded text and before a text without it. *)
Lemma fillString_once query c p rest :
  includes "$" query = false ->
  includes c placeholder = false ->
  occurs placeholder p = false -> occurs placeholder rest = false ->
  fillString query (p +++ String c (placeholder +++ rest))
  = p +++ String c (query +++ rest).
Proof.
  intros Hq Hc Hp Hrest.
  pose proof (scans_app (@scans_guarded query c p Hc Hp)
                (@scans_placeholder query Hq) EmptyString rest) as H.
  unfold fillString.
  replace (p +++ String c (placeholder +++ rest))
    with (((p +++ String c EmptyString) +++ placeholder) +++ rest)
    by (rewrite !append_assoc; reflexivity).
  rewrite H.
  rewrite (@replaceQuery_before query rest 0%nat _ EmptyString (or_intror Hrest)).
  fold (fillString query rest). rewrite (no_placeholder_kept query rest Hrest).
  rewrite !append_assoc. reflexivity.
Qed.

(** [substituteQuery] returns whatever value prints as the text with the
    query pasted in. *)
Lemma substituteQuery_text input query target :
  printable input = true -> everywhere printable target = true ->
  fillString query (text input) = text target ->
  substituteQuery input query = Normal (norm target).
Proof.
  intros Hin Htarget Hfill. unfold substituteQuery.
  rewrite (stringify_text input Hin). cbv zeta.
  fold (fillString query (text input)). rewrite Hfill.
  pose proof (@parseValue_text (S (String.length (text target))) target EmptyString
                Htarget (Nat.lt_succ_diag_r _) I) as H.
  rewrite append_empty_r in H. unfold parse. rewrite H. reflexivity.
Qed.

Section Engine.

Variable World : Type.
Variables httpGetHandler xml2jsonHandler : ActionHandler World.
Variable clock : nat -> Z.
Variable nodeMap : Obj.t WorkflowNode.
Variable query : string.
Variable startTime : Z.

Let step := runNode httpGetHandler xml2jsonHandler clock nodeMap query startTime.
Let loop := runNodes httpGetHandler xml2jsonHandler clock nodeMap query startTime.

Lemma runNodes_cons x rest (r : Run World) :
  loop (x :: rest) r
  = match step x r with
    | Continue r' => loop rest r'
    | stop => stop
    end.
Proof. reflexivity. Qed.

(** The effects of a run are never taken back. *)
Lemma runNodes_effects_grow : forall todo (r : Run World),
  exists more, effects (stateOf (loop todo r)) = effects r ++ more.
Proof.
  induction todo as [|x rest IH]; intros r.
  - exists []. cbn. now rewrite app_nil_r.
  - unfold loop. cbn [runNodes]. fold loop.
    pose proof (runNode_summary httpGetHandler xml2jsonHandler clock nodeMap
                  query startTime x r) as Hsum.
    destruct (runNode httpGetHandler xml2jsonHandler clock nodeMap query
                startTime x r) as [r2|res r2|msg r2|r2]; cbn [stateOf].
    + destruct (IH r2) as [more Hmore]. rewrite Hmore.
      destruct Hsum as [[_ ->]|(node & inp & out & d & k & news & _ & _ & _ & _
                                & Heff & _)].
      * eauto.
      * rewrite Heff, <- app_assoc. eauto.
    + destruct Hsum as (node & err & new & news & _ & _ & _ & _ & _ & _ & _
                        & Heff & _).
      eauto.
    + destruct Hsum as (_ & _ & Heff & _). exists []. now rewrite app_nil_r.
    + destruct Hsum as (_ & _ & Heff & _). exists []. now rewrite app_nil_r.
Qed.

(** A node that is given an attempt has its handler invoked with the
    resolved input. *)
Lemma runNode_first_call x node handler substituted resolvedInput (r : Run World) :
  Obj.get x nodeMap = Some node ->
  ACTION_HANDLERS httpGetHandler xml2jsonHandler (actionRef node) = Some handler ->
  substituteQuery (input node) query = Normal substituted ->
  resolveInput substituted (context r) = Ok resolvedInput ->
  1 <= match retry node with Some p => maxAttempts p | None => 1 end ->
  exists rest,
    effects (stateOf (step x r))
    = effects r ++ Invoked (actionRef node) x resolvedInput :: rest.
Proof.
  intros Hget Hh Hsub Hres Hlimit. unfold step, runNode. rewrite Hget, Hh, Hsub.
  cbn [context pushLog timestamp now logs nodeExecutions world ticks effects].
  rewrite Hres.
  set (m := match retry node with Some p => maxAttempts p | None => 1 end) in *.
  set (b := match retry node with Some p => backoffMs p | None => 0 end).
  match goal with
  | |- context [attempts clock ?n 1 handler x node resolvedInput m b ?e ?r0] =>
      destruct (attempts clock n 1 handler x node resolvedInput m b e r0)
        as [[ok lastError] r1] eqn:Hat
  end.
  apply attempts_summary in Hat; [|lia].
  cbn [effects] in Hat. destruct Hat as (k & _ & Heff & Hrest).
  assert (Hk : (1 <= k)%nat) by (destruct ok; [tauto | lia]).
  destruct k as [|k]; [lia|]. rewrite rounds_first in Heff.
  destruct ok; cbn [stateOf]; [eauto|].
  unfold failed, now, pushExecution, pushLog, timestamp, now. cbn. eauto.
Qed.

End Engine.

Section Service.

Variable World : Type.
Variable URL : Type.
Variable parseURL : string -> outcome URL.
Variable setParam : string -> string -> URL -> URL.
Variable href : URL -> string.
Variable fetch : string -> value -> World -> outcome HttpResponse.t * World.
Variable parseXML : string -> outcome value.
Variable clock : nat -> Z.

Let post := POST parseURL setParam href fetch parseXML clock.
Let execute := run parseURL setParam href fetch parseXML clock.

(** X26: the query reaches the printed template unescaped, so a query with
    double quotes can leave the [params] object it was meant for.  For the
    book search of the catalog, the query
    [x"},"url":"<target>","p":{"a":"] (any target made of plain
    characters) makes the route invoke the HTTP plugin with [url] set to
    the target instead of the address of the catalog; and when the target
    is an address, it is the target that the plugin fetches. *)
Theorem query_can_redirect_the_request (target : string) (w : World) :
  carried target = true -> includes "$" target = false ->
  let query :=
    "x" +++ String dquote "}," +++ String dquote "url" +++ String dquote ":"
    +++ String dquote target +++ String dquote "," +++ String dquote "p"
    +++ String dquote ":{" +++ String dquote "a" +++ String dquote ":"
    +++ String dquote EmptyString in
  let asked :=
    VObj [("url", VStr target);
          ("params", VObj [("q", VStr "x")]);
          ("p", VObj [("a", VStr EmptyString); ("limit", VNum 5);
                      ("fields",
                       VStr "key,title,author_name,first_publish_year,subject,cover_i")]);
          ("headers", VObj [Catalog.userAgent])] in
  (exists reply w' rest,
     post (Ok (VObj [("workflowName", VStr "book_search"); ("query", VStr query)])) w
     = (reply, w', Invoked "plugin.http.get" "search_books" asked :: rest))
  /\ (forall node urlObj w0,
        target <> EmptyString -> parseURL target = Ok urlObj ->
        httpGetHandler parseURL setParam href fetch node asked w0
        = match fetch (href (setParam "q" "x" urlObj)) (VObj [Catalog.userAgent]) w0
          with
          | (Throw e, w1) => (Throw e, w1)
          | (Ok resp, w1) => readResponse resp w1
          end).
Proof.
  intros Hcar Hdollar query asked. split.
  2:{ intros n urlObj w0 Hne Hurl.
      assert (Hu : readProp "url" asked = Ok (VStr target)) by reflexivity.
      assert (Hp : readProp "params" asked = Ok (VObj [("q", VStr "x")]))
        by reflexivity.
      assert (Hh : readProp "headers" asked = Ok (VObj [Catalog.userAgent]))
        by reflexivity.
      unfold httpGetHandler. rewrite Hu, Hp, Hh. cbn [truthy toStr].
      apply String.eqb_neq in Hne. rewrite Hne. cbn [negb].
      rewrite Hurl.
      cbn [entriesOf Obj.entries setParams toStr]. reflexivity. }
  set (node := {| id := "search_books";
                  actionRef := "plugin.http.get";
                  schemaVersion := "v1";
                  input :=
                    VObj [("url", VStr "https://openlibrary.org/search.json");
                          ("params",
                           VObj [("q", VStr "{query}");
                                 ("limit", VNum 5);
                                 ("fields",
                                  VStr "key,title,author_name,first_publish_year,subject,cover_i")]);
                          ("headers", VObj [Catalog.userAgent])];
                  dependsOn := None;
                  timeoutMs := Some 15000;
                  retry := Some {| maxAttempts := 2; backoffMs := 1000 |} |}).
  assert (Hsub : substituteQuery (input node) query = Normal asked).
  { set (before := "{" +++ quote "url" +++ ":"
                   +++ quote "https://openlibrary.org/search.json" +++ ","
                   +++ quote "params" +++ ":{" +++ quote "q" +++ ":").
    set (after := String dquote EmptyString +++ "," +++ quote "limit" +++ ":5,"
                  +++ quote "fields" +++ ":"
                  +++ quote "key,title,author_name,first_publish_year,subject,cover_i"
                  +++ "}," +++ quote "headers" +++ ":{" +++ quote "User-Agent"
                  +++ ":" +++ quote "agentic-workflow-engine" +++ "}}").
    set (pasted :=
           VObj [("url", VStr "https://openlibrary.org/search.json");
                 ("params", VObj [("q", VStr "x")]);
                 ("url", VStr target);
                 ("p", VObj [("a", VStr EmptyString); ("limit", VNum 5);
                             ("fields",
                              VStr "key,title,author_name,first_publish_year,subject,cover_i")]);
                 ("headers", VObj [Catalog.userAgent])]).
    change asked with (norm pasted).
    apply substituteQuery_text; [reflexivity | reflexivity |].
    assert (Hquery : includes "$" query = false).
    { unfold query. rewrite !includes_app. cbn [includes Ascii.eqb Bool.eqb orb].
      rewrite Hdollar. reflexivity. }
    replace (text (input node))
      with (before +++ String dquote (placeholder +++ after))
      by (vm_compute; reflexivity).
    rewrite (@fillString_once query dquote before after Hquery eq_refl eq_refl eq_refl).
    unfold pasted. rewrite text_obj by reflexivity.
    cbn [map join]. unfold memberText at 3. cbn [fst snd].
    replace (text (VStr target))
      with (String dquote EmptyString +++ target +++ String dquote EmptyString)
      by (unfold text; cbn [stringify]; unfold quote; now rewrite escape_carried).
    unfold query. rewrite !append_assoc. vm_compute. reflexivity. }
  assert (Hres : resolveInput asked [] = Ok asked) by reflexivity.
  assert (Hflow : exists rest,
             effects (stateOf (execute Catalog.book_search query w))
             = Invoked "plugin.http.get" "search_books" asked :: rest).
  { unfold execute, run, executeWorkflow.
    cbn [now pushLog timestamp logs nodeExecutions context world ticks effects].
    replace (Topo.topoSort (nodes Catalog.book_search))
      with {| Topo.order := ["search_books"; "extract_books"]; Topo.cycles := [] |}
      by reflexivity.
    cbn [Topo.cycles Topo.order List.length Nat.ltb Nat.leb].
    rewrite runNodes_cons.
    match goal with
    | |- context [runNode ?h ?x ?c ?nm ?q ?st "search_books" ?r0] =>
        destruct (@runNode_first_call World h x c nm q st "search_books" node
                    h asked asked r0 eq_refl eq_refl Hsub Hres)
          as [rest1 Hfirst]; [cbn; lia|];
        destruct (runNode h x c nm q st "search_books" r0)
          as [r2|res r2|msg r2|r2]; cbn [stateOf effects List.app] in Hfirst
    end.
    - match goal with
      | |- context [runNodes ?h ?x ?c ?nm ?q ?st ?todo r2] =>
          destruct (@runNodes_effects_grow World h x c nm q st todo r2)
            as [more Hmore]
      end.
      rewrite Hmore, Hfirst. exists (rest1 ++ more). reflexivity.
    - exists rest1. exact Hfirst.
    - exists rest1. exact Hfirst.
    - exists rest1. exact Hfirst. }
  destruct Hflow as [rest Hflow].
  assert (Hbody : destructure (VObj [("workflowName", VStr "book_search");
                                     ("query", VStr query)])
                  = Ok (VStr "book_search", VStr query)) by reflexivity.
  unfold post, POST. rewrite Hbody.
  cbn [String.eqb Ascii.eqb Bool.eqb andb truthy toStr negb orb].
  replace (String.eqb query EmptyString) with false by reflexivity.
  cbn [negb orb].
  replace (lookup "book_search") with (Own Catalog.book_search) by reflexivity.
  fold execute.
  destruct (execute Catalog.book_search query w) as [r|res r|msg r|r];
    cbn [stateOf] in Hflow; unfold respond; rewrite Hflow; eauto.
Qed.

End Service.

End RedirectFacts.

(** ** The recorded durations *)

Module TimeFacts.
Import Obj Topo Graph Trace Ledger.

Lemma spent_snoc recs rec :
  spent (recs ++ [rec]) = spent recs + NodeExecution.durationMs rec.
Proof.
  unfold spent. induction recs as [|x recs IH]; cbn [List.app fold_right]; lia.
Qed.

Section Clock.

Variable World : Type.
Variable clock : nat -> Z.
Hypothesis steady : monotone clock.
Variable startTime : Z.

(** Reading the clock, logging and sleeping keep the account. *)
Lemma timed_later (r r' : Run World) :
  timed clock startTime r ->
  nodeExecutions r' = nodeExecutions r -> (ticks r <= ticks r')%nat ->
  timed clock startTime r'.
Proof.
  intros (Ht & Hpos & Hsum) Hrec Hticks. unfold timed. rewrite Hrec.
  split; [lia|]. split; [exact Hpos|].
  pose proof (steady (i := (ticks r - 1)%nat) (j := (ticks r' - 1)%nat)). lia.
Qed.

Lemma caught_later nodeId attempt maxAttempts backoffMs msg (r : Run World) :
  nodeExecutions (caught clock nodeId attempt maxAttempts backoffMs msg r)
    = nodeExecutions r
  /\ (ticks r <= ticks (caught clock nodeId attempt maxAttempts backoffMs msg r))%nat.
Proof.
  unfold caught. destruct (attempt <? maxAttempts); cbn; auto.
Qed.

(** The attempt loop keeps the account: a success adds the time between
    two readings that come after everything recorded before. *)
Lemma attempts_timed (handler : ActionHandler World) nodeId node resolvedInput
    maxAttempts backoffMs :
  forall remaining attempt lastError (r : Run World) ok err (r' : Run World),
    timed clock startTime r ->
    attempts clock remaining attempt handler nodeId node resolvedInput
      maxAttempts backoffMs lastError r = (ok, err, r') ->
    timed clock startTime r'.
Proof.
  induction remaining as [|n IH]; intros attempt lastError r ok err r' Hr Hat.
  - cbn in Hat. now injection Hat as _ _ <-.
  - cbn [attempts] in Hat. unfold now, invoke in Hat.
    cbn [world ticks effects logs nodeExecutions context] in Hat.
    destruct (handler node resolvedInput (world r)) as [[out|e] w1].
    + cbn [world ticks effects logs nodeExecutions context] in Hat.
      destruct (overTime node (clock (S (ticks r)) - clock (ticks r))).
      * eapply IH; [|exact Hat].
        match goal with
        | |- timed _ _ (caught _ ?a ?b ?c ?d ?e ?r0) =>
            destruct (caught_later a b c d e r0) as [Hrec Hticks]
        end.
        eapply timed_later; [exact Hr | rewrite Hrec; reflexivity|].
        cbn [ticks] in Hticks. lia.
      * injection Hat as _ _ <-. destruct Hr as (Ht & Hpos & Hsum).
        pose proof (steady (i := (ticks r - 1)%nat) (j := ticks r)) as H1.
        pose proof (steady (i := ticks r) (j := S (ticks r))) as H2.
        pose proof (steady (i := S (ticks r)) (j := S (S (ticks r)))) as H3.
        unfold timed, pushLog, timestamp, now, pushExecution, store.
        cbn [ticks nodeExecutions logs context world effects].
        split; [lia|]. split.
        -- apply Forall_app. split; [exact Hpos|]. constructor; [|constructor].
           cbn. lia.
        -- rewrite spent_snoc. cbn [NodeExecution.durationMs Nat.sub]. lia.
    + eapply IH; [|exact Hat].
      match goal with
      | |- timed _ _ (caught _ ?a ?b ?c ?d ?e ?r0) =>
          destruct (caught_later a b c d e r0) as [Hrec Hticks]
      end.
      eapply timed_later; [exact Hr | rewrite Hrec; reflexivity|].
      cbn [ticks] in Hticks. lia.
Qed.

(** A failure closes the account: the error record adds no time, and the
    running time is read after everything that was recorded. *)
Lemma failed_account x node err (r : Run World) :
  timed clock startTime r ->
  let '(res, _) :=
    failed clock startTime err (pushExecution (errorRecord x node err) r) in
  Forall (fun rec => 0 <= NodeExecution.durationMs rec)
    (ExecutionResult.nodeExecutions res)
  /\ spent (ExecutionResult.nodeExecutions res)
     <= ExecutionResult.executionTimeMs res.
Proof.
  intros (Ht & Hpos & Hsum). unfold failed, now, pushExecution.
  cbn [ticks nodeExecutions logs context world effects
       ExecutionResult.nodeExecutions ExecutionResult.executionTimeMs].
  pose proof (steady (i := (ticks r - 1)%nat) (j := ticks r)) as H1.
  split.
  - apply Forall_app. split; [exact Hpos|]. constructor; [|constructor].
    cbn. lia.
  - rewrite spent_snoc. cbn [NodeExecution.durationMs errorRecord]. lia.
Qed.

Lemma pushLog_later lvl msg nid (r : Run World) :
  timed clock startTime r -> timed clock startTime (pushLog clock lvl msg nid r).
Proof.
  intros Hr. eapply timed_later; [exact Hr | reflexivity|].
  unfold pushLog, timestamp, now. cbn. lia.
Qed.

Section Loop.

Variables httpGetHandler xml2jsonHandler : ActionHandler World.
Variable nodeMap : Obj.t WorkflowNode.
Variable query : string.

Let step := runNode httpGetHandler xml2jsonHandler clock nodeMap query startTime.
Let loop := runNodes httpGetHandler xml2jsonHandler clock nodeMap query startTime.

Lemma runNode_timed x (r : Run World) :
  timed clock startTime r ->
  match step x r with
  | Continue r' => timed clock startTime r'
  | Returned res _ =>
      Forall (fun rec => 0 <= NodeExecution.durationMs rec)
        (ExecutionResult.nodeExecutions res)
      /\ spent (ExecutionResult.nodeExecutions res)
         <= ExecutionResult.executionTimeMs res
  | _ => True
  end.
Proof.
  intros Hr. unfold step, runNode.
  destruct (get x nodeMap) as [node|]; [|exact Hr].
  destruct (ACTION_HANDLERS httpGetHandler xml2jsonHandler (actionRef node))
    as [handler|].
  2:{ match goal with
      | |- context [failed clock startTime ?e (pushExecution ?rec ?r0)] =>
          pose proof (@failed_account x node e r0) as H
      end.
      destruct (failed _ _ _ _) as [res r2]. apply H. now apply pushLog_later. }
  destruct (substituteQuery (input node) query) as [substituted|e|]; try exact I.
  destruct (resolveInput substituted _) as [resolvedInput|err].
  2:{ match goal with
      | |- context [failed clock startTime ?e (pushExecution ?rec ?r0)] =>
          pose proof (@failed_account x node e r0) as H
      end.
      destruct (failed _ _ _ _) as [res r2]. apply H.
      now apply pushLog_later, pushLog_later. }
  match goal with
  | |- context [attempts clock ?n 1 handler x node resolvedInput ?m ?b ?e ?r0] =>
      destruct (attempts clock n 1 handler x node resolvedInput m b e r0)
        as [[ok lastError] r1] eqn:Hat;
      apply attempts_timed in Hat; [|now apply pushLog_later]
  end.
  destruct ok; [exact Hat|].
  match goal with
  | |- context [failed clock startTime ?e (pushExecution ?rec ?r0)] =>
      pose proof (@failed_account x node e r0) as H
  end.
  destruct (failed _ _ _ _) as [res r2]. apply H. now apply pushLog_later.
Qed.

Lemma runNodes_timed : forall todo (r : Run World),
  timed clock startTime r ->
  match loop todo r with
  | Returned res _ =>
      Forall (fun rec => 0 <= NodeExecution.durationMs rec)
        (ExecutionResult.nodeExecutions res)
      /\ spent (ExecutionResult.nodeExecutions res)
         <= ExecutionResult.executionTimeMs res
  | _ => True
  end.
Proof.
  induction todo as [|x rest IH]; intros r Hr.
  - destruct Hr as (Ht & Hpos & Hsum).
    pose proof (steady (i := (ticks r - 1)%nat) (j := ticks r)) as H1.
    unfold loop. cbn. split; [exact Hpos|]. unfold spent in Hsum. lia.
  - unfold loop. cbn [runNodes]. fold loop. fold (step x r).
    pose proof (runNode_timed x Hr) as Hstep.
    destruct (step x r) as [r2|res r2|msg r2|r2];
      [apply IH; exact Hstep | exact Hstep | exact I | exact I].
Qed.

End Loop.

End Clock.

Section Whole.

Variable World : Type.
Variables httpGetHandler xml2jsonHandler : ActionHandler World.
Variable clock : nat -> Z.

Let execute := executeWorkflow httpGetHandler xml2jsonHandler clock.

(** X27: under a clock that never goes back, the durations a result shows are
    consistent: no node record has a negative duration, and the durations
    of all the records together do not exceed the running time of the
    workflow. *)
Theorem durations_fit_in_the_running_time
    (workflow : WorkflowDefinition) (query : string) (w : World)
    (res : ExecutionResult.t) (r : Run World) :
  monotone clock ->
  execute workflow query w = Returned res r ->
  Forall (fun rec => 0 <= NodeExecution.durationMs rec)
    (ExecutionResult.nodeExecutions res)
  /\ spent (ExecutionResult.nodeExecutions res)
     <= ExecutionResult.executionTimeMs res
  /\ 0 <= ExecutionResult.executionTimeMs res.
Proof.
  intros Hclock Hrun.
  assert (Hfit : Forall (fun rec => 0 <= NodeExecution.durationMs rec)
                   (ExecutionResult.nodeExecutions res)
                 /\ spent (ExecutionResult.nodeExecutions res)
                    <= ExecutionResult.executionTimeMs res).
  { unfold execute, executeWorkflow in Hrun.
    cbn [now pushLog timestamp logs nodeExecutions context world ticks effects]
      in Hrun.
    destruct (0 <? List.length (cycles (topoSort (nodes workflow))))%nat.
    - injection Hrun as <- _. cbn. split; [constructor|].
      pose proof (Hclock 0%nat 3%nat). lia.
    - match type of Hrun with
      | runNodes _ _ _ ?nm _ ?st ?todo ?r0 = _ =>
          pose proof (@runNodes_timed World clock Hclock st httpGetHandler
                        xml2jsonHandler nm query todo r0) as H
      end.
      rewrite Hrun in H. apply H. unfold timed. cbn. split; [lia|].
      split; [constructor|]. pose proof (Hclock 0%nat 2%nat). lia. }
  destruct Hfit as [Hpos Hsum]. split; [exact Hpos|]. split; [exact Hsum|].
  assert (H0 : 0 <= spent (ExecutionResult.nodeExecutions res)).
  { clear Hsum. unfold spent.
    induction Hpos as [|rec recs Hrec _ IH]; cbn [fold_right]; lia. }
  lia.
Qed.

End Whole.

End TimeFacts.

(** ** The theorems at concrete workflows *)

Module Witnesses.
Import Graph Topo Demo.

Lemma cycle_aborts_witness :
  hasCycle (nodes deadlock)
  /\ cycles (topoSort (nodes deadlock)) = ["x"; "y"]
  /\ exists res r,
       executeWorkflow Demo.down Demo.down (Demo.every 1) deadlock "q" O
         = Returned res r
       /\ ExecutionResult.error res = Some "Cycle detected: x, y"
       /\ effects r = [].
Proof.
  assert (H : hasCycle (nodes deadlock)).
  { exists "x". apply t_trans with "y"; apply t_step.
    - exists (Demo.pass "x" (Some ["y"]) None). simpl. auto.
    - exists (Demo.pass "y" (Some ["x"]) None). simpl. auto. }
  split; [exact H|]. split; [reflexivity|].
  assert (Hown : exists x, onCycle (nodes deadlock) x /\ inherited x = false).
  { destruct H as [x Hx]. exists "x". split; [|reflexivity].
    apply t_trans with "y"; apply t_step.
    - exists (Demo.pass "x" (Some ["y"]) None). simpl. auto.
    - exists (Demo.pass "y" (Some ["x"]) None). simpl. auto. }
  destruct (@CycleFacts.cycle_aborts_before_execution
              nat Demo.down Demo.down (Demo.every 1) deadlock "q" O Hown)
    as (_ & _ & res & r & Hrun & _ & Herr & _ & _ & Heff & _).
  exists res, r. split; [exact Hrun|]. split; [exact Herr | exact Heff].
Defined.

Lemma unresolved_dependency_witness :
  In "ghost" (order (topoSort (nodes dangling)))
  /\ ~ In "ghost" (cycles (topoSort (nodes dangling)))
  /\ In "b" (order (topoSort (nodes dangling)))
  /\ ~ In "b" (cycles (topoSort (nodes dangling))).
Proof.
  assert (Hn : In (Demo.pass "b" (Some ["ghost"]) None) (nodes dangling))
    by (simpl; auto).
  assert (Hg : In "ghost" (deps (Demo.pass "b" (Some ["ghost"]) None)))
    by (simpl; auto).
  assert (Hno : ~ In "ghost" (ids (nodes dangling))).
  { simpl. intros [H|[]]. discriminate. }
  destruct (@AbortFacts.unresolved_dependency_is_skipped
              nat Demo.down Demo.down (Demo.every 1) dangling "q" 0
              (Demo.pass "b" (Some ["ghost"]) None) "ghost"
              {| logs := []; nodeExecutions := []; context := []; world := O;
                 ticks := O; effects := [] |} Hn Hg Hno eq_refl)
    as (Hin & Hout & _ & Hnode).
  destruct Hnode as [Hrun Hrep].
  { simpl. repeat constructor. simpl. tauto. }
  { simpl. repeat constructor. simpl. tauto. }
  { reflexivity. }
  split; [exact Hin|]. split; [exact Hout|]. split.
  - apply Hrun. simpl. intros d [<-|[]] Hd. now elim Hd.
  - intros Hb. apply Hrep in Hb. simpl in Hb.
    destruct Hb as (d & [<-|[]] & Hd & _). now elim Hd.
Defined.


Lemma retry_policy_witness :
  (exists r',
     runNode (Demo.flaky 2 body) Demo.down (Demo.every 1)
       [("fetch", fetch (Some patient) None)] "q" 0 "fetch" fresh = Continue r'
     /\ effects r' = [fetchCall; Slept 250; fetchCall; Slept 250; fetchCall]
     /\ map NodeExecution.status (nodeExecutions r') = [StatusSuccess])
  /\ (exists res r',
        runNode (Demo.flaky 2 body) Demo.down (Demo.every 1)
          [("fetch", fetch (Some hasty) None)] "q" 0 "fetch" fresh
          = Returned res r'
        /\ ExecutionResult.success res = false
        /\ effects r' = [fetchCall; Slept 250; fetchCall])
  /\ (exists r',
        (runNode (Demo.flaky 2 body) Demo.down (Demo.every 1)
           [("fetch", fetch None None)] "q" 0 "fetch" fresh = Continue r'
         \/ exists res,
              runNode (Demo.flaky 2 body) Demo.down (Demo.every 1)
                [("fetch", fetch None None)] "q" 0 "fetch" fresh
                = Returned res r')
        /\ effects r' = [fetchCall]).
Proof.
  split; [|split].
  - destruct (@RetryFacts.retry_policy_decides nat (Demo.flaky 2 body) Demo.down
                (Demo.every 1) [("fetch", fetch (Some patient) None)] "q" 0
                "fetch" (fetch (Some patient) None) (Demo.flaky 2 body)
                fetchInput fetchInput fresh
                eq_refl eq_refl eq_refl eq_refl) as [H _].
    destruct (H 250 "unavailable" "unavailable" body 1%nat 2%nat 3%nat
                eq_refl eq_refl eq_refl eq_refl eq_refl)
      as (r' & news & Hrun & Heff & _ & _ & Hrec & _).
    exists r'. split; [exact Hrun|]. split; [exact Heff|].
    rewrite Hrec. reflexivity.
  - destruct (@RetryFacts.retry_policy_decides nat (Demo.flaky 2 body) Demo.down
                (Demo.every 1) [("fetch", fetch (Some hasty) None)] "q" 0
                "fetch" (fetch (Some hasty) None) (Demo.flaky 2 body)
                fetchInput fetchInput fresh
                eq_refl eq_refl eq_refl eq_refl) as (_ & H & _).
    destruct (H 250 "unavailable" "unavailable" 1%nat 2%nat
                eq_refl eq_refl eq_refl)
      as (res & r' & news & Hrun & Hsucc & _ & Heff & _).
    exists res, r'. auto.
  - destruct (@RetryFacts.retry_policy_decides nat (Demo.flaky 2 body) Demo.down
                (Demo.every 1) [("fetch", fetch None None)] "q" 0
                "fetch" (fetch None None) (Demo.flaky 2 body)
                fetchInput fetchInput fresh
                eq_refl eq_refl eq_refl eq_refl) as (_ & _ & H).
    exact (H eq_refl).
Defined.

Lemma overrun_witness :
  attempts (Demo.every 100) 2 1 (Demo.flaky 0 body) "fetch"
    (fetch (Some hasty) (Some 10)) fetchInput 2 250 EmptyString fresh
  = attempts (Demo.every 100) 1 2 (Demo.flaky 0 body) "fetch"
      (fetch (Some hasty) (Some 10)) fetchInput 2 250
      "Timeout exceeded: 100ms > 10ms"
      (caught (Demo.every 100) "fetch" 1 2 250 "Timeout exceeded: 100ms > 10ms"
         (Rounds.settled fresh 1%nat fetchCall 2)).
Proof.
  assert (Hover : Demo.every 100 (S (ticks fresh)) - Demo.every 100 (ticks fresh) > 10)
    by reflexivity.
  assert (Hnz : 10 <> 0) by discriminate.
  exact (proj1 (@TimeoutFacts.overrun_counts_as_failure nat (Demo.every 100)
                  1%nat 1 2 250 10 (Demo.flaky 0 body) "fetch"
                  (fetch (Some hasty) (Some 10)) fetchInput body EmptyString
                  fresh 1%nat eq_refl Hnz eq_refl Hover)).
Defined.

Lemma jq_rules_witness :
  jqSingle body ".body.total" = Throw "field not found: total"
  /\ jqSingle body ".body.items[7]" = Ok VNull
  /\ jqSingle body ".status[0]" = Ok VNull
  /\ jqSingle body ".body.rows[0]" = Throw "field not found: rows".
Proof.
  destruct JqFacts.jq_samples_and_path_rules
    as (_ & _ & _ & _ & _ & Hfield & Hindex).
  assert (Hplain : forall toks,
            In toks [["body"; "total"]; ["body"; "items[7]"]; ["status[0]"];
                     ["body"; "rows[0]"]] ->
            Forall (fun t => Str.includes "." t = false) toks).
  { intros toks H. simpl in H.
    destruct H as [<-|[<-|[<-|[<-|[]]]]]; repeat constructor. }
  assert (Hdigit : forall ds, ds = "7" \/ ds = "0" -> ds <> EmptyString).
  { intros ds [->| ->]; discriminate. }
  split; [|split; [|split]].
  - exact (Hfield body ["body"] "total" []
             (VObj [("items", VArr [VNum 10; VNum 20])])
             (Hplain _ (or_introl eq_refl)) eq_refl
             (fun H : "total" = EmptyString => eq_ind "total"
                (fun s => match s with EmptyString => False | _ => True end)
                I _ H)
             eq_refl eq_refl).
  - destruct (Hindex body ["body"] "items" "7" []
                (VObj [("items", VArr [VNum 10; VNum 20])])
                (Hplain _ (or_intror (or_introl eq_refl))) eq_refl eq_refl
                (Hdigit _ (or_introl eq_refl)) eq_refl) as [_ H].
    apply (H (VArr [VNum 10; VNum 20]) eq_refl).
    intros items Hitems. injection Hitems as <-. vm_compute. discriminate.
  - destruct (Hindex body [] "status" "0" [] body
                (Hplain _ (or_intror (or_intror (or_introl eq_refl))))
                eq_refl eq_refl (Hdigit _ (or_intror eq_refl)) eq_refl) as [_ H].
    apply (H (VNum 200) eq_refl). intros items Hitems. discriminate Hitems.
  - destruct (Hindex body ["body"] "rows" "0" []
                (VObj [("items", VArr [VNum 10; VNum 20])])
                (Hplain _ (or_intror (or_intror (or_intror (or_introl eq_refl)))))
                eq_refl eq_refl (Hdigit _ (or_intror eq_refl)) eq_refl) as [H _].
    apply H. split; [discriminate | reflexivity].
Defined.


Lemma terminal_record_witness :
  (exists res r' rec,
     runNode Demo.down Demo.down (Demo.every 40) [("send", unknownAction)] "q" 0
       "send" fresh = Returned res r'
     /\ ExecutionResult.nodeExecutions res = [rec]
     /\ NodeExecution.durationMs rec = 0
     /\ NodeExecution.error rec = Some "Action not implemented: plugin.mail.send")
  /\ (exists res r' rec,
        runNode Demo.counting Demo.down (Demo.every 40)
          [("fetch", fetch (Some hasty) None)] "q" 0 "fetch" fresh
        = Returned res r'
        /\ ExecutionResult.nodeExecutions res = [rec]
        /\ NodeExecution.durationMs rec = 0
        /\ NodeExecution.error rec = Some "call 1").
Proof.
  split.
  - assert (Hrun : exists res r',
              runNode Demo.down Demo.down (Demo.every 40) [("send", unknownAction)]
                "q" 0 "send" fresh = Returned res r').
    { eexists. eexists. vm_compute. reflexivity. }
    destruct Hrun as (res & r' & Hrun).
    destruct (@TerminalFacts.terminal_record_has_zero_duration nat Demo.down
                Demo.down (Demo.every 40) [("send", unknownAction)] "q" 0 "send"
                fresh r' res Hrun)
      as (node & rec & err & Hget & Hrecs & _ & _ & _ & Hzero & Herr & _ & _ & Hwhy).
    exists res, r', rec. split; [exact Hrun|]. split; [exact Hrecs|].
    split; [exact Hzero|]. rewrite Herr. f_equal.
    injection Hget as <-.
    destruct Hwhy as [[_ ->]|[(s & Hs & Hr)|(h & s & i & Hh & _)]].
    + reflexivity.
    + vm_compute in Hs. injection Hs as <-. vm_compute in Hr. discriminate Hr.
    + vm_compute in Hh. discriminate Hh.
  - assert (Hrun : exists res r',
              runNode Demo.counting Demo.down (Demo.every 40)
                [("fetch", fetch (Some hasty) None)] "q" 0 "fetch" fresh
              = Returned res r').
    { eexists. eexists. vm_compute. reflexivity. }
    destruct Hrun as (res & r' & Hrun).
    destruct (@TerminalFacts.terminal_record_has_zero_duration nat Demo.counting
                Demo.down (Demo.every 40) [("fetch", fetch (Some hasty) None)]
                "q" 0 "fetch" fresh r' res Hrun)
      as (node & rec & err & Hget & Hrecs & _ & _ & _ & Hzero & Herr & _ & _ & Hwhy).
    exists res, r', rec. split; [exact Hrun|]. split; [exact Hrecs|].
    split; [exact Hzero|]. rewrite Herr. f_equal.
    injection Hget as <-.
    destruct Hwhy as [[Hnone _]|[(s & Hs & Hr)|(h & s & i & Hh & Hs & Hi & Hlast)]].
    + discriminate Hnone.
    + vm_compute in Hs. injection Hs as <-. vm_compute in Hr. discriminate Hr.
    + injection Hh as <-.
      vm_compute in Hs. injection Hs as <-.
      vm_compute in Hi. injection Hi as <-.
      cbv zeta in Hlast.
      destruct Hlast as [(_ & rl & Hreach & Hfail)|[Hlimit _]];
        [|cbn in Hlimit; lia].
      apply TerminalFacts.reaches_step in Hreach; [|cbn; lia].
      apply TerminalFacts.reaches_same in Hreach. subst rl.
      vm_compute in Hfail. exact Hfail.
Defined.

Lemma diamond_depends x y :
  depends diamond x y ->
  (x = "b" /\ y = "a") \/ (x = "c" /\ y = "a")
  \/ (x = "d" /\ y = "b") \/ (x = "d" /\ y = "c").
Proof.
  intros (n & Hn & Hid & Hd). simpl in Hn.
  destruct Hn as [<-|[<-|[<-|[<-|[]]]]]; simpl in Hd, Hid; subst x.
  - destruct Hd.
  - destruct Hd as [<-|[]]. auto.
  - destruct Hd as [<-|[]]. auto.
  - destruct Hd as [<-|[<-|[]]]; auto.
Qed.

Lemma diamond_well_formed :
  properIds diamond
  /\ NoDup (ids diamond) /\ closed diamond /\ simple diamond /\ acyclic diamond.
Proof.
  split; [|split; [|split; [|split]]].
  - intros n Hn. simpl in Hn.
    destruct Hn as [<-|[<-|[<-|[<-|[]]]]]; reflexivity.
  - simpl. repeat constructor; simpl; intuition discriminate.
  - intros n d Hn Hd.
    destruct (@diamond_depends (id n) d) as [[_ ->]|[[_ ->]|[[_ ->]|[_ ->]]]];
      [exists n; auto | | | |]; simpl; auto.
  - intros n Hn. simpl in Hn.
    destruct Hn as [<-|[<-|[<-|[<-|[]]]]]; simpl;
      repeat constructor; simpl; intuition discriminate.
  - apply CycleFacts.rank_acyclic
      with (rank := fun x => if String.eqb x "a" then 0%nat
                             else if String.eqb x "d" then 2%nat else 1%nat).
    intros x y H.
    destruct (diamond_depends H) as [[-> ->]|[[-> ->]|[[-> ->]|[-> ->]]]];
      simpl; lia.
Qed.

Lemma topoSort_acyclic_witness :
  cycles (topoSort diamond) = []
  /\ Permutation (order (topoSort diamond)) ["a"; "b"; "c"; "d"]
  /\ precedes (order (topoSort diamond)) "c" "d".
Proof.
  destruct diamond_well_formed as (Hown & Hids & Hclosed & Hsimple & Hacyc).
  destruct (TopoFacts.topoSort_acyclic Hown Hids Hclosed Hsimple Hacyc)
    as (Hc & _ & Hperm & Hbefore).
  split; [exact Hc|]. split; [exact Hperm|].
  apply (Hbefore (Demo.pass "d" (Some ["b"; "c"]) None) "c"); simpl; auto.
Defined.

Lemma topoSort_sources_witness :
  exists rest,
    order (topoSort [Demo.pass "late" (Some ["y"]) None; Demo.pass "y" None None;
                     Demo.pass "x" None None])
    = ["y"; "x"] ++ rest.
Proof.
  apply (@TopoFacts.topoSort_sources_first
           [Demo.pass "late" (Some ["y"]) None; Demo.pass "y" None None;
            Demo.pass "x" None None]).
  - intros n Hn. simpl in Hn. destruct Hn as [<-|[<-|[<-|[]]]]; reflexivity.
  - intros n Hn. simpl in Hn. destruct Hn as [<-|[<-|[<-|[]]]]; reflexivity.
  - simpl. repeat constructor; simpl; intuition discriminate.
  - intros n d Hn Hd. simpl in Hn.
    destruct Hn as [<-|[<-|[<-|[]]]]; simpl in Hd.
    + destruct Hd as [<-|[]]. simpl. auto.
    + destruct Hd.
    + destruct Hd.
Defined.

Lemma structured_result_witness :
  exists res r,
    executeWorkflow down down (every 1) timed "q" O = Returned res r.
Proof.
  apply (@AbortFacts.structured_result_when_templates_parse nat down down
           (every 1) timed "q" O).
  intros n Hn. simpl in Hn. destruct Hn as [<-|[]].
  eexists. vm_compute. reflexivity.
Defined.

(** An action named like a member of [Object.prototype] has a handler: the
    node [n] with the action [toString] succeeds at the first attempt, and
    its output is the text that names the missing receiver. *)
Example inherited_action_runs :
  exists r',
    runNode down down (every 1)
      [("n", node "n" "toString" (VObj []) None None None)] "q" 0 "n" fresh
    = Continue r'
    /\ context r' = [("n", VStr "[object Undefined]")]
    /\ map NodeExecution.status (nodeExecutions r') = [StatusSuccess]
    /\ world r' = O.
Proof. eexists. split; [vm_compute; reflexivity|]. repeat split. Qed.

(** The end-to-end scenario: the input of the second node is resolved
    from the output of the first before its handler is invoked. *)
Example scenario_resolves_reference :
  exists res r,
    executeWorkflow (flaky 0 fetched) (flaky 0 (VObj [("json", VNull)]))
      (every 1) scenario "q" O = Returned res r
    /\ ExecutionResult.success res = true
    /\ map NodeExecution.nodeId (ExecutionResult.nodeExecutions res)
         = ["fetch"; "use"]
    /\ map NodeExecution.inputData (ExecutionResult.nodeExecutions res)
         = [Some (VObj [("url", VStr "http://example/q")]);
            Some (VObj [("v", VStr "x")])]
    /\ effects r
         = [Invoked "plugin.http.get" "fetch" (VObj [("url", VStr "http://example/q")]);
            Invoked "plugin.transform.xml2json" "use" (VObj [("v", VStr "x")])].
Proof.
  eexists. eexists. split; [vm_compute; reflexivity|]. repeat split.
Qed.

Lemma text_after_index_witness :
  jqSingle (VObj [("a", VArr [VArr [VNum 1; VNum 2]])]) ".a[0][1]"
  = jqSingle (VObj [("a", VArr [VArr [VNum 1; VNum 2]])]) ".a[0]".
Proof.
  assert (Hplain : Forall (fun t => Str.includes "." t = false)
                     ([] ++ ("a" +++ "[" +++ "0" +++ "]" +++ "[1]") :: []))
    by (repeat constructor).
  assert (Hds : "0" <> EmptyString) by discriminate.
  exact (@JqMore.text_after_index_is_ignored
           (VObj [("a", VArr [VArr [VNum 1; VNum 2]])]) [] "a" "0" "[1]" []
           Hplain eq_refl Hds eq_refl).
Defined.

Lemma to_entries_witness :
  jqEval (VObj [("x", VNum 1); ("y", VNum 2)]) "to_entries | .[1].key"
    = Ok (VStr "y")
  /\ jqEval (VObj [("x", VNum 1); ("y", VNum 2)]) "keys | .[1]" = Ok (VStr "y").
Proof.
  assert (Hds : "1" <> EmptyString) by discriminate.
  destruct (@JqMore.to_entries_enumerates [("x", VNum 1); ("y", VNum 2)] "1"
              Hds eq_refl) as (Hkey & _ & Hkeys & _).
  split; [exact Hkey | exact Hkeys].
Defined.

Lemma handler_order_witness :
  (exists i, (i < 1)%nat
     /\ Trace.invokedAt
          (effects (Trace.stateOf
             (executeWorkflow Demo.down Demo.down (Demo.every 1)
                Sample.chain "q" O))) i "a")
  /\ Trace.succeeded
       (nodeExecutions (Trace.stateOf
          (executeWorkflow Demo.down Demo.down (Demo.every 1)
             Sample.chain "q" O))) "a".
Proof.
  apply (@EngineFacts.handler_runs_after_dependencies nat Demo.down Demo.down
           (Demo.every 1) Sample.chain "q" O 1%nat "b" "a").
  - exists "plugin.transform.jq", (VObj [("data", VNum 1); ("expression", VStr ".")]).
    reflexivity.
  - exists (Demo.pass "b" (Some ["a"]) None). simpl. auto.
  - simpl. auto.
Defined.

Lemma success_witness :
  exists res r,
    executeWorkflow Demo.down Demo.down (Demo.every 1) Sample.chain "q" O
      = Returned res r
    /\ NoDup (map NodeExecution.nodeId (ExecutionResult.nodeExecutions res))
    /\ precedes (map NodeExecution.nodeId (ExecutionResult.nodeExecutions res))
         "a" "b".
Proof.
  destruct (executeWorkflow Demo.down Demo.down (Demo.every 1) Sample.chain "q" O)
    as [r|res r|msg r|r] eqn:Hrun; try (vm_compute in Hrun; discriminate).
  assert (Hok : ExecutionResult.success res = true).
  { vm_compute in Hrun. injection Hrun as <- _. reflexivity. }
  destruct (@EngineFacts.success_means_every_node_ran_once nat Demo.down Demo.down
              (Demo.every 1) Sample.chain "q" O res r Hrun Hok)
    as (_ & _ & Hnd & _ & Hbefore).
  exists res, r. split; [reflexivity|]. split; [exact Hnd|].
  apply Hbefore.
  - exists (Demo.pass "b" (Some ["a"]) None). simpl. auto.
  - simpl. auto.
  - reflexivity.
Defined.

Lemma failure_witness :
  exists res r,
    executeWorkflow Demo.down Demo.down (Demo.every 1) Demo.scenario "q" O
      = Returned res r
    /\ exists oks rec err,
         ExecutionResult.nodeExecutions res = oks ++ [rec]
         /\ NodeExecution.status rec = StatusError
         /\ NodeExecution.error rec = Some err
         /\ ExecutionResult.error res = Some err.
Proof.
  destruct (executeWorkflow Demo.down Demo.down (Demo.every 1) Demo.scenario "q" O)
    as [r|res r|msg r|r] eqn:Hrun; try (vm_compute in Hrun; discriminate).
  assert (Hko : ExecutionResult.success res = false).
  { vm_compute in Hrun. injection Hrun as <- _. reflexivity. }
  destruct (@EngineFacts.failure_keeps_the_successes_and_one_error nat Demo.down
              Demo.down (Demo.every 1) Demo.scenario "q" O res r Hrun Hko)
    as [(Hcyc & _)|(oks & rec & err & Hrec & _ & Hst & _ & He & Herr)].
  - elim Hcyc. reflexivity.
  - exists res, r. split; [reflexivity|]. exists oks, rec, err. auto.
Defined.

Lemma retries_witness :
  exists k,
    effects (Trace.stateOf
       (runNode (Demo.flaky 2 body) Demo.down (Demo.every 1)
          [("fetch", fetch (Some hasty) None)] "q" 0 "fetch" fresh))
      = Trace.rounds fetchCall 250 k
    /\ Z.of_nat k <= 2.
Proof.
  destruct (@EngineFacts.retries_are_bounded_and_spaced nat (Demo.flaky 2 body)
              Demo.down (Demo.every 1) [("fetch", fetch (Some hasty) None)] "q" 0
              "fetch" (fetch (Some hasty) None) (Demo.flaky 2 body)
              fetchInput fetchInput fresh eq_refl eq_refl eq_refl eq_refl)
    as (k & Heff & Hk & _).
  exists k. split; [exact Heff | exact Hk].
Defined.

Lemma no_attempt_witness :
  exists res r',
    runNode Demo.down Demo.down (Demo.every 1) [("fetch", Sample.idle)] "q" 0
      "fetch" fresh = Returned res r'
    /\ ExecutionResult.error res = Some EmptyString
    /\ effects r' = [].
Proof.
  assert (Hnone : maxAttempts {| maxAttempts := 0; backoffMs := 250 |} <= 0)
    by (simpl; lia).
  destruct (@EngineFacts.no_attempt_without_positive_maxAttempts nat Demo.down
              Demo.down (Demo.every 1) [("fetch", Sample.idle)] "q" 0 "fetch"
              Sample.idle Demo.down fetchInput fetchInput
              {| maxAttempts := 0; backoffMs := 250 |} fresh
              eq_refl eq_refl eq_refl eq_refl eq_refl Hnone)
    as (res & r' & Hrun & _ & Herr & _ & Heff & _).
  exists res, r'. split; [exact Hrun|]. split; [exact Herr | exact Heff].
Defined.

Lemma whole_output_witness :
  resolveRef "$.nodes.fetch.output" [("fetch", body)]
  = Throw "Unsupported $ref path: $.nodes.fetch.output".
Proof.
  exact (@RefMore.whole_output_is_not_referable [("fetch", body)] "fetch" eq_refl).
Defined.

Lemma index_text_witness :
  resolveRef "$.nodes.fetch.output.items[x]"
    [("fetch", VObj [("items", VArr [VNum 10; VNum 20])])]
  = Ok VUndefined.
Proof.
  assert (Hf : "items" <> EmptyString) by discriminate.
  exact (@RefMore.index_text_goes_through_parseInt
           [("fetch", VObj [("items", VArr [VNum 10; VNum 20])])]
           "fetch" "items" "x" (VObj [("items", VArr [VNum 10; VNum 20])])
           [VNum 10; VNum 20]
           eq_refl Hf eq_refl eq_refl eq_refl eq_refl eq_refl eq_refl eq_refl).
Defined.

Lemma tame_query_witness :
  substituteQuery (VObj [("q", VStr "a {query} b"); ("n", VNum 5)]) "x$&y$$z"
  = Normal (VObj [("q", VStr "a x{query}y$z b"); ("n", VNum 5)]).
Proof.
  exact (@ReplaceFacts.tame_query_fills_every_string
           (VObj [("q", VStr "a {query} b"); ("n", VNum 5)]) "x$&y$$z"
           eq_refl eq_refl).
Defined.

Lemma kept_template_witness :
  substituteQuery (VObj [("data", VNum 1); ("expression", VStr ".")]) quoteQuery
  = Normal (VObj [("data", VNum 1); ("expression", VStr ".")]).
Proof.
  exact (@ReplaceFacts.template_without_placeholder_is_kept
           (VObj [("data", VNum 1); ("expression", VStr ".")]) quoteQuery
           eq_refl eq_refl eq_refl).
Defined.

Lemma kept_input_witness : resolveInput fetchInput [] = Ok fetchInput.
Proof.
  exact (@InputFacts.input_without_references_is_kept fetchInput []
           eq_refl eq_refl eq_refl eq_refl).
Defined.

Lemma drawing_order_witness :
  map id (Dag.topoOrder diamond) = order (topoSort diamond).
Proof.
  exact (@DagFacts.drawing_matches_execution_order diamond
           (proj1 (proj2 (proj2 diamond_well_formed)))).
Defined.

Lemma registry_witness :
  (exists entry,
     Obj.get "plugin.transform.jq" Catalog.REGISTRY = Some entry
     /\ Registry.meets (Catalog.Entry.outputSchema entry)
          (VObj [("result", VNum 1)]) = true)
  /\ Obj.get "toString" Catalog.REGISTRY = None.
Proof.
  split.
  - destruct (@PluginFacts.handlers_meet_the_registry nat string Sample.parseURL
                Sample.setParam Sample.href Sample.network Sample.parseXML
                "plugin.transform.jq" (jqHandler (World := nat)) eq_refl)
      as [(Hinh & _)|(entry & Hget & Hall)]; [discriminate Hinh|].
    exists entry. split; [exact Hget|].
    exact (proj1 (Hall (Demo.pass "a" None None)
                    (VObj [("data", VNum 1); ("expression", VStr ".")]) O
                    (VObj [("result", VNum 1)]) O eq_refl)).
  - destruct (@PluginFacts.handlers_meet_the_registry nat string Sample.parseURL
                Sample.setParam Sample.href Sample.network Sample.parseXML
                "toString" (inheritedHandler (World := nat) "toString") eq_refl)
      as [(_ & Hnone & _)|(entry & Hget & _)]; [exact Hnone | discriminate Hget].
Defined.

Lemma empty_url_witness :
  exists res r',
    runNode Sample.http Sample.xml (Demo.every 1) [("fetch", Sample.blank)] "q" 0
      "fetch" fresh = Returned res r'
    /\ ExecutionResult.error res = Some "'url' must be a non-empty string"
    /\ world r' = O
    /\ effects r'
       = [Invoked "plugin.http.get" "fetch" (VObj [("url", VStr EmptyString)]);
          Slept 250;
          Invoked "plugin.http.get" "fetch" (VObj [("url", VStr EmptyString)])].
Proof.
  assert (Hlimit : 1 <= 2) by lia.
  destruct (@PluginFacts.empty_url_never_reaches_the_network nat string
              Sample.parseURL Sample.setParam Sample.href Sample.network
              Sample.parseXML (Demo.every 1) [("fetch", Sample.blank)] "q" 0
              "fetch" Sample.blank (VObj [("url", VStr EmptyString)])
              (VObj [("url", VStr EmptyString)]) (VStr EmptyString) fresh
              eq_refl eq_refl eq_refl eq_refl eq_refl eq_refl Hlimit)
    as (res & r' & Hrun & _ & Herr & Hw & Heff).
  exists res, r'. split; [exact Hrun|]. split; [exact Herr|].
  split; [exact Hw | exact Heff].
Defined.

Lemma checked_request_witness :
  POST Sample.parseURL Sample.setParam Sample.href Sample.network Sample.parseXML
    (Demo.every 1) (Ok (VObj [("workflowName", VStr "book_search")])) O
  = (Replied {| Response.status := 400;
                Response.body := ErrorBody "Missing workflowName or query" |},
     O, []).
Proof.
  exact (proj1 (@RouteFacts.request_is_checked_before_running nat string
                  Sample.parseURL Sample.setParam Sample.href Sample.network
                  Sample.parseXML (Demo.every 1)
                  (VObj [("workflowName", VStr "book_search")])
                  (VStr "book_search") VUndefined O eq_refl) eq_refl).
Defined.

Lemma catalog_witness :
  exists res r,
    POST Sample.parseURL Sample.setParam Sample.href Sample.network Sample.parseXML
      (Demo.every 1)
      (Ok (VObj [("workflowName", VStr "book_search"); ("query", VStr "dune")])) O
    = (Replied {| Response.status := 200; Response.body := ResultBody res |},
       world r, effects r).
Proof.
  assert (Hq : "dune" <> EmptyString) by discriminate.
  destruct (@RouteFacts.catalog_answers_plain_queries nat string Sample.parseURL
              Sample.setParam Sample.href Sample.network Sample.parseXML
              (Demo.every 1) "book_search" "dune" Catalog.book_search O
              eq_refl eq_refl Hq)
    as ((res & r & _ & Hpost) & _ & _ & _).
  exists res, r. exact Hpost.
Defined.

Lemma added_property_witness :
  substituteQuery (VObj [("url", VStr "http://example/{query}")])
    (String JSON.dquote "," +++ String JSON.dquote "url" +++ String JSON.dquote ":"
     +++ String JSON.dquote "http://elsewhere")
  = Normal (VObj [("url", VStr "http://elsewhere")]).
Proof.
  exact (proj1 (@QuoteFacts.quote_in_query_adds_a_property [] [] "url"
                  "http://example/" EmptyString "url" "http://elsewhere"
                  eq_refl eq_refl eq_refl eq_refl eq_refl eq_refl eq_refl
                  eq_refl eq_refl eq_refl eq_refl)).
Defined.
Lemma ledger_witness :
  exists res r,
    executeWorkflow Demo.down Demo.down (Demo.every 1) Sample.chain "q" O
      = Returned res r
    /\ context r = Ledger.contextOf (ExecutionResult.nodeExecutions res)
    /\ context r = [("a", VObj [("result", VNum 1)]);
                   ("b", VObj [("result", VNum 1)])].
Proof.
  destruct (executeWorkflow Demo.down Demo.down (Demo.every 1) Sample.chain "q" O)
    as [r|res r|msg r|r] eqn:Hrun; try (vm_compute in Hrun; discriminate).
  exists res, r. split; [reflexivity|]. split.
  - exact (proj1 (@LedgerFacts.records_account_for_the_data_flow nat Demo.down
                    Demo.down (Demo.every 1) Sample.chain "q" O res r Hrun)).
  - vm_compute in Hrun. injection Hrun as _ <-. reflexivity.
Defined.

Lemma redirect_witness :
  exists reply w' rest,
    POST Sample.parseURL Sample.setParam Sample.href Sample.network Sample.parseXML
      (Demo.every 1)
      (Ok (VObj [("workflowName", VStr "book_search");
                 ("query",
                  VStr ("x" +++ String JSON.dquote "}," +++ String JSON.dquote "url"
                        +++ String JSON.dquote ":"
                        +++ String JSON.dquote "http://elsewhere"
                        +++ String JSON.dquote "," +++ String JSON.dquote "p"
                        +++ String JSON.dquote ":{" +++ String JSON.dquote "a"
                        +++ String JSON.dquote ":"
                        +++ String JSON.dquote EmptyString))])) O
    = (reply, w',
       Invoked "plugin.http.get" "search_books"
         (VObj [("url", VStr "http://elsewhere");
                ("params", VObj [("q", VStr "x")]);
                ("p", VObj [("a", VStr EmptyString); ("limit", VNum 5);
                            ("fields",
                             VStr "key,title,author_name,first_publish_year,subject,cover_i")]);
                ("headers", VObj [Catalog.userAgent])]) :: rest).
Proof.
  exact (proj1 (@RedirectFacts.query_can_redirect_the_request nat string
                  Sample.parseURL Sample.setParam Sample.href Sample.network
                  Sample.parseXML (Demo.every 1) "http://elsewhere" O
                  eq_refl eq_refl)).
Defined.

Lemma durations_witness :
  exists res r,
    executeWorkflow Demo.down Demo.down (Demo.every 1) Sample.chain "q" O
      = Returned res r
    /\ Ledger.spent (ExecutionResult.nodeExecutions res)
       <= ExecutionResult.executionTimeMs res.
Proof.
  assert (Hclock : Ledger.monotone (Demo.every 1)).
  { intros i j Hij. unfold Demo.every. lia. }
  destruct (executeWorkflow Demo.down Demo.down (Demo.every 1) Sample.chain "q" O)
    as [r|res r|msg r|r] eqn:Hrun; try (vm_compute in Hrun; discriminate).
  exists res, r. split; [reflexivity|].
  exact (proj1 (proj2 (@TimeFacts.durations_fit_in_the_running_time nat Demo.down
                         Demo.down (Demo.every 1) Sample.chain "q" O res r
                         Hclock Hrun))).
Defined.

End Witnesses.

